(** * block2: label algebra, arena allocator, state tables and symbolic
    operators of [quantum.hpp], embedded and verified.

    The development follows the layout of [src/quantum.hpp]:
    - [Alloc]  : [StackAllocator] (lines 75-112);
    - [Label]  : [SpinLabel] packed 32-bit labels (lines 600-702);
    - [CG]     : selection rules of the Wigner symbols (lines 428-549);
    - [Expr]   : [OpExpr] and its scalar and additive operators (704-979);
    - [State]  : [StateInfo] (lines 1223-1365);
    - [Sparse] : [SparseMatrixInfo], [SparseMatrix] (lines 1367-1514);
    - [OpFun]  : [OperatorFunctions] guards (lines 1574-1651);
    - [QC]     : operator names built by [QCMPO] (lines 2684-2759).
    - [Parsing]: [split], [trim], [join] (lines 155-208);
    - [Ints], [FCIDUMP] : integral tables and their layout (219-372);
    - [SZ]     : [SZLabel] (lines 551-598);
    - [MPS]    : the [MPSInfo] constructor (lines 1724-1753).

    Unsigned machine integers are [Z] with the wrap-around written out,
    [double] is the kernel's binary64 [float], and every abort path of the
    source ([print_trace], [assert]) is a constructor of [outcome]. *)

From Stdlib Require Import ZArith Lia List Bool Floats.
From Stdlib Require Ascii.
From stdpp Require Import base list sorting.
From coqutil Require Import Z.bitblast.

Set Default Proof Using "Type".
(* Decimal literals such as 1e-20 denote the nearest binary64 value, as
   they do in the source. *)
Set Warnings "-inexact-float".

(** Arithmetic with division and remainder by literals. *)
Ltac zdm := Z.div_mod_to_equations; lia.

(** ** Outcomes of calls that can abort *)

Inductive diagnostic : Type :=
| ExceedingAllowedMemory      (* "exceeding allowed memory" + print_trace *)
| DeallocNotReverse           (* "deallocation not happening in reverse order" *)
| AssertionFailed.            (* a failed [assert] *)

Inductive outcome (A : Type) : Type :=
| Done (a : A)
| Abort (d : diagnostic).

Arguments Done {A} a.
Arguments Abort {A} d.

Definition obind {A B} (x : outcome A) (k : A -> outcome B) : outcome B :=
  match x with
  | Done a => k a
  | Abort d => Abort d
  end.

#[global] Instance outcome_bind : MBind outcome := fun A B k x => obind x k.
#[global] Instance outcome_ret : MRet outcome := fun A a => Done a.

(** ** StackAllocator (quantum.hpp 75-112) *)

Module Alloc.

Local Open Scope Z_scope.

(** [size_t] is 64 bits wide. *)
Definition size_max : Z := 2 ^ 64.

(** Pointers are addresses counted in elements of [T]; [data] is the base
    of the arena. *)
Record StackAllocator : Type := mkAlloc {
  size : Z;
  used : Z;
  shift : Z;
  data : Z
}.

(** [StackAllocator(T *ptr, size_t max_size)] *)
Definition init (ptr max_size : Z) : StackAllocator :=
  mkAlloc max_size 0 0 ptr.

Definition set_used (a : StackAllocator) (u : Z) : StackAllocator :=
  mkAlloc (size a) u (shift a) (data a).

(** A pointer moved by the [size_t] count [k].  Address arithmetic wraps
    at 2^64 like the count itself, so a count of [2^64 - d] moves the
    pointer [d] elements back. *)
Definition advance (p k : Z) : Z :=
  let k := k mod size_max in
  p + (if k <? 2 ^ 63 then k else k - size_max).

(** [T *allocate(size_t n)]: returns the block and the updated allocator.
    In [data + (used += n) - n] the sum wraps at 2^64 and the address
    arithmetic with it: the block starts at the old [used]. *)
Definition allocate (a : StackAllocator) (n : Z) : outcome (Z * StackAllocator) :=
  if negb (shift a =? 0) then Abort AssertionFailed
  else if ((used a + n) mod size_max >=? size a) then Abort ExceedingAllowedMemory
  else
    let u := (used a + n) mod size_max in
    Done (data a + (u - n) mod size_max, set_used a u).

(** [void deallocate(void *ptr, size_t n)] *)
Definition deallocate (a : StackAllocator) (ptr n : Z) : outcome StackAllocator :=
  if n =? 0 then Done a
  else if (used a <? n) || negb (ptr =? data a + used a - n)
       then Abort DeallocNotReverse
       else Done (set_used a (used a - n)).

(** [T *reallocate(T *ptr, size_t n, size_t new_n)]; [ptr += shift]
    moves the pointer by the wrapped [shift]. *)
Definition reallocate (a : StackAllocator) (ptr n new_n : Z) : Z * StackAllocator :=
  let ptr' := advance ptr (shift a) in
  let shift' := (shift a + new_n - n) mod size_max in
  let used' := (used a + new_n - n) mod size_max in
  let shift'' := if ptr' =? data a + used' - new_n then 0 else shift' in
  (ptr', mkAlloc (size a) used' shift'' (data a)).

(** Allocate three blocks in order, then free the first one first. *)
Definition free_first_of_three (a0 : StackAllocator) (n1 n2 n3 : Z)
  : outcome StackAllocator :=
  '(p1, a1) ← allocate a0 n1;
  '(p2, a2) ← allocate a1 n2;
  '(p3, a3) ← allocate a2 n3;
  deallocate a3 p1 n1.

(** Allocate three blocks in order, then free them last-to-first. *)
Definition free_three_in_reverse (a0 : StackAllocator) (n1 n2 n3 : Z)
  : outcome StackAllocator :=
  '(p1, a1) ← allocate a0 n1;
  '(p2, a2) ← allocate a1 n2;
  '(p3, a3) ← allocate a2 n3;
  a4 ← deallocate a3 p3 n3;
  a5 ← deallocate a4 p2 n2;
  deallocate a5 p1 n1.

(** Client code: allocate the blocks of sizes [ns] one after the other;
    the pointers are returned in the order of allocation. *)
Fixpoint allocate_all (a : StackAllocator) (ns : list Z)
  : outcome (list Z * StackAllocator) :=
  match ns with
  | [] => Done ([], a)
  | n :: ns' =>
      '(p, a1) ← allocate a n;
      '(ps, a2) ← allocate_all a1 ns';
      Done (p :: ps, a2)
  end.

(** Client code: free the blocks [(ptr, n)] in the order given. *)
Fixpoint deallocate_all (a : StackAllocator) (blocks : list (Z * Z))
  : outcome StackAllocator :=
  match blocks with
  | [] => Done a
  | (p, n) :: bs => a1 ← deallocate a p n; deallocate_all a1 bs
  end.

(** The start of each block when blocks of sizes [ns] are laid out from
    address [p] on. *)
Fixpoint starts (p : Z) (ns : list Z) : list Z :=
  match ns with
  | [] => []
  | n :: ns' => p :: starts (p + n) ns'
  end.

End Alloc.

(** ** Parsing (quantum.hpp 155-208) *)

Module Parsing.
Import Ascii.

(** [std::string] as its list of characters; positions are [size_t]
    indices, [string::npos] is [None]. *)
Definition str : Type := list ascii.

(** Membership of a character in the set given to [find_first_of] and
    its relatives. *)
Definition in_set (set : str) (c : ascii) : bool := existsb (Ascii.eqb c) set.

(** First position whose character satisfies [p]. *)
Fixpoint find_if (p : ascii -> bool) (s : str) : option nat :=
  match s with
  | [] => None
  | c :: s' => if p c then Some O else option_map S (find_if p s')
  end.

(** [s.find_first_of(set, pos)] *)
Definition find_first_of (s set : str) (pos : nat) : option nat :=
  option_map (fun k => pos + k)%nat (find_if (in_set set) (drop pos s)).

(** [s.find_first_not_of(set)] *)
Definition find_first_not_of (s set : str) : option nat :=
  find_if (fun c => negb (in_set set c)) s.

(** [s.find_last_not_of(set)] *)
Definition find_last_not_of (s set : str) : option nat :=
  option_map (fun k => length s - 1 - k)%nat
             (find_if (fun c => negb (in_set set c)) (rev s)).

(** [s.substr(pos, len)] for [pos <= s.size()]. *)
Definition substr (s : str) (pos len : nat) : str := take len (drop pos s).

(** [index > last] for a position [index] that may be [npos]. *)
Definition index_gt (index : option nat) (last : nat) : bool :=
  match index with
  | None => true
  | Some i => (last <? i)%nat
  end.

(** The [while] loop of [split], run for at most [fuel] iterations; the
    state is [(r, last, index)]. *)
Fixpoint split_loop (fuel : nat) (s delim : str) (remove_empty : bool)
  (r : list str) (last : nat) (index : option nat)
  : list str * nat * option nat :=
  match fuel with
  | O => (r, last, index)
  | S fuel' =>
      match index with
      | None => (r, last, index)
      | Some i =>
          let r' := if negb remove_empty || (last <? i)%nat
                    then r ++ [substr s last (i - last)] else r in
          let last' := (i + 1)%nat in
          split_loop fuel' s delim remove_empty r' last'
                     (find_first_of s delim last')
      end
  end.

(** [static vector<string> split(const string &s, const string &delim,
    bool remove_empty = false)].  Every iteration moves [last] past one
    more character, so [s.size() + 1] iterations are enough; after the
    loop [index] is [npos] and [substr(last, npos - last)] is the rest
    of the string. *)
Definition split (s delim : str) (remove_empty : bool) : list str :=
  let '(r, last, index) :=
    split_loop (S (length s)) s delim remove_empty [] O
               (find_first_of s delim O) in
  if index_gt index last then r ++ [drop last s] else r.

(** [x.erase(0, n)] for [n] that may be [npos], and [x.erase(pos)]. *)
Definition erase_front (x : str) (n : option nat) : str :=
  match n with
  | None => []
  | Some k => drop k x
  end.

(** [static string &trim(string &x)]: the string after the call.
    [find_last_not_of(...) + 1] wraps to 0 when nothing is found. *)
Definition blanks : str := [" "%char; "009"%char].

Definition trim (x : str) : str :=
  match x with
  | [] => x
  | _ =>
      let x1 := erase_front x (find_first_not_of x blanks) in
      let pos := match find_last_not_of x1 blanks with
                 | None => O
                 | Some j => S j
                 end in
      take pos x1
  end.

(** A character that [trim] keeps at the ends. *)
Definition not_blank (c : ascii) : bool := negb (in_set blanks c).

(** [static string join(T it_start, T it_end, const string &x)] over
    the strings [xs]. *)
Definition join (xs : list str) (x : str) : str :=
  let rr := flat_map (fun i => i ++ x) xs in
  if (length rr =? 0)%nat then rr else take (length rr - length x) rr.

(** Splitting at every character that satisfies [p]: the pieces between
    the delimiters, with the empty ones. *)
Fixpoint fields (p : ascii -> bool) (s : str) : list str :=
  match s with
  | [] => [[]]
  | c :: s' =>
      if p c then [] :: fields p s'
      else match fields p s' with
           | f :: fs => (c :: f) :: fs
           | [] => [[c]]
           end
  end.

Definition nonempty (f : str) : bool :=
  match f with
  | [] => false
  | _ => true
  end.

(** The pieces that [split] keeps: with [remove_empty] the empty pieces
    are dropped, except the last piece. *)
Fixpoint keep (remove_empty : bool) (fs : list str) : list str :=
  match fs with
  | [] => []
  | [f] => [f]
  | f :: fs' =>
      (if negb remove_empty || nonempty f then [f] else [])
      ++ keep remove_empty fs'
  end.

(** The state of [split] after the loop, turned into the result. *)
Definition finish (s : str) (st : list str * nat * option nat) : list str :=
  let '(r, last, index) := st in
  if index_gt index last then r ++ [drop last s] else r.

End Parsing.

(** ** binary64 *)

(** [double] is the kernel's [float]; its operations are specified by
    [SpecFloat] at precision 53 and maximal exponent 1024. *)
Module Binary64.

(** Rounding to nearest even of [m * 2^e], and the exponent of the
    format. *)
Definition B64 : bool -> Z -> Z -> location -> spec_float :=
  binary_round_aux prec emax.
Definition fexp64 : Z -> Z := fexp prec emax.

Local Open Scope Z_scope.

(** A key on which [SFcompare] is the lexicographic order. *)
Definition sf_key (x : spec_float) : Z * Z * Z :=
  match x with
  | S754_zero _ => (0, 0, 0)
  | S754_infinity s => (if s then -2 else 2, 0, 0)
  | S754_nan => (3, 0, 0)
  | S754_finite s m e => if s then (-1, - e, - Z.pos m) else (1, e, Z.pos m)
  end.

Definition key_lt (a b : Z * Z * Z) : Prop :=
  let '(a1, a2, a3) := a in
  let '(b1, b2, b3) := b in
  a1 < b1 \/ (a1 = b1 /\ (a2 < b2 \/ (a2 = b2 /\ a3 < b3))).

End Binary64.

(** ** Loops *)

(** [for (t = t0; ...; t += step) body] run for [steps] iterations. *)
Fixpoint for_up {S : Type} (steps : nat) (t step : Z) (body : Z -> S -> S)
  (s : S) : S :=
  match steps with
  | O => s
  | Datatypes.S k => for_up k (t + step)%Z step body (body t s)
  end.

(** [for (int k = 0; k < n; k++) body] *)
Definition for_lt {S : Type} (n : Z) (body : Z -> S -> S) (s : S) : S :=
  for_up (Z.to_nat n) 0%Z 1%Z body s.

(** ** CG: Wigner symbols (quantum.hpp 428-549) *)

Module CG.

Local Open Scope Z_scope.

(** The arithmetic of [long double] that the Wigner functions use.  The
    x87 extended format has no model in the kernel, so the functions are
    written against this interface; [int] operands are converted by
    [ld_of_int]. *)
Class LongDouble (F : Type) : Type := {
  ld_of_int : Z -> F;
  ld_neg : F -> F;
  ld_add : F -> F -> F;
  ld_mul : F -> F -> F;
  ld_div : F -> F -> F
}.

(** The binary64 instance, used to run the functions on concrete input. *)
#[global] Instance float_LongDouble : LongDouble float := {
  ld_of_int z :=
    if (z <? 0)%Z then PrimFloat.opp (PrimFloat.of_uint63 (Uint63.of_Z (- z)))
    else PrimFloat.of_uint63 (Uint63.of_Z z);
  ld_neg := PrimFloat.opp;
  ld_add := PrimFloat.add;
  ld_mul := PrimFloat.mul;
  ld_div := PrimFloat.div
}.

(** [static bool triangle(int tja, int tjb, int tjc)] *)
Definition triangle (tja tjb tjc : Z) : bool :=
  negb (negb (Z.land (tja + tjb + tjc) 1 =? 0))
  && (tjc <=? tja + tjb) && (tjc >=? Z.abs (tja - tjb)).

Section Wigner.
Context {F : Type} `{LongDouble F}.

(** The table [sqrt_fact], read at any index. *)
Variable sqrt_fact : Z -> F.

Infix "*." := ld_mul (at level 40, left associativity).
Infix "/." := ld_div (at level 40, left associativity).
Infix "+." := ld_add (at level 50, left associativity).

(** [(cond) ? -1 : 1] *)
Definition sign_if (b : bool) : Z := if b then -1 else 1.

Definition sqrt_delta (tja tjb tjc : Z) : F :=
  sqrt_fact (Z.shiftr (tja + tjb - tjc) 1)
  *. sqrt_fact (Z.shiftr (tja - tjb + tjc) 1)
  *. sqrt_fact (Z.shiftr (- tja + tjb + tjc) 1)
  /. sqrt_fact (Z.shiftr (tja + tjb + tjc + 2) 1).

(** Iterations of [for (int t = lo; t <= hi; t += step)]. *)
Definition trips (lo hi step : Z) : nat :=
  if hi <? lo then O else Z.to_nat ((hi - lo) / step + 1).

Definition wigner_3j (tja tjb tjc tma tmb tmc : Z) : F :=
  if negb (tma + tmb + tmc =? 0) || negb (triangle tja tjb tjc)
     || negb (Z.land (tja + tma) 1 =? 0) || negb (Z.land (tjb + tmb) 1 =? 0)
     || negb (Z.land (tjc + tmc) 1 =? 0)
  then ld_of_int 0
  else
    let alpha1 := Z.shiftr (tjb - tjc - tma) 1 in
    let alpha2 := Z.shiftr (tja - tjc + tmb) 1 in
    let beta1 := Z.shiftr (tja + tjb - tjc) 1 in
    let beta2 := Z.shiftr (tja - tma) 1 in
    let beta3 := Z.shiftr (tjb + tmb) 1 in
    let max_alpha := Z.max 0 (Z.max alpha1 alpha2) in
    let min_beta := Z.min beta1 (Z.min beta2 beta3) in
    if max_alpha >? min_beta then ld_of_int 0
    else
      let factor :=
        ld_of_int (sign_if (negb (Z.land (tja - tjb - tmc) 2 =? 0))
                   * sign_if (negb (Z.land max_alpha 1 =? 0)))
        *. sqrt_delta tja tjb tjc
        *. sqrt_fact (Z.shiftr (tja + tma) 1)
        *. sqrt_fact (Z.shiftr (tja - tma) 1)
        *. sqrt_fact (Z.shiftr (tjb + tmb) 1)
        *. sqrt_fact (Z.shiftr (tjb - tmb) 1)
        *. sqrt_fact (Z.shiftr (tjc + tmc) 1)
        *. sqrt_fact (Z.shiftr (tjc - tmc) 1) in
      fst (for_up (trips max_alpha min_beta 1) max_alpha 1
             (fun t '(r, factor) =>
                let rst := sqrt_fact t *. sqrt_fact (t - alpha1)
                           *. sqrt_fact (t - alpha2) *. sqrt_fact (beta1 - t)
                           *. sqrt_fact (beta2 - t) *. sqrt_fact (beta3 - t) in
                (r +. factor /. (rst *. rst), ld_neg factor))
             (ld_of_int 0, factor)).

Definition wigner_6j (tja tjb tjc tjd tje tjf : Z) : F :=
  if negb (triangle tja tjb tjc) || negb (triangle tja tje tjf)
     || negb (triangle tjd tjb tjf) || negb (triangle tjd tje tjc)
  then ld_of_int 0
  else
    let alpha1 := Z.shiftr (tja + tjb + tjc) 1 in
    let alpha2 := Z.shiftr (tja + tje + tjf) 1 in
    let alpha3 := Z.shiftr (tjd + tjb + tjf) 1 in
    let alpha4 := Z.shiftr (tjd + tje + tjc) 1 in
    let beta1 := Z.shiftr (tja + tjb + tjd + tje) 1 in
    let beta2 := Z.shiftr (tjb + tjc + tje + tjf) 1 in
    let beta3 := Z.shiftr (tja + tjc + tjd + tjf) 1 in
    let max_alpha := Z.max alpha1 (Z.max alpha2 (Z.max alpha3 alpha4)) in
    let min_beta := Z.min beta1 (Z.min beta2 beta3) in
    if max_alpha >? min_beta then ld_of_int 0
    else
      let factor :=
        ld_of_int (sign_if (negb (Z.land max_alpha 1 =? 0)))
        *. sqrt_delta tja tjb tjc *. sqrt_delta tja tje tjf
        *. sqrt_delta tjd tjb tjf *. sqrt_delta tjd tje tjc in
      fst (for_up (trips max_alpha min_beta 1) max_alpha 1
             (fun t '(r, factor) =>
                let rst := sqrt_fact (t - alpha1) *. sqrt_fact (t - alpha2)
                           *. sqrt_fact (t - alpha3) *. sqrt_fact (t - alpha4)
                           *. sqrt_fact (beta1 - t) *. sqrt_fact (beta2 - t)
                           *. sqrt_fact (beta3 - t) in
                (r +. factor *. sqrt_fact (t + 1) *. sqrt_fact (t + 1)
                      /. (rst *. rst),
                 ld_neg factor))
             (ld_of_int 0, factor)).

Definition wigner_9j (tja tjb tjc tjd tje tjf tjg tjh tji : Z) : F :=
  if negb (triangle tja tjb tjc) || negb (triangle tjd tje tjf)
     || negb (triangle tjg tjh tji) || negb (triangle tja tjd tjg)
     || negb (triangle tjb tje tjh) || negb (triangle tjc tjf tji)
  then ld_of_int 0
  else
    let alpha1 := Z.abs (tja - tji) in
    let alpha2 := Z.abs (tjd - tjh) in
    let alpha3 := Z.abs (tjb - tjf) in
    let beta1 := tja + tji in
    let beta2 := tjd + tjh in
    let beta3 := tjb + tjf in
    let max_alpha := Z.max alpha1 (Z.max alpha2 alpha3) in
    let min_beta := Z.min beta1 (Z.min beta2 beta3) in
    let r :=
      for_up (trips max_alpha min_beta 2) max_alpha 2
        (fun tg r =>
           r +. ld_of_int (tg + 1)
                *. wigner_6j tja tjb tjc tjf tji tg
                *. wigner_6j tjd tje tjf tjb tg tjh
                *. wigner_6j tjg tjh tji tg tja tjd)
        (ld_of_int 0) in
    ld_of_int (sign_if (negb (Z.land max_alpha 1 =? 0))) *. r.

(** [racah(ta, tb, tc, td, te, tf)] *)
Definition racah (ta tb tc td te tf : Z) : F :=
  ld_of_int (sign_if (negb (Z.land (ta + tb + tc + td) 2 =? 0)))
  *. wigner_6j ta tb te td tc tf.

End Wigner.

(** A table for small arguments, in binary64: [sqrt(i!)] for [i <= 4]. *)
Definition small_sqrt_fact (i : Z) : float :=
  if i <=? 1 then 1%float
  else if i =? 2 then PrimFloat.sqrt 2
  else if i =? 3 then PrimFloat.sqrt 6
  else PrimFloat.sqrt 24.

End CG.

(** ** SpinLabel (quantum.hpp 600-702) *)

Module Label.

Local Open Scope Z_scope.

(** Conversion to [uint32_t]. *)
Definition u32 (x : Z) : Z := x mod 0x100000000.

(** [(int32_t)data] *)
Definition to_int32 (x : Z) : Z :=
  if u32 x <? 0x80000000 then u32 x else u32 x - 0x100000000.

(** [~x] on [uint32_t]. *)
Definition not32 (x : Z) : Z := u32 (Z.lnot x).

(** A label is its packed [uint32_t data]. *)
Definition SpinLabel : Type := Z.

(** [SpinLabel(int n, int twos, int pg)] *)
Definition mk (n twos pg : Z) : SpinLabel :=
  u32 (Z.lor (Z.lor (Z.lor (Z.shiftl n 24) (Z.shiftl twos 16))
                (Z.shiftl twos 8)) pg).

(** [SpinLabel(int n, int twos_low, int twos, int pg)] *)
Definition mk_range (n twos_low twos pg : Z) : SpinLabel :=
  u32 (Z.lor (Z.lor (Z.lor (Z.shiftl n 24) (Z.shiftl twos_low 16))
                (Z.shiftl twos 8)) pg).

Definition n (q : SpinLabel) : Z := Z.shiftr (to_int32 q) 24.
Definition twos (q : SpinLabel) : Z := Z.land (Z.shiftr q 8) 0xFF.
Definition twos_low (q : SpinLabel) : Z := Z.land (Z.shiftr q 16) 0xFF.
Definition pg (q : SpinLabel) : Z := Z.land q 0xFF.

Definition set_twos_low (q : SpinLabel) (t : Z) : SpinLabel :=
  Z.lor (Z.land q 0xFF00FFFF) (u32 (Z.shiftl (Z.land t 0xFF) 16)).

(** [operator<], [operator==] compare the packed words. *)
Definition ltb (a b : SpinLabel) : bool := a <? b.
Definition eqb (a b : SpinLabel) : bool := a =? b.

(** unary [operator-] *)
Definition neg (q : SpinLabel) : SpinLabel :=
  Z.lor (Z.land q 0xFFFFFF)
        (Z.land (u32 (not32 q + Z.shiftl 1 24)) 0xFF000000).

(** The branch-free absolute value used by [operator+] on the
    [twos_low] byte. *)
Definition abs_field (s : Z) : Z :=
  Z.land (Z.lxor (u32 (Z.shiftr s 7 + s)) (Z.shiftr s 7)) 0xFF0000.

(** binary [operator+] *)
Definition add (a b : SpinLabel) : SpinLabel :=
  let add_data :=
    Z.lor (u32 (Z.land a 0xFF00FF00 + Z.land b 0xFF00FF00))
          (Z.lxor (Z.land a 0xFF) (Z.land b 0xFF)) in
  let sub_data_lr :=
    abs_field (u32 (Z.shiftl (Z.land a 0xFF00) 8 - Z.land b 0xFF0000)) in
  let sub_data_rl :=
    abs_field (u32 (Z.shiftl (Z.land b 0xFF00) 8 - Z.land a 0xFF0000)) in
  Z.lor add_data (Z.min sub_data_lr sub_data_rl).

(** binary [operator-] *)
Definition sub (a b : SpinLabel) : SpinLabel := add a (neg b).

(** [operator[](int i)] *)
Definition index (q : SpinLabel) (i : Z) : SpinLabel :=
  let d := u32 (q + Z.shiftl i 17) in
  Z.lor (Z.land d 0xFFFF00FF) (Z.shiftr (Z.land d 0xFF0000) 8).

(** [int count() const] *)
Definition count (q : SpinLabel) : Z :=
  Z.land (u32 (Z.shiftr q 9 - Z.shiftr q 17)) 0x7F + 1.

(** [int find(SpinLabel x) const] *)
Definition find (q x : SpinLabel) : Z :=
  if negb (Z.land (Z.lxor q x) 0xFF0000FF =? 0)
     || negb (Z.land (u32 (x - q)) 0x100 =? 0)
     || (twos x <? twos_low q) || (twos x >? twos q)
  then -1
  else Z.shiftr (Z.land (u32 (x - q)) 0xFF00) 9.

Definition get_ket (q : SpinLabel) : SpinLabel :=
  Z.lor (Z.land q 0xFF00FFFF) (Z.shiftl (Z.land q 0xFF00) 8).

Definition get_bra (q dq : SpinLabel) : SpinLabel :=
  Z.lor (Z.lor (Z.lor (u32 (Z.land q 0xFF000000 + Z.land dq 0xFF000000))
                      (Z.shiftr (Z.land q 0xFF0000) 8))
               (Z.land q 0xFF0000))
        (Z.lxor (Z.land q 0xFF) (Z.land dq 0xFF)).

(** The sentinel returned by [combine]. *)
Definition invalid : SpinLabel := 0xFFFFFFFF.

(** [SpinLabel combine(SpinLabel bra, SpinLabel ket) const] *)
Definition combine (q bra ket : SpinLabel) : SpinLabel :=
  let ket := set_twos_low ket (twos bra) in
  if negb (eqb (get_bra ket q) bra)
     || negb (CG.triangle (twos ket) (twos q) (twos bra))
  then invalid
  else ket.

(** The labels the range [q] enumerates: [q[0], ..., q[count-1]]. *)
Definition members (q : SpinLabel) : list SpinLabel :=
  map (fun k => index q (Z.of_nat k)) (seq 0 (Z.to_nat (count q))).

(** The vacuum: [SpinLabel(0, 0, 0)]. *)
Definition vacuum : SpinLabel := mk 0 0 0.

(** A label of one state: a 32-bit word whose two spin bytes agree and
    whose spin is small enough for the sum of two spins to fit its byte. *)
Definition valid (q : SpinLabel) : Prop :=
  0 <= q < 0x100000000 /\ twos_low q = twos q /\ twos q < 128.

(** [void set_n(int n)] *)
Definition set_n (q : SpinLabel) (v : Z) : SpinLabel :=
  Z.lor (Z.land q 0xFFFFFF) (u32 (Z.shiftl v 24)).

(** [void set_twos(int twos)] *)
Definition set_twos (q : SpinLabel) (t : Z) : SpinLabel :=
  Z.lor (Z.lor (Z.land q 0xFF0000FF) (u32 (Z.shiftl (Z.land t 0xFF) 16)))
        (u32 (Z.shiftl (Z.land t 0xFF) 8)).

(** [void set_pg(int pg)] *)
Definition set_pg (q : SpinLabel) (p : Z) : SpinLabel :=
  Z.lor (Z.land q 0xFFFFFF00) (u32 p).

(** The 32-bit word with the bytes [nb], [lb], [tb], [pb], highest
    first: particle number, lower spin, spin, point group. *)
Definition pack (nb lb tb pb : Z) : Z :=
  nb * 16777216 + lb * 65536 + tb * 256 + pb.

(** The value of a byte read as [int8_t]. *)
Definition signed8 (x : Z) : Z := if x mod 256 <? 128 then x mod 256 else x mod 256 - 256.

(** A range of labels as [operator+] produces it: a 32-bit word whose
    two spin bytes have the same parity, the lower one not above the
    upper one. *)
Definition range_ok (q : SpinLabel) : Prop :=
  0 <= q < 0x100000000 /\ twos_low q <= twos q
  /\ (twos q - twos_low q) mod 2 = 0.

End Label.

(** ** Integral tables: TInt, V8Int, V4Int (quantum.hpp 219-270) *)

Module Ints.
Import Label.
Local Open Scope Z_scope.

(** Conversion to [size_t]. *)
Definition u64 (x : Z) : Z := x mod 0x10000000000000000.

(** [struct TInt]: [uint32_t find_index(uint16_t i, uint16_t j) const] *)
Definition TInt_find_index (i j : Z) : Z :=
  if i <? j then u32 (Z.shiftr (u32 (j * (j + 1))) 1 + i)
  else u32 (Z.shiftr (u32 (i * (i + 1))) 1 + j).

(** [size_t TInt::size() const], for the [uint16_t n] of the table. *)
Definition TInt_size (n : Z) : Z := Z.shiftr (u64 (n * (n + 1))) 1.

(** [double &operator()(uint16_t i, uint16_t j)], as a read and as a
    write of the buffer [data]; outside the buffer the read has no value
    and the write is dropped (the source accesses memory it does not
    own). *)
Definition TInt_get (data : list float) (i j : Z) : option float :=
  data !! Z.to_nat (TInt_find_index i j).

Definition TInt_set (data : list float) (i j : Z) (v : float) : list float :=
  <[Z.to_nat (TInt_find_index i j) := v]> data.

(** [struct V8Int] and [struct V4Int]: the member [m] that the
    constructor computes from [uint32_t n]. *)
Definition pair_count (n : Z) : Z := Z.shiftr (u32 (n * u32 (n + 1))) 1.

(** [size_t find_index(uint32_t i, uint32_t j) const], the same in both
    structs. *)
Definition find_index2 (i j : Z) : Z :=
  if i <? j then u64 (Z.shiftr (u64 (j * u32 (j + 1))) 1 + i)
  else u64 (Z.shiftr (u64 (i * u32 (i + 1))) 1 + j).

(** [size_t V8Int::find_index(uint16_t i, j, k, l) const] *)
Definition V8Int_find_index (i j k l : Z) : Z :=
  let p := u32 (find_index2 i j) in
  let q := u32 (find_index2 k l) in
  find_index2 p q.

(** [size_t V8Int::size() const] *)
Definition V8Int_size (n : Z) : Z :=
  let m := pair_count n in
  Z.shiftr (u64 (m * u32 (m + 1))) 1.

(** [size_t V4Int::find_index(uint16_t i, j, k, l) const] *)
Definition V4Int_find_index (n i j k l : Z) : Z :=
  let m := pair_count n in
  let p := u32 (find_index2 i j) in
  let q := u32 (find_index2 k l) in
  u64 (p * m + q).

(** [size_t V4Int::size() const] *)
Definition V4Int_size (n : Z) : Z :=
  let m := pair_count n in u64 (m * m).

(** Two index pairs that name the same unordered pair. *)
Definition same_pair (i j i' j' : Z) : Prop :=
  (i = i' /\ j = j') \/ (i = j' /\ j = i').

End Ints.

(** ** FCIDUMP: the layout of the integral tables (quantum.hpp 337-372) *)

Module FCIDUMP.
Import Ints.
Local Open Scope Z_scope.

(** Where [FCIDUMP::read] places its tables in the block it allocates:
    the offsets of the [data] members from the start of the block (in
    doubles, [size_t] arithmetic) and [total_memory]. *)
Record layout : Type := mkLayout {
  ts_data : list Z;
  vs_data : list Z;
  vabs_data : list Z;
  total_memory : Z
}.

Definition layout_of (uhf : bool) (n : Z) : layout :=
  let ts := TInt_size n in
  let vs := V8Int_size n in
  let vabs := V4Int_size n in
  if negb uhf then
    mkLayout [0] [0 + ts] [] (u64 (ts + vs))
  else
    mkLayout [0; 0 + ts]
             [0 + u64 (Z.shiftl ts 1); 0 + u64 (Z.shiftl ts 1) + vs]
             [0 + u64 (Z.shiftl (u64 (ts + vs)) 1)]
             (u64 (u64 (Z.shiftl (u64 (ts + vs)) 1) + vabs)).

(** The blocks [(offset, size)] follow each other from [start] to
    [stop] without gap or overlap. *)
Fixpoint tiles (start : Z) (blocks : list (Z * Z)) (stop : Z) : Prop :=
  match blocks with
  | [] => start = stop
  | (o, sz) :: rest => o = start /\ 0 <= sz /\ tiles (start + sz) rest stop
  end.

(** The tables of a layout with their sizes, in the order [ts], [vs],
    [vabs]. *)
Definition tables (n : Z) (L : layout) : list (Z * Z) :=
  map (fun o => (o, TInt_size n)) (ts_data L)
  ++ map (fun o => (o, V8Int_size n)) (vs_data L)
  ++ map (fun o => (o, V4Int_size n)) (vabs_data L).

End FCIDUMP.

(** ** SZLabel (quantum.hpp 551-598) *)

Module SZ.
Import Label.
Local Open Scope Z_scope.

(** A label is its packed [uint32_t data]. *)
Definition SZLabel : Type := Z.

(** [SZLabel(int n, int twos, int pg)] *)
Definition mk (n twos pg : Z) : SZLabel :=
  u32 (Z.lor (Z.lor (Z.shiftl n 24) (Z.shiftl twos 8)) pg).

Definition n (q : SZLabel) : Z := Z.shiftr (to_int32 q) 24.
(** [(int)(int16_t)((data >> 8) & 0xFFU)]: the masked value fits the
    [int16_t], the cast does not change it. *)
Definition twos (q : SZLabel) : Z := Z.land (Z.shiftr q 8) 0xFF.
Definition pg (q : SZLabel) : Z := Z.land q 0xFF.

Definition set_n (q : SZLabel) (v : Z) : SZLabel :=
  Z.lor (Z.land q 0xFFFFFF) (u32 (Z.shiftl v 24)).
Definition set_twos (q : SZLabel) (t : Z) : SZLabel :=
  Z.lor (Z.land q 0xFF0000FF) (u32 (Z.shiftl (Z.land t 0xFF) 8)).
Definition set_pg (q : SZLabel) (p : Z) : SZLabel :=
  Z.lor (Z.land q 0xFFFFFF00) (u32 p).

Definition eqb (a b : SZLabel) : bool := a =? b.
Definition ltb (a b : SZLabel) : bool := a <? b.

(** unary [operator-] *)
Definition neg (q : SZLabel) : SZLabel :=
  Z.lor (Z.lor (Z.land q 0xFF)
               (Z.land (u32 (not32 q + Z.shiftl 1 8)) 0xFF00))
        (Z.land (u32 (not32 q + Z.shiftl 1 24)) 0xFF000000).

(** binary [operator+] *)
Definition add (a b : SZLabel) : SZLabel :=
  Z.lor (Z.land (u32 (Z.land a 0xFF00FF00 + Z.land b 0xFF00FF00)) 0xFF00FF00)
        (Z.lxor (Z.land a 0xFF) (Z.land b 0xFF)).

(** binary [operator-] *)
Definition sub (a b : SZLabel) : SZLabel := add a (neg b).

Definition index (q : SZLabel) (i : Z) : SZLabel := q.
Definition get_ket (q : SZLabel) : SZLabel := q.
Definition get_bra (q dq : SZLabel) : SZLabel := add q dq.
Definition count (q : SZLabel) : Z := 1.

(** A word as the operators produce it: 32 bits, the unused byte
    (bits 16 to 23) zero. *)
Definition canonical (q : SZLabel) : Prop :=
  0 <= q < 0x100000000 /\ Z.land q 0xFF0000 = 0.

End SZ.

(** ** OpExpr and its operators (quantum.hpp 48-65, 704-979) *)

Module Expr.

Import Label.
Local Open Scope float_scope.

Inductive OpNames : Type :=
| H | I | N | NN | NUD | C | D | R | RD | A | AD | P | PD | B | Q | PDM1.

Definition OpNames_eqb (a b : OpNames) : bool :=
  match a, b with
  | H, H | I, I | N, N | NN, NN | NUD, NUD | C, C | D, D | R, R | RD, RD
  | A, A | AD, AD | P, P | PD, PD | B, B | Q, Q | PDM1, PDM1 => true
  | _, _ => false
  end.

Inductive OpTypes : Type := TZero | TElem | TProd | TSum.

Record OpElement : Type := mkOpElement {
  name : OpNames;
  site_index : list Z;          (* vector<uint8_t> *)
  factor : float;
  q_label : SpinLabel
}.

(** [OpElement(name, site_index, q_label, factor = 1.0)] *)
Definition OpElement_new (nm : OpNames) (ix : list Z) (q : SpinLabel)
  : OpElement := mkOpElement nm ix 1 q.

Definition OpElement_abs (e : OpElement) : OpElement :=
  mkOpElement (name e) (site_index e) 1 (q_label e).

Definition OpElement_mul (e : OpElement) (d : float) : OpElement :=
  mkOpElement (name e) (site_index e) (factor e * d) (q_label e).

(** [vector<uint8_t>::operator==] *)
Fixpoint site_index_eqb (a b : list Z) : bool :=
  match a, b with
  | [], [] => true
  | x :: a', y :: b' => Z.eqb x y && site_index_eqb a' b'
  | _, _ => false
  end.

Definition OpElement_eqb (a b : OpElement) : bool :=
  OpNames_eqb (name a) (name b)
  && site_index_eqb (site_index a) (site_index b)
  && (factor a =? factor b).

(** An [OpString] holds its elements by [shared_ptr]; none of the modelled
    operators writes through one, so they are held by value. *)
Record OpString : Type := mkOpString {
  sfactor : float;
  ops : list OpElement
}.

(** The constructor [OpString(ops, factor)]: folds the factors of the
    elements into the string's and stores their [abs()]. *)
Definition OpString_new (es : list OpElement) (f : float) : OpString :=
  mkOpString (fold_left (fun acc e => acc * factor e) es f)
             (map OpElement_abs es).

Definition OpString_abs (s : OpString) : OpString := OpString_new (ops s) 1.

Definition OpString_mul (s : OpString) (d : float) : OpString :=
  OpString_new (ops s) (sfactor s * d).

Fixpoint ops_eqb (a b : list OpElement) : bool :=
  match a, b with
  | [], [] => true
  | x :: a', y :: b' => OpElement_eqb x y && ops_eqb a' b'
  | _, _ => false
  end.

(** [OpString::operator==]: sizes and factors first, then element-wise. *)
Definition OpString_eqb (a b : OpString) : bool :=
  if negb (Nat.eqb (length (ops a)) (length (ops b)))
     || negb (sfactor a =? sfactor b)
  then false
  else ops_eqb (ops a) (ops b).

Fixpoint strings_eqb (a b : list OpString) : bool :=
  match a, b with
  | [], [] => true
  | x :: a', y :: b' => OpString_eqb x y && strings_eqb a' b'
  | _, _ => false
  end.

(** [shared_ptr<OpExpr>]: the base class is the zero expression. *)
Inductive OpExpr : Type :=
| Zero
| Elem (e : OpElement)
| Prod (s : OpString)
| Sum (strings : list OpString).

Definition get_type (x : OpExpr) : OpTypes :=
  match x with
  | Zero => TZero
  | Elem _ => TElem
  | Prod _ => TProd
  | Sum _ => TSum
  end.

Definition OpSum_mul (strings : list OpString) (d : float) : list OpString :=
  map (fun r => OpString_mul r d) strings.

(** [operator==(shared_ptr<OpExpr>, shared_ptr<OpExpr>)] *)
Definition expr_eqb (a b : OpExpr) : bool :=
  match a, b with
  | Zero, Zero => true
  | Elem x, Elem y => OpElement_eqb x y
  | Prod x, Prod y => OpString_eqb x y
  | Sum x, Sum y =>
      if negb (Nat.eqb (length x) (length y)) then false else strings_eqb x y
  | _, _ => false
  end.

(** [operator+]; [None] where the source reaches the end of the function
    without a [return] (Elem + Prod and Prod + Elem). *)
Definition add (a b : OpExpr) : option OpExpr :=
  match a, b with
  | Zero, _ => Some b
  | _, Zero => Some a
  | Elem x, Elem y => Some (Sum [OpString_new [x] 1; OpString_new [y] 1])
  | Elem x, Sum ys => Some (Sum (OpString_new [x] 1 :: ys))
  | Elem _, Prod _ => None
  | Prod x, Sum ys => Some (Sum (x :: ys))
  | Prod x, Prod y => Some (Sum [x; y])
  | Prod _, Elem _ => None
  | Sum xs, Elem y => Some (Sum (xs ++ [OpString_new [y] 1]))
  | Sum xs, Prod y => Some (Sum (xs ++ [y]))
  | Sum xs, Sum ys => Some (Sum (xs ++ ys))
  end.

(** [operator*(shared_ptr<OpExpr>, double)] *)
Definition mul (x : OpExpr) (d : float) : OpExpr :=
  match x with
  | Zero => x
  | _ =>
      if d =? 0 then Zero
      else match x with
           | Zero => x
           | Elem e => Elem (OpElement_mul e d)
           | Prod s => Prod (OpString_mul s d)
           | Sum ss => Sum (OpSum_mul ss d)
           end
  end.

(** [operator*(double, shared_ptr<OpExpr>)] *)
Definition lmul (d : float) (x : OpExpr) : OpExpr := mul x d.

(** What the constructors establish: the elements of a string carry the
    factor 1. *)
Definition string_wf (s : OpString) : Prop :=
  Forall (fun e => factor e = 1) (ops s).

Definition expr_wf (x : OpExpr) : Prop :=
  match x with
  | Zero | Elem _ => True
  | Prod s => string_wf s
  | Sum ss => Forall string_wf ss
  end.

(** A product of two elements with factor 0.5, for examples. *)
Definition sample_product : OpExpr :=
  Prod (OpString_new [OpElement_new C [0%Z] (Label.mk 1 1 0);
                      OpElement_new D [1%Z] (Label.mk (-1) 1 0)] 0.5).

(** The scalar factors an expression carries. *)
Definition factors (x : OpExpr) : list float :=
  match x with
  | Zero => []
  | Elem e => [factor e]
  | Prod s => [sfactor s]
  | Sum ss => map sfactor ss
  end.

(** The value of an [OpNames] enumerator ([enum struct OpNames : uint8_t]). *)
Definition OpNames_code (a : OpNames) : Z :=
  match a with
  | H => 0 | I => 1 | N => 2 | NN => 3 | NUD => 4 | C => 5 | D => 6 | R => 7
  | RD => 8 | A => 9 | AD => 10 | P => 11 | PD => 12 | B => 13 | Q => 14
  | PDM1 => 15
  end%Z.

(** [vector<uint8_t>::operator<]: lexicographic. *)
Fixpoint site_index_ltb (a b : list Z) : bool :=
  match a, b with
  | _, [] => false
  | [], _ :: _ => true
  | x :: a', y :: b' =>
      if (x <? y)%Z then true
      else if (y <? x)%Z then false
      else site_index_ltb a' b'
  end.

(** [bool OpElement::operator<(const OpElement &other) const] *)
Definition OpElement_ltb (a b : OpElement) : bool :=
  if negb (OpNames_eqb (name a) (name b))
  then (OpNames_code (name a) <? OpNames_code (name b))%Z
  else if negb (site_index_eqb (site_index a) (site_index b))
  then site_index_ltb (site_index a) (site_index b)
  else if negb (factor a =? factor b)
  then factor a <? factor b
  else false.

(** [OpSum::abs()] *)
Definition OpSum_abs (strings : list OpString) : list OpString :=
  map OpString_abs strings.

(** [abs_value(const shared_ptr<OpExpr> &x)] *)
Definition abs_value (x : OpExpr) : OpExpr :=
  match x with
  | Zero => x
  | Elem e => Elem (OpElement_abs e)
  | Prod s => Prod (OpString_abs s)
  | Sum ss => Sum (OpSum_abs ss)
  end.

(** [operator*(shared_ptr<OpExpr>, shared_ptr<OpExpr>)]; [None] where the
    source reaches the end of the function without a [return]
    (Prod * Sum, Sum * Prod and Sum * Sum). *)
Definition expr_mul (a b : OpExpr) : option OpExpr :=
  match a, b with
  | Zero, _ => Some a
  | _, Zero => Some b
  | Elem x, Sum ys =>
      Some (Sum (map (fun r => OpString_new (x :: ops r) (sfactor r)) ys))
  | Elem x, Elem y => Some (Prod (OpString_new [x; y] 1))
  | Elem x, Prod y => Some (Prod (OpString_new (x :: ops y) (sfactor y)))
  | Prod x, Elem y => Some (Prod (OpString_new (ops x ++ [y]) (sfactor x)))
  | Prod x, Prod y =>
      Some (Prod (OpString_new (ops x ++ ops y) (sfactor x * sfactor y)))
  | Prod _, Sum _ => None
  | Sum xs, Elem y =>
      Some (Sum (map (fun r => OpString_new (ops r ++ [y]) (sfactor r)) xs))
  | Sum _, Prod _ => None
  | Sum _, Sum _ => None
  end.

(** One iteration of the loop of [sum]: the strings pushed for [r]. *)
Definition sum_step (strs : list OpString) (r : OpExpr) : list OpString :=
  match r with
  | Prod s => strs ++ [s]
  | Elem e => strs ++ [OpString_new [e] 1]
  | Sum ss => strs ++ ss
  | Zero => strs
  end.

(** [sum(const vector<shared_ptr<OpExpr>> &xs)] *)
Definition expr_sum (xs : list OpExpr) : OpExpr :=
  Sum (fold_left sum_step xs []).

(** The terms of an expression read as a sum of products. *)
Definition strings_of (x : OpExpr) : list OpString :=
  match x with
  | Zero => []
  | Elem e => [OpString_new [e] 1]
  | Prod s => [s]
  | Sum ss => ss
  end.

(** The product of two terms: elements concatenated, factors multiplied. *)
Definition string_times (s t : OpString) : OpString :=
  mkOpString (sfactor s * sfactor t) (ops s ++ ops t).

End Expr.

(** ** StateInfo (quantum.hpp 1223-1365) *)

Module State.

Import Label.
Local Open Scope Z_scope.

(** Sum of a [uint16_t] array into an [int]. *)
Definition zsum (l : list Z) : Z := foldr Z.add 0 l.

(** The arrays [quanta[0..n)] and [n_states[0..n)] are kept as one list
    of pairs; [n] is its length. *)
Record StateInfo : Type := mkStateInfo {
  entries : list (SpinLabel * Z);
  n_states_total : Z
}.

Definition quanta (s : StateInfo) : list SpinLabel := map fst (entries s).
Definition n_states (s : StateInfo) : list Z := map snd (entries s).
Definition n (s : StateInfo) : Z := Z.of_nat (length (entries s)).

(** [StateInfo(SpinLabel q)] *)
Definition single (q : SpinLabel) : StateInfo := mkStateInfo [(q, 1)] 1.

(** The order [std::sort] is given: [q[i] < q[j]] on the packed words. *)
Definition label_le (x y : SpinLabel * Z) : Prop := fst x <= fst y.

#[global] Instance label_le_dec : RelDecision label_le.
Proof. intros x y. unfold label_le. apply Z_le_dec. Defined.

(** [void sort_states()]: [std::sort] leaves the order of equal labels
    open; the merge sort is one of its outcomes. *)
Definition sort_states (s : StateInfo) : StateInfo :=
  let sorted := merge_sort label_le (entries s) in
  mkStateInfo sorted (zsum (map snd sorted)).

(** [std::upper_bound(first, last, v) - first] as the standard defines it:
    the length of the longest prefix with no element above [v]. *)
Fixpoint upper_bound (l : list SpinLabel) (v : SpinLabel) : nat :=
  match l with
  | [] => O
  | x :: l' => if ltb v x then O else Datatypes.S (upper_bound l' v)
  end.

(** [std::lower_bound(first, last, v) - first]: the length of the longest
    prefix of elements below [v]. *)
Fixpoint lower_bound (l : list SpinLabel) (v : SpinLabel) : nat :=
  match l with
  | [] => O
  | x :: l' => if ltb x v then Datatypes.S (lower_bound l' v) else O
  end.

(** One iteration of the loop of [collect].  The output built so far is
    [acc], last written entry first: its head is [quanta[k], n_states[k]],
    and the empty list is [k == -1]. *)
Definition collect_step (acc : list (SpinLabel * Z)) (e : SpinLabel * Z)
  : list (SpinLabel * Z) :=
  let '(q, v) := e in
  if v =? 0 then acc
  else match acc with
       | (qk, vk) :: rest =>
           if eqb q qk then (qk, Z.min (vk + v) 65535) :: rest
           else (q, v) :: acc
       | [] => [(q, v)]
       end.

(** The default argument of [collect]. *)
Definition collect_all : SpinLabel := 0x7FFFFFFF.

(** [void collect(SpinLabel target = 0x7FFFFFFF)] *)
Definition collect (s : StateInfo) (target : SpinLabel) : StateInfo :=
  let nn := upper_bound (quanta s) target in
  let kept := rev (fold_left collect_step (take nn (entries s)) []) in
  mkStateInfo kept (zsum (map snd kept)).

(** [int find_state(SpinLabel q) const] over an array of labels. *)
Definition find_in (qs : list SpinLabel) (q : SpinLabel) : Z :=
  let p := lower_bound qs q in
  match qs !! p with
  | Some x => if negb (eqb x q) then -1 else Z.of_nat p
  | None => -1
  end.

Definition find_state (s : StateInfo) (q : SpinLabel) : Z :=
  find_in (quanta s) q.

(** [n_states[idx]]; an index outside the array reads 0 here (in the
    source it reads outside the allocation). *)
Definition n_states_at (s : StateInfo) (idx : Z) : Z :=
  if idx <? 0 then 0 else nth (Z.to_nat idx) (n_states s) 0.

(** The entries [tensor_product] writes for one pair of labels. *)
Definition couple (ea eb : SpinLabel * Z) : list (SpinLabel * Z) :=
  let qc := add (fst ea) (fst eb) in
  map (fun k => (index qc (Z.of_nat k), Z.min (snd ea * snd eb) 65535))
      (seq 0 (Z.to_nat (count qc))).

(** The array [c] before it is sorted: the blocks of all pairs [(i, j)],
    in the order of the two loops. *)
Definition coupled_entries (a b : StateInfo) : list (SpinLabel * Z) :=
  flat_map (fun ea => flat_map (fun eb => couple ea eb) (entries b))
           (entries a).

(** [static StateInfo tensor_product(a, b, target)] *)
Definition tensor_product (a b : StateInfo) (target : SpinLabel) : StateInfo :=
  let c := mkStateInfo (coupled_entries a b) 0 in
  collect (sort_states c) target.

(** The inner loop of [filter]: the states of [other] over the labels of
    the range [qr]. *)
Definition coupled_count (other : StateInfo) (qr : SpinLabel) : Z :=
  for_lt (count qr)
    (fun k x =>
       let idx := find_state other (index qr k) in
       x + (if idx =? -1 then 0 else n_states_at other idx))
    0.

(** One of the two outer loops of [filter]: caps [n_states[i]] of [s]
    in place, reading [other]. *)
Definition filter_loop (s other : StateInfo) (target : SpinLabel) : StateInfo :=
  for_lt (n s)
    (fun i s =>
       match entries s !! Z.to_nat i with
       | Some (q, v) =>
           let x := coupled_count other (sub target q) in
           let v' := Z.min x v in
           mkStateInfo (<[Z.to_nat i := (q, v')]> (entries s))
                       (n_states_total s + v')
       | None => s
       end)
    (mkStateInfo (entries s) 0).

(** [static StateInfo filter(StateInfo &a, StateInfo &b, target)]: the two
    arguments after the call. *)
Definition filter (a b : StateInfo) (target : SpinLabel)
  : StateInfo * StateInfo :=
  let a' := filter_loop a b target in
  let b' := filter_loop b a' target in
  (a', b').

(** *** [filter] as the specification words it *)

(** [n_states] of [other] at the label [q], 0 when [q] is missing. *)
Definition states_at (other : StateInfo) (q : SpinLabel) : Z :=
  let idx := find_state other q in
  if idx =? -1 then 0 else n_states_at other idx.

(** Sum over the coupled labels of the range [qr]. *)
Definition coupled_sum (other : StateInfo) (qr : SpinLabel) : Z :=
  zsum (map (states_at other) (members qr)).

(** Each count becomes the minimum of its old value and the coupled sum. *)
Definition cap_entry (other : StateInfo) (target : SpinLabel)
  (e : SpinLabel * Z) : SpinLabel * Z :=
  (fst e, Z.min (snd e) (coupled_sum other (sub target (fst e)))).

Definition capped (s other : StateInfo) (target : SpinLabel) : StateInfo :=
  let es := map (cap_entry other target) (entries s) in
  mkStateInfo es (zsum (map snd es)).

(** First [a] against the original [b], then [b] against the new [a]. *)
Definition filter_sequential (a b : StateInfo) (target : SpinLabel)
  : StateInfo * StateInfo :=
  let a' := capped a b target in
  (a', capped b a' target).

(** The symmetric reading: both sides against the other's original. *)
Definition filter_snapshot (a b : StateInfo) (target : SpinLabel)
  : StateInfo * StateInfo :=
  (capped a b target, capped b a target).

(** Total dimension of a table: the sum of its [n_states]. *)
Definition dim (s : StateInfo) : Z := zsum (n_states s).

(** Sum over all pairs of labels of [count(qa + qb) * na * nb]. *)
Definition coupled_dim (a b : StateInfo) : Z :=
  zsum (map (fun ea =>
               zsum (map (fun eb =>
                            count (add (fst ea) (fst eb)) * (snd ea * snd eb))
                         (entries b)))
            (entries a)).

(** Sum of the counts that [l] holds for the label [q]. *)
Definition weight (l : list (SpinLabel * Z)) (q : SpinLabel) : Z :=
  zsum (map (fun e => if eqb (fst e) q then snd e else 0) l).

(** The coupled entries with the products [na * nb] not yet capped. *)
Definition couple_raw (ea eb : SpinLabel * Z) : list (SpinLabel * Z) :=
  let qc := add (fst ea) (fst eb) in
  map (fun k => (index qc (Z.of_nat k), snd ea * snd eb))
      (seq 0 (Z.to_nat (count qc))).

Definition raw_entries (a b : StateInfo) : list (SpinLabel * Z) :=
  flat_map (fun ea => flat_map (fun eb => couple_raw ea eb) (entries b))
           (entries a).

(** The spin-adapted basis of one site with irrep 0, as [Hamiltonian]
    builds it (quantum.hpp 1982-1988): empty, singly and doubly occupied. *)
Definition site_basis : StateInfo :=
  sort_states (mkStateInfo [(vacuum, 1); (mk 1 1 0, 1); (mk 2 0 0, 1)] 0).

(** A table as the code builds it: [uint16_t] counts. *)
Definition counts_ok (s : StateInfo) : Prop :=
  Forall (fun e => 0 <= snd e <= 65535) (entries s).

(** A table as [collect] leaves it: labels strictly increasing, every
    count a non-zero [uint16_t], the total the sum of the counts. *)
Definition collected (s : StateInfo) : Prop :=
  Sorted Z.lt (quanta s)
  /\ Forall (fun v => 1 <= v <= 65535) (n_states s)
  /\ n_states_total s = zsum (n_states s).

End State.

(** ** MPSInfo: the constructor (quantum.hpp 1724-1753) *)

Module MPS.
Import Label State.
Local Open Scope Z_scope.

(** The FCI part of [struct MPSInfo]: the two arrays of [n_sites + 1]
    tables. *)
Record MPSInfo : Type := mkMPSInfo {
  n_sites : Z;
  vaccum : SpinLabel;
  target : SpinLabel;
  left_dims_fci : list StateInfo;
  right_dims_fci : list StateInfo
}.

(** [basis[orbsym[i]]]; an index outside one of the two arrays reads the
    empty table here (in the source it reads outside the array). *)
Definition site (basis : list StateInfo) (orbsym : list Z) (i : nat)
  : StateInfo :=
  match orbsym !! i with
  | Some o =>
      if o <? 0 then mkStateInfo [] 0
      else match basis !! Z.to_nat o with
           | Some s => s
           | None => mkStateInfo [] 0
           end
  | None => mkStateInfo [] 0
  end.

(** The first loop: [left_dims_fci[0] = cur] and
    [left_dims_fci[i + 1] = tensor_product(left_dims_fci[i], site i, target)]. *)
Fixpoint lefts (target : SpinLabel) (cur : StateInfo) (sites : list StateInfo)
  : list StateInfo :=
  match sites with
  | [] => [cur]
  | s :: rest => cur :: lefts target (tensor_product cur s target) rest
  end.

(** The second loop, from the last site down:
    [right_dims_fci[n_sites] = last] and
    [right_dims_fci[i] = tensor_product(site i, right_dims_fci[i + 1], target)]. *)
Fixpoint rights (target : SpinLabel) (last : StateInfo) (sites : list StateInfo)
  : list StateInfo :=
  match sites with
  | [] => [last]
  | s :: rest =>
      let rs := rights target last rest in
      tensor_product s (hd last rs) target :: rs
  end.

(** [MPSInfo(int n_sites, SpinLabel vaccum, SpinLabel target,
    StateInfo *basis, uint8_t *orbsym)]: the two product loops, [filter]
    on every pair, [collect()] on every table. *)
Definition MPSInfo_new (n_sites : Z) (vaccum target : SpinLabel)
  (basis : list StateInfo) (orbsym : list Z) : MPSInfo :=
  let sites := map (site basis orbsym) (seq 0 (Z.to_nat n_sites)) in
  let l := lefts target (single vaccum) sites in
  let r := rights target (single vaccum) sites in
  let f := map (fun p => filter (fst p) (snd p) target) (List.combine l r) in
  mkMPSInfo n_sites vaccum target
            (map (fun p => collect (fst p) collect_all) f)
            (map (fun p => collect (snd p) collect_all) f).

(** A table of labels of one state each with spins at most [T], all
    below the default target of [collect], and [uint16_t] counts. *)
Definition spins_ok (T : Z) (s : StateInfo) : Prop :=
  counts_ok s
  /\ Forall (fun q => valid q /\ twos q <= T /\ q <= collect_all) (quanta s).

End MPS.

(** ** SparseMatrixInfo and SparseMatrix (quantum.hpp 1367-1514) *)

Module Sparse.

Import Label.
Local Open Scope Z_scope.

Record SparseMatrixInfo : Type := mkInfo {
  quanta : list SpinLabel;
  n_states_bra : list Z;        (* uint16_t * *)
  n_states_ket : list Z;        (* uint16_t * *)
  n_states_total : list Z;      (* uint32_t * *)
  delta_quantum : SpinLabel;
  is_fermion : bool;
  is_wavefunction : bool;
  n : Z
}.

(** Array reads; an index outside the array reads 0 here. *)
Definition at_ (l : list Z) (i : Z) : Z :=
  if i <? 0 then 0 else nth (Z.to_nat i) l 0.

(** The loop over [k] in [initialize]: [q] is overwritten by each
    accepted [set_twos_low] and pushed onto [qs]. *)
Definition push_bras (bra : State.StateInfo) (bs : SpinLabel)
  (st : SpinLabel * list SpinLabel) : SpinLabel * list SpinLabel :=
  for_lt (count bs)
    (fun k '(q, qs) =>
       if negb (State.find_state bra (index bs k) =? -1)
       then let q' := set_twos_low q (twos (index bs k)) in (q', qs ++ [q'])
       else (q, qs))
    st.

(** The labels one ket label [q] contributes: [q] with its [twos_low]
    byte set to the spin of each coupled bra label that [bra] holds. *)
Definition bras_of (bra : State.StateInfo) (bs q : SpinLabel) : list SpinLabel :=
  map (fun k => set_twos_low q (twos (index bs (Z.of_nat k))))
      (List.filter
         (fun k => negb (State.find_state bra (index bs (Z.of_nat k)) =? -1))
         (seq 0 (Z.to_nat (count bs)))).

(** The loop over the labels of [ket] in [initialize]. *)
Definition gather (bra ket : State.StateInfo) (dq : SpinLabel) (wfn : bool)
  : list SpinLabel :=
  fold_left
    (fun qs qk =>
       let q := if wfn then neg qk else qk in
       let bs := add dq q in
       snd (push_bras bra bs (q, qs)))
    (State.quanta ket) [].

(** [std::sort(quanta, quanta + n)] on the packed words. *)
Definition sort_labels (qs : list SpinLabel) : list SpinLabel :=
  merge_sort Z.le qs.

(** The loop that fills [n_states_total[1..n)]. *)
Definition fill_totals (nn : Z) (bra_dims ket_dims totals : list Z) : list Z :=
  for_lt (nn - 1)
    (fun i tot =>
       <[Z.to_nat (i + 1) := u32 (at_ tot i + at_ bra_dims i * at_ ket_dims i)]>
         tot)
    totals.

(** [void initialize(bra, ket, dq, is_fermion, wfn = false)] *)
Definition initialize (bra ket : State.StateInfo) (dq : SpinLabel)
  (fermion wfn : bool) : SparseMatrixInfo :=
  let qs := gather bra ket dq wfn in
  let nn := Z.of_nat (length qs) in
  if nn =? 0 then mkInfo [] [] [] [] dq fermion wfn 0
  else
    let sorted := sort_labels qs in
    let kets :=
      map (fun q =>
             State.n_states_at ket
               (State.find_state ket
                  (if wfn then neg (get_ket q) else get_ket q)))
          sorted in
    let bras :=
      map (fun q =>
             State.n_states_at bra (State.find_state bra (get_bra q dq)))
          sorted in
    let totals :=
      fill_totals nn bras kets (<[O := 0]> (replicate (length qs) 0)) in
    mkInfo sorted bras kets totals dq fermion wfn nn.

(** [int find_state(SpinLabel q, int start = 0) const] *)
Definition find_state (info : SparseMatrixInfo) (q : SpinLabel) (start : Z) : Z :=
  let p := (Z.to_nat start + State.lower_bound (drop (Z.to_nat start) (quanta info)) q)%nat in
  if (Z.of_nat p =? n info) then -1
  else match quanta info !! p with
       | Some x => if negb (eqb x q) then -1 else Z.of_nat p
       | None => -1
       end.

(** [uint32_t get_total_memory() const] *)
Definition get_total_memory (info : SparseMatrixInfo) : Z :=
  if n info =? 0 then 0
  else u32 (at_ (n_states_total info) (n info - 1)
            + at_ (n_states_bra info) (n info - 1)
              * at_ (n_states_ket info) (n info - 1)).

(** [MatrixRef]: a dense [m x n] view that starts at [offset] in the
    buffer of the matrix it was taken from. *)
Record MatrixRef : Type := mkRef {
  ref_offset : Z;
  ref_m : Z;
  ref_n : Z
}.

Record SparseMatrix : Type := mkSparse {
  info : SparseMatrixInfo;
  data : list float;
  factor : float;
  total_memory : Z;
  conj : bool
}.

(** [MatrixRef operator[](int idx) const] *)
Definition block_at (m : SparseMatrix) (idx : Z) : outcome MatrixRef :=
  if idx =? -1 then Abort AssertionFailed
  else Done (mkRef (at_ (n_states_total (info m)) idx)
                   (at_ (n_states_bra (info m)) idx)
                   (at_ (n_states_ket (info m)) idx)).

(** [MatrixRef operator[](SpinLabel q) const] *)
Definition block_of (m : SparseMatrix) (q : SpinLabel) : outcome MatrixRef :=
  block_at m (find_state (info m) q 0).

(** The invariant of the label table of a [StateInfo]: 32-bit words, no
    label twice, and the two spin bytes of a label agree. *)
Definition labels_ok (s : State.StateInfo) : Prop :=
  NoDup (State.quanta s)
  /\ Forall (fun q => 0 <= q < 0x100000000 /\ twos_low q = twos q)
            (State.quanta s).

(** A table of labels of one state each, strictly increasing: what
    [find_state] needs of the tables that [initialize] reads. *)
Definition table_ok (s : State.StateInfo) : Prop :=
  Sorted Z.lt (State.quanta s) /\ Forall valid (State.quanta s).

(** A table with strictly increasing labels that holds a range label:
    [(N=0, S=0~1)] and [(N=0, S=1)]. *)
Definition range_table : State.StateInfo :=
  State.mkStateInfo [(mk_range 0 0 2 0, 1); (mk 0 2 0, 1)] 2.

End Sparse.

(** ** MatrixFunctions and OperatorFunctions (quantum.hpp 29, 1516-1651) *)

Module OpFun.

Import Sparse.
Local Open Scope float_scope.

(** [#define TINY 1E-20] *)
Definition TINY : float := 1e-20.









Section Kernels.

(** The loops over the blocks of [c] (lines 1596-1643 and 1652-1690)
    weight their updates by [wigner_9j] and [racah] in [long double];
    they are taken as given.  Each receives the net scale and returns [c]
    after the call. *)
Variable tensor_product_blocks product_blocks :
  SparseMatrix -> SparseMatrix -> SparseMatrix -> float -> outcome SparseMatrix.

(** [void tensor_product(a, b, SparseMatrix &c, double scale)] *)
Definition tensor_product (a b c : SparseMatrix) (scale : float)
  : outcome SparseMatrix :=
  let scale := scale * factor a * factor b in
  if negb (factor c =? 1) then Abort AssertionFailed
  else if abs scale <? TINY then Done c
  else tensor_product_blocks a b c scale.


End Kernels.

(** A one-block matrix over the identity info of one site, for examples:
    three 1x1 blocks. *)
Definition site_info : SparseMatrixInfo :=
  initialize State.site_basis State.site_basis Label.vacuum false false.

Definition site_matrix (d : list float) (f : float) : SparseMatrix :=
  mkSparse site_info d f (get_total_memory site_info) false.

End OpFun.

(** ** Operator names of QCMPO (quantum.hpp 2397-2458, 2671-2763) *)

Module QC.

Import Label Expr.

(** The fields of [Hamiltonian] that the operator names read; [n_sites]
    is a [uint8_t]. *)
Record Hamiltonian : Type := mkHamiltonian {
  vaccum : SpinLabel;
  n_sites : nat;
  orb_sym : list Z
}.

(** [for (uint8_t j = lo; j < hi; j++) body] *)
Definition for_range {S : Type} (lo hi : nat) (body : nat -> S -> S) (s : S) : S :=
  fold_left (fun s j => body j s) (seq lo (hi - lo)) s.

Section Names.
Variable hamil : Hamiltonian.

Definition sym (m : nat) : Z := nth m (orb_sym hamil) 0%Z.
Definition site (m : nat) : Z := Z.of_nat m.

Definition h_op : OpElement := OpElement_new H [] (vaccum hamil).
Definition i_op : OpElement := OpElement_new I [] (vaccum hamil).
Definition c_op (m : nat) : OpElement :=
  OpElement_new C [site m] (mk 1 1 (sym m)).
Definition d_op (m : nat) : OpElement :=
  OpElement_new D [site m] (mk (-1) 1 (sym m)).
Definition mc_op (m : nat) : OpElement :=
  mkOpElement C [site m] (-1)%float (mk 1 1 (sym m)).
Definition md_op (m : nat) : OpElement :=
  mkOpElement D [site m] (-1)%float (mk (-1) 1 (sym m)).
Definition trd_op (m : nat) : OpElement :=
  mkOpElement RD [site m] 2%float (mk 1 1 (sym m)).
Definition tr_op (m : nat) : OpElement :=
  mkOpElement R [site m] 2%float (mk (-1) 1 (sym m)).

(** The two-index operators [x_op[i][j][s]], [s] in 0..1. *)
Definition pair_op (nm : OpNames) (dn : Z) (i j s : nat) : OpElement :=
  OpElement_new nm [site i; site j; site s]
    (mk dn (Z.of_nat s * 2) (Z.lxor (sym i) (sym j))).

Definition a_op := pair_op A 2.
Definition ad_op := pair_op AD (-2).
Definition b_op := pair_op B 0.
Definition p_op := pair_op P (-2).
Definition pd_op := pair_op PD 2.
Definition q_op := pair_op Q 0.

(** [vector<double> su2_factor{-0.5, -0.5 * sqrt(3)}], then
    [su2_factor = {1.0, sqrt(3)}]. *)
Definition su2_factor_p (s : nat) : float :=
  nth s [(-0.5)%float; (-0.5 * PrimFloat.sqrt 3)%float] 0%float.
Definition su2_factor_q (s : nat) : float :=
  nth s [1%float; PrimFloat.sqrt 3] 0%float.

Definition lshape (m : nat) : nat := 2 + 2 * n_sites hamil + 6 * m * m.
Definition rshape (m : nat) : nat :=
  2 + 2 * n_sites hamil + 6 * (m + 1) * (m + 1).

(** A vector under construction and the running offset [p]. *)
Definition cursor : Type := list OpExpr * nat.

(** [for (j = lo; j < hi; j++) v[p + j - lo] = f(j); p += hi - lo;] *)
Definition write_run (lo hi : nat) (f : nat -> OpExpr) (st : cursor) : cursor :=
  let '(v, p) := st in
  (for_range lo hi (fun j v => <[p + j - lo := f j]> v) v, p + (hi - lo)).

(** [for (s = 0; s < 2; s++) for (j = 0; j < w; j++) {
       for (k = 0; k < w; k++) v[p + k] = f(j, k, s); p += w; }] *)
Definition write_blocks (w : nat) (f : nat -> nat -> nat -> OpExpr)
  (st : cursor) : cursor :=
  for_range 0 2
    (fun s st =>
       for_range 0 w
         (fun j '(v, p) =>
            (for_range 0 w (fun k v => <[p + k := f j k s]> v) v, p + w))
         st)
    st.

(** The row vector [lop] built at site [m] (lines 2674-2721). *)
Definition left_operator_names (m : nat) : list OpExpr :=
  let size := if Nat.eqb m (n_sites hamil - 1) then 1 else rshape m in
  let v := <[0 := Elem h_op]> (replicate size Zero) in
  if negb (Nat.eqb m (n_sites hamil - 1)) then
    let v := <[1 := Elem i_op]> v in
    let st := (v, 2) in
    let st := write_run 0 (m + 1) (fun j => Elem (c_op j)) st in
    let st := write_run 0 (m + 1) (fun j => Elem (d_op j)) st in
    let st := write_run (m + 1) (n_sites hamil) (fun j => Elem (trd_op j)) st in
    let st := write_run (m + 1) (n_sites hamil) (fun j => Elem (tr_op j)) st in
    let st := write_blocks (m + 1) (fun j k s => Elem (a_op j k s)) st in
    let st := write_blocks (m + 1) (fun j k s => Elem (ad_op j k s)) st in
    let st := write_blocks (m + 1) (fun j k s => Elem (b_op j k s)) st in
    fst st
  else v.

(** The column vector [rop] built at site [m] (lines 2675-2759). *)
Definition right_operator_names (m : nat) : list OpExpr :=
  let size := if Nat.eqb m 0 then 1 else lshape m in
  let v := <[0 := Elem i_op]> (replicate size Zero) in
  if negb (Nat.eqb m 0) then
    let v := <[1 := Elem h_op]> v in
    let st := (v, 2) in
    let st := write_run 0 m (fun j => Elem (tr_op j)) st in
    let st := write_run 0 m (fun j => Elem (trd_op j)) st in
    let st := write_run m (n_sites hamil) (fun j => Elem (d_op j)) st in
    let st := write_run m (n_sites hamil) (fun j => Elem (c_op j)) st in
    let st := write_blocks m
                (fun j k s => lmul (su2_factor_p s) (Elem (p_op j k s))) st in
    let st := write_blocks m
                (fun j k s => lmul (su2_factor_p s) (Elem (pd_op j k s))) st in
    let st := write_blocks m
                (fun j k s => lmul (su2_factor_q s) (Elem (q_op j k s))) st in
    fst st
  else v.

(** The entries [write_blocks] writes, in the order of its loops. *)
Definition blocks (w : nat) (f : nat -> nat -> nat -> OpExpr) : list OpExpr :=
  flat_map (fun s => flat_map (fun j => map (fun k => f j k s) (seq 0 w))
                              (seq 0 w))
           (seq 0 2).

(** The two vectors as lists of segments. *)
Definition left_segments (m : nat) : list OpExpr :=
  [Elem h_op; Elem i_op]
  ++ map (fun j => Elem (c_op j)) (seq 0 (m + 1))
  ++ map (fun j => Elem (d_op j)) (seq 0 (m + 1))
  ++ map (fun j => Elem (trd_op j)) (seq (m + 1) (n_sites hamil - (m + 1)))
  ++ map (fun j => Elem (tr_op j)) (seq (m + 1) (n_sites hamil - (m + 1)))
  ++ blocks (m + 1) (fun j k s => Elem (a_op j k s))
  ++ blocks (m + 1) (fun j k s => Elem (ad_op j k s))
  ++ blocks (m + 1) (fun j k s => Elem (b_op j k s)).

Definition right_segments (m : nat) : list OpExpr :=
  [Elem i_op; Elem h_op]
  ++ map (fun j => Elem (tr_op j)) (seq 0 m)
  ++ map (fun j => Elem (trd_op j)) (seq 0 m)
  ++ map (fun j => Elem (d_op j)) (seq m (n_sites hamil - m))
  ++ map (fun j => Elem (c_op j)) (seq m (n_sites hamil - m))
  ++ blocks m (fun j k s => lmul (su2_factor_p s) (Elem (p_op j k s)))
  ++ blocks m (fun j k s => lmul (su2_factor_p s) (Elem (pd_op j k s)))
  ++ blocks m (fun j k s => lmul (su2_factor_q s) (Elem (q_op j k s))).

End Names.

(** A vector whose first entries are [X], followed by [r] entries not
    yet written, with the offset at the first of them. *)
Definition filled (X : list OpExpr) (r : nat) (st : cursor) : Prop :=
  st = (X ++ replicate r Zero, length X).

(** The operator of the right block that the name of a left-block
    operator is paired with. *)
Definition partner (nm : OpNames) : OpNames :=
  match nm with
  | H => I | I => H
  | C => R | R => C
  | D => RD | RD => D
  | A => P | AD => PD | B => Q
  | other => other
  end.

(** Two entries at the same index: elements on the same sites whose
    names are partners. *)
Definition complementary (x y : OpExpr) : Prop :=
  match x, y with
  | Elem ex, Elem ey =>
      name ey = partner (name ex) /\ site_index ey = site_index ex
  | _, _ => False
  end.

(** A four-orbital Hamiltonian without point-group symmetry. *)
Definition toy : Hamiltonian := mkHamiltonian vacuum 4 [0; 0; 0; 0]%Z.

(** The spin index [s] of a two-index operator: its third site index. *)
Definition spin_index (e : OpElement) : Z := nth 2 (site_index e) 0%Z.

(** The scalar factor of an entry of the left vector, by its name: 2.0
    on [RD] and [R], 1.0 on the others. *)
Definition left_factor (e : OpElement) : float :=
  match name e with
  | R | RD => 2%float
  | _ => 1%float
  end.

(** The scalar factor of an entry of the right vector, by its name and
    spin index: 2.0 on [R] and [RD]; [-0.5] and [-0.5 * sqrt(3)] on [P]
    and [PD]; [1.0] and [sqrt(3)] on [Q]; 1.0 on the others. *)
Definition right_factor (e : OpElement) : float :=
  match name e with
  | R | RD => 2%float
  | P | PD =>
      if (spin_index e =? 0)%Z then (-0.5)%float
      else (-0.5 * PrimFloat.sqrt 3)%float
  | Q => if (spin_index e =? 0)%Z then 1%float else PrimFloat.sqrt 3
  | _ => 1%float
  end.

(** Two entries at the same index carry the factors their sides
    assign. *)
Definition factors_assigned (x y : OpExpr) : Prop :=
  match x, y with
  | Elem ex, Elem ey =>
      factor ex = left_factor ex /\ factor ey = right_factor ey
  | _, _ => False
  end.

End QC.

(** ** Theorems *)

Section AllocFacts.
Import Alloc.
Local Open Scope Z_scope.

Lemma deallocate_top (a : StackAllocator) (ptr n : Z) :
  0 < n -> n <= used a -> ptr = data a + used a - n ->
  deallocate a ptr n = Done (set_used a (used a - n)).
Proof.
  intros Hn Hu ->. unfold deallocate.
  destruct (Z.eqb_spec n 0) as [E|_]; [lia|].
  destruct (Z.ltb_spec (used a) n) as [L|_]; [lia|].
  rewrite Z.eqb_refl. reflexivity.
Qed.

Lemma deallocate_not_top (a : StackAllocator) (ptr n : Z) :
  0 < n -> ~ (n <= used a /\ ptr = data a + used a - n) ->
  deallocate a ptr n = Abort DeallocNotReverse.
Proof.
  intros Hn Hnot. unfold deallocate.
  destruct (Z.eqb_spec n 0) as [E|_]; [lia|].
  destruct (Z.ltb_spec (used a) n) as [L|G]; [reflexivity|].
  destruct (Z.eqb_spec ptr (data a + used a - n)) as [E|_]; [|reflexivity].
  exfalso. apply Hnot. split; [lia|exact E].
Qed.

Lemma allocate_fits (a : StackAllocator) (n : Z) :
  shift a = 0 -> 0 <= used a -> 0 <= n -> used a + n < size a ->
  used a + n < size_max ->
  allocate a n = Done (data a + used a, set_used a (used a + n)).
Proof.
  intros Hs Hu Hn Hfit Hmax. unfold allocate.
  rewrite Hs, (Z.mod_small (used a + n)) by lia. cbn.
  destruct (Z.geb_spec (used a + n) (size a)); [lia|].
  replace (used a + n - n) with (used a) by lia.
  rewrite Z.mod_small by lia. reflexivity.
Qed.

Lemma three_blocks (base max_size : Z) :
  60 < max_size ->
  allocate (init base max_size) 10 = Done (base, mkAlloc max_size 10 0 base)
  /\ allocate (mkAlloc max_size 10 0 base) 20
      = Done (base + 10, mkAlloc max_size 30 0 base)
  /\ allocate (mkAlloc max_size 30 0 base) 30
      = Done (base + 30, mkAlloc max_size 60 0 base).
Proof.
  intros Hm. unfold init.
  repeat split.
  - rewrite allocate_fits; cbn; try lia; [|unfold size_max; lia].
    unfold set_used; cbn. do 2 f_equal. lia.
  - rewrite allocate_fits; cbn; try lia; [|unfold size_max; lia].
    reflexivity.
  - rewrite allocate_fits; cbn; try lia; [|unfold size_max; lia].
    reflexivity.
Qed.

Lemma free_first_of_three_aborts (base max_size : Z) :
  60 < max_size ->
  free_first_of_three (init base max_size) 10 20 30 = Abort DeallocNotReverse.
Proof.
  intros Hm. destruct (three_blocks base max_size Hm) as (H1 & H2 & H3).
  unfold free_first_of_three, mbind, outcome_bind.
  rewrite H1; cbn [obind]. rewrite H2; cbn [obind]. rewrite H3; cbn [obind].
  apply deallocate_not_top; cbn; lia.
Qed.

Lemma free_three_in_reverse_ok (base max_size : Z) :
  60 < max_size ->
  free_three_in_reverse (init base max_size) 10 20 30 = Done (init base max_size).
Proof.
  intros Hm. destruct (three_blocks base max_size Hm) as (H1 & H2 & H3).
  unfold free_three_in_reverse, mbind, outcome_bind.
  rewrite H1; cbn [obind]. rewrite H2; cbn [obind]. rewrite H3; cbn [obind].
  rewrite deallocate_top by (cbn; lia). cbn [obind set_used size used shift data].
  replace (60 - 30) with 30 by lia.
  rewrite deallocate_top by (cbn; lia). cbn [obind set_used size used shift data].
  replace (30 - 20) with 10 by lia.
  rewrite deallocate_top by (cbn; lia). reflexivity.
Qed.

(** C1. For [n > 0], [deallocate ptr n] lowers [used] by [n] exactly when
    [used >= n] and [ptr = data + used - n]; every other pointer takes the
    fatal "deallocation not happening in reverse order" path and frees
    nothing.  After allocating 10, 20, 30 from a fresh arena, freeing the
    size-10 block first is fatal, while freeing in reverse order succeeds. *)
Theorem deallocate_reverse_order (a : StackAllocator) (ptr n : Z) (Hn : 0 < n) :
  ((exists a', deallocate a ptr n = Done a' /\ used a' = used a - n)
     <-> (n <= used a /\ ptr = data a + used a - n))
  /\ ((n <= used a /\ ptr = data a + used a - n) ->
        deallocate a ptr n = Done (set_used a (used a - n)))
  /\ (~ (n <= used a /\ ptr = data a + used a - n) ->
        deallocate a ptr n = Abort DeallocNotReverse)
  /\ (forall base max_size, 60 < max_size ->
        free_first_of_three (init base max_size) 10 20 30
          = Abort DeallocNotReverse
        /\ free_three_in_reverse (init base max_size) 10 20 30
          = Done (init base max_size)).
Proof.
  split; [split|split; [|split]].
  - intros (a' & Hd & _).
    destruct (Z_le_dec n (used a)) as [Hu|Hu];
      [destruct (Z.eq_dec ptr (data a + used a - n)) as [E|E]|].
    + split; assumption.
    + rewrite deallocate_not_top in Hd by tauto. discriminate.
    + rewrite deallocate_not_top in Hd by tauto. discriminate.
  - intros [Hu E]. exists (set_used a (used a - n)).
    split; [apply deallocate_top; assumption|reflexivity].
  - intros [Hu E]. apply deallocate_top; assumption.
  - apply deallocate_not_top; assumption.
  - intros base max_size Hm. split.
    + apply free_first_of_three_aborts; assumption.
    + apply free_three_in_reverse_ok; assumption.
Qed.

Lemma deallocate_reverse_order_witness :
  0 < 30 /\
  deallocate (mkAlloc 100 60 0 1000) 1030 30 = Done (mkAlloc 100 30 0 1000) /\
  deallocate (mkAlloc 100 60 0 1000) 1000 10 = Abort DeallocNotReverse.
Proof.
  split; [lia|]. split.
  - apply (proj1 (proj2 (deallocate_reverse_order
                           (mkAlloc 100 60 0 1000) 1030 30 ltac:(lia)))).
    cbn. lia.
  - reflexivity.
Defined.

End AllocFacts.

(** ** Bit fields as arithmetic *)

Section BitFields.
Local Open Scope Z_scope.

Lemma land_field (x k w : Z) :
  0 <= k -> 0 <= w ->
  Z.land x (Z.shiftl (Z.ones w) k) = ((x / 2 ^ k) mod 2 ^ w) * 2 ^ k.
Proof.
  intros Hk Hw.
  rewrite <- Z.shiftl_mul_pow2, <- Z.land_ones, <- Z.shiftr_div_pow2 by lia.
  Z.bitblast.
Qed.

Lemma lor_fields (hi lo k : Z) :
  0 <= k -> 0 <= lo < 2 ^ k -> Z.lor (hi * 2 ^ k) lo = hi * 2 ^ k + lo.
Proof.
  intros Hk Hlo. rewrite <- Z.shiftl_mul_pow2 by lia. apply Z.or_to_plus.
  rewrite <- (Z.mod_small lo (2 ^ k)) by lia.
  Z.bitblast. rewrite (Z.testbit_neg_r hi) by lia. reflexivity.
Qed.

Lemma lor_mid (h lo mid k1 k2 : Z) :
  0 <= k1 <= k2 -> 0 <= lo < 2 ^ k1 -> 0 <= mid * 2 ^ k1 + lo < 2 ^ k2 ->
  Z.lor (h * 2 ^ k2 + lo) (mid * 2 ^ k1) = h * 2 ^ k2 + mid * 2 ^ k1 + lo.
Proof.
  intros Hk Hlo Hmid.
  assert (0 < 2 ^ k1) by (apply Z.pow_pos_nonneg; lia).
  assert (2 ^ k1 <= 2 ^ k2) by (apply Z.pow_le_mono_r; lia).
  rewrite <- (lor_fields h lo k2), <- Z.lor_assoc, (Z.lor_comm lo) by lia.
  rewrite (lor_fields mid lo k1), (lor_fields h _ k2) by lia. lia.
Qed.

Lemma land_FF x : Z.land x 0xFF = x mod 256.
Proof. apply (Z.land_ones x 8). lia. Qed.

Lemma land_FFFFFF x : Z.land x 0xFFFFFF = x mod 16777216.
Proof. apply (Z.land_ones x 24). lia. Qed.

Lemma land_FF00 x : Z.land x 0xFF00 = ((x / 256) mod 256) * 256.
Proof. apply (land_field x 8 8); lia. Qed.

Lemma land_FF0000 x : Z.land x 0xFF0000 = ((x / 65536) mod 256) * 65536.
Proof. apply (land_field x 16 8); lia. Qed.

Lemma land_FF000000 x :
  Z.land x 0xFF000000 = ((x / 16777216) mod 256) * 16777216.
Proof. apply (land_field x 24 8); lia. Qed.

Lemma land_FF00FF00 x :
  Z.land x 0xFF00FF00
  = ((x / 16777216) mod 256) * 16777216 + ((x / 256) mod 256) * 256.
Proof.
  change 0xFF00FF00 with (Z.lor 0xFF000000 0xFF00).
  rewrite Z.land_lor_distr_r, land_FF000000, land_FF00.
  apply (lor_fields _ _ 24); [lia|].
  change (2 ^ 24) with 16777216. Z.div_mod_to_equations. lia.
Qed.

Lemma land_FF00FFFF x :
  Z.land x 0xFF00FFFF
  = ((x / 16777216) mod 256) * 16777216 + x mod 65536.
Proof.
  change 0xFF00FFFF with (Z.lor 0xFF000000 (Z.ones 16)).
  rewrite Z.land_lor_distr_r, land_FF000000, Z.land_ones by lia.
  apply (lor_fields _ _ 24); [lia|].
  change (2 ^ 24) with 16777216. change (2 ^ 16) with 65536.
  Z.div_mod_to_equations. lia.
Qed.

Lemma land_FFFF00FF x :
  Z.land x 0xFFFF00FF
  = ((x / 65536) mod 65536) * 65536 + x mod 256.
Proof.
  change 0xFFFF00FF with (Z.lor (Z.shiftl (Z.ones 16) 16) (Z.ones 8)).
  rewrite Z.land_lor_distr_r, land_field, Z.land_ones by lia.
  apply (lor_fields _ _ 16); [lia|].
  change (2 ^ 16) with 65536. change (2 ^ 8) with 256.
  Z.div_mod_to_equations. lia.
Qed.

Lemma shiftr_div (x k : Z) : 0 <= k -> Z.shiftr x k = x / 2 ^ k.
Proof. apply Z.shiftr_div_pow2. Qed.

Lemma shiftl_mul (x k : Z) : 0 <= k -> Z.shiftl x k = x * 2 ^ k.
Proof. apply Z.shiftl_mul_pow2. Qed.

Lemma lxor_byte (a b : Z) :
  0 <= a < 256 -> 0 <= b < 256 -> 0 <= Z.lxor a b < 256.
Proof.
  intros Ha Hb. split; [apply Z.lxor_nonneg; lia|].
  assert (Z.lxor a b = Z.lxor a b mod 2 ^ 8) as ->.
  { rewrite <- (Z.mod_small a (2 ^ 8)), <- (Z.mod_small b (2 ^ 8)) by lia.
    Z.bitblast. }
  apply Z.mod_pos_bound. lia.
Qed.

End BitFields.

Section LabelFacts.
Import Label.
Local Open Scope Z_scope.

Lemma not32_eq (q : Z) : 0 <= q < 0x100000000 -> not32 q = 0xFFFFFFFF - q.
Proof.
  intros Hq. unfold not32, u32.
  replace (Z.lnot q) with (- q - 1) by (unfold Z.lnot; lia).
  zdm.
Qed.

Lemma neg_fields (q : SpinLabel) :
  0 <= q < 0x100000000 ->
  neg q = ((256 - q / 16777216) mod 256) * 16777216 + q mod 16777216.
Proof.
  intros Hq. unfold neg. rewrite not32_eq by assumption.
  rewrite land_FFFFFF, land_FF000000. unfold u32.
  change (Z.shiftl 1 24) with 16777216.
  rewrite Z.lor_comm.
  rewrite (lor_fields _ _ 24) by (change (2 ^ 24) with 16777216; zdm).
  change (2 ^ 24) with 16777216. zdm.
Qed.

Lemma neg_range (q : SpinLabel) :
  0 <= q < 0x100000000 -> 0 <= neg q < 0x100000000.
Proof. intros Hq. rewrite neg_fields by assumption. zdm. Qed.

Lemma neg_neg (q : SpinLabel) : 0 <= q < 0x100000000 -> neg (neg q) = q.
Proof.
  intros Hq. rewrite (neg_fields (neg q)) by (apply neg_range; assumption).
  rewrite neg_fields by assumption. zdm.
Qed.

Lemma twos_div (q : SpinLabel) : twos q = (q / 256) mod 256.
Proof. unfold twos. rewrite land_FF, shiftr_div by lia. reflexivity. Qed.

Lemma twos_low_div (q : SpinLabel) : twos_low q = (q / 65536) mod 256.
Proof. unfold twos_low. rewrite land_FF, shiftr_div by lia. reflexivity. Qed.

Lemma add_neg_self (q : SpinLabel) :
  valid q -> add q (neg q) = twos q * 512.
Proof.
  intros (Hq & Hlow & Hs).
  rewrite twos_low_div in Hlow. rewrite twos_div in Hlow, Hs |- *.
  pose proof (neg_fields q Hq) as Hn.
  assert (neg q mod 256 = q mod 256) as H1 by (rewrite Hn; zdm).
  assert ((neg q / 256) mod 256 = (q / 256) mod 256) as H2 by (rewrite Hn; zdm).
  assert ((neg q / 65536) mod 256 = (q / 65536) mod 256) as H3
    by (rewrite Hn; zdm).
  assert ((neg q / 16777216) mod 256 = (256 - q / 16777216) mod 256) as H4
    by (rewrite Hn; zdm).
  unfold add.
  rewrite !land_FF00FF00, !land_FF, !land_FF00, !land_FF0000.
  rewrite !shiftl_mul by lia. change (2 ^ 8) with 256.
  rewrite H1, H2, H3, H4, Z.lxor_nilpotent, Z.lor_0_r.
  replace ((q / 256) mod 256 * 256 * 256 - (q / 65536) mod 256 * 65536)
    with 0 by lia.
  change (Z.min (abs_field (u32 0)) (abs_field (u32 0))) with 0.
  rewrite Z.lor_0_r. unfold u32. zdm.
Qed.

Lemma count_spin_range (s : Z) : 0 <= s < 128 -> count (s * 512) = s + 1.
Proof.
  intros Hs. unfold count, u32.
  rewrite !shiftr_div by lia.
  change 0x7F with (Z.ones 7). rewrite Z.land_ones by lia.
  change (2 ^ 9) with 512. change (2 ^ 17) with 131072. change (2 ^ 7) with 128.
  zdm.
Qed.

Lemma index_spin_range_0 (s : Z) : 0 <= s < 128 -> index (s * 512) 0 = 0.
Proof.
  intros Hs. unfold index, u32. change (Z.shiftl 0 17) with 0.
  rewrite Z.add_0_r, land_FFFF00FF, land_FF0000, shiftr_div by lia.
  replace (((s * 512) mod 4294967296 / 65536) mod 256 * 65536 / 2 ^ 8)
    with 0 by (change (2 ^ 8) with 256; zdm).
  rewrite Z.lor_0_r. zdm.
Qed.

Lemma members_head (q : SpinLabel) :
  1 <= count q -> In (index q 0) (members q).
Proof.
  intros Hc. unfold members.
  apply in_map_iff. exists O. split; [reflexivity|].
  apply in_seq. lia.
Qed.

Example mk_1_1_0 : mk 1 1 0 = 0x01010100.
Proof. reflexivity. Qed.
Example mk_m1 : mk (-1) 1 3 = 0xFF010103.
Proof. reflexivity. Qed.
Example n_m1 : n (mk (-1) 1 3) = -1.
Proof. reflexivity. Qed.
Example add_half_half : add (mk 1 1 0) (mk 1 1 0) = mk_range 2 0 2 0.
Proof. reflexivity. Qed.
Example count_half_half : count (add (mk 1 1 0) (mk 1 1 0)) = 2.
Proof. reflexivity. Qed.
Example members_half_half :
  members (add (mk 1 1 0) (mk 1 1 0)) = [mk 2 0 0; mk 2 2 0].
Proof. reflexivity. Qed.
Example neg_ex : neg (mk 3 1 5) = mk (-3) 1 5.
Proof. reflexivity. Qed.
Example add_neg_ex : add (mk 3 4 5) (neg (mk 3 4 5)) = mk_range 0 0 8 0.
Proof. reflexivity. Qed.
Example add_1_3 : members (add (mk 1 1 0) (mk 1 3 0)) = [mk 2 2 0; mk 2 4 0].
Proof. reflexivity. Qed.

Lemma valid_doublet : valid (mk 1 1 0).
Proof. unfold valid. cbv. repeat split; discriminate. Defined.

(** The range [q + (-q)] of a range label, and of a spin whose doubled
    value overflows its byte. *)
Example add_neg_range_label :
  members (add (mk_range 0 0 2 0) (neg (mk_range 0 0 2 0)))
  = [mk 0 2 0; mk 0 4 0].
Proof. reflexivity. Qed.

Example add_neg_spin_128 :
  members (add (mk 0 128 0) (neg (mk 0 128 0))) = [mk 0 1 0].
Proof. reflexivity. Qed.

End LabelFacts.

Section CGFacts.
Import CG.
Local Open Scope Z_scope.

Lemma land_1_odd (x : Z) : (Z.land x 1 =? 0) = negb (Z.odd x).
Proof.
  change 1 with (Z.ones 1) at 1. rewrite Z.land_ones by lia.
  change (2 ^ 1) with 2. rewrite Zmod_odd. destruct (Z.odd x); reflexivity.
Qed.

(** [triangle] is the parity rule together with the triangle inequality. *)
Lemma triangle_spec (tja tjb tjc : Z) :
  triangle tja tjb tjc = true
  <-> Z.even (tja + tjb + tjc) = true
      /\ tjc <= tja + tjb /\ Z.abs (tja - tjb) <= tjc.
Proof.
  unfold triangle. rewrite land_1_odd, negb_involutive, <- Z.negb_even.
  rewrite negb_involutive, !andb_true_iff, Z.leb_le, Z.geb_le. tauto.
Qed.

Section Selection.
Context {F : Type} `{LongDouble F}.
Variable sqrt_fact : Z -> F.

Lemma wigner_3j_zero (tja tjb tjc tma tmb tmc : Z) :
  tma + tmb + tmc <> 0 \/ triangle tja tjb tjc = false
  \/ Z.odd (tja + tma) = true \/ Z.odd (tjb + tmb) = true
  \/ Z.odd (tjc + tmc) = true ->
  wigner_3j sqrt_fact tja tjb tjc tma tmb tmc = ld_of_int 0.
Proof.
  intros Hsel. unfold wigner_3j. rewrite !land_1_odd, !negb_involutive.
  destruct (Z.eqb_spec (tma + tmb + tmc) 0) as [E|E]; [|reflexivity].
  destruct Hsel as [Hm|[Ht|[Ha|[Hb|Hc]]]].
  - contradiction.
  - rewrite Ht. reflexivity.
  - rewrite Ha, orb_true_r. reflexivity.
  - rewrite Hb, !orb_true_r. reflexivity.
  - rewrite Hc, !orb_true_r. reflexivity.
Qed.

Lemma wigner_6j_zero (tja tjb tjc tjd tje tjf : Z) :
  triangle tja tjb tjc = false \/ triangle tja tje tjf = false
  \/ triangle tjd tjb tjf = false \/ triangle tjd tje tjc = false ->
  wigner_6j sqrt_fact tja tjb tjc tjd tje tjf = ld_of_int 0.
Proof.
  intros Hsel. unfold wigner_6j.
  destruct Hsel as [Ht|[Ht|[Ht|Ht]]]; rewrite Ht; cbn [negb];
    rewrite ?orb_true_r; reflexivity.
Qed.

Lemma wigner_9j_zero (tja tjb tjc tjd tje tjf tjg tjh tji : Z) :
  triangle tja tjb tjc = false \/ triangle tjd tje tjf = false
  \/ triangle tjg tjh tji = false \/ triangle tja tjd tjg = false
  \/ triangle tjb tje tjh = false \/ triangle tjc tjf tji = false ->
  wigner_9j sqrt_fact tja tjb tjc tjd tje tjf tjg tjh tji = ld_of_int 0.
Proof.
  intros Hsel. unfold wigner_9j.
  destruct Hsel as [Ht|[Ht|[Ht|[Ht|[Ht|Ht]]]]]; rewrite Ht; cbn [negb];
    rewrite ?orb_true_r; reflexivity.
Qed.

End Selection.

(** C5. [wigner_3j], [wigner_6j] and [wigner_9j] return exactly 0 when a
    selection rule fails: for [wigner_3j] a non-zero sum of the projections,
    a (j, m) pair of mixed parity or a failed triangle condition; for
    [wigner_6j] and [wigner_9j] any failed triangle condition among their
    four, respectively six, triples.  This holds for every content of the
    [sqrt_fact] table and every [long double] arithmetic. *)
Theorem wigner_selection_rules (F : Type) (LD : LongDouble F)
  (sqrt_fact : Z -> F) :
  (forall tja tjb tjc tma tmb tmc,
      tma + tmb + tmc <> 0 \/ triangle tja tjb tjc = false
      \/ Z.odd (tja + tma) = true \/ Z.odd (tjb + tmb) = true
      \/ Z.odd (tjc + tmc) = true ->
      wigner_3j sqrt_fact tja tjb tjc tma tmb tmc = ld_of_int 0)
  /\ (forall tja tjb tjc tjd tje tjf,
      triangle tja tjb tjc = false \/ triangle tja tje tjf = false
      \/ triangle tjd tjb tjf = false \/ triangle tjd tje tjc = false ->
      wigner_6j sqrt_fact tja tjb tjc tjd tje tjf = ld_of_int 0)
  /\ (forall tja tjb tjc tjd tje tjf tjg tjh tji,
      triangle tja tjb tjc = false \/ triangle tjd tje tjf = false
      \/ triangle tjg tjh tji = false \/ triangle tja tjd tjg = false
      \/ triangle tjb tje tjh = false \/ triangle tjc tjf tji = false ->
      wigner_9j sqrt_fact tja tjb tjc tjd tje tjf tjg tjh tji = ld_of_int 0).
Proof.
  split; [|split].
  - apply wigner_3j_zero.
  - apply wigner_6j_zero.
  - apply wigner_9j_zero.
Qed.

Lemma wigner_selection_rules_witness :
  (1 + 0 + 0 <> 0 /\ wigner_3j small_sqrt_fact 2 2 2 1 0 0 = 0%float)
  /\ (triangle 2 2 6 = false
      /\ wigner_6j small_sqrt_fact 2 2 6 2 2 2 = 0%float)
  /\ (triangle 1 1 1 = false
      /\ wigner_9j small_sqrt_fact 1 1 1 1 1 2 2 2 2 = 0%float).
Proof.
  pose proof (wigner_selection_rules float float_LongDouble small_sqrt_fact)
    as (H3 & H6 & H9).
  split; [|split].
  - split; [lia|]. apply (H3 2 2 2 1 0 0). left. lia.
  - split; [reflexivity|]. apply (H6 2 2 6 2 2 2). left. reflexivity.
  - split; [reflexivity|]. apply (H9 1 1 1 1 1 2 2 2 2). left. reflexivity.
Defined.

End CGFacts.

(** ** binary64 arithmetic used by the scalar factors *)

Section Binary64Facts.
Import Binary64.
Local Open Scope Z_scope.



Lemma fexp64_eq (e : Z) : fexp64 e = Z.max (e - 53) (-1074).
Proof. reflexivity. Qed.

Lemma iter_pos_comm {A : Type} (f : A -> A) (p : positive) (x : A) :
  f (SpecFloat.iter_pos f p x) = SpecFloat.iter_pos f p (f x).
Proof.
  revert x. induction p as [p IH|p IH|]; intros x; cbn [SpecFloat.iter_pos].
  - rewrite !IH. reflexivity.
  - rewrite !IH. reflexivity.
  - reflexivity.
Qed.

Lemma iter_pos_succ {A : Type} (f : A -> A) (p : positive) (x : A) :
  SpecFloat.iter_pos f (Pos.succ p) x = SpecFloat.iter_pos f p (f x).
Proof.
  revert x. induction p as [p IH|p IH|]; intros x.
  - change (SpecFloat.iter_pos f (Pos.succ p) (SpecFloat.iter_pos f (Pos.succ p) x)
            = SpecFloat.iter_pos f p (SpecFloat.iter_pos f p (f (f x)))).
    rewrite !IH, iter_pos_comm. reflexivity.
  - reflexivity.
  - reflexivity.
Qed.

(** shifting right by one more than [n >= 0] *)
Lemma shr_succ (mrs : shr_record) (e n : Z) :
  0 <= n -> shr mrs e (n + 1) = shr (shr_1 mrs) (e + 1) n.
Proof.
  intros Hn. destruct n as [|p|p]; [| |lia].
  - cbn. reflexivity.
  - replace (Z.pos p + 1) with (Z.pos (Pos.succ p)) by lia.
    cbn [shr]. rewrite iter_pos_succ. f_equal. lia.
Qed.

Lemma bra_shift (s : bool) (x : positive) (e : Z) :
  e + 1 <= fexp64 (Z.pos (digits2_pos x) + (e + 1)) ->
  B64 s (Z.pos x~0) e loc_Exact = B64 s (Z.pos x) (e + 1) loc_Exact.
Proof.
  intros Hc. unfold B64, binary_round_aux, shr_fexp.
  cbn [Zdigits2 digits2_pos shr_record_of_loc].
  replace (Z.pos (Pos.succ (digits2_pos x)) + e)
    with (Z.pos (digits2_pos x) + (e + 1)) by lia.
  fold fexp64. set (F := fexp64 (Z.pos (digits2_pos x) + (e + 1))) in *.
  replace (F - e) with (F - (e + 1) + 1) by lia.
  rewrite shr_succ by lia. reflexivity.
Qed.

Lemma digits2_pos_iter (k : nat) (x : positive) :
  Z.pos (digits2_pos (Nat.iter k xO x)) = Z.pos (digits2_pos x) + Z.of_nat k.
Proof.
  induction k as [|k IH]; [cbn; lia|].
  cbn [Nat.iter nat_rect digits2_pos]. rewrite Pos2Z.inj_succ.
  change (nat_rect (fun _ => positive) x (fun _ => xO) k) with (Nat.iter k xO x).
  rewrite IH. lia.
Qed.

Lemma bra_shift_n (s : bool) (k : nat) (x : positive) (e : Z) :
  e + Z.of_nat k <= fexp64 (Z.pos (digits2_pos x) + (e + Z.of_nat k)) ->
  B64 s (Z.pos (Nat.iter k xO x)) e loc_Exact
  = B64 s (Z.pos x) (e + Z.of_nat k) loc_Exact.
Proof.
  revert e. induction k as [|k IH]; intros e Hc.
  - cbn [Nat.iter nat_rect]. f_equal. lia.
  - change (Nat.iter (S k) xO x) with (xO (Nat.iter k xO x)).
    rewrite bra_shift.
    + rewrite IH; [f_equal; lia|].
      replace (e + 1 + Z.of_nat k) with (e + Z.of_nat (S k)) by lia. exact Hc.
    + rewrite digits2_pos_iter.
      replace (Z.pos (digits2_pos x) + Z.of_nat k + (e + 1))
        with (Z.pos (digits2_pos x) + (e + Z.of_nat (S k))) by lia.
      lia.
Qed.

Lemma bra_canonical (s : bool) (m : positive) (e : Z) :
  bounded prec emax m e = true ->
  B64 s (Z.pos m) e loc_Exact = S754_finite s m e.
Proof.
  unfold bounded, canonical_mantissa. intros Hb.
  apply andb_true_iff in Hb as [Hc He]. apply Z.eqb_eq in Hc.
  unfold B64, binary_round_aux, shr_fexp. cbn [Zdigits2 shr_record_of_loc].
  rewrite Hc, Z.sub_diag. cbn [shr shr_m loc_of_shr_record round_nearest_even
                               Zdigits2 shr_record_of_loc].
  rewrite Hc, Z.sub_diag. cbn [shr shr_m]. rewrite He. reflexivity.
Qed.

Lemma digits2_pos_bounds (x : positive) :
  2 ^ (Z.pos (digits2_pos x) - 1) <= Z.pos x < 2 ^ Z.pos (digits2_pos x).
Proof.
  induction x as [x IH|x IH|]; cbn [digits2_pos].
  - rewrite Pos2Z.inj_succ, (Pos2Z.inj_xI x).
    replace (Z.succ (Z.pos (digits2_pos x)) - 1)
      with (Z.succ (Z.pos (digits2_pos x) - 1)) by lia.
    rewrite !Z.pow_succ_r by lia. lia.
  - rewrite Pos2Z.inj_succ, (Pos2Z.inj_xO x).
    replace (Z.succ (Z.pos (digits2_pos x)) - 1)
      with (Z.succ (Z.pos (digits2_pos x) - 1)) by lia.
    rewrite !Z.pow_succ_r by lia. lia.
  - cbn. lia.
Qed.

Lemma shr_1_m (mrs : shr_record) :
  0 <= shr_m mrs -> shr_m (shr_1 mrs) = shr_m mrs / 2.
Proof.
  destruct mrs as [m r t]. cbn [shr_m]. intros Hm.
  destruct m as [|p|p]; [reflexivity| |lia].
  destruct p as [p|p|]; cbn [shr_1 shr_m].
  - rewrite (Pos2Z.inj_xI p). apply Z.div_unique with 1; lia.
  - rewrite (Pos2Z.inj_xO p). apply Z.div_unique with 0; lia.
  - reflexivity.
Qed.

Lemma shr_iter_m (p : positive) (mrs : shr_record) :
  0 <= shr_m mrs ->
  shr_m (SpecFloat.iter_pos shr_1 p mrs) = shr_m mrs / 2 ^ Z.pos p.
Proof.
  revert mrs. induction p as [p IH|p IH|]; intros mrs Hm;
    cbn [SpecFloat.iter_pos].
  - assert (0 <= shr_m (shr_1 mrs)) as H1
      by (rewrite shr_1_m by lia; apply Z.div_pos; lia).
    assert (0 <= shr_m (SpecFloat.iter_pos shr_1 p (shr_1 mrs))) as H2
      by (rewrite IH by lia; apply Z.div_pos; lia).
    rewrite IH, IH, shr_1_m by lia.
    rewrite !Z.div_div by lia. f_equal.
    rewrite (Pos2Z.inj_xI p).
    replace (2 * Z.pos p + 1) with (1 + Z.pos p + Z.pos p) by lia.
    rewrite !Z.pow_add_r by lia. change (2 ^ 1) with 2. lia.
  - assert (0 <= shr_m (SpecFloat.iter_pos shr_1 p mrs)) as H2
      by (rewrite IH by lia; apply Z.div_pos; lia).
    rewrite IH, IH by lia. rewrite Z.div_div by lia. f_equal.
    rewrite (Pos2Z.inj_xO p).
    replace (2 * Z.pos p) with (Z.pos p + Z.pos p) by lia.
    rewrite Z.pow_add_r by lia. reflexivity.
  - rewrite shr_1_m by lia. reflexivity.
Qed.

Lemma shr_m_of_loc (m : Z) (l : location) : shr_m (shr_record_of_loc m l) = m.
Proof. destruct l as [|[]]; reflexivity. Qed.

(** above the underflow range, [shr_fexp] leaves a positive mantissa *)
Lemma shr_fexp_pos (x : positive) (e : Z) (l : location) :
  -1021 <= e ->
  0 < shr_m (fst (shr_fexp prec emax (Z.pos x) e l))
  /\ e <= snd (shr_fexp prec emax (Z.pos x) e l).
Proof.
  intros He. unfold shr_fexp. cbn [Zdigits2]. fold fexp64.
  rewrite fexp64_eq. pose proof (digits2_pos_bounds x) as [Hlo Hhi].
  set (d := Z.pos (digits2_pos x)) in *.
  assert (0 < d) by (subst d; lia).
  rewrite Z.max_l by lia.
  destruct (d + e - 53 - e) as [|p|p] eqn:Hn; cbn [shr fst snd].
  - rewrite shr_m_of_loc. lia.
  - rewrite shr_iter_m by (rewrite shr_m_of_loc; lia).
    rewrite shr_m_of_loc. split; [|lia].
    apply Z.div_str_pos. split; [apply Z.pow_pos_nonneg; lia|].
    transitivity (2 ^ (d - 1)); [|exact Hlo].
    apply Z.pow_le_mono_r; lia.
  - rewrite shr_m_of_loc. lia.
Qed.

Lemma round_nearest_even_ge (m : Z) (l : location) :
  m <= round_nearest_even m l.
Proof.
  destruct l as [|[]]; cbn [round_nearest_even]; try lia.
  destruct (Z.even m); lia.
Qed.

Lemma bra_overflow (s : bool) (x : positive) (e : Z) :
  971 < e -> B64 s (Z.pos x) e loc_Exact = S754_infinity s.
Proof.
  intros He. unfold B64, binary_round_aux.
  pose proof (shr_fexp_pos x e loc_Exact ltac:(lia)) as [Hm1 He1].
  destruct (shr_fexp prec emax (Z.pos x) e loc_Exact) as [mrs1 e1].
  cbn [fst snd] in Hm1, He1.
  pose proof (round_nearest_even_ge (shr_m mrs1) (loc_of_shr_record mrs1)) as Hr.
  destruct (round_nearest_even (shr_m mrs1) (loc_of_shr_record mrs1))
    as [|m2|m2]; [lia| |lia].
  pose proof (shr_fexp_pos m2 e1 loc_Exact ltac:(lia)) as [Hm3 He3].
  destruct (shr_fexp prec emax (Z.pos m2) e1 loc_Exact) as [mrs3 e3].
  cbn [fst snd] in Hm3, He3.
  destruct (shr_m mrs3) as [|m3|m3]; [lia| |lia].
  destruct (Z.leb_spec e3 (emax - prec)) as [Hle|_]; [|reflexivity].
  change (emax - prec) with 971 in Hle. lia.
Qed.

Lemma shr_nonneg (mrs : shr_record) (e n : Z) :
  0 <= shr_m mrs -> 0 <= shr_m (fst (shr mrs e n)).
Proof.
  intros Hm. destruct n as [|p|p]; cbn [shr fst]; [lia| |lia].
  rewrite shr_iter_m by lia. apply Z.div_pos; lia.
Qed.

Lemma bra_not_nan (s : bool) (x : positive) (e : Z) (l : location) :
  B64 s (Z.pos x) e l <> S754_nan.
Proof.
  unfold B64, binary_round_aux, shr_fexp.
  pose proof (shr_nonneg (shr_record_of_loc (Z.pos x) l) e
                (fexp prec emax (Zdigits2 (Z.pos x) + e) - e)) as H1.
  rewrite shr_m_of_loc in H1. specialize (H1 ltac:(lia)).
  destruct (shr (shr_record_of_loc (Z.pos x) l) e _) as [mrs1 e1].
  cbn [fst] in H1.
  pose proof (round_nearest_even_ge (shr_m mrs1) (loc_of_shr_record mrs1)) as Hr.
  set (m2 := round_nearest_even (shr_m mrs1) (loc_of_shr_record mrs1)) in *.
  pose proof (shr_nonneg (shr_record_of_loc m2 loc_Exact) e1
                (fexp prec emax (Zdigits2 m2 + e1) - e1)) as H3.
  rewrite shr_m_of_loc in H3. specialize (H3 ltac:(lia)).
  destruct (shr (shr_record_of_loc m2 loc_Exact) e1 _) as [mrs3 e3].
  cbn [fst] in H3.
  destruct (shr_m mrs3) as [|m3|m3]; [discriminate| |lia].
  destruct (e3 <=? emax - prec); discriminate.
Qed.

Lemma xorb_false_r' (s : bool) : xorb s false = s.
Proof. destruct s; reflexivity. Qed.

Lemma Prim2SF_1 : Prim2SF 1 = S754_finite false 4503599627370496 (-52).
Proof. vm_compute. reflexivity. Qed.

Lemma Prim2SF_2 : Prim2SF 2 = S754_finite false 4503599627370496 (-51).
Proof. vm_compute. reflexivity. Qed.

Lemma Prim2SF_3 : Prim2SF 3 = S754_finite false 6755399441055744 (-51).
Proof. vm_compute. reflexivity. Qed.

Lemma Prim2SF_6 : Prim2SF 6 = S754_finite false 6755399441055744 (-50).
Proof. vm_compute. reflexivity. Qed.

Lemma bounded_canonical (m : positive) (e : Z) :
  bounded prec emax m e = true ->
  fexp64 (Z.pos (digits2_pos m) + e) = e /\ e <= 971.
Proof.
  unfold bounded, canonical_mantissa. intros Hb.
  apply andb_true_iff in Hb as [Hc He]. apply Z.eqb_eq in Hc.
  apply Z.leb_le in He. split; [exact Hc|exact He].
Qed.

Lemma SF_mul_pow2 (s : bool) (m : positive) (e : Z) :
  SF64mul (S754_finite s m e) (S754_finite false 4503599627370496 (-52))
  = B64 s (Z.pos (Nat.iter 52 xO m)) (e - 52) loc_Exact.
Proof.
  unfold SF64mul, SFmul. rewrite xorb_false_r', Pos.mul_comm.
  change (Z.pos (4503599627370496 * m)) with (Z.pos (Nat.iter 52 xO m)).
  reflexivity.
Qed.

(** Multiplication by 1.0 is the identity on every binary64 value. *)
Lemma float_mul_1_r (f : float) : (f * 1)%float = f.
Proof.
  apply Prim2SF_inj. rewrite mul_spec, Prim2SF_1.
  pose proof (Prim2SF_valid f) as Hv.
  destruct (Prim2SF f) as [s|s| |s m e].
  - cbn. rewrite xorb_false_r'. reflexivity.
  - cbn. rewrite xorb_false_r'. reflexivity.
  - reflexivity.
  - cbn [valid_binary] in Hv. destruct (bounded_canonical m e Hv) as [Hc He].
    rewrite SF_mul_pow2, bra_shift_n.
    + replace (e - 52 + Z.of_nat 52) with e by lia. apply bra_canonical, Hv.
    + replace (e - 52 + Z.of_nat 52) with e by lia. lia.
Qed.

Lemma SF_mul_two (s : bool) (m : positive) (e : Z) :
  SF64mul (S754_finite s m e) (S754_finite false 4503599627370496 (-51))
  = B64 s (Z.pos (Nat.iter 52 xO m)) (e - 51) loc_Exact.
Proof.
  unfold SF64mul, SFmul. rewrite xorb_false_r', Pos.mul_comm.
  change (Z.pos (4503599627370496 * m)) with (Z.pos (Nat.iter 52 xO m)).
  reflexivity.
Qed.

Lemma SF_mul_three (s : bool) (m : positive) (e : Z) :
  SF64mul (S754_finite s m e) (S754_finite false 6755399441055744 (-51))
  = B64 s (Z.pos (m * 6755399441055744)) (e - 51) loc_Exact.
Proof. unfold SF64mul, SFmul. rewrite xorb_false_r'. reflexivity. Qed.

Lemma SF_mul_six (s : bool) (m : positive) (e : Z) :
  SF64mul (S754_finite s m e) (S754_finite false 6755399441055744 (-50))
  = B64 s (Z.pos (m * 6755399441055744)) (e - 50) loc_Exact.
Proof. unfold SF64mul, SFmul. rewrite xorb_false_r'. reflexivity. Qed.

Lemma digits_triple (m : positive) :
  Z.pos (digits2_pos m) = 53 -> 53 <= Z.pos (digits2_pos (3 * m)).
Proof.
  intros Hd. pose proof (digits2_pos_bounds m) as [Hlo _].
  pose proof (digits2_pos_bounds (3 * m)) as [_ Hhi].
  rewrite Hd in Hlo. change (2 ^ (53 - 1)) with 4503599627370496 in Hlo.
  rewrite Pos2Z.inj_mul in Hhi.
  destruct (Z_lt_le_dec (Z.pos (digits2_pos (3 * m))) 53) as [Hlt|Hge];
    [|exact Hge].
  exfalso.
  assert (2 ^ Z.pos (digits2_pos (3 * m)) <= 2 ^ 52)
    by (apply Z.pow_le_mono_r; lia).
  change (2 ^ 52) with 4503599627370496 in *. lia.
Qed.

(** [(f * 2) * 3] and [f * 6] are the same binary64 value, for every [f]:
    doubling is exact or overflows, and when it overflows so does [f * 6]. *)
Lemma float_mul_2_3 (f : float) : (f * 2 * 3)%float = (f * 6)%float.
Proof.
  apply Prim2SF_inj. rewrite !mul_spec, Prim2SF_2, Prim2SF_3, Prim2SF_6.
  pose proof (Prim2SF_valid f) as Hv.
  destruct (Prim2SF f) as [s|s| |s m e].
  - cbn. rewrite !xorb_false_r'. reflexivity.
  - cbn. rewrite !xorb_false_r'. reflexivity.
  - reflexivity.
  - cbn [valid_binary] in Hv. destruct (bounded_canonical m e Hv) as [Hc He].
    rewrite fexp64_eq in Hc.
    rewrite SF_mul_two, SF_mul_six.
    destruct (Z.eq_dec (Z.pos (digits2_pos m)) 53) as [Hd|Hd].
    + (* normal *)
      rewrite bra_shift_n
        by (rewrite fexp64_eq; replace (e - 51 + Z.of_nat 52) with (e + 1) by lia;
            lia).
      replace (e - 51 + Z.of_nat 52) with (e + 1) by lia.
      destruct (Z_le_gt_dec (e + 1) 971) as [Hfit|Hover].
      * rewrite bra_canonical.
        -- rewrite SF_mul_three. f_equal. lia.
        -- unfold bounded, canonical_mantissa. fold fexp64.
           rewrite fexp64_eq, Hd.
           apply andb_true_iff. split; [apply Z.eqb_eq; lia|].
           apply Z.leb_le. change (emax - prec) with 971. lia.
      * rewrite bra_overflow by lia.
        assert (e = 971) as -> by lia.
        rewrite Pos.mul_comm.
        change (Z.pos (6755399441055744 * m))
          with (Z.pos (Nat.iter 51 xO (3 * m)%positive)).
        pose proof (digits_triple m Hd) as Hd3.
        rewrite bra_shift_n by (rewrite fexp64_eq; cbn [Z.of_nat]; lia).
        rewrite bra_overflow by lia.
        cbn. rewrite xorb_false_r'. reflexivity.
    + (* subnormal *)
      assert (e = -1074) as -> by lia.
      assert (Z.pos (digits2_pos m) < 53) as Hsub by lia.
      change (Nat.iter 52 xO m) with (Nat.iter 51 xO (xO m)).
      rewrite bra_shift_n by (rewrite fexp64_eq; cbn [Z.of_nat]; lia).
      rewrite bra_canonical.
      * rewrite SF_mul_three.
        change (Z.pos (xO m * 6755399441055744))
          with (Z.pos (xO (m * 6755399441055744))).
        rewrite bra_shift by (rewrite fexp64_eq; lia).
        f_equal.
      * unfold bounded, canonical_mantissa. fold fexp64.
        cbn [digits2_pos]. rewrite fexp64_eq, Pos2Z.inj_succ.
        apply andb_true_iff. split; [apply Z.eqb_eq; lia|].
        apply Z.leb_le. change (emax - prec) with 971. lia.
Qed.

Lemma SFeqb_refl (x : spec_float) : x <> S754_nan -> SFeqb x x = true.
Proof.
  intros Hx. destruct x as [s|s| |s m e]; [reflexivity|destruct s; reflexivity
                                          |contradiction|].
  unfold SFeqb, SFcompare.
  destruct s; rewrite Z.compare_refl, Pos.compare_cont_refl; reflexivity.
Qed.

(** A value that is not NaN stays so when multiplied by 6. *)
Lemma float_mul_6_self (f : float) :
  (f =? f)%float = true -> (f * 6 =? f * 6)%float = true.
Proof.
  rewrite !FloatAxioms.eqb_spec, mul_spec, Prim2SF_6. intros Hf.
  apply SFeqb_refl.
  destruct (Prim2SF f) as [s|s| |s m e]; try discriminate.
  rewrite SF_mul_six. apply bra_not_nan.
Qed.

Lemma float_mul_2_3_eqb (f : float) :
  (f =? f)%float = true -> (f * 2 * 3 =? f * 6)%float = true.
Proof. intros Hf. rewrite float_mul_2_3. apply float_mul_6_self, Hf. Qed.


End Binary64Facts.

Section ExprFacts.
Import Expr.
Local Open Scope float_scope.

Lemma add_Zero_r (x : OpExpr) : add x Zero = Some x.
Proof. destruct x; reflexivity. Qed.

Lemma add_Zero_l (x : OpExpr) : add Zero x = Some x.
Proof. reflexivity. Qed.

Lemma mul_zero (x : OpExpr) : mul x 0 = Zero.
Proof. destruct x; reflexivity. Qed.

Lemma mul_nonzero (x : OpExpr) (d : float) :
  (d =? 0) = false ->
  mul x d = match x with
            | Zero => Zero
            | Elem e => Elem (OpElement_mul e d)
            | Prod s => Prod (OpString_mul s d)
            | Sum ss => Sum (OpSum_mul ss d)
            end.
Proof. intros Hd. destruct x; cbn [mul]; rewrite ?Hd; reflexivity. Qed.

Lemma OpElement_abs_unit (e : OpElement) : factor e = 1 -> OpElement_abs e = e.
Proof. destruct e as [nm ix f q]. cbn. intros ->. reflexivity. Qed.

Lemma fold_unit_factors (es : list OpElement) (f : float) :
  Forall (fun e => factor e = 1) es ->
  fold_left (fun acc e => acc * factor e) es f = f.
Proof.
  intros Hes. revert f. induction Hes as [|e es He _ IH]; intros f; cbn.
  - reflexivity.
  - rewrite He, float_mul_1_r. apply IH.
Qed.

Lemma map_abs_unit (es : list OpElement) :
  Forall (fun e => factor e = 1) es -> map OpElement_abs es = es.
Proof.
  induction 1 as [|e es He _ IH]; cbn; [reflexivity|].
  rewrite OpElement_abs_unit, IH by assumption. reflexivity.
Qed.

(** On a string built by the constructor, scaling only touches the
    factor of the string. *)
Lemma OpString_mul_wf (s : OpString) (d : float) :
  string_wf s -> OpString_mul s d = mkOpString (sfactor s * d) (ops s).
Proof.
  intros Hs. unfold OpString_mul, OpString_new.
  rewrite fold_unit_factors, map_abs_unit by exact Hs. reflexivity.
Qed.

Lemma OpString_new_wf (es : list OpElement) (f : float) :
  string_wf (OpString_new es f).
Proof.
  unfold string_wf, OpString_new. cbn [ops].
  induction es; cbn; constructor; auto.
Qed.

Lemma OpString_mul_twice (s : OpString) :
  string_wf s -> OpString_mul (OpString_mul s 2) 3 = OpString_mul s 6.
Proof.
  intros Hs. rewrite (OpString_mul_wf s 2 Hs), (OpString_mul_wf s 6 Hs).
  rewrite OpString_mul_wf by exact Hs. cbn [sfactor ops].
  rewrite float_mul_2_3. reflexivity.
Qed.

Lemma mul_twice (x : OpExpr) :
  expr_wf x -> mul (mul x 2) 3 = mul x 6.
Proof.
  intros Hx. rewrite (mul_nonzero x 2), (mul_nonzero x 6) by reflexivity.
  destruct x as [|e|s|ss]; rewrite mul_nonzero by reflexivity.
  - reflexivity.
  - unfold OpElement_mul. cbn [name site_index factor q_label].
    rewrite float_mul_2_3. reflexivity.
  - f_equal. apply OpString_mul_twice, Hx.
  - f_equal. unfold OpSum_mul. rewrite map_map.
    cbn [expr_wf] in Hx. induction Hx as [|s ss Hs _ IH]; cbn; [reflexivity|].
    rewrite OpString_mul_twice, IH by assumption. reflexivity.
Qed.

Lemma OpNames_eqb_refl (a : OpNames) : OpNames_eqb a a = true.
Proof. destruct a; reflexivity. Qed.

Lemma site_index_eqb_refl (l : list Z) : site_index_eqb l l = true.
Proof. induction l; cbn; [reflexivity|]. rewrite Z.eqb_refl. assumption. Qed.

Lemma ops_eqb_unit (es : list OpElement) :
  Forall (fun e => factor e = 1) es -> ops_eqb es es = true.
Proof.
  induction 1 as [|e es He _ IH]; cbn [ops_eqb]; [reflexivity|].
  unfold OpElement_eqb.
  rewrite OpNames_eqb_refl, site_index_eqb_refl, He, IH. reflexivity.
Qed.

Lemma OpString_eqb_self (s : OpString) :
  string_wf s -> (sfactor s =? sfactor s) = true -> OpString_eqb s s = true.
Proof.
  intros Hs Hf. unfold OpString_eqb.
  rewrite Nat.eqb_refl, Hf. cbn. apply ops_eqb_unit, Hs.
Qed.

(** [operator==] holds between an expression and itself when none of its
    factors is NaN. *)
Lemma expr_eqb_self (x : OpExpr) :
  expr_wf x -> Forall (fun f => (f =? f) = true) (factors x) ->
  expr_eqb x x = true.
Proof.
  intros Hx Hf. destruct x as [|e|s|ss]; cbn [expr_eqb factors] in *.
  - reflexivity.
  - apply Forall_cons_1 in Hf as [Hf _]. unfold OpElement_eqb.
    rewrite OpNames_eqb_refl, site_index_eqb_refl, Hf. reflexivity.
  - apply Forall_cons_1 in Hf as [Hf _]. apply OpString_eqb_self; assumption.
  - rewrite Nat.eqb_refl. cbn [negb].
    induction Hx as [|s ss Hs _ IH]; cbn [strings_eqb]; [reflexivity|].
    cbn [map] in Hf. apply Forall_cons_1 in Hf as [Hf Hfs].
    rewrite OpString_eqb_self, IH by assumption. reflexivity.
Qed.

Lemma mul_six_wf (x : OpExpr) : expr_wf x -> expr_wf (mul x 6).
Proof.
  intros Hx. rewrite mul_nonzero by reflexivity.
  destruct x as [|e|s|ss]; cbn [expr_wf] in *; try exact Logic.I.
  - apply OpString_new_wf.
  - unfold OpSum_mul. apply Forall_map.
    apply Forall_forall. intros s _. apply OpString_new_wf.
Qed.

Lemma mul_six_factors (x : OpExpr) :
  expr_wf x -> Forall (fun f => (f =? f) = true) (factors x) ->
  Forall (fun f => (f =? f) = true) (factors (mul x 6)).
Proof.
  intros Hx Hf. rewrite mul_nonzero by reflexivity.
  destruct x as [|e|s|ss]; cbn [factors expr_wf] in *.
  - constructor.
  - apply Forall_cons_1 in Hf as [Hf _]. repeat constructor.
    apply float_mul_6_self, Hf.
  - apply Forall_cons_1 in Hf as [Hf _]. repeat constructor.
    rewrite OpString_mul_wf by exact Hx. apply float_mul_6_self, Hf.
  - unfold OpSum_mul. rewrite map_map.
    induction Hx as [|s ss Hs _ IH]; cbn [map] in *; [constructor|].
    apply Forall_cons_1 in Hf as [Hf Hfs]. constructor; [|apply IH, Hfs].
    rewrite OpString_mul_wf by exact Hs. apply float_mul_6_self, Hf.
Qed.

(** C8. For every expression [x] (its products built by the [OpString]
    constructor): [x + Zero] and [Zero + x] are [x] itself; [x * 0.0] is
    the zero expression; [(x * 2.0) * 3.0] is the same expression as
    [x * 6.0], every scalar factor [(f * 2) * 3] being the binary64
    value [f * 6]; and [operator==] holds between the two when no factor
    of [x] is NaN. *)
Theorem expr_identity_laws (x : OpExpr) (Hx : expr_wf x) :
  add x Zero = Some x
  /\ add Zero x = Some x
  /\ mul x 0 = Zero
  /\ get_type (mul x 0) = TZero
  /\ mul (mul x 2) 3 = mul x 6
  /\ (Forall (fun f => (f =? f) = true) (factors x) ->
      expr_eqb (mul (mul x 2) 3) (mul x 6) = true).
Proof.
  split; [apply add_Zero_r|]. split; [apply add_Zero_l|].
  split; [apply mul_zero|]. split; [rewrite mul_zero; reflexivity|].
  split; [apply mul_twice, Hx|].
  intros Hf. rewrite mul_twice by exact Hx.
  apply expr_eqb_self; [apply mul_six_wf, Hx|apply mul_six_factors; assumption].
Qed.

Lemma sample_product_wf : expr_wf sample_product.
Proof. repeat constructor. Defined.

Lemma expr_identity_laws_witness :
  expr_wf sample_product
  /\ add sample_product Zero = Some sample_product
  /\ mul (mul sample_product 2) 3 = mul sample_product 6.
Proof.
  split; [exact sample_product_wf|].
  pose proof (expr_identity_laws sample_product sample_product_wf)
    as (H1 & _ & _ & _ & H5 & _).
  split; [exact H1|exact H5].
Defined.

(** With a NaN factor [operator==] is false even between an expression
    and itself. *)
Example expr_eqb_nan :
  expr_eqb (Elem (mkOpElement C [0%Z] nan (Label.mk 1 1 0)))
           (Elem (mkOpElement C [0%Z] nan (Label.mk 1 1 0))) = false.
Proof. reflexivity. Qed.

End ExprFacts.

Section LoopFacts.
Local Open Scope Z_scope.

Lemma fold_left_map_in {A B S : Type} (f : S -> B -> S) (g : A -> B)
  (l : list A) (s : S) :
  fold_left f (map g l) s = fold_left (fun s a => f s (g a)) l s.
Proof. revert s. induction l as [|a l IH]; intros s; cbn; auto. Qed.

Lemma fold_left_pointwise {A S : Type} (f g : S -> A -> S) (l : list A) (s : S) :
  (forall s a, f s a = g s a) -> fold_left f l s = fold_left g l s.
Proof.
  intros Hfg. revert s. induction l as [|a l IH]; intros s; cbn; [reflexivity|].
  rewrite Hfg. apply IH.
Qed.

Lemma for_up_fold {S : Type} (steps : nat) (t : Z) (body : Z -> S -> S) (s : S) :
  for_up steps t 1 body s
  = fold_left (fun s k => body (t + Z.of_nat k) s) (seq 0 steps) s.
Proof.
  revert t s. induction steps as [|k IH]; intros t s; [reflexivity|].
  cbn [for_up seq fold_left]. rewrite IH, <- seq_shift, fold_left_map_in.
  replace (t + Z.of_nat 0) with t by lia.
  apply fold_left_pointwise. intros s' j. f_equal. lia.
Qed.

Lemma for_lt_fold {S : Type} (n : Z) (body : Z -> S -> S) (s : S) :
  for_lt n body s
  = fold_left (fun s k => body (Z.of_nat k) s) (seq 0 (Z.to_nat n)) s.
Proof. unfold for_lt. rewrite for_up_fold. reflexivity. Qed.

End LoopFacts.

Section StateFacts.
Import Label State.
Local Open Scope Z_scope.

Lemma zsum_app (l1 l2 : list Z) : zsum (l1 ++ l2) = zsum l1 + zsum l2.
Proof.
  unfold zsum. induction l1 as [|x l1 IH]; cbn; [reflexivity|].
  rewrite IH. lia.
Qed.

Lemma zsum_cons (x : Z) (l : list Z) : zsum (x :: l) = x + zsum l.
Proof. reflexivity. Qed.

Lemma fold_left_add (A : Type) (f : A -> Z) (l : list A) (x : Z) :
  fold_left (fun x k => x + f k) l x = x + zsum (map f l).
Proof.
  unfold zsum. revert x. induction l as [|a l IH]; intros x; cbn; [lia|].
  rewrite IH. lia.
Qed.

(** The inner loop of [filter] is the sum over the coupled labels. *)
Lemma coupled_count_sum (other : StateInfo) (qr : SpinLabel) :
  coupled_count other qr = coupled_sum other qr.
Proof.
  unfold coupled_count, coupled_sum, members, states_at.
  rewrite for_lt_fold.
  rewrite (fold_left_add nat
             (fun k => if find_state other (index qr (Z.of_nat k)) =? -1
                       then 0
                       else n_states_at other
                              (find_state other (index qr (Z.of_nat k))))).
  rewrite map_map. lia.
Qed.

Lemma filter_loop_prefix (es : list (SpinLabel * Z)) (other : StateInfo)
  (target : SpinLabel) (k : nat) :
  (k <= length es)%nat ->
  fold_left
    (fun s j =>
       match entries s !! Z.to_nat (Z.of_nat j) with
       | Some (q, v) =>
           mkStateInfo
             (<[Z.to_nat (Z.of_nat j) :=
                  (q, Z.min (coupled_count other (sub target q)) v)]>
                (entries s))
             (n_states_total s
              + Z.min (coupled_count other (sub target q)) v)
       | None => s
       end)
    (seq 0 k) (mkStateInfo es 0)
  = mkStateInfo (map (cap_entry other target) (take k es) ++ drop k es)
                (zsum (map snd (map (cap_entry other target) (take k es)))).
Proof.
  induction k as [|k IH]; intros Hk.
  - cbn. rewrite drop_0. reflexivity.
  - rewrite seq_S, fold_left_app, IH by lia. cbn [fold_left entries Nat.add].
    rewrite Nat2Z.id.
    destruct (lookup_lt_is_Some_2 es k ltac:(lia)) as [[q v] Hl].
    assert (length (map (cap_entry other target) (take k es)) = k) as Hlen
      by (rewrite length_map, length_take; lia).
    rewrite lookup_app_r by lia. rewrite Hlen, Nat.sub_diag.
    rewrite (drop_S _ _ _ Hl). cbn [lookup list_lookup].
    rewrite insert_app_r_alt by lia. rewrite Hlen, Nat.sub_diag.
    cbn [insert list_insert n_states_total].
    rewrite (take_S_r _ _ _ Hl), !map_app, zsum_app. cbn [map zsum foldr].
    rewrite <- app_assoc. cbn [app].
    replace (cap_entry other target (q, v))
      with (q, Z.min (coupled_count other (sub target q)) v)
      by (unfold cap_entry; cbn [fst snd];
          rewrite coupled_count_sum, Z.min_comm; reflexivity).
    cbn [snd]. rewrite Z.add_0_r. reflexivity.
Qed.

Lemma filter_loop_capped (s other : StateInfo) (target : SpinLabel) :
  filter_loop s other target = capped s other target.
Proof.
  unfold filter_loop, capped. rewrite for_lt_fold. unfold n.
  rewrite Nat2Z.id.
  etransitivity; [apply (filter_loop_prefix (entries s) other target
                           (length (entries s))); lia|].
  rewrite firstn_all, drop_all, app_nil_r. reflexivity.
Qed.

(** C7. [filter] first replaces every [a.n_states[i]] by the minimum of
    its value and the sum, over the labels coupled in [target - a.quanta[i]],
    of the counts of the unmodified [b] (0 for a missing label), and then
    replaces every [b.n_states[i]] in the same way against the [a] it has
    just rewritten; both totals are recomputed. *)
Theorem filter_is_sequential (a b : StateInfo) (target : SpinLabel) :
  filter a b target = filter_sequential a b target
  /\ fst (filter a b target) = capped a b target
  /\ snd (filter a b target) = capped b (capped a b target) target.
Proof.
  unfold filter, filter_sequential. cbn [fst snd].
  rewrite !filter_loop_capped. repeat split.
Qed.

(** The symmetric reading, in which [b] is capped against the original
    [a], is a different function: the two differ where the coupling of
    labels is not symmetric, as for a spin that overflows its byte. *)
Example filter_is_not_snapshot :
  filter (mkStateInfo [(mk 0 1 0, 5)] 5) (mkStateInfo [(mk 0 255 0, 3)] 3) vacuum
  = (mkStateInfo [(mk 0 1 0, 0)] 0, mkStateInfo [(mk 0 255 0, 0)] 0)
  /\ filter_snapshot (mkStateInfo [(mk 0 1 0, 5)] 5)
                     (mkStateInfo [(mk 0 255 0, 3)] 3) vacuum
     = (mkStateInfo [(mk 0 1 0, 0)] 0, mkStateInfo [(mk 0 255 0, 3)] 3).
Proof. split; vm_compute; reflexivity. Qed.

End StateFacts.

Section TensorProductFacts.
Import Label State.
Local Open Scope Z_scope.

Lemma zsum_perm (l l' : list Z) : l ≡ₚ l' -> zsum l = zsum l'.
Proof.
  unfold zsum. induction 1; cbn; lia.
Qed.

Lemma zsum_rev (l : list Z) : zsum (rev l) = zsum l.
Proof. apply zsum_perm. symmetry. apply Permutation_rev. Qed.

Lemma zsum_nonneg (l : list Z) : Forall (fun v => 0 <= v) l -> 0 <= zsum l.
Proof. unfold zsum. induction 1; cbn; lia. Qed.

Lemma zsum_take_le (l : list Z) (k : nat) :
  Forall (fun v => 0 <= v) l -> zsum (take k l) <= zsum l.
Proof.
  intros Hl. rewrite <- (take_drop k l) at 2. rewrite zsum_app.
  pose proof (zsum_nonneg (drop k l) (Forall_drop _ _ _ Hl)). lia.
Qed.

Lemma zsum_map_le {A : Type} (f g : A -> Z) (l : list A) :
  (forall x, In x l -> f x <= g x) -> zsum (map f l) <= zsum (map g l).
Proof.
  unfold zsum. induction l as [|x l IH]; intros Hfg; cbn; [lia|].
  pose proof (Hfg x (or_introl eq_refl)).
  specialize (IH (fun y Hy => Hfg y (or_intror Hy))). lia.
Qed.

Lemma zsum_map_eq {A : Type} (f g : A -> Z) (l : list A) :
  (forall x, In x l -> f x = g x) -> zsum (map f l) = zsum (map g l).
Proof.
  unfold zsum. induction l as [|x l IH]; intros Hfg; cbn; [lia|].
  rewrite (Hfg x (or_introl eq_refl)), (IH (fun y Hy => Hfg y (or_intror Hy))).
  reflexivity.
Qed.

Lemma zsum_map_scale {A : Type} (f : A -> Z) (c : Z) (l : list A) :
  zsum (map (fun x => c * f x) l) = c * zsum (map f l).
Proof. unfold zsum. induction l as [|x l IH]; cbn; [lia|]. rewrite IH. lia. Qed.

Lemma zsum_const {A : Type} (c : Z) (l : list A) :
  zsum (map (fun _ => c) l) = Z.of_nat (length l) * c.
Proof. unfold zsum. induction l as [|x l IH]; cbn [map foldr length]; lia. Qed.

Lemma zsum_flat_map {A B : Type} (f : A -> list B) (g : B -> Z) (l : list A) :
  zsum (map g (flat_map f l)) = zsum (map (fun x => zsum (map g (f x))) l).
Proof.
  induction l as [|x l IH]; [reflexivity|].
  cbn [flat_map map]. rewrite map_app, zsum_app, IH. reflexivity.
Qed.

Lemma count_pos (q : SpinLabel) : 1 <= count q <= 128.
Proof.
  unfold count. change 0x7F with (Z.ones 7). rewrite Z.land_ones by lia.
  change (2 ^ 7) with 128. zdm.
Qed.

(** Sum of the counts [tensor_product] writes before sorting. *)
Lemma coupled_entries_sum (a b : StateInfo) :
  zsum (map snd (coupled_entries a b))
  = zsum (map (fun ea =>
                 zsum (map (fun eb =>
                              count (add (fst ea) (fst eb))
                              * Z.min (snd ea * snd eb) 65535)
                           (entries b)))
              (entries a)).
Proof.
  unfold coupled_entries. rewrite zsum_flat_map.
  apply zsum_map_eq. intros ea _. rewrite zsum_flat_map.
  apply zsum_map_eq. intros eb _. unfold couple.
  rewrite map_map. cbn [snd]. rewrite zsum_const, length_seq, Z2Nat.id.
  - reflexivity.
  - pose proof (count_pos (add (fst ea) (fst eb))). lia.
Qed.

Lemma coupled_entries_nonneg (a b : StateInfo) :
  counts_ok a -> counts_ok b ->
  Forall (fun v => 0 <= v) (map snd (coupled_entries a b)).
Proof.
  unfold counts_ok. rewrite !List.Forall_forall. intros Ha Hb v Hv.
  apply in_map_iff in Hv as ([q v'] & <- & Hin). cbn [snd].
  unfold coupled_entries in Hin.
  apply in_flat_map in Hin as (ea & Hea & Hin).
  apply in_flat_map in Hin as (eb & Heb & Hin).
  unfold couple in Hin. apply in_map_iff in Hin as (k & Hk & _).
  injection Hk as _ <-.
  specialize (Ha ea Hea). specialize (Hb eb Heb). cbn in Ha, Hb. nia.
Qed.

(** [collect] never adds to the counts it merges. *)
Lemma collect_fold_le (l acc : list (SpinLabel * Z)) :
  zsum (map snd (fold_left collect_step l acc))
  <= zsum (map snd acc) + zsum (map snd l).
Proof.
  revert acc. induction l as [|[q v] l IH]; intros acc.
  - cbn [fold_left map]. change (zsum []) with 0. lia.
  - cbn [fold_left]. etransitivity; [apply IH|].
    cbn [map snd]. rewrite zsum_cons. unfold collect_step.
    destruct (Z.eqb_spec v 0) as [->|Hv]; [lia|].
    destruct acc as [|[qk vk] rest].
    + cbn [map snd]. rewrite zsum_cons. change (zsum []) with 0. lia.
    + destruct (eqb q qk); cbn [map snd]; rewrite !zsum_cons; lia.
Qed.

Lemma collect_total_le (s : StateInfo) (target : SpinLabel) :
  Forall (fun v => 0 <= v) (n_states s) ->
  n_states_total (collect s target) <= zsum (n_states s).
Proof.
  intros Hs. unfold collect. cbn [n_states_total].
  rewrite map_rev, zsum_rev.
  etransitivity; [apply collect_fold_le|].
  unfold n_states. rewrite <- firstn_map.
  change (zsum (map snd [])) with 0.
  pose proof (zsum_take_le (map snd (entries s))
                (upper_bound (quanta s) target) Hs). lia.
Qed.

Lemma sort_states_entries (s : StateInfo) :
  entries (sort_states s) ≡ₚ entries s.
Proof. unfold sort_states. cbn. apply merge_sort_Permutation. Qed.

Lemma tensor_product_le_coupled (a b : StateInfo) (target : SpinLabel) :
  counts_ok a -> counts_ok b ->
  n_states_total (tensor_product a b target)
  <= zsum (map snd (coupled_entries a b)).
Proof.
  intros Ha Hb. unfold tensor_product.
  set (c := mkStateInfo (coupled_entries a b) 0).
  assert (map snd (entries (sort_states c)) ≡ₚ map snd (coupled_entries a b))
    as Hperm by (apply Permutation_map, sort_states_entries).
  etransitivity; [apply collect_total_le|].
  - unfold n_states. rewrite Hperm. apply coupled_entries_nonneg; assumption.
  - unfold n_states. rewrite (zsum_perm _ _ Hperm). lia.
Qed.

Lemma coupled_le_dim (a b : StateInfo) :
  counts_ok a -> counts_ok b ->
  zsum (map snd (coupled_entries a b)) <= coupled_dim a b.
Proof.
  unfold counts_ok. rewrite !List.Forall_forall. intros Ha Hb.
  rewrite coupled_entries_sum. unfold coupled_dim.
  apply zsum_map_le. intros ea Hea. apply zsum_map_le. intros eb Heb.
  pose proof (count_pos (add (fst ea) (fst eb))).
  assert (Z.min (snd ea * snd eb) 65535 <= snd ea * snd eb) by lia.
  nia.
Qed.

Lemma coupled_dim_multiplicity_free (a b : StateInfo) :
  (forall ea eb, In ea (entries a) -> In eb (entries b) ->
                 count (add (fst ea) (fst eb)) = 1) ->
  coupled_dim a b = dim a * dim b.
Proof.
  intros H1. unfold coupled_dim, dim, n_states.
  rewrite (zsum_map_eq _ (fun ea => snd ea * zsum (map snd (entries b)))).
  - rewrite (zsum_map_eq _ (fun ea => zsum (map snd (entries b)) * snd ea))
      by (intros; lia).
    rewrite zsum_map_scale. lia.
  - intros ea Hea. rewrite <- zsum_map_scale.
    apply zsum_map_eq. intros eb Heb. rewrite (H1 ea eb Hea Heb). lia.
Qed.

Lemma weight_cons (e : SpinLabel * Z) (l : list (SpinLabel * Z)) (q : SpinLabel) :
  weight (e :: l) q = (if eqb (fst e) q then snd e else 0) + weight l q.
Proof. reflexivity. Qed.

Lemma weight_nonneg (l : list (SpinLabel * Z)) (q : SpinLabel) :
  Forall (fun v => 0 <= v) (map snd l) -> 0 <= weight l q.
Proof.
  intros Hl. unfold weight. apply zsum_nonneg.
  rewrite List.Forall_forall in Hl |- *. intros v Hv.
  apply in_map_iff in Hv as (e & <- & He).
  destruct (eqb (fst e) q); [|lia].
  apply Hl, in_map, He.
Qed.

Lemma weight_perm (l l' : list (SpinLabel * Z)) (q : SpinLabel) :
  l ≡ₚ l' -> weight l q = weight l' q.
Proof. intros Hp. unfold weight. apply zsum_perm, Permutation_map, Hp. Qed.

Lemma weight_take_le (l : list (SpinLabel * Z)) (k : nat) (q : SpinLabel) :
  Forall (fun v => 0 <= v) (map snd l) -> weight (take k l) q <= weight l q.
Proof.
  intros Hl. unfold weight. rewrite <- (take_drop k l) at 2.
  rewrite map_app, zsum_app.
  assert (0 <= weight (drop k l) q) as Hd.
  { apply weight_nonneg. rewrite <- skipn_map. apply Forall_drop, Hl. }
  unfold weight in Hd. lia.
Qed.

Lemma weight_ge_entry (l : list (SpinLabel * Z)) (q v : Z) :
  Forall (fun v => 0 <= v) (map snd l) -> In (q, v) l -> v <= weight l q.
Proof.
  induction l as [|e l IH]; intros Hl Hin; [destruct Hin|].
  rewrite weight_cons. cbn [map] in Hl. apply Forall_cons_1 in Hl as [He Hl].
  pose proof (weight_nonneg l q Hl) as Hw.
  destruct Hin as [->|Hin].
  - cbn [fst snd]. unfold eqb. rewrite Z.eqb_refl. lia.
  - specialize (IH Hl Hin). destruct (eqb (fst e) q); lia.
Qed.

(** Without saturation [collect] keeps the sum of the counts. *)
Lemma collect_fold_eq (l acc : list (SpinLabel * Z)) :
  Forall (fun v => 0 <= v) (map snd acc) ->
  Forall (fun v => 0 <= v) (map snd l) ->
  (forall q, weight acc q + weight l q <= 65535) ->
  zsum (map snd (fold_left collect_step l acc))
  = zsum (map snd acc) + zsum (map snd l).
Proof.
  revert acc. induction l as [|[q v] l IH]; intros acc Hacc Hl Hw.
  - cbn [fold_left map]. change (zsum []) with 0. lia.
  - cbn [map snd] in Hl. apply Forall_cons_1 in Hl as [Hv Hl]. cbn [snd] in Hv.
    cbn [fold_left map snd]. rewrite zsum_cons. unfold collect_step.
    destruct (Z.eqb_spec v 0) as [->|Hv0].
    { rewrite IH; [lia|assumption|assumption|].
      intros q'. specialize (Hw q'). rewrite weight_cons in Hw. cbn [snd] in Hw.
      destruct (eqb (fst (q, 0)) q'); lia. }
    destruct acc as [|[qk vk] rest].
    { rewrite IH; [cbn [map snd]; rewrite zsum_cons; lia| | |].
      - cbn [map snd]. constructor; [lia|constructor].
      - assumption.
      - intros q'. specialize (Hw q'). rewrite !weight_cons in *.
        cbn [fst snd] in *. change (weight [] q') with 0 in *. lia. }
    cbn [map snd] in Hacc. apply Forall_cons_1 in Hacc as [Hvk Hrest].
    cbn [snd] in Hvk.
    unfold eqb. destruct (Z.eqb_spec q qk) as [->|Hne].
    + assert (vk + v <= 65535) as Hfit.
      { specialize (Hw qk). rewrite !weight_cons in Hw. cbn [fst snd] in Hw.
        unfold eqb in Hw. rewrite Z.eqb_refl in Hw.
        pose proof (weight_nonneg rest qk Hrest).
        pose proof (weight_nonneg l qk Hl). lia. }
      rewrite Z.min_l by lia.
      rewrite IH; [cbn [map snd]; rewrite !zsum_cons; lia| | |].
      * cbn [map snd]. constructor; [lia|assumption].
      * assumption.
      * intros q'. specialize (Hw q'). rewrite !weight_cons in *.
        cbn [fst snd] in *. destruct (eqb qk q'); lia.
    + rewrite IH; [cbn [map snd]; rewrite !zsum_cons; lia| | |].
      * cbn [map snd]. constructor; [lia|]. constructor; assumption.
      * assumption.
      * intros q'. specialize (Hw q'). rewrite !weight_cons in *.
        cbn [fst snd] in *. destruct (eqb qk q'), (eqb q q'); lia.
Qed.

Lemma upper_bound_all (qs : list SpinLabel) (target : SpinLabel) :
  Forall (fun q => q <= target) qs -> upper_bound qs target = length qs.
Proof.
  induction 1 as [|q qs Hq _ IH]; [reflexivity|].
  cbn [upper_bound length]. unfold ltb.
  destruct (Z.ltb_spec target q); [lia|]. rewrite IH. reflexivity.
Qed.

Lemma collect_total_eq (s : StateInfo) (target : SpinLabel) :
  Forall (fun v => 0 <= v) (n_states s) ->
  Forall (fun q => q <= target) (quanta s) ->
  (forall q, weight (entries s) q <= 65535) ->
  n_states_total (collect s target) = zsum (n_states s).
Proof.
  intros Hs Hq Hw. unfold collect. cbn [n_states_total].
  rewrite map_rev, zsum_rev, (upper_bound_all _ _ Hq).
  unfold quanta. rewrite length_map, firstn_all.
  rewrite collect_fold_eq.
  - change (zsum (map snd [])) with 0. unfold n_states. lia.
  - constructor.
  - exact Hs.
  - intros q. change (weight [] q) with 0. specialize (Hw q). lia.
Qed.

Lemma couple_saturate (ea eb : SpinLabel * Z) :
  couple ea eb
  = map (fun e => (fst e, Z.min (snd e) 65535)) (couple_raw ea eb).
Proof. unfold couple, couple_raw. rewrite map_map. reflexivity. Qed.

Lemma flat_map_map {A B C : Type} (f : A -> list B) (g : B -> C) (l : list A) :
  flat_map (fun x => map g (f x)) l = map g (flat_map f l).
Proof.
  induction l as [|x l IH]; [reflexivity|].
  cbn [flat_map]. rewrite IH, map_app. reflexivity.
Qed.

Lemma coupled_entries_saturate (a b : StateInfo) :
  coupled_entries a b
  = map (fun e => (fst e, Z.min (snd e) 65535)) (raw_entries a b).
Proof.
  unfold coupled_entries, raw_entries.
  rewrite <- flat_map_map. apply flat_map_ext. intros ea.
  rewrite <- flat_map_map. apply flat_map_ext. intros eb.
  apply couple_saturate.
Qed.

Lemma raw_entries_nonneg (a b : StateInfo) :
  counts_ok a -> counts_ok b ->
  Forall (fun v => 0 <= v) (map snd (raw_entries a b)).
Proof.
  unfold counts_ok. rewrite !List.Forall_forall. intros Ha Hb v Hv.
  apply in_map_iff in Hv as ([q v'] & <- & Hin). cbn [snd].
  unfold raw_entries in Hin.
  apply in_flat_map in Hin as (ea & Hea & Hin).
  apply in_flat_map in Hin as (eb & Heb & Hin).
  unfold couple_raw in Hin. apply in_map_iff in Hin as (k & Hk & _).
  injection Hk as _ <-.
  specialize (Ha ea Hea). specialize (Hb eb Heb). cbn in Ha, Hb. nia.
Qed.

Lemma coupled_entries_unsaturated (a b : StateInfo) :
  counts_ok a -> counts_ok b ->
  (forall q, weight (raw_entries a b) q <= 65535) ->
  coupled_entries a b = raw_entries a b.
Proof.
  intros Ha Hb Hw. rewrite coupled_entries_saturate.
  rewrite <- (map_id (raw_entries a b)) at 2.
  apply map_ext_in. intros [q v] Hin. cbn [fst snd]. f_equal.
  pose proof (weight_ge_entry _ q v (raw_entries_nonneg a b Ha Hb) Hin).
  specialize (Hw q). lia.
Qed.

Lemma raw_entries_sum (a b : StateInfo) :
  zsum (map snd (raw_entries a b)) = coupled_dim a b.
Proof.
  unfold raw_entries, coupled_dim. rewrite zsum_flat_map.
  apply zsum_map_eq. intros ea _. rewrite zsum_flat_map.
  apply zsum_map_eq. intros eb _. unfold couple_raw.
  rewrite map_map. cbn [snd]. rewrite zsum_const, length_seq, Z2Nat.id.
  - reflexivity.
  - pose proof (count_pos (add (fst ea) (fst eb))). lia.
Qed.

Lemma tensor_product_eq_coupled (a b : StateInfo) (target : SpinLabel) :
  counts_ok a -> counts_ok b ->
  Forall (fun e => fst e <= target) (coupled_entries a b) ->
  (forall q, weight (raw_entries a b) q <= 65535) ->
  n_states_total (tensor_product a b target) = coupled_dim a b.
Proof.
  intros Ha Hb Ht Hw. unfold tensor_product.
  pose proof (coupled_entries_unsaturated a b Ha Hb Hw) as Hraw.
  set (c := mkStateInfo (coupled_entries a b) 0).
  pose proof (sort_states_entries c) as Hperm. cbn [entries c] in Hperm.
  rewrite collect_total_eq.
  - unfold n_states. rewrite (zsum_perm _ _ (Permutation_map snd Hperm)).
    rewrite Hraw. apply raw_entries_sum.
  - unfold n_states. rewrite (Permutation_map snd Hperm).
    apply coupled_entries_nonneg; assumption.
  - unfold quanta. rewrite (Permutation_map fst Hperm).
    rewrite List.Forall_forall in Ht |- *. intros q Hq.
    apply in_map_iff in Hq as (e & <- & He). apply Ht, He.
  - intros q. rewrite (weight_perm _ _ q Hperm), Hraw. apply Hw.
Qed.

(** C4, as the code has it.  [n_states] counts multiplets, and a pair of
    labels couples to [count(qa + qb)] labels that each receive the
    product [na * nb]: the total of [tensor_product] is bounded by the sum
    of [count(qa + qb) * na * nb] over all pairs, which is [dA * dB] when
    every pair couples to a single label, and it is equal to that sum when
    [target] admits every coupled label and no label accumulates more
    than 65535. *)
Theorem tensor_product_total_bound (a b : StateInfo) (target : SpinLabel)
  (Ha : counts_ok a) (Hb : counts_ok b) :
  n_states_total (tensor_product a b target) <= coupled_dim a b
  /\ ((forall ea eb, In ea (entries a) -> In eb (entries b) ->
                     count (add (fst ea) (fst eb)) = 1) ->
      n_states_total (tensor_product a b target) <= dim a * dim b)
  /\ (Forall (fun e => fst e <= target) (coupled_entries a b) ->
      (forall q, weight (raw_entries a b) q <= 65535) ->
      n_states_total (tensor_product a b target) = coupled_dim a b)
  /\ n_states_total (tensor_product a b target)
     = dim (tensor_product a b target).
Proof.
  assert (n_states_total (tensor_product a b target) <= coupled_dim a b) as Hle.
  { etransitivity; [apply tensor_product_le_coupled; assumption|].
    apply coupled_le_dim; assumption. }
  split; [exact Hle|]. split; [|split].
  - intros H1. rewrite <- (coupled_dim_multiplicity_free a b H1). exact Hle.
  - intros Ht Hw. apply tensor_product_eq_coupled; assumption.
  - reflexivity.
Qed.

Lemma site_basis_counts_ok : counts_ok site_basis.
Proof. unfold counts_ok. repeat constructor; cbn; lia. Defined.

Lemma tensor_product_total_bound_witness :
  counts_ok site_basis
  /\ n_states_total (tensor_product site_basis site_basis collect_all)
     <= coupled_dim site_basis site_basis.
Proof.
  split; [exact site_basis_counts_ok|].
  exact (proj1 (tensor_product_total_bound site_basis site_basis collect_all
                  site_basis_counts_ok site_basis_counts_ok)).
Defined.

(** The claim as stated fails on the product of two site bases: every
    coupled label is below the default target, yet the total is 10 and
    [dA * dB = 9], because two doublets couple to a singlet and a
    triplet. *)
Lemma tensor_product_exceeds_dim_product :
  counts_ok site_basis
  /\ Forall (fun e => fst e <= collect_all)
            (coupled_entries site_basis site_basis)
  /\ n_states_total (tensor_product site_basis site_basis collect_all) = 10
  /\ dim site_basis * dim site_basis = 9
  /\ ~ (n_states_total (tensor_product site_basis site_basis collect_all)
        <= dim site_basis * dim site_basis).
Proof.
  split; [exact site_basis_counts_ok|].
  split; [repeat constructor; discriminate|].
  split; [reflexivity|]. split; [reflexivity|].
  intros Hle. vm_compute in Hle. apply Hle. reflexivity.
Qed.

End TensorProductFacts.

Section SparseFacts.
Import Label Sparse.
Local Open Scope Z_scope.

Lemma find_state_absent (inf : SparseMatrixInfo) (q : SpinLabel) (start : Z) :
  ~ In q (quanta inf) -> find_state inf q start = -1.
Proof.
  intros Hq. unfold find_state.
  destruct (_ =? n inf); [reflexivity|].
  destruct (quanta inf !! _) as [x|] eqn:Hx; [|reflexivity].
  unfold eqb. destruct (Z.eqb_spec x q) as [->|_]; [|reflexivity].
  exfalso. apply Hq. apply list_elem_of_In. eapply list_elem_of_lookup_2, Hx.
Qed.

(** C10. Indexing a [SparseMatrix] by a label that its table does not
    hold is an assertion failure: [find_state] returns -1 and
    [operator[](int)] asserts [idx != -1].  No block, zero or other, is
    returned. *)
Theorem block_of_absent_label (m : SparseMatrix) (q : SpinLabel)
  (Habsent : ~ In q (quanta (info m))) :
  find_state (info m) q 0 = -1
  /\ block_at m (-1) = Abort AssertionFailed
  /\ block_of m q = Abort AssertionFailed.
Proof.
  pose proof (find_state_absent (info m) q 0 Habsent) as Hf.
  split; [exact Hf|]. split; [reflexivity|].
  unfold block_of. rewrite Hf. reflexivity.
Qed.

Lemma at_insert (l : list Z) (p : nat) (v : Z) (i : Z) :
  at_ (<[p := v]> l) i
  = if (i =? Z.of_nat p) && (Z.of_nat p <? Z.of_nat (length l)) then v
    else at_ l i.
Proof.
  unfold at_. destruct (Z.ltb_spec i 0) as [Hi|Hi].
  - destruct (Z.eqb_spec i (Z.of_nat p)); [lia|reflexivity].
  - rewrite !nth_lookup.
    destruct (Z.eqb_spec i (Z.of_nat p)) as [->|Hne]; cbn [andb].
    + rewrite Nat2Z.id. destruct (Z.ltb_spec (Z.of_nat p) (Z.of_nat (length l))).
      * rewrite list_lookup_insert_eq by lia. reflexivity.
      * rewrite list_insert_ge by lia. reflexivity.
    + rewrite list_lookup_insert_ne by lia. reflexivity.
Qed.

Lemma fill_totals_prefix (bras kets tot0 : list Z) (j : nat) :
  at_ tot0 0 = 0 ->
  (Z.of_nat j < Z.of_nat (length tot0)) ->
  let r := fold_left
             (fun tot k =>
                <[Z.to_nat (Z.of_nat k + 1) :=
                    u32 (at_ tot (Z.of_nat k)
                         + at_ bras (Z.of_nat k) * at_ kets (Z.of_nat k))]> tot)
             (seq 0 j) tot0 in
  length r = length tot0
  /\ at_ r 0 = 0
  /\ forall i, 0 <= i < Z.of_nat j ->
       at_ r (i + 1) = u32 (at_ r i + at_ bras i * at_ kets i).
Proof.
  intros H0. induction j as [|j IH]; intros Hj r.
  - subst r. cbn. repeat split; [exact H0|]. intros i Hi. lia.
  - subst r. rewrite seq_S, fold_left_app. cbn [fold_left Nat.add].
    destruct IH as (Hlen & Hz & Hrec); [lia|].
    set (r := fold_left _ (seq 0 j) tot0) in *.
    replace (Z.to_nat (Z.of_nat j + 1)) with (Datatypes.S j) by lia.
    split; [rewrite length_insert; exact Hlen|].
    split.
    + rewrite at_insert. destruct (Z.eqb_spec 0 (Z.of_nat (Datatypes.S j))); [lia|].
      exact Hz.
    + intros i Hi. rewrite !at_insert.
      destruct (Z.eqb_spec i (Z.of_nat (Datatypes.S j))) as [E|_]; [lia|].
      cbn [andb].
      destruct (Z.eqb_spec (i + 1) (Z.of_nat (Datatypes.S j))) as [E|NE].
      * destruct (Z.ltb_spec (Z.of_nat (Datatypes.S j)) (Z.of_nat (length r)));
          [|lia].
        cbn [andb]. replace i with (Z.of_nat j) by lia. reflexivity.
      * cbn [andb]. apply Hrec. lia.
Qed.

Lemma fill_totals_spec (nn : Z) (bras kets tot0 : list Z) :
  at_ tot0 0 = 0 -> 1 <= nn <= Z.of_nat (length tot0) ->
  let r := fill_totals nn bras kets tot0 in
  at_ r 0 = 0
  /\ forall i, 0 <= i < nn - 1 ->
       at_ r (i + 1) = u32 (at_ r i + at_ bras i * at_ kets i).
Proof.
  intros H0 Hn r. subst r. unfold fill_totals. rewrite for_lt_fold.
  destruct (fill_totals_prefix bras kets tot0 (Z.to_nat (nn - 1)) H0)
    as (_ & Hz & Hrec); [lia|].
  split; [exact Hz|]. intros i Hi. apply Hrec. lia.
Qed.

Lemma set_twos_low_fields (q t : Z) :
  set_twos_low q t
  = ((q / 16777216) mod 256) * 16777216 + (t mod 256) * 65536 + q mod 65536.
Proof.
  unfold set_twos_low, u32.
  rewrite land_FF00FFFF, land_FF, shiftl_mul by lia. change (2 ^ 16) with 65536.
  rewrite (Z.mod_small (t mod 256 * 65536)) by zdm.
  apply (lor_mid _ _ _ 16 24); [lia| |]; change (2 ^ 16) with 65536;
    change (2 ^ 24) with 16777216; zdm.
Qed.

Lemma set_twos_low_again (q t1 t2 : Z) :
  set_twos_low (set_twos_low q t1) t2 = set_twos_low q t2.
Proof.
  rewrite (set_twos_low_fields (set_twos_low q t1)), !set_twos_low_fields. zdm.
Qed.

Lemma twos_index (q k : Z) :
  twos (index q k) = (u32 (q + k * 131072) / 65536) mod 256.
Proof.
  unfold index. rewrite shiftl_mul by lia. change (2 ^ 17) with 131072.
  set (d := u32 (q + k * 131072)).
  rewrite twos_div, land_FFFF00FF, land_FF0000, shiftr_div by lia.
  change (2 ^ 8) with 256.
  replace ((d / 65536) mod 256 * 65536 / 256) with ((d / 65536) mod 256 * 256)
    by zdm.
  rewrite (lor_mid _ _ _ 8 16); [|lia| |]; change (2 ^ 8) with 256;
    change (2 ^ 16) with 65536; zdm.
Qed.

(** The spins of the members of a range are pairwise different. *)
Lemma twos_index_inj (q k1 k2 : Z) :
  0 <= k1 < 128 -> 0 <= k2 < 128 ->
  (twos (index q k1)) mod 256 = (twos (index q k2)) mod 256 -> k1 = k2.
Proof.
  intros H1 H2. rewrite !twos_index. unfold u32. zdm.
Qed.

Lemma push_bras_prefix (bra : State.StateInfo) (bs q : SpinLabel)
  (qs : list SpinLabel) (j : nat) :
  let st := fold_left
              (fun (st : SpinLabel * list SpinLabel) k =>
                 let '(q, qs) := st in
                 if negb (State.find_state bra (index bs (Z.of_nat k)) =? -1)
                 then (set_twos_low q (twos (index bs (Z.of_nat k))),
                       qs ++ [set_twos_low q (twos (index bs (Z.of_nat k)))])
                 else (q, qs))
              (seq 0 j) (q, qs) in
  (forall t, set_twos_low (fst st) t = set_twos_low q t)
  /\ snd st
     = qs ++ map (fun k => set_twos_low q (twos (index bs (Z.of_nat k))))
               (List.filter
                  (fun k =>
                     negb (State.find_state bra (index bs (Z.of_nat k)) =? -1))
                  (seq 0 j)).
Proof.
  induction j as [|j IH].
  - cbn. split; [reflexivity|]. rewrite app_nil_r. reflexivity.
  - cbn zeta in *. rewrite seq_S, fold_left_app, List.filter_app, map_app.
    cbn [fold_left Nat.add List.filter].
    destruct (fold_left _ (seq 0 j) (q, qs)) as [qj qsj].
    cbn [fst snd] in IH. destruct IH as [Hset Hqs].
    destruct (negb (State.find_state bra (index bs (Z.of_nat j)) =? -1)).
    + cbn [fst snd map]. split.
      * intros t. rewrite Hset. apply set_twos_low_again.
      * rewrite Hqs, Hset, <- app_assoc. reflexivity.
    + cbn [fst snd map]. split; [exact Hset|].
      rewrite Hqs, app_nil_r. reflexivity.
Qed.

Lemma push_bras_snd (bra : State.StateInfo) (bs q : SpinLabel)
  (qs : list SpinLabel) :
  snd (push_bras bra bs (q, qs)) = qs ++ bras_of bra bs q.
Proof.
  unfold push_bras, bras_of. rewrite for_lt_fold.
  apply (push_bras_prefix bra bs q qs (Z.to_nat (count bs))).
Qed.

Lemma fold_left_append {A B : Type} (f : A -> list B) (l : list A)
  (acc : list B) :
  fold_left (fun acc x => acc ++ f x) l acc = acc ++ flat_map f l.
Proof.
  revert acc. induction l as [|x l IH]; intros acc; cbn [fold_left flat_map].
  - rewrite app_nil_r. reflexivity.
  - rewrite IH, app_assoc. reflexivity.
Qed.

(** The labels [initialize] gathers, ket label by ket label. *)
Lemma gather_flat_map (bra ket : State.StateInfo) (dq : SpinLabel) (wfn : bool) :
  gather bra ket dq wfn
  = flat_map (fun qk =>
                let q := if wfn then neg qk else qk in
                bras_of bra (add dq q) q)
             (State.quanta ket).
Proof.
  unfold gather.
  rewrite (fold_left_pointwise _
             (fun qs qk => qs ++ bras_of bra
                                   (add dq (if wfn then neg qk else qk))
                                   (if wfn then neg qk else qk))).
  - rewrite fold_left_append. reflexivity.
  - intros qs qk. cbn zeta. apply push_bras_snd.
Qed.

Lemma NoDup_flat_map_disjoint {A B : Type} (f : A -> list B) (l : list A) :
  List.NoDup l ->
  (forall x, In x l -> List.NoDup (f x)) ->
  (forall x y z, In x l -> In y l -> In z (f x) -> In z (f y) -> x = y) ->
  List.NoDup (flat_map f l).
Proof.
  induction 1 as [|x l Hx Hl IH]; intros Hf Hdisj; cbn [flat_map].
  - constructor.
  - apply List.NoDup_app.
    + apply Hf. left. reflexivity.
    + apply IH.
      * intros y Hy. apply Hf. right. exact Hy.
      * intros y1 y2 z H1 H2. apply Hdisj; right; assumption.
    + intros z Hz Hz'. apply in_flat_map in Hz' as (y & Hy & Hzy).
      assert (x = y) as -> by (apply (Hdisj x y z); auto using in_eq, in_cons).
      apply Hx. exact Hy.
Qed.

Lemma bras_of_NoDup (bra : State.StateInfo) (bs q : SpinLabel) :
  List.NoDup (bras_of bra bs q).
Proof.
  unfold bras_of. apply NoDup_map_NoDup_ForallPairs.
  - intros k1 k2 H1 H2 Heq.
    apply filter_In in H1 as [H1 _]. apply filter_In in H2 as [H2 _].
    apply in_seq in H1, H2. pose proof (count_pos bs) as Hc.
    rewrite !set_twos_low_fields in Heq.
    assert (twos (index bs (Z.of_nat k1)) mod 256
            = twos (index bs (Z.of_nat k2)) mod 256) as Ht by zdm.
    apply twos_index_inj in Ht; lia.
  - apply List.NoDup_filter, seq_NoDup.
Qed.

Lemma bras_of_source (bra : State.StateInfo) (bs q1 q2 z : SpinLabel) (bs' : SpinLabel) :
  0 <= q1 < 0x100000000 -> twos_low q1 = twos q1 ->
  0 <= q2 < 0x100000000 -> twos_low q2 = twos q2 ->
  In z (bras_of bra bs q1) -> In z (bras_of bra bs' q2) -> q1 = q2.
Proof.
  intros Hr1 Ht1 Hr2 Ht2 Hz1 Hz2. unfold bras_of in Hz1, Hz2.
  apply in_map_iff in Hz1 as (k1 & <- & _).
  apply in_map_iff in Hz2 as (k2 & Heq & _).
  rewrite !set_twos_low_fields in Heq.
  rewrite twos_low_div, twos_div in Ht1, Ht2. zdm.
Qed.

Lemma neg_keeps_spin (q : SpinLabel) :
  0 <= q < 0x100000000 -> twos_low q = twos q ->
  twos_low (neg q) = twos (neg q).
Proof.
  intros Hq. rewrite !twos_low_div, !twos_div, neg_fields by assumption. zdm.
Qed.

Lemma gather_NoDup (bra ket : State.StateInfo) (dq : SpinLabel) (wfn : bool) :
  labels_ok ket -> List.NoDup (gather bra ket dq wfn).
Proof.
  intros [Hnd Hok]. rewrite gather_flat_map. rewrite List.Forall_forall in Hok.
  apply NoDup_ListNoDup in Hnd.
  apply NoDup_flat_map_disjoint.
  - exact Hnd.
  - intros qk _. apply bras_of_NoDup.
  - intros x y z Hx Hy Hzx Hzy. cbn zeta in Hzx, Hzy.
    destruct (Hok x Hx) as [Hrx Htx]. destruct (Hok y Hy) as [Hry Hty].
    destruct wfn.
    + assert (neg x = neg y) as Hneg.
      { eapply bras_of_source; [| | | |exact Hzx|exact Hzy];
          auto using neg_range, neg_keeps_spin. }
      rewrite <- (neg_neg x), <- (neg_neg y), Hneg by assumption. reflexivity.
    + eapply bras_of_source; [| | | |exact Hzx|exact Hzy]; assumption.
Qed.

Lemma sorted_NoDup_strict (l : list Z) :
  Sorted Z.le l -> List.NoDup l ->
  forall (i : nat) (x y : Z),
    l !! i = Some x -> l !! Datatypes.S i = Some y -> x < y.
Proof.
  induction 1 as [|a l Hs IH Hhd]; intros Hnd i x y Hx Hy; [discriminate|].
  apply List.NoDup_cons_iff in Hnd as [Ha Hnd].
  destruct i as [|i].
  - cbn in Hx, Hy. injection Hx as <-.
    destruct l as [|b l]; [discriminate|]. cbn in Hy. injection Hy as <-.
    apply HdRel_inv in Hhd.
    assert (a <> b) by (intros ->; apply Ha; left; reflexivity).
    lia.
  - cbn in Hx, Hy. eapply IH; eassumption.
Qed.

Lemma sort_labels_strict (qs : list SpinLabel) :
  List.NoDup qs ->
  Sorted Z.le (sort_labels qs)
  /\ forall (i : nat) (x y : Z),
       sort_labels qs !! i = Some x ->
       sort_labels qs !! Datatypes.S i = Some y -> x < y.
Proof.
  intros Hnd. unfold sort_labels.
  assert (Sorted Z.le (merge_sort Z.le qs)) as Hs by apply Sorted_merge_sort, _.
  split; [exact Hs|]. apply sorted_NoDup_strict; [exact Hs|].
  eapply Permutation_NoDup; [|exact Hnd].
  symmetry. apply merge_sort_Permutation.
Qed.

Lemma site_basis_labels_ok : labels_ok State.site_basis.
Proof.
  unfold labels_ok.
  change (State.quanta State.site_basis) with [0; 16843008; 33554432].
  split.
  - apply NoDup_ListNoDup. repeat constructor; cbn; intuition discriminate.
  - repeat constructor; discriminate.
Defined.

(** C6, as the code has it.  For an info that [initialize] builds with
    [n >= 1] entries: [n_states_total[0] = 0]; every later offset is the
    previous one plus the size of the previous block, and
    [get_total_memory()] is the last offset plus the last block, both in
    [uint32_t] arithmetic (exact whenever the sum is below 2^32); the
    labels are sorted in non-decreasing order.  Each label is strictly
    below its successor when the ket table holds no label twice and only
    labels whose two spin bytes agree. *)
Theorem initialize_block_accounting (bra ket : State.StateInfo)
  (dq : SpinLabel) (fermion wfn : bool)
  (Hn : 1 <= n (initialize bra ket dq fermion wfn)) :
  let inf := initialize bra ket dq fermion wfn in
  n inf = Z.of_nat (length (quanta inf))
  /\ at_ (n_states_total inf) 0 = 0
  /\ (forall i, 0 <= i <= n inf - 2 ->
        at_ (n_states_total inf) (i + 1)
        = u32 (at_ (n_states_total inf) i
               + at_ (n_states_bra inf) i * at_ (n_states_ket inf) i))
  /\ (forall i, 0 <= i <= n inf - 2 ->
        0 <= at_ (n_states_total inf) i
             + at_ (n_states_bra inf) i * at_ (n_states_ket inf) i
          < 0x100000000 ->
        at_ (n_states_total inf) (i + 1)
        = at_ (n_states_total inf) i
          + at_ (n_states_bra inf) i * at_ (n_states_ket inf) i)
  /\ get_total_memory inf
     = u32 (at_ (n_states_total inf) (n inf - 1)
            + at_ (n_states_bra inf) (n inf - 1)
              * at_ (n_states_ket inf) (n inf - 1))
  /\ Sorted Z.le (quanta inf)
  /\ (labels_ok ket ->
      forall (i : nat) (x y : SpinLabel),
        quanta inf !! i = Some x -> quanta inf !! Datatypes.S i = Some y ->
        x < y).
Proof.
  intros inf. subst inf. revert Hn. unfold initialize.
  set (qs := gather bra ket dq wfn).
  destruct (Z.eqb_spec (Z.of_nat (length qs)) 0) as [E|NE]; [cbn; lia|].
  cbn [n quanta n_states_total n_states_bra n_states_ket]. intros Hn.
  set (bras := map _ (sort_labels qs)). set (kets := map _ (sort_labels qs)).
  destruct (fill_totals_spec (Z.of_nat (length qs)) bras kets
              (<[O := 0]> (replicate (length qs) 0))) as [Hz Hrec].
  { rewrite at_insert, length_replicate. change (Z.of_nat 0) with 0.
    rewrite Z.eqb_refl. cbn [andb].
    destruct (Z.ltb_spec 0 (Z.of_nat (length qs))); [reflexivity|lia]. }
  { rewrite length_insert, length_replicate. lia. }
  split.
  { unfold sort_labels. f_equal. apply Permutation_length.
    symmetry. apply merge_sort_Permutation. }
  split; [exact Hz|]. split; [intros i Hi; apply Hrec; lia|].
  split.
  { intros i Hi Hfit. rewrite Hrec by lia. unfold u32.
    apply Z.mod_small. exact Hfit. }
  split.
  { unfold get_total_memory. cbn [n n_states_total n_states_bra n_states_ket].
    destruct (Z.eqb_spec (Z.of_nat (length qs)) 0); [lia|reflexivity]. }
  split.
  { unfold sort_labels. apply Sorted_merge_sort, _. }
  intros Hket.
  exact (proj2 (sort_labels_strict qs (gather_NoDup bra ket dq wfn Hket))).
Qed.

Lemma initialize_block_accounting_witness :
  1 <= n (initialize State.site_basis State.site_basis (mk 1 1 0) true false)
  /\ at_ (n_states_total
            (initialize State.site_basis State.site_basis (mk 1 1 0) true false))
         0 = 0
  /\ (forall (i : nat) (x y : SpinLabel),
        quanta (initialize State.site_basis State.site_basis (mk 1 1 0)
                  true false) !! i = Some x ->
        quanta (initialize State.site_basis State.site_basis (mk 1 1 0)
                  true false) !! Datatypes.S i = Some y ->
        x < y).
Proof.
  assert (1 <= n (initialize State.site_basis State.site_basis (mk 1 1 0)
                    true false)) as Hn by (cbv; discriminate).
  pose proof (initialize_block_accounting
                State.site_basis State.site_basis (mk 1 1 0) true false Hn)
    as (_ & Hz & _ & _ & _ & _ & Hstrict).
  split; [exact Hn|]. split; [exact Hz|].
  exact (Hstrict site_basis_labels_ok).
Defined.

(** Outside the invariant the table can repeat a label: a ket table
    that lists a label twice. *)
Example initialize_duplicate_ket :
  quanta (initialize State.site_basis
            (State.mkStateInfo [(vacuum, 1); (vacuum, 1)] 2) vacuum false false)
  = [vacuum; vacuum].
Proof. reflexivity. Qed.

(** The claim as stated fails: a table whose labels are sorted and
    distinct, one of them a range label, gives an info that holds the
    same label twice. *)
Lemma initialize_repeats_label :
  Sorted Z.lt (State.quanta range_table)
  /\ Forall (fun q => twos_low q <= twos q /\ (twos q - twos_low q) mod 2 = 0)
            (State.quanta range_table)
  /\ 1 <= n (initialize range_table range_table vacuum false false)
  /\ quanta (initialize range_table range_table vacuum false false)
     = [mk 0 2 0; mk 0 2 0]
  /\ ~ (forall (i : nat) (x y : SpinLabel),
          quanta (initialize range_table range_table vacuum false false) !! i
          = Some x ->
          quanta (initialize range_table range_table vacuum false false)
            !! Datatypes.S i = Some y ->
          x <> y).
Proof.
  assert (quanta (initialize range_table range_table vacuum false false)
          = [mk 0 2 0; mk 0 2 0]) as E by reflexivity.
  split.
  { change (State.quanta range_table) with [512; 131584].
    repeat constructor; lia. }
  split.
  { change (State.quanta range_table) with [512; 131584].
    repeat constructor; cbv; first [discriminate | reflexivity]. }
  split; [cbv; discriminate|]. split; [exact E|].
  intros H. rewrite E in H.
  exact (H O (mk 0 2 0) (mk 0 2 0) eq_refl eq_refl eq_refl).
Qed.

End SparseFacts.

Section OpFunFacts.
Import Sparse OpFun.
Local Open Scope float_scope.













(** A present label is found and an absent one is not, on a concrete
    matrix. *)
Lemma block_of_absent_label_witness :
  ~ In (Label.mk 1 3 0) (quanta (info (site_matrix [1; 1; 1] 1)))
  /\ block_of (site_matrix [1; 1; 1] 1) (Label.mk 1 3 0)
     = Abort AssertionFailed
  /\ block_of (site_matrix [1; 1; 1] 1) (Label.mk 1 1 0) = Done (mkRef 1 1 1).
Proof.
  assert (~ In (Label.mk 1 3 0) (quanta (info (site_matrix [1; 1; 1] 1))))
    as Habsent by (cbv; intuition discriminate).
  split; [exact Habsent|]. split; [|reflexivity].
  exact (proj2 (proj2 (block_of_absent_label
                         (site_matrix [1; 1; 1] 1) (Label.mk 1 3 0) Habsent))).
Defined.

End OpFunFacts.

Section QCFacts.
Import Label Expr QC.

Lemma write_fold (X : list OpExpr) (f : nat -> OpExpr) (lo len r : nat) :
  len <= r ->
  fold_left (fun v j => <[length X + j - lo := f j]> v) (seq lo len)
            (X ++ replicate r Zero)
  = (X ++ map f (seq lo len)) ++ replicate (r - len) Zero.
Proof.
  induction len as [|len IH]; intros Hr.
  - cbn. rewrite Nat.sub_0_r, app_nil_r. reflexivity.
  - rewrite seq_S, fold_left_app, IH by lia. cbn [fold_left].
    replace (length X + (lo + len) - lo)
      with (length (X ++ map f (seq lo len)))
      by (rewrite length_app, length_map, length_seq; lia).
    replace (r - len) with (Datatypes.S (r - Datatypes.S len)) by lia.
    cbn [replicate].
    rewrite insert_app_r_alt, Nat.sub_diag by lia. cbn [insert list_insert].
    rewrite map_app, <- !app_assoc. reflexivity.
Qed.

Lemma write_run_filled (X : list OpExpr) (r lo hi : nat) (f : nat -> OpExpr)
  (st : cursor) :
  filled X r st -> hi - lo <= r ->
  filled (X ++ map f (seq lo (hi - lo))) (r - (hi - lo)) (write_run lo hi f st).
Proof.
  unfold filled. intros -> Hr. unfold write_run, for_range.
  rewrite write_fold by lia.
  rewrite length_app, length_map, length_seq. reflexivity.
Qed.

Lemma write_rows_filled (X : list OpExpr) (r w rows : nat)
  (g : nat -> nat -> OpExpr) (st : cursor) :
  filled X r st -> rows * w <= r ->
  filled (X ++ flat_map (fun j => map (g j) (seq 0 w)) (seq 0 rows))
         (r - rows * w)
         (for_range 0 rows
            (fun j (st : cursor) =>
               let '(v, p) := st in
               (for_range 0 w (fun k v => <[p + k := g j k]> v) v, p + w))
            st).
Proof.
  unfold filled. intros ->. unfold for_range at 1. rewrite Nat.sub_0_r.
  induction rows as [|rows IH]; intros Hr.
  - cbn. rewrite Nat.sub_0_r, app_nil_r. reflexivity.
  - rewrite seq_S, fold_left_app, IH by lia. cbn [fold_left Nat.add].
    rewrite flat_map_app. cbn [flat_map]. rewrite app_nil_r.
    unfold for_range. rewrite Nat.sub_0_r.
    set (Y := X ++ flat_map _ (seq 0 rows)).
    rewrite (fold_left_pointwise _
               (fun v k => <[length Y + k - 0 := g rows k]> v))
      by (intros; f_equal; lia).
    rewrite write_fold by lia.
    subst Y.
    rewrite !length_app, length_map, length_seq, <- !app_assoc.
    replace (r - Datatypes.S rows * w) with (r - rows * w - w) by lia.
    f_equal. lia.
Qed.

Lemma write_blocks_filled (X : list OpExpr) (r w : nat)
  (f : nat -> nat -> nat -> OpExpr) (st : cursor) :
  filled X r st -> 2 * (w * w) <= r ->
  filled (X ++ blocks w f) (r - 2 * (w * w)) (write_blocks w f st).
Proof.
  intros Hst Hr. unfold write_blocks, blocks. unfold for_range at 1.
  cbn [seq Nat.sub fold_left flat_map]. rewrite app_nil_r, app_assoc.
  replace (r - 2 * (w * w)) with (r - w * w - w * w) by lia.
  apply (write_rows_filled _ _ w w (fun j k => f j k 1)); [|lia].
  apply (write_rows_filled _ _ w w (fun j k => f j k 0)); [exact Hst|lia].
Qed.

Lemma filled_done (X : list OpExpr) (r : nat) (st : cursor) :
  filled X r st -> r = 0 -> fst st = X.
Proof. unfold filled. intros -> ->. cbn. apply app_nil_r. Qed.

Section Segments.
Variable hamil : Hamiltonian.

Lemma left_operator_names_segments (m : nat) :
  m + 1 < n_sites hamil ->
  left_operator_names hamil m = left_segments hamil m.
Proof.
  intros Hm. unfold left_operator_names.
  destruct (Nat.eqb_spec m (n_sites hamil - 1)) as [E|_]; [lia|].
  cbn [negb]. unfold left_segments.
  set (n := n_sites hamil) in *.
  assert (filled [Elem (h_op hamil); Elem (i_op hamil)] (rshape hamil m - 2)
            (<[1 := Elem (i_op hamil)]>
               (<[0 := Elem (h_op hamil)]> (replicate (rshape hamil m) Zero)),
             2)) as H0.
  { unfold filled, rshape. fold n.
    replace (2 + 2 * n + 6 * (m + 1) * (m + 1))
      with (Datatypes.S (Datatypes.S (2 * n + 6 * (m + 1) * (m + 1)))) by lia.
    cbn [replicate insert list_insert app length Nat.sub].
    rewrite Nat.sub_0_r. reflexivity. }
  apply (write_run_filled _ _ 0 (m + 1) (fun j => Elem (c_op hamil j))) in H0;
    [|unfold rshape; fold n; lia].
  apply (write_run_filled _ _ 0 (m + 1) (fun j => Elem (d_op hamil j))) in H0;
    [|unfold rshape; fold n; lia].
  apply (write_run_filled _ _ (m + 1) n (fun j => Elem (trd_op hamil j))) in H0;
    [|unfold rshape; fold n; lia].
  apply (write_run_filled _ _ (m + 1) n (fun j => Elem (tr_op hamil j))) in H0;
    [|unfold rshape; fold n; lia].
  apply (write_blocks_filled _ _ (m + 1)
           (fun j k s => Elem (a_op hamil j k s))) in H0;
    [|unfold rshape; fold n; lia].
  apply (write_blocks_filled _ _ (m + 1)
           (fun j k s => Elem (ad_op hamil j k s))) in H0;
    [|unfold rshape; fold n; lia].
  apply (write_blocks_filled _ _ (m + 1)
           (fun j k s => Elem (b_op hamil j k s))) in H0;
    [|unfold rshape; fold n; lia].
  apply filled_done in H0; [|unfold rshape; fold n; lia].
  cbn zeta. rewrite H0. rewrite Nat.sub_0_r, <- !app_assoc. reflexivity.
Qed.

Lemma right_operator_names_segments (m : nat) :
  0 < m < n_sites hamil ->
  right_operator_names hamil m = right_segments hamil m.
Proof.
  intros Hm. unfold right_operator_names.
  destruct (Nat.eqb_spec m 0) as [E|_]; [lia|].
  cbn [negb]. unfold right_segments.
  set (n := n_sites hamil) in *.
  assert (filled [Elem (i_op hamil); Elem (h_op hamil)] (lshape hamil m - 2)
            (<[1 := Elem (h_op hamil)]>
               (<[0 := Elem (i_op hamil)]> (replicate (lshape hamil m) Zero)),
             2)) as H0.
  { unfold filled, lshape. fold n.
    replace (2 + 2 * n + 6 * m * m)
      with (Datatypes.S (Datatypes.S (2 * n + 6 * m * m))) by lia.
    cbn [replicate insert list_insert app length Nat.sub].
    rewrite Nat.sub_0_r. reflexivity. }
  apply (write_run_filled _ _ 0 m (fun j => Elem (tr_op hamil j))) in H0;
    [|unfold lshape; fold n; lia].
  apply (write_run_filled _ _ 0 m (fun j => Elem (trd_op hamil j))) in H0;
    [|unfold lshape; fold n; lia].
  apply (write_run_filled _ _ m n (fun j => Elem (d_op hamil j))) in H0;
    [|unfold lshape; fold n; lia].
  apply (write_run_filled _ _ m n (fun j => Elem (c_op hamil j))) in H0;
    [|unfold lshape; fold n; lia].
  apply (write_blocks_filled _ _ m
           (fun j k s => lmul (su2_factor_p s) (Elem (p_op hamil j k s))))
    in H0; [|unfold lshape; fold n; lia].
  apply (write_blocks_filled _ _ m
           (fun j k s => lmul (su2_factor_p s) (Elem (pd_op hamil j k s))))
    in H0; [|unfold lshape; fold n; lia].
  apply (write_blocks_filled _ _ m
           (fun j k s => lmul (su2_factor_q s) (Elem (q_op hamil j k s))))
    in H0; [|unfold lshape; fold n; lia].
  apply filled_done in H0; [|unfold lshape; fold n; lia].
  cbn zeta. rewrite H0. rewrite Nat.sub_0_r, <- !app_assoc. reflexivity.
Qed.

Lemma Forall2_map_same {A : Type} (R : OpExpr -> OpExpr -> Prop)
  (f g : A -> OpExpr) (l : list A) :
  (forall x, R (f x) (g x)) -> Forall2 R (map f l) (map g l).
Proof. intros Hfg. induction l; cbn; constructor; auto. Qed.

Lemma Forall2_flat_map_same {A : Type} (R : OpExpr -> OpExpr -> Prop)
  (f g : A -> list OpExpr) (l : list A) :
  (forall x, Forall2 R (f x) (g x)) -> Forall2 R (flat_map f l) (flat_map g l).
Proof.
  intros Hfg. induction l; cbn; [constructor|]. apply Forall2_app; auto.
Qed.

Lemma Forall2_blocks (R : OpExpr -> OpExpr -> Prop) (w : nat)
  (f g : nat -> nat -> nat -> OpExpr) :
  (forall j k, R (f j k 0) (g j k 0)) -> (forall j k, R (f j k 1) (g j k 1)) ->
  Forall2 R (blocks w f) (blocks w g).
Proof.
  intros H0 H1. unfold blocks. cbn [seq flat_map]. rewrite !app_nil_r.
  apply Forall2_app; apply Forall2_flat_map_same; intros j;
    apply Forall2_map_same; intros k; auto.
Qed.

Lemma lmul_elem (d : float) (e : OpElement) :
  PrimFloat.eqb d 0 = false -> lmul d (Elem e) = Elem (OpElement_mul e d).
Proof. intros Hd. unfold lmul, mul. rewrite Hd. reflexivity. Qed.

Lemma segments_complementary (m : nat) :
  Forall2 complementary (left_segments hamil m)
          (right_segments hamil (Datatypes.S m)).
Proof.
  unfold left_segments, right_segments.
  replace (m + 1) with (Datatypes.S m) by lia.
  apply Forall2_app; [repeat constructor|].
  do 4 (apply Forall2_app;
        [apply Forall2_map_same; intros j; repeat constructor|]).
  do 2 (apply Forall2_app;
        [apply Forall2_blocks; intros j k; rewrite lmul_elem by reflexivity;
         repeat constructor|]).
  apply Forall2_blocks; intros j k; rewrite lmul_elem by reflexivity;
    repeat constructor.
Qed.

Lemma segments_factors (m : nat) :
  Forall2 factors_assigned (left_segments hamil m)
          (right_segments hamil (Datatypes.S m)).
Proof.
  unfold left_segments, right_segments.
  replace (m + 1) with (Datatypes.S m) by lia.
  apply Forall2_app; [repeat constructor|].
  do 4 (apply Forall2_app;
        [apply Forall2_map_same; intros j; split; reflexivity|]).
  do 2 (apply Forall2_app;
        [apply Forall2_blocks; intros j k; rewrite lmul_elem by reflexivity;
         split; reflexivity|]).
  apply Forall2_blocks; intros j k; rewrite lmul_elem by reflexivity;
    split; reflexivity.
Qed.

Lemma blocks_length (w : nat) (f : nat -> nat -> nat -> OpExpr) :
  length (blocks w f) = 2 * (w * w).
Proof.
  unfold blocks.
  rewrite (flat_map_constant_length (c := w * w)), length_seq; [reflexivity|].
  intros s _.
  rewrite (flat_map_constant_length (c := w)), length_seq; [reflexivity|].
  intros j _. rewrite length_map, length_seq. reflexivity.
Qed.

Lemma right_segments_length (m : nat) :
  m <= n_sites hamil ->
  length (right_segments hamil m) = lshape hamil m.
Proof.
  intros Hm. unfold right_segments, lshape.
  rewrite !length_app, !blocks_length, !length_map, !length_seq.
  cbn [length]. lia.
Qed.

End Segments.

(** C2, as the code has it.  For every site [m] in [1..n_sites-1] the
    right operator names built at site [m] and the left operator names
    built at site [m-1] have the same length [2 + 2 n_sites + 6 m^2], and
    at every index they hold elements on the same site indices whose
    names are partners (H/I, C/R, D/RD, A/P, AD/PD, B/Q).  The scalar
    factors are those each side assigns by name: on the left 2.0 on RD
    and R and 1.0 elsewhere; on the right 2.0 on R and RD, [-0.5] and
    [-0.5 * sqrt(3)] on P and PD, 1.0 and [sqrt(3)] on Q (spin index 0
    and 1), and 1.0 elsewhere.  The vectors are not equal: the first
    entry is I on the right and H on the left. *)
Theorem operator_names_complementary (hamil : Hamiltonian) (m : nat)
  (Hn : n_sites hamil <= 255) (Hm : 1 <= m < n_sites hamil) :
  length (right_operator_names hamil m)
    = length (left_operator_names hamil (m - 1))
  /\ length (right_operator_names hamil m) = 2 + 2 * n_sites hamil + 6 * m * m
  /\ Forall2 complementary (left_operator_names hamil (m - 1))
             (right_operator_names hamil m)
  /\ Forall2 factors_assigned (left_operator_names hamil (m - 1))
             (right_operator_names hamil m)
  /\ right_operator_names hamil m <> left_operator_names hamil (m - 1).
Proof.
  destruct m as [|m]; [lia|]. cbn [Nat.sub]. rewrite Nat.sub_0_r.
  rewrite left_operator_names_segments, right_operator_names_segments by lia.
  pose proof (segments_complementary hamil m) as Hc.
  split; [symmetry; eapply Forall2_length, Hc|].
  split; [apply right_segments_length; lia|].
  split; [exact Hc|].
  split; [exact (segments_factors hamil m)|].
  intros Heq.
  apply (f_equal (fun l => match l with
                           | Elem e :: _ => name e
                           | _ => H
                           end)) in Heq.
  discriminate Heq.
Qed.

Lemma operator_names_complementary_witness :
  n_sites toy <= 255 /\ 1 <= 2 < n_sites toy
  /\ length (right_operator_names toy 2) = 34
  /\ length (left_operator_names toy 1) = 34
  /\ Forall2 factors_assigned (left_operator_names toy 1)
             (right_operator_names toy 2).
Proof.
  assert (n_sites toy <= 255) as Hn by (cbn; lia).
  assert (1 <= 2 < n_sites toy) as Hm by (cbn; lia).
  split; [exact Hn|]. split; [exact Hm|].
  pose proof (operator_names_complementary toy 2 Hn Hm)
    as (Hlen & Hshape & _ & Hf & _).
  split; [exact Hshape|]. split; [reflexivity|]. exact Hf.
Defined.

(** The claim as stated fails on the four-orbital Hamiltonian at site 1:
    the vectors agree in length and differ at every index, the first
    entries being [I] and [H]. *)
Lemma right_names_are_not_left_names :
  right_operator_names toy 1 !! 0 = Some (Elem (i_op toy))
  /\ left_operator_names toy 0 !! 0 = Some (Elem (h_op toy))
  /\ expr_eqb (Elem (i_op toy)) (Elem (h_op toy)) = false
  /\ map get_type (right_operator_names toy 1)
     = map get_type (left_operator_names toy 0)
  /\ (forall i x y,
        right_operator_names toy 1 !! i = Some x ->
        left_operator_names toy 0 !! i = Some y ->
        expr_eqb x y = false)
  /\ right_operator_names toy 1 <> left_operator_names toy 0.
Proof.
  split; [reflexivity|]. split; [reflexivity|]. split; [reflexivity|].
  split; [reflexivity|]. split.
  - intros i x y Hx Hy.
    assert (forallb (fun xy => negb (expr_eqb (fst xy) (snd xy)))
              (List.combine (right_operator_names toy 1)
                       (left_operator_names toy 0)) = true) as Hall
      by (vm_compute; reflexivity).
    rewrite forallb_forall in Hall.
    specialize (Hall (x, y)). cbn [fst snd] in Hall.
    apply negb_true_iff, Hall.
    apply list_elem_of_In, list_elem_of_lookup. exists i.
    revert Hx Hy. generalize (right_operator_names toy 1)
                             (left_operator_names toy 0).
    clear. intros l1. revert i. induction l1 as [|a l1 IH]; intros i l2 Hx Hy.
    + destruct i; discriminate.
    + destruct l2 as [|b l2]; [destruct i; discriminate|].
      destruct i as [|i]; cbn in *.
      * congruence.
      * apply IH; assumption.
  - intros Heq.
    apply (f_equal (fun l => match l with
                             | Elem e :: _ => name e
                             | _ => H
                             end)) in Heq.
    discriminate Heq.
Qed.

(** On the four-orbital Hamiltonian at site 1, the factors of the two
    vectors, index by index. *)
Example toy_factors_site_1 :
  map (fun x => match x with Elem e => Some (name e, factor e) | _ => None end)
      (left_operator_names toy 0)
  = map Some
      (List.combine
         [H; I; C; D; RD; RD; RD; R; R; R; A; A; AD; AD; B; B]
         [1; 1; 1; 1; 2; 2; 2; 2; 2; 2; 1; 1; 1; 1; 1; 1]%float)
  /\ map (fun x => match x with Elem e => Some (name e, factor e) | _ => None end)
      (right_operator_names toy 1)
  = map Some
      (List.combine
         [I; H; R; RD; D; D; D; C; C; C; P; P; PD; PD; Q; Q]
         [1; 1; 2; 2; 1; 1; 1; 1; 1; 1; (-0.5); (-0.5 * PrimFloat.sqrt 3);
          (-0.5); (-0.5 * PrimFloat.sqrt 3); 1; PrimFloat.sqrt 3]%float).
Proof. split; vm_compute; reflexivity. Qed.

End QCFacts.

(** ** StackAllocator: runs of allocations, reallocate *)

Section AllocStack.
Import Alloc.
Local Open Scope Z_scope.

Lemma set_used_same (a : StackAllocator) : set_used a (used a) = a.
Proof. destruct a; reflexivity. Qed.

Lemma deallocate_all_app (a : StackAllocator) (b1 b2 : list (Z * Z)) :
  deallocate_all a (b1 ++ b2)
  = (a1 ← deallocate_all a b1; deallocate_all a1 b2).
Proof.
  revert a. induction b1 as [|[p n] b1 IH]; intros a; [reflexivity|].
  cbn [app deallocate_all]. unfold mbind, outcome_bind.
  destruct (deallocate a p n) as [a1|d]; cbn [obind]; [|reflexivity].
  apply IH.
Qed.

Lemma deallocate_fresh (a : StackAllocator) (n : Z) :
  0 <= used a -> 0 <= n ->
  deallocate (set_used a (used a + n)) (data a + used a) n = Done a.
Proof.
  intros Hu Hn. unfold deallocate.
  destruct (Z.eqb_spec n 0) as [->|NE].
  - rewrite Z.add_0_r, set_used_same. reflexivity.
  - cbn [used data set_used].
    destruct (Z.ltb_spec (used a + n) n) as [L|_]; [lia|].
    replace (data a + (used a + n) - n) with (data a + used a) by lia.
    rewrite Z.eqb_refl. cbn [negb orb].
    replace (used a + n - n) with (used a) by lia.
    unfold set_used; cbn. destruct a; reflexivity.
Qed.

Lemma allocate_all_fits (ns : list Z) (a : StackAllocator) :
  shift a = 0 -> 0 <= used a -> Forall (fun n => 0 <= n) ns ->
  used a + fold_right Z.add 0 ns < size a -> size a <= size_max ->
  allocate_all a ns
  = Done (starts (data a + used a) ns,
          set_used a (used a + fold_right Z.add 0 ns))
  /\ deallocate_all (set_used a (used a + fold_right Z.add 0 ns))
       (rev (List.combine (starts (data a + used a) ns) ns))
     = Done a.
Proof.
  revert a. induction ns as [|n ns IH]; intros a Hs Hu Hns Hfit Hsz.
  - cbn. rewrite Z.add_0_r, set_used_same. split; reflexivity.
  - apply Forall_cons in Hns as [Hn Hns]. cbn [fold_right] in *.
    assert (0 <= fold_right Z.add 0 ns) as Hpos.
    { clear -Hns. induction Hns; cbn; lia. }
    destruct (IH (set_used a (used a + n))) as [IHa IHd];
      try (cbn; first [assumption | lia]).
    cbn [used data set_used size shift] in IHa, IHd.
    replace (used a + n + fold_right Z.add 0 ns)
      with (used a + (n + fold_right Z.add 0 ns)) in IHa, IHd by lia.
    replace (data a + (used a + n)) with (data a + used a + n) in IHa, IHd by lia.
    assert (set_used (set_used a (used a + n)) (used a + (n + fold_right Z.add 0 ns))
            = set_used a (used a + (n + fold_right Z.add 0 ns))) as Eset
      by reflexivity.
    rewrite Eset in IHa, IHd. split.
    + cbn [allocate_all starts]. unfold mbind, outcome_bind.
      rewrite allocate_fits by lia. cbn [obind].
      unfold mbind, outcome_bind in IHa. rewrite IHa. reflexivity.
    + cbn [starts List.combine rev]. rewrite deallocate_all_app.
      unfold mbind, outcome_bind. rewrite IHd. cbn [obind deallocate_all].
      rewrite deallocate_fresh by lia. reflexivity.
Qed.

Lemma allocate_all_overflow (ns : list Z) (a : StackAllocator) :
  shift a = 0 -> 0 <= used a -> Forall (fun n => 0 <= n) ns -> ns <> [] ->
  used a + fold_right Z.add 0 ns < size_max ->
  size a <= used a + fold_right Z.add 0 ns ->
  allocate_all a ns = Abort ExceedingAllowedMemory.
Proof.
  revert a. induction ns as [|n ns IH]; intros a Hs Hu Hns Hne Hwrap Hge;
    [congruence|].
  apply Forall_cons in Hns as [Hn Hns]. cbn [fold_right] in *.
  assert (0 <= fold_right Z.add 0 ns) as Hpos.
  { clear -Hns. induction Hns; cbn; lia. }
  cbn [allocate_all]. unfold mbind, outcome_bind.
  destruct (Z.lt_ge_cases (used a + n) (size a)) as [Hfit|Hfull].
  - rewrite allocate_fits by lia. cbn [obind].
    destruct ns as [|n' ns']; [cbn in Hge; lia|].
    unfold mbind, outcome_bind in IH.
    assert (allocate_all (set_used a (used a + n)) (n' :: ns')
            = Abort ExceedingAllowedMemory) as E.
    { apply IH; cbn [used size shift set_used];
        first [assumption | discriminate | lia]. }
    rewrite E. reflexivity.
  - unfold allocate. rewrite Hs, Z.mod_small by lia. cbn.
    destruct (Z.geb_spec (used a + n) (size a)); [reflexivity|lia].
Qed.

(** X1. Stack discipline and capacity.  A run of allocations succeeds exactly
    when the total stays strictly below [size] (one element is kept in
    reserve: a run that would fill the arena exactly is refused); the
    blocks are then handed out back to back from the first free element,
    and freeing them last-allocated-first leaves the allocator exactly
    as it was before the first allocation. *)
Theorem allocate_all_stack_discipline (a : StackAllocator) (ns : list Z)
  (Hshift : shift a = 0) (Hused : 0 <= used a)
  (Hns : Forall (fun n => 0 <= n) ns)
  (Hwrap : used a + fold_right Z.add 0 ns < size_max)
  (Hsize : size a <= size_max) :
  (used a + fold_right Z.add 0 ns < size a ->
   exists ps a',
     allocate_all a ns = Done (ps, a')
     /\ ps = starts (data a + used a) ns
     /\ used a' = used a + fold_right Z.add 0 ns
     /\ used a' < size a'
     /\ deallocate_all a' (rev (List.combine ps ns)) = Done a)
  /\ (ns <> [] -> size a <= used a + fold_right Z.add 0 ns ->
      allocate_all a ns = Abort ExceedingAllowedMemory).
Proof.
  split.
  - intros Hfit.
    destruct (allocate_all_fits ns a Hshift Hused Hns Hfit Hsize) as [Ha Hd].
    eexists _, _. split; [exact Ha|]. split; [reflexivity|].
    split; [reflexivity|]. split; [cbn; lia|exact Hd].
  - intros Hne Hge. apply allocate_all_overflow; assumption.
Qed.

Lemma allocate_all_stack_discipline_witness :
  (exists ps a',
     allocate_all (init 1000 100) [10; 20; 30] = Done (ps, a')
     /\ ps = [1000; 1010; 1030]
     /\ used a' = 60
     /\ used a' < size a'
     /\ deallocate_all a' (rev (List.combine ps [10; 20; 30]))
        = Done (init 1000 100))
  /\ allocate_all (init 1000 60) [10; 20; 30] = Abort ExceedingAllowedMemory.
Proof.
  split.
  - apply (proj1 (allocate_all_stack_discipline (init 1000 100) [10; 20; 30]
                    eq_refl ltac:(cbn; lia)
                    ltac:(repeat constructor; lia)
                    ltac:(cbn; unfold size_max; lia)
                    ltac:(cbn; unfold size_max; lia))).
    cbn; lia.
  - apply (proj2 (allocate_all_stack_discipline (init 1000 60) [10; 20; 30]
                    eq_refl ltac:(cbn; lia)
                    ltac:(repeat constructor; lia)
                    ltac:(cbn; unfold size_max; lia)
                    ltac:(cbn; unfold size_max; lia))).
    + discriminate.
    + cbn; lia.
Defined.

Lemma advance_0 (p : Z) : advance p 0 = p.
Proof.
  unfold advance. cbv zeta. rewrite Z.mod_0_l by (unfold size_max; lia).
  change (0 <? 2 ^ 63) with true. cbv iota. lia.
Qed.

(** X2. [reallocate], called with [shift == 0].  For the block on top of the
    stack it resizes in place: the pointer is returned unchanged, [used]
    moves by [new_n - n], [shift] stays 0 and the block can then be freed
    with its new size; there is no capacity check.  For any other block
    whose size changes, [shift] is left non-zero and [allocate] stops at
    its assertion. *)
Theorem reallocate_top_block_only (a : StackAllocator) (ptr n new_n : Z)
  (Hshift : shift a = 0) (Hused : used a < size_max)
  (Hn : 0 <= n <= used a) (Hnew : 0 <= new_n)
  (Hwrap : used a - n + new_n < size_max) :
  (ptr = data a + used a - n ->
   reallocate a ptr n new_n
   = (ptr, mkAlloc (size a) (used a - n + new_n) 0 (data a))
   /\ deallocate (snd (reallocate a ptr n new_n)) ptr new_n
      = Done (set_used a (used a - n)))
  /\ (ptr <> data a + used a - n -> new_n <> n ->
      fst (reallocate a ptr n new_n) = ptr
      /\ used (snd (reallocate a ptr n new_n)) = used a - n + new_n
      /\ shift (snd (reallocate a ptr n new_n)) <> 0
      /\ forall m, allocate (snd (reallocate a ptr n new_n)) m
                   = Abort AssertionFailed).
Proof.
  assert ((used a + new_n - n) mod size_max = used a - n + new_n) as Eu.
  { rewrite Z.mod_small by lia. lia. }
  split.
  - intros ->.
    assert (reallocate a (data a + used a - n) n new_n
            = (data a + used a - n,
               mkAlloc (size a) (used a - n + new_n) 0 (data a))) as E.
    { unfold reallocate. rewrite Hshift, advance_0, Eu.
      replace (data a + (used a - n + new_n) - new_n) with (data a + used a - n)
        by lia.
      rewrite Z.eqb_refl. reflexivity. }
    split; [exact E|]. rewrite E. cbn [snd]. unfold deallocate.
    cbn [used data].
    destruct (Z.eqb_spec new_n 0) as [->|NE].
    + rewrite Z.add_0_r. unfold set_used. rewrite Hshift. reflexivity.
    + destruct (Z.ltb_spec (used a - n + new_n) new_n); [lia|].
      replace (data a + (used a - n + new_n) - new_n) with (data a + used a - n)
        by lia.
      rewrite Z.eqb_refl. cbn. unfold set_used. cbn.
      rewrite Hshift. do 2 f_equal. lia.
  - intros Hinner Hne.
    assert ((0 + new_n - n) mod size_max <> 0) as NZ.
    { unfold size_max in *. change (2 ^ 64) with 18446744073709551616 in *.
      zdm. }
    assert (reallocate a ptr n new_n
            = (ptr, mkAlloc (size a) (used a - n + new_n)
                      ((0 + new_n - n) mod size_max) (data a))) as E.
    { unfold reallocate. rewrite Hshift, advance_0, Eu.
      destruct (Z.eqb_spec ptr (data a + (used a - n + new_n) - new_n));
        [lia|reflexivity]. }
    rewrite E. cbn [fst snd used shift]. repeat split; try assumption.
    intros m. unfold allocate. cbn [shift].
    destruct (Z.eqb_spec ((0 + new_n - n) mod size_max) 0); [contradiction|].
    reflexivity.
Qed.

Lemma reallocate_top_block_only_witness :
  reallocate (mkAlloc 100 60 0 1000) 1030 30 5 = (1030, mkAlloc 100 35 0 1000)
  /\ allocate (snd (reallocate (mkAlloc 100 60 0 1000) 1010 20 5)) 1
     = Abort AssertionFailed.
Proof.
  split.
  - apply (proj1 (proj1 (reallocate_top_block_only (mkAlloc 100 60 0 1000)
                           1030 30 5 eq_refl ltac:(cbn; unfold size_max; lia)
                           ltac:(cbn; lia) ltac:(lia)
                           ltac:(cbn; unfold size_max; lia)) eq_refl)).
  - apply (proj2 (reallocate_top_block_only (mkAlloc 100 60 0 1000)
                    1010 20 5 eq_refl ltac:(cbn; unfold size_max; lia)
                    ltac:(cbn; lia) ltac:(lia)
                    ltac:(cbn; unfold size_max; lia))).
    + cbn. lia.
    + lia.
Defined.

(** With a pending [shift] the next block moves: after the block at
    1010 has shrunk from 20 to 15 elements, [shift] is [2^64 - 5];
    [reallocate] of the block above it returns the pointer 5 elements
    lower and, this block being on top, sets [shift] back to 0. *)
Example reallocate_moves_next_block :
  reallocate (mkAlloc 100 60 0 1000) 1010 20 15
  = (1010, mkAlloc 100 55 (size_max - 5) 1000)
  /\ reallocate (mkAlloc 100 55 (size_max - 5) 1000) 1030 30 30
     = (1025, mkAlloc 100 55 0 1000).
Proof. split; reflexivity. Qed.

(** [allocate] with a size that wraps [used + n]: the test passes on the
    wrapped sum and the block starts at the old [used]. *)
Example allocate_wrapped_size :
  allocate (mkAlloc 100 10 0 1000) (size_max - 5)
  = Done (1010, mkAlloc 100 5 0 1000).
Proof. reflexivity. Qed.

End AllocStack.

(** ** Parsing: split, join, trim *)

Section ParsingFacts.
Import Ascii Parsing.

Lemma find_if_None (p : ascii -> bool) (s : str) :
  find_if p s = None <-> Forall (fun c => p c = false) s.
Proof.
  induction s as [|c s IH]; cbn.
  - split; [constructor|reflexivity].
  - destruct (p c) eqn:E.
    + split; [discriminate|]. intros H. apply Forall_cons in H as [H _].
      congruence.
    + destruct (find_if p s) as [k|]; cbn.
      * split; [discriminate|]. intros H. apply Forall_cons in H as [_ H].
        apply IH in H. discriminate.
      * split; [|reflexivity]. intros _. constructor; [exact E|].
        apply IH. reflexivity.
Qed.

Lemma find_if_Some (p : ascii -> bool) (s : str) (k : nat) :
  find_if p s = Some k ->
  exists c, s = take k s ++ c :: drop (S k) s
            /\ p c = true /\ Forall (fun c => p c = false) (take k s).
Proof.
  revert k. induction s as [|c s IH]; intros k; cbn; [discriminate|].
  destruct (p c) eqn:E.
  - intros [= <-]. exists c. cbn. rewrite drop_0. repeat split; [exact E|constructor].
  - destruct (find_if p s) as [k'|]; cbn; [|discriminate].
    intros [= <-]. destruct (IH k' eq_refl) as (c' & Es & Hc & Hall).
    exists c'. cbn. split; [f_equal; exact Es|]. split; [exact Hc|].
    constructor; assumption.
Qed.

Lemma find_if_lt (p : ascii -> bool) (s : str) (k : nat) :
  find_if p s = Some k -> (k < length s)%nat.
Proof.
  intros H. destruct (find_if_Some p s k H) as (c & Es & _).
  apply (f_equal length) in Es. rewrite length_app in Es. cbn in Es.
  rewrite length_take in Es. lia.
Qed.

Lemma fields_nonnil (p : ascii -> bool) (s : str) : fields p s <> [].
Proof.
  induction s as [|c s IH]; cbn; [discriminate|].
  destruct (p c); [discriminate|]. destruct (fields p s); discriminate.
Qed.

Lemma fields_plain (p : ascii -> bool) (s : str) :
  Forall (fun c => p c = false) s -> fields p s = [s].
Proof.
  induction 1 as [|c s Hc _ IH]; cbn; [reflexivity|].
  rewrite Hc, IH. reflexivity.
Qed.

Lemma fields_app_delim (p : ascii -> bool) (a : str) (c : ascii) (s : str) :
  Forall (fun c => p c = false) a -> p c = true ->
  fields p (a ++ c :: s) = a :: fields p s.
Proof.
  intros Ha Hc. induction Ha as [|x a Hx _ IH]; cbn.
  - rewrite Hc. reflexivity.
  - rewrite Hx, IH. reflexivity.
Qed.

Lemma keep_cons (re : bool) (f : str) (fs : list str) :
  fs <> [] ->
  keep re (f :: fs) = (if negb re || nonempty f then [f] else []) ++ keep re fs.
Proof. destruct fs; [congruence|reflexivity]. Qed.

Lemma keep_false (fs : list str) : keep false fs = fs.
Proof.
  induction fs as [|f [|g fs] IH]; [reflexivity..|].
  rewrite keep_cons by discriminate. cbn [negb orb app]. f_equal. exact IH.
Qed.

Lemma keep_true (fs : list str) :
  fs <> [] ->
  keep true fs = List.filter nonempty (removelast fs) ++ [List.last fs []].
Proof.
  induction fs as [|f [|g fs] IH]; intros Hne; [congruence|reflexivity|].
  rewrite keep_cons by discriminate. rewrite IH by discriminate.
  cbn [negb orb]. change (removelast (f :: g :: fs)) with (f :: removelast (g :: fs)).
  change (List.last (f :: g :: fs) []) with (List.last (g :: fs) []).
  cbn [List.filter]. destruct (nonempty f); reflexivity.
Qed.

Lemma keep_sub (re : bool) (fs : list str) (f : str) :
  In f (keep re fs) -> In f fs.
Proof.
  induction fs as [|g [|h fs] IH]; [intros []|intros H; exact H|].
  rewrite keep_cons by discriminate. rewrite in_app_iff. intros [H|H].
  - destruct (negb re || nonempty g); [|destruct H].
    destruct H as [<-|[]]. left. reflexivity.
  - right. apply IH. exact H.
Qed.

Lemma split_loop_spec (s delim : str) (re : bool) (fuel : nat) :
  forall (r : list str) (last : nat),
    (last <= length s)%nat -> (length s - last < fuel)%nat ->
    finish s (split_loop fuel s delim re r last (find_first_of s delim last))
    = r ++ keep re (fields (in_set delim) (drop last s)).
Proof.
  induction fuel as [|fuel IH]; intros r last Hlast Hfuel; [lia|].
  unfold find_first_of.
  destruct (find_if (in_set delim) (drop last s)) as [k|] eqn:E;
    cbn [option_map split_loop].
  - pose proof (find_if_lt _ _ _ E) as Hk. rewrite length_drop in Hk.
    destruct (find_if_Some _ _ _ E) as (c & Es & Hc & Hall).
    fold (find_first_of s delim (last + k + 1)).
    rewrite IH by lia.
    assert (fields (in_set delim) (drop last s)
            = take k (drop last s)
              :: fields (in_set delim) (drop (S k) (drop last s))) as ->.
    { etransitivity; [exact (f_equal (fields (in_set delim)) Es)|].
      apply fields_app_delim; assumption. }
    rewrite keep_cons by apply fields_nonnil.
    rewrite drop_drop. replace (last + S k)%nat with (last + k + 1)%nat by lia.
    unfold substr. replace (last + k - last)%nat with k by lia.
    assert ((last <? last + k)%nat = nonempty (take k (drop last s))) as ->.
    { destruct k as [|k].
      - rewrite Nat.add_0_r, Nat.ltb_irrefl. reflexivity.
      - destruct (drop last s) eqn:Ed; [cbn in Hk; rewrite <- length_drop, Ed in Hk; cbn in Hk; lia|].
        cbn. apply Nat.ltb_lt. lia. }
    destruct (negb re || nonempty (take k (drop last s)));
      rewrite <- ?app_assoc; reflexivity.
  - cbn. apply find_if_None in E. rewrite fields_plain by exact E. reflexivity.
Qed.

Lemma split_fields (s delim : str) (re : bool) :
  split s delim re = keep re (fields (in_set delim) s).
Proof.
  unfold split.
  pose proof (split_loop_spec s delim re (S (length s)) [] O
                ltac:(lia) ltac:(lia)) as H.
  unfold finish in H. rewrite drop_0 in H. exact H.
Qed.

Lemma fields_join (d : ascii) (s : str) :
  flat_map (fun i => i ++ [d]) (fields (in_set [d]) s) = s ++ [d].
Proof.
  induction s as [|c s IH]; [reflexivity|]. cbn [fields].
  destruct (in_set [d] c) eqn:E.
  - cbn [flat_map]. rewrite IH. cbn in E. rewrite orb_false_r in E.
    apply Ascii.eqb_eq in E. subst c. reflexivity.
  - destruct (fields (in_set [d]) s) as [|f fs] eqn:Ef.
    + exfalso. exact (fields_nonnil _ _ Ef).
    + cbn [flat_map app] in *. rewrite IH. reflexivity.
Qed.

Lemma fields_clean (p : ascii -> bool) (s : str) :
  Forall (Forall (fun c => p c = false)) (fields p s).
Proof.
  induction s as [|c s IH]; cbn.
  - repeat constructor.
  - destruct (p c) eqn:E; [constructor; [constructor|exact IH]|].
    destruct (fields p s) as [|f fs]; [repeat constructor; exact E|].
    apply Forall_cons in IH as [Hf Hfs].
    constructor; [constructor; assumption|exact Hfs].
Qed.

Lemma fields_length (p : ascii -> bool) (s : str) :
  length (fields p s) = S (length (List.filter p s)).
Proof.
  induction s as [|c s IH]; cbn; [reflexivity|].
  destruct (p c); cbn; [rewrite IH; reflexivity|].
  destruct (fields p s); cbn in *; [discriminate|exact IH].
Qed.

Lemma fields_concat (p : ascii -> bool) (s : str) :
  concat (fields p s) = List.filter (fun c => negb (p c)) s.
Proof.
  induction s as [|c s IH]; cbn; [reflexivity|].
  destruct (p c); cbn; [exact IH|].
  destruct (fields p s) as [|f fs]; cbn in *; [rewrite <- IH; reflexivity|].
  rewrite IH. reflexivity.
Qed.

Lemma keep_concat (re : bool) (fs : list str) :
  concat (keep re fs) = concat fs.
Proof.
  induction fs as [|f [|g fs] IH]; [reflexivity..|].
  rewrite keep_cons by discriminate. rewrite concat_app, IH.
  destruct (negb re || nonempty f) eqn:E; cbn.
  - rewrite app_nil_r. reflexivity.
  - apply orb_false_iff in E as [_ E]. destruct f; [reflexivity|discriminate].
Qed.

(** X27. [split] cuts at every delimiter character.  Joining the pieces of a
    split at one character [d] with [d] gives the string back; no piece
    holds a delimiter; without [remove_empty] there is one piece more
    than there are delimiter characters (an empty string gives one empty
    piece); with [remove_empty] the empty pieces are dropped, except the
    last piece, which is always returned, also when it is empty; and the
    pieces together are the string without its delimiters. *)
Theorem split_pieces (s delim : str) (d : ascii) (remove_empty : bool) :
  join (split s [d] false) [d] = s
  /\ Forall (Forall (fun c => in_set delim c = false))
            (split s delim remove_empty)
  /\ length (split s delim false)
     = S (length (List.filter (in_set delim) s))
  /\ split s delim true
     = List.filter nonempty (removelast (split s delim false))
       ++ [List.last (split s delim false) []]
  /\ concat (split s delim remove_empty)
     = List.filter (fun c => negb (in_set delim c)) s.
Proof.
  rewrite !split_fields, !keep_false. split; [|split; [|split; [|split]]].
  - unfold join. rewrite fields_join, length_app. cbn [length].
    destruct (Nat.eqb_spec (length s + 1) 0) as [E|_]; [lia|].
    replace (length s + 1 - 1)%nat with (length s) by lia.
    rewrite take_app_length. reflexivity.
  - apply List.Forall_forall. intros f Hf. apply keep_sub in Hf.
    pose proof (fields_clean (in_set delim) s) as H.
    rewrite List.Forall_forall in H. apply H. exact Hf.
  - apply fields_length.
  - apply keep_true, fields_nonnil.
  - rewrite keep_concat. apply fields_concat.
Qed.

(** The trailing piece survives [remove_empty]. *)
Example split_trailing_empty :
  split ["a"; ","; ","; "b"; ","]%char [","%char] true
  = [["a"%char]; ["b"%char]; []]
  /\ split [] [","%char] true = [[]].
Proof. split; reflexivity. Qed.

Lemma find_last_not_of_Some (x : str) (j : nat) :
  find_last_not_of x blanks = Some j ->
  exists y c, take (S j) x = y ++ [c] /\ not_blank c = true
              /\ Forall (fun c => not_blank c = false) (drop (S j) x).
Proof.
  unfold find_last_not_of. fold not_blank.
  destruct (find_if not_blank (rev x)) as [k|] eqn:E; [|discriminate].
  cbn. intros [= <-].
  pose proof (find_if_lt _ _ _ E) as Hk. rewrite length_rev in Hk.
  destruct (find_if_Some _ _ _ E) as (c & Es & Hc & Hall).
  replace (S (length x - 1 - k)) with (length x - k)%nat by lia.
  assert (drop k (rev x) = c :: drop (S k) (rev x)) as Edk.
  { rewrite Es at 1. rewrite drop_app_length'; [reflexivity|].
    rewrite length_take, length_rev. lia. }
  assert (take (length x - k) x = rev (drop k (rev x))) as Et.
  { pose proof (skipn_rev k x) as Hs. apply (f_equal (@rev ascii)) in Hs.
    rewrite rev_involutive in Hs. symmetry. exact Hs. }
  assert (drop (length x - k) x = rev (take k (rev x))) as Ed.
  { pose proof (firstn_rev k x) as Hs. apply (f_equal (@rev ascii)) in Hs.
    rewrite rev_involutive in Hs. symmetry. exact Hs. }
  exists (rev (drop (S k) (rev x))), c.
  split; [rewrite Et, Edk; reflexivity|]. split; [exact Hc|].
  rewrite Ed. apply Forall_rev. exact Hall.
Qed.

Lemma find_last_not_of_None (x : str) :
  find_last_not_of x blanks = None ->
  Forall (fun c => not_blank c = false) x.
Proof.
  unfold find_last_not_of. fold not_blank.
  destruct (find_if not_blank (rev x)) eqn:E; [discriminate|]. intros _.
  apply find_if_None in E. apply Forall_rev in E.
  rewrite rev_involutive in E. exact E.
Qed.

Lemma trim_cases (x : str) :
  (trim x = [] /\ Forall (fun c => not_blank c = false) x)
  \/ (exists a b c y c',
        x = a ++ trim x ++ b
        /\ Forall (fun c => not_blank c = false) a
        /\ Forall (fun c => not_blank c = false) b
        /\ (exists t, trim x = c :: t) /\ not_blank c = true
        /\ trim x = y ++ [c'] /\ not_blank c' = true).
Proof.
  destruct x as [|c0 x0]; [left; split; [reflexivity|constructor]|].
  set (x := c0 :: x0).
  assert (trim x
          = take (match find_last_not_of
                          (erase_front x (find_if not_blank x)) blanks with
                  | None => O
                  | Some j => S j
                  end) (erase_front x (find_if not_blank x))) as ->
    by reflexivity.
  destruct (find_if not_blank x) as [k|] eqn:E1; cbn [erase_front].
  - right. destruct (find_if_Some _ _ _ E1) as (c & Es & Hc & Hall).
    assert (drop k x = c :: drop (S k) x) as Ek.
    { rewrite Es at 1. rewrite drop_app_length'; [reflexivity|].
      rewrite length_take. pose proof (find_if_lt _ _ _ E1). lia. }
    destruct (find_last_not_of (drop k x) blanks) as [j|] eqn:E2.
    + destruct (find_last_not_of_Some _ _ E2) as (y & c' & Et & Hc' & Hb).
      exists (take k x), (drop (S j) (drop k x)), c, y, c'.
      split; [rewrite take_drop, take_drop; reflexivity|].
      split; [exact Hall|]. split; [exact Hb|].
      split; [rewrite Ek; cbn; eexists; reflexivity|].
      split; [exact Hc|]. split; [exact Et|exact Hc'].
    + apply find_last_not_of_None in E2. rewrite Ek in E2.
      apply Forall_cons in E2 as [E2 _]. congruence.
  - left. split; [reflexivity|]. apply find_if_None. exact E1.
Qed.

Lemma trim_fixed (c c' : ascii) (t y : str) :
  not_blank c = true -> not_blank c' = true -> c :: t = y ++ [c'] ->
  trim (c :: t) = c :: t.
Proof.
  intros Hc Hc' E. unfold trim.
  change (find_first_not_of (c :: t) blanks) with (find_if not_blank (c :: t)).
  cbn [find_if]. rewrite Hc. cbn [erase_front]. rewrite drop_0.
  unfold find_last_not_of.
  change (fun c => negb (in_set blanks c)) with not_blank.
  rewrite E, rev_app_distr. cbn [rev app find_if]. rewrite Hc'.
  cbn [option_map]. rewrite <- E.
  replace (S (length (c :: t) - 1 - 0)) with (length (c :: t))
    by (cbn [length]; lia).
  apply firstn_all.
Qed.

(** X28. [trim] removes the blanks (space and tab) at both ends and nothing
    else: the string is blanks, then the result, then blanks; the
    result neither starts nor ends with a blank; a string of blanks only
    becomes empty; and trimming twice is trimming once. *)
Theorem trim_strips_blanks (x : str) :
  (exists a b,
     x = a ++ trim x ++ b
     /\ Forall (fun c => in_set blanks c = true) a
     /\ Forall (fun c => in_set blanks c = true) b)
  /\ (forall c t, trim x = c :: t -> in_set blanks c = false)
  /\ (forall y c, trim x = y ++ [c] -> in_set blanks c = false)
  /\ (Forall (fun c => in_set blanks c = true) x -> trim x = [])
  /\ trim (trim x) = trim x.
Proof.
  assert (forall l, Forall (fun c => not_blank c = false) l ->
                    Forall (fun c => in_set blanks c = true) l) as Hblank.
  { intros l. apply List.Forall_impl. intros c. unfold not_blank.
    destruct (in_set blanks c); [reflexivity|discriminate]. }
  assert (forall c, not_blank c = true -> in_set blanks c = false) as Hnb.
  { intros c. unfold not_blank. destruct (in_set blanks c);
      [discriminate|reflexivity]. }
  destruct (trim_cases x)
    as [[E Hall]|(a & b & c & y & c' & Ex & Ha & Hb & [t Et] & Hc & Ey & Hc')].
  - rewrite E. split; [|split; [|split; [|split]]].
    + exists x, []. rewrite app_nil_r. split; [reflexivity|].
      split; [apply Hblank; exact Hall|constructor].
    + discriminate.
    + intros [|? ?] ? ?; discriminate.
    + reflexivity.
    + reflexivity.
  - split; [|split; [|split; [|split]]].
    + exists a, b. split; [exact Ex|]. split; apply Hblank; assumption.
    + intros c1 t1 E1. rewrite Et in E1. injection E1 as <- <-.
      apply Hnb. exact Hc.
    + intros y1 c1 E1. rewrite Ey in E1. apply app_inj_tail in E1 as [_ <-].
      apply Hnb. exact Hc'.
    + intros Hx. rewrite Ex in Hx. apply Forall_app in Hx as [_ Hx].
      apply Forall_app in Hx as [Hx _]. rewrite Et in Hx.
      apply Forall_cons in Hx as [Hx _]. apply Hnb in Hc. congruence.
    + rewrite Et. apply (trim_fixed c c' t y Hc Hc'). rewrite <- Et. exact Ey.
Qed.

End ParsingFacts.

(** ** TInt, V8Int, V4Int: index maps *)

Section IntsFacts.
Import Label Ints.
Local Open Scope Z_scope.

Lemma twice_half_consecutive (b : Z) : 2 * (b * (b + 1) / 2) = b * (b + 1).
Proof.
  destruct (Z.Even_or_Odd b) as [[k ->]|[k ->]].
  - replace (2 * k * (2 * k + 1)) with (2 * (k * (2 * k + 1))) by ring.
    rewrite (Z.mul_comm 2 (k * _)) at 1. rewrite Z.div_mul by lia. ring.
  - replace ((2 * k + 1) * (2 * k + 1 + 1)) with (((2 * k + 1) * (k + 1)) * 2)
      by ring.
    rewrite Z.div_mul by lia. ring.
Qed.

(** The triangular layout, without the machine arithmetic. *)
Lemma tri_inj (a b a' b' : Z) :
  0 <= a <= b -> 0 <= a' <= b' ->
  b * (b + 1) / 2 + a = b' * (b' + 1) / 2 + a' -> a = a' /\ b = b'.
Proof.
  intros Ha Ha' E.
  pose proof (twice_half_consecutive b) as Tb.
  pose proof (twice_half_consecutive b') as Tb'.
  assert (b = b') as ->; [|lia]. nia.
Qed.

Lemma tri_bound (a b m : Z) :
  0 <= a <= b -> b < m -> b * (b + 1) / 2 + a < m * (m + 1) / 2.
Proof.
  intros Ha Hb.
  pose proof (twice_half_consecutive b) as Tb.
  pose proof (twice_half_consecutive m) as Tm. nia.
Qed.

Lemma TInt_find_index_val (i j : Z) :
  0 <= i < 65536 -> 0 <= j < 65536 ->
  TInt_find_index i j
  = Z.max i j * (Z.max i j + 1) / 2 + Z.min i j.
Proof.
  intros Hi Hj. unfold TInt_find_index, u32.
  rewrite !shiftr_div by lia. change (2 ^ 1) with 2.
  destruct (Z.ltb_spec i j).
  - rewrite Z.max_r, Z.min_l by lia.
    rewrite (Z.mod_small (j * (j + 1))) by nia.
    apply Z.mod_small.
    pose proof (twice_half_consecutive j). nia.
  - rewrite Z.max_l, Z.min_r by lia.
    rewrite (Z.mod_small (i * (i + 1))) by nia.
    apply Z.mod_small.
    pose proof (twice_half_consecutive i). nia.
Qed.

Lemma find_index2_val (i j : Z) :
  0 <= i < 0x80000000 -> 0 <= j < 0x80000000 ->
  find_index2 i j = Z.max i j * (Z.max i j + 1) / 2 + Z.min i j.
Proof.
  intros Hi Hj. unfold find_index2, u32, u64.
  rewrite !shiftr_div by lia. change (2 ^ 1) with 2.
  destruct (Z.ltb_spec i j).
  - rewrite Z.max_r, Z.min_l by lia.
    rewrite (Z.mod_small (j + 1)) by lia.
    rewrite (Z.mod_small (j * (j + 1))) by nia.
    apply Z.mod_small.
    pose proof (twice_half_consecutive j). nia.
  - rewrite Z.max_l, Z.min_r by lia.
    rewrite (Z.mod_small (i + 1)) by lia.
    rewrite (Z.mod_small (i * (i + 1))) by nia.
    apply Z.mod_small.
    pose proof (twice_half_consecutive i). nia.
Qed.

Lemma max_min_same_pair (i j i' j' : Z) :
  (Z.min i j = Z.min i' j' /\ Z.max i j = Z.max i' j') <-> same_pair i j i' j'.
Proof. unfold same_pair. lia. Qed.

Lemma tri_eq_iff (i j i' j' : Z) :
  0 <= i -> 0 <= j -> 0 <= i' -> 0 <= j' ->
  Z.max i j * (Z.max i j + 1) / 2 + Z.min i j
  = Z.max i' j' * (Z.max i' j' + 1) / 2 + Z.min i' j'
  <-> same_pair i j i' j'.
Proof.
  intros. rewrite <- max_min_same_pair. split.
  - intros E. apply tri_inj in E; lia.
  - intros [-> ->]. reflexivity.
Qed.

Lemma pair_count_val (n : Z) :
  0 <= n < 65536 -> pair_count n = n * (n + 1) / 2.
Proof.
  intros Hn. unfold pair_count, u32. rewrite shiftr_div by lia.
  rewrite (Z.mod_small (n + 1)) by lia.
  rewrite (Z.mod_small (n * (n + 1))) by nia. reflexivity.
Qed.

Lemma pair_count_bound (n : Z) :
  0 <= n < 65536 -> 0 <= pair_count n < 0x80000000.
Proof.
  intros Hn. rewrite pair_count_val by lia.
  pose proof (twice_half_consecutive n). nia.
Qed.

Lemma find_index2_lt_pair_count (n i j : Z) :
  0 <= n < 65536 -> 0 <= i < n -> 0 <= j < n ->
  0 <= find_index2 i j < pair_count n.
Proof.
  intros Hn Hi Hj. rewrite find_index2_val, pair_count_val by lia.
  split.
  - pose proof (twice_half_consecutive (Z.max i j)). nia.
  - apply tri_bound; lia.
Qed.

Lemma TInt_find_index_spec (n i j i' j' : Z)
  (Hn : 0 <= n < 65536) (Hi : 0 <= i < n) (Hj : 0 <= j < n)
  (Hi' : 0 <= i' < n) (Hj' : 0 <= j' < n) :
  TInt_find_index i j = TInt_find_index j i
  /\ 0 <= TInt_find_index i j < TInt_size n
  /\ (TInt_find_index i j = TInt_find_index i' j' <-> same_pair i j i' j').
Proof.
  rewrite !TInt_find_index_val by lia. split; [|split].
  - rewrite (Z.max_comm j i), (Z.min_comm j i). reflexivity.
  - unfold TInt_size, u64. rewrite shiftr_div by lia.
    rewrite (Z.mod_small (n * (n + 1))) by nia. change (2 ^ 1) with 2. split.
    + pose proof (twice_half_consecutive (Z.max i j)). nia.
    + apply tri_bound; lia.
  - apply tri_eq_iff; lia.
Qed.

(** X3. [TInt] keeps a symmetric [n x n] table in [n (n + 1) / 2] slots: for
    orbital indices below [n], [find_index] does not depend on the order
    of its arguments, stays below [size()], and sends two index pairs to
    the same slot only when they name the same unordered pair. *)
Theorem TInt_find_index_packs (n i j i' j' : Z)
  (Hn : 0 <= n < 65536) (Hi : 0 <= i < n) (Hj : 0 <= j < n)
  (Hi' : 0 <= i' < n) (Hj' : 0 <= j' < n) :
  TInt_find_index i j = TInt_find_index j i
  /\ 0 <= TInt_find_index i j < TInt_size n
  /\ (TInt_find_index i j = TInt_find_index i' j' <-> same_pair i j i' j').
Proof. exact (TInt_find_index_spec n i j i' j' Hn Hi Hj Hi' Hj'). Qed.

Lemma TInt_find_index_packs_witness :
  TInt_find_index 2 5 = TInt_find_index 5 2
  /\ 0 <= TInt_find_index 2 5 < TInt_size 8
  /\ (TInt_find_index 2 5 = TInt_find_index 5 2 <-> same_pair 2 5 5 2).
Proof.
  apply (TInt_find_index_packs 8 2 5 5 2); lia.
Defined.

(** X4. Writing [t(i, j)] and reading [t(i', j')] back: the value written is
    read from both orders of the pair, and every other entry of the
    table keeps its value. *)
Theorem TInt_set_get (n : Z) (data : list float) (i j i' j' : Z) (v : float)
  (Hn : 0 <= n < 65536) (Hlen : Z.of_nat (length data) = TInt_size n)
  (Hi : 0 <= i < n) (Hj : 0 <= j < n)
  (Hi' : 0 <= i' < n) (Hj' : 0 <= j' < n) :
  TInt_get (TInt_set data i j v) j i = Some v
  /\ (same_pair i j i' j' -> TInt_get (TInt_set data i j v) i' j' = Some v)
  /\ (~ same_pair i j i' j' ->
      TInt_get (TInt_set data i j v) i' j' = TInt_get data i' j').
Proof.
  destruct (TInt_find_index_spec n i j i' j') as (Hsym & Hb & Hinj); try lia.
  unfold TInt_get, TInt_set. split; [|split].
  - rewrite <- Hsym. apply list_lookup_insert_eq. lia.
  - intros Hs. apply Hinj in Hs. rewrite <- Hs.
    apply list_lookup_insert_eq. lia.
  - intros Hs. apply list_lookup_insert_ne. intros E. apply Hs, Hinj.
    destruct (TInt_find_index_spec n i' j' i j) as (_ & Hb' & _); lia.
Qed.

Lemma TInt_set_get_witness :
  TInt_get (TInt_set (replicate 36 0%float) 2 5 1.5%float) 5 2
  = Some 1.5%float.
Proof.
  apply (proj1 (TInt_set_get 8 (replicate 36 0%float) 2 5 5 2 1.5%float
                  ltac:(lia) eq_refl ltac:(lia) ltac:(lia) ltac:(lia)
                  ltac:(lia))).
Defined.

Lemma V8_pair_index (n i j : Z) :
  0 <= n < 65536 -> 0 <= i < n -> 0 <= j < n ->
  u32 (find_index2 i j) = find_index2 i j.
Proof.
  intros Hn Hi Hj.
  pose proof (find_index2_lt_pair_count n i j Hn Hi Hj).
  pose proof (pair_count_bound n Hn).
  unfold u32. apply Z.mod_small. lia.
Qed.

Lemma find_index2_eq_iff (i j i' j' : Z) :
  0 <= i < 0x80000000 -> 0 <= j < 0x80000000 ->
  0 <= i' < 0x80000000 -> 0 <= j' < 0x80000000 ->
  find_index2 i j = find_index2 i' j' <-> same_pair i j i' j'.
Proof.
  intros. rewrite !find_index2_val by lia. apply tri_eq_iff; lia.
Qed.

(** X5. [V8Int] stores the two-electron integrals [(ij|kl)] with their
    eightfold symmetry: for orbital indices below [n], [find_index] is
    unchanged by swapping [i] with [j], [k] with [l], or the pair [ij]
    with the pair [kl]; it stays below [size()]; and two index
    quadruples share a slot only when one is such a rearrangement of the
    other. *)
Theorem V8Int_find_index_eightfold (n i j k l i' j' k' l' : Z)
  (Hn : 0 <= n < 65536)
  (Hi : 0 <= i < n) (Hj : 0 <= j < n) (Hk : 0 <= k < n) (Hl : 0 <= l < n)
  (Hi' : 0 <= i' < n) (Hj' : 0 <= j' < n)
  (Hk' : 0 <= k' < n) (Hl' : 0 <= l' < n) :
  V8Int_find_index i j k l = V8Int_find_index j i k l
  /\ V8Int_find_index i j k l = V8Int_find_index i j l k
  /\ V8Int_find_index i j k l = V8Int_find_index k l i j
  /\ 0 <= V8Int_find_index i j k l < V8Int_size n
  /\ (V8Int_find_index i j k l = V8Int_find_index i' j' k' l'
      <-> (same_pair i j i' j' /\ same_pair k l k' l')
          \/ (same_pair i j k' l' /\ same_pair k l i' j')).
Proof.
  pose proof (pair_count_bound n Hn) as Hm.
  pose proof (find_index2_lt_pair_count n i j Hn Hi Hj) as Hp.
  pose proof (find_index2_lt_pair_count n k l Hn Hk Hl) as Hq.
  pose proof (find_index2_lt_pair_count n i' j' Hn Hi' Hj') as Hp'.
  pose proof (find_index2_lt_pair_count n k' l' Hn Hk' Hl') as Hq'.
  unfold V8Int_find_index.
  rewrite !(V8_pair_index n) by lia.
  assert (find_index2 j i = find_index2 i j) as Eji.
  { apply find_index2_eq_iff; try lia. right. split; reflexivity. }
  assert (find_index2 l k = find_index2 k l) as Elk.
  { apply find_index2_eq_iff; try lia. right. split; reflexivity. }
  rewrite Eji, Elk. split; [reflexivity|]. split; [reflexivity|].
  split; [|split].
  - apply find_index2_eq_iff; try lia. right. split; reflexivity.
  - unfold V8Int_size. cbv zeta.
    set (m := pair_count n) in *.
    assert (Z.shiftr (u64 (m * u32 (m + 1))) 1 = m * (m + 1) / 2) as ->.
    { unfold u32, u64. rewrite shiftr_div by lia.
      rewrite (Z.mod_small (m + 1)) by lia.
      rewrite (Z.mod_small (m * (m + 1))) by nia. reflexivity. }
    rewrite find_index2_val by lia. split.
    + pose proof (twice_half_consecutive
                    (Z.max (find_index2 i j) (find_index2 k l))). nia.
    + apply tri_bound; lia.
  - rewrite find_index2_eq_iff by lia. unfold same_pair at 1.
    rewrite <- !(find_index2_eq_iff i j), <- !(find_index2_eq_iff k l) by lia.
    tauto.
Qed.

Lemma V8Int_find_index_eightfold_witness :
  V8Int_find_index 1 2 3 0 = V8Int_find_index 0 3 2 1
  /\ 0 <= V8Int_find_index 1 2 3 0 < V8Int_size 4.
Proof.
  pose proof (V8Int_find_index_eightfold 4 1 2 3 0 0 3 2 1
                ltac:(lia) ltac:(lia) ltac:(lia) ltac:(lia) ltac:(lia)
                ltac:(lia) ltac:(lia) ltac:(lia) ltac:(lia))
    as (_ & _ & _ & Hb & Hiff).
  split; [|exact Hb]. apply Hiff. right. unfold same_pair. lia.
Defined.

(** X6. [V4Int] keeps the pair [ij] apart from the pair [kl]: for orbital
    indices below [n], [find_index] is unchanged by swapping [i] with [j]
    or [k] with [l] and stays below [size()], and two quadruples share a
    slot only when their first pairs agree and their second pairs agree,
    so [(ij|kl)] and [(kl|ij)] have separate slots unless the pairs are
    the same. *)
Theorem V4Int_find_index_pairs (n i j k l i' j' k' l' : Z)
  (Hn : 0 <= n < 65536)
  (Hi : 0 <= i < n) (Hj : 0 <= j < n) (Hk : 0 <= k < n) (Hl : 0 <= l < n)
  (Hi' : 0 <= i' < n) (Hj' : 0 <= j' < n)
  (Hk' : 0 <= k' < n) (Hl' : 0 <= l' < n) :
  V4Int_find_index n i j k l = V4Int_find_index n j i k l
  /\ V4Int_find_index n i j k l = V4Int_find_index n i j l k
  /\ 0 <= V4Int_find_index n i j k l < V4Int_size n
  /\ (V4Int_find_index n i j k l = V4Int_find_index n i' j' k' l'
      <-> same_pair i j i' j' /\ same_pair k l k' l').
Proof.
  pose proof (pair_count_bound n Hn) as Hm.
  pose proof (find_index2_lt_pair_count n i j Hn Hi Hj) as Hp.
  pose proof (find_index2_lt_pair_count n k l Hn Hk Hl) as Hq.
  pose proof (find_index2_lt_pair_count n i' j' Hn Hi' Hj') as Hp'.
  pose proof (find_index2_lt_pair_count n k' l' Hn Hk' Hl') as Hq'.
  unfold V4Int_find_index, V4Int_size. cbv zeta.
  rewrite !(V8_pair_index n) by lia.
  assert (find_index2 j i = find_index2 i j) as Eji.
  { apply find_index2_eq_iff; try lia. right. split; reflexivity. }
  assert (find_index2 l k = find_index2 k l) as Elk.
  { apply find_index2_eq_iff; try lia. right. split; reflexivity. }
  rewrite Eji, Elk. split; [reflexivity|]. split; [reflexivity|].
  set (m := pair_count n) in *.
  set (p := find_index2 i j) in *. set (q := find_index2 k l) in *.
  set (p' := find_index2 i' j') in *. set (q' := find_index2 k' l') in *.
  unfold u64.
  rewrite (Z.mod_small (p * m + q)), (Z.mod_small (p' * m + q')),
    (Z.mod_small (m * m)) by nia.
  split; [nia|].
  rewrite <- (find_index2_eq_iff i j i' j'), <- (find_index2_eq_iff k l k' l')
    by lia.
  fold p q p' q'. split.
  - intros E. assert (p = p') by nia. split; [assumption|nia].
  - intros [-> ->]. reflexivity.
Qed.

Lemma V4Int_find_index_pairs_witness :
  V4Int_find_index 4 1 2 3 0 = V4Int_find_index 4 2 1 0 3
  /\ 0 <= V4Int_find_index 4 1 2 3 0 < V4Int_size 4.
Proof.
  pose proof (V4Int_find_index_pairs 4 1 2 3 0 2 1 0 3
                ltac:(lia) ltac:(lia) ltac:(lia) ltac:(lia) ltac:(lia)
                ltac:(lia) ltac:(lia) ltac:(lia) ltac:(lia))
    as (_ & _ & Hb & Hiff).
  split; [|exact Hb]. apply Hiff. unfold same_pair. lia.
Defined.

End IntsFacts.

(** ** FCIDUMP: the tables in the allocated block *)

Section FCIDUMPFacts.
Import Label Ints FCIDUMP.
Local Open Scope Z_scope.

Lemma TInt_size_val (n : Z) :
  0 <= n < 65536 -> TInt_size n = n * (n + 1) / 2.
Proof.
  intros Hn. unfold TInt_size, u64. rewrite shiftr_div by lia.
  rewrite (Z.mod_small (n * (n + 1))) by nia. reflexivity.
Qed.

Lemma V8Int_size_val (n : Z) :
  0 <= n < 65536 ->
  V8Int_size n = pair_count n * (pair_count n + 1) / 2.
Proof.
  intros Hn. pose proof (pair_count_bound n Hn) as Hm.
  unfold V8Int_size, u32, u64. cbv zeta. rewrite shiftr_div by lia.
  rewrite (Z.mod_small (pair_count n + 1)) by lia.
  rewrite (Z.mod_small (pair_count n * (pair_count n + 1))) by nia.
  reflexivity.
Qed.

Lemma V4Int_size_val (n : Z) :
  0 <= n < 65536 -> V4Int_size n = pair_count n * pair_count n.
Proof.
  intros Hn. pose proof (pair_count_bound n Hn) as Hm.
  unfold V4Int_size, u64. cbv zeta. apply Z.mod_small. nia.
Qed.

Lemma V8Int_find_index_bound (n i j k l : Z) :
  0 <= n < 65536 -> 0 <= i < n -> 0 <= j < n -> 0 <= k < n -> 0 <= l < n ->
  0 <= V8Int_find_index i j k l < V8Int_size n.
Proof.
  intros Hn Hi Hj Hk Hl. pose proof (pair_count_bound n Hn) as Hm.
  pose proof (find_index2_lt_pair_count n i j Hn Hi Hj) as Hp.
  pose proof (find_index2_lt_pair_count n k l Hn Hk Hl) as Hq.
  rewrite V8Int_size_val by assumption. unfold V8Int_find_index.
  rewrite !(V8_pair_index n) by lia. rewrite find_index2_val by lia. split.
  - pose proof (twice_half_consecutive
                  (Z.max (find_index2 i j) (find_index2 k l))). nia.
  - apply tri_bound; lia.
Qed.

Lemma V4Int_find_index_bound (n i j k l : Z) :
  0 <= n < 65536 -> 0 <= i < n -> 0 <= j < n -> 0 <= k < n -> 0 <= l < n ->
  0 <= V4Int_find_index n i j k l < V4Int_size n.
Proof.
  intros Hn Hi Hj Hk Hl. pose proof (pair_count_bound n Hn) as Hm.
  pose proof (find_index2_lt_pair_count n i j Hn Hi Hj) as Hp.
  pose proof (find_index2_lt_pair_count n k l Hn Hk Hl) as Hq.
  rewrite V4Int_size_val by assumption. unfold V4Int_find_index. cbv zeta.
  rewrite !(V8_pair_index n) by lia. unfold u64.
  rewrite Z.mod_small by nia. nia.
Qed.

Lemma sizes_bound (n : Z) :
  0 <= n < 65536 ->
  0 <= TInt_size n < 0x80000000
  /\ 0 <= V8Int_size n < 0x2000000000000000
  /\ 0 <= V4Int_size n < 0x4000000000000000.
Proof.
  intros Hn. pose proof (pair_count_bound n Hn) as Hm.
  rewrite TInt_size_val, V8Int_size_val, V4Int_size_val by assumption.
  pose proof (twice_half_consecutive n) as H1.
  pose proof (twice_half_consecutive (pair_count n)) as H2.
  set (m := pair_count n) in *.
  assert (0 <= n * (n + 1) <= 65535 * 65536) as Hnn
    by (split; [apply Z.mul_nonneg_nonneg|apply Z.mul_le_mono_nonneg]; lia).
  assert (0 <= m * (m + 1) <= 2147483647 * 2147483648) as Hmm
    by (split; [apply Z.mul_nonneg_nonneg|apply Z.mul_le_mono_nonneg]; lia).
  assert (0 <= m * m <= 2147483647 * 2147483647) as Hm2
    by (split; [apply Z.mul_nonneg_nonneg|apply Z.mul_le_mono_nonneg]; lia).
  repeat split; lia.
Qed.

(** X29. The tables of [FCIDUMP::read] tile the allocated block.  For
    [norb = n] and both settings of [uhf]: the tables follow each other
    from the start of the block without gap or overlap, in the order
    [ts], [vs], [vabs], and the last one ends at [total_memory], which
    is the sum of the table sizes (no [size_t] computation wraps); and
    for orbital indices below [n] every element that [ts[.](i, j)],
    [vs[.](i, j, k, l)] or [vabs[0](i, j, k, l)] addresses lies inside
    its own table. *)
Theorem FCIDUMP_tables_tile (uhf : bool) (n i j k l : Z)
  (Hn : 0 <= n < 65536)
  (Hi : 0 <= i < n) (Hj : 0 <= j < n) (Hk : 0 <= k < n) (Hl : 0 <= l < n) :
  let L := layout_of uhf n in
  tiles 0 (tables n L) (total_memory L)
  /\ total_memory L
     = (if uhf
        then 2 * (TInt_size n + V8Int_size n) + V4Int_size n
        else TInt_size n + V8Int_size n)
  /\ total_memory L < 2 ^ 64
  /\ 0 <= TInt_find_index i j < TInt_size n
  /\ 0 <= V8Int_find_index i j k l < V8Int_size n
  /\ 0 <= V4Int_find_index n i j k l < V4Int_size n.
Proof.
  cbv zeta.
  destruct (sizes_bound n Hn) as (Ht & Hv & Hw).
  destruct (TInt_find_index_spec n i j i j Hn Hi Hj Hi Hj) as (_ & Hbt & _).
  pose proof (V8Int_find_index_bound n i j k l Hn Hi Hj Hk Hl) as Hbv.
  pose proof (V4Int_find_index_bound n i j k l Hn Hi Hj Hk Hl) as Hbw.
  assert (layout_of uhf n
          = if uhf
            then mkLayout [0; TInt_size n]
                   [2 * TInt_size n; 2 * TInt_size n + V8Int_size n]
                   [2 * (TInt_size n + V8Int_size n)]
                   (2 * (TInt_size n + V8Int_size n) + V4Int_size n)
            else mkLayout [0] [TInt_size n] []
                   (TInt_size n + V8Int_size n)) as EL.
  { unfold layout_of. cbv zeta. unfold u64.
    rewrite !shiftl_mul by lia. change (2 ^ 1) with 2.
    rewrite !Z.add_0_l.
    rewrite (Z.mod_small (TInt_size n * 2)) by lia.
    rewrite (Z.mod_small (TInt_size n + V8Int_size n)) by lia.
    rewrite (Z.mod_small ((TInt_size n + V8Int_size n) * 2)) by lia.
    rewrite (Z.mod_small ((TInt_size n + V8Int_size n) * 2 + V4Int_size n))
      by lia.
    rewrite !(Z.mul_comm _ 2). destruct uhf; reflexivity. }
  rewrite EL.
  split; [|split; [|split; [|split; [|split]]]]; try assumption.
  - destruct uhf; unfold tables; cbn; repeat split; lia.
  - destruct uhf; reflexivity.
  - destruct uhf; cbn [total_memory]; lia.
Qed.

Lemma FCIDUMP_tables_tile_witness :
  total_memory (layout_of true 4) = 2 * (TInt_size 4 + V8Int_size 4)
                                    + V4Int_size 4.
Proof.
  apply (proj1 (proj2 (FCIDUMP_tables_tile true 4 1 2 3 0
                         ltac:(lia) ltac:(lia) ltac:(lia) ltac:(lia)
                         ltac:(lia)))).
Defined.

End FCIDUMPFacts.

(** ** CG: symmetry of the triangle rule, projections *)

Section CGMore.
Import CG.
Local Open Scope Z_scope.

Lemma even_mod2 (x : Z) : Z.even x = true <-> x mod 2 = 0.
Proof.
  rewrite Zmod_even. destruct (Z.even x); split; intros; try reflexivity; discriminate.
Qed.

Lemma odd_false_mod2 (x : Z) : Z.odd x = false <-> x mod 2 = 0.
Proof.
  rewrite <- Z.negb_even, negb_false_iff. apply even_mod2.
Qed.

(** X7. [triangle] does not depend on the order of its three arguments, and
    it holds only for non-negative arguments: the three triangle
    inequalities are checked, although the source writes only two
    comparisons. *)
Theorem triangle_symmetric (tja tjb tjc : Z) :
  triangle tja tjb tjc = triangle tjb tja tjc
  /\ triangle tja tjb tjc = triangle tja tjc tjb
  /\ (triangle tja tjb tjc = true
      <-> (tja + tjb + tjc) mod 2 = 0
          /\ tja <= tjb + tjc /\ tjb <= tja + tjc /\ tjc <= tja + tjb)
  /\ (triangle tja tjb tjc = true -> 0 <= tja /\ 0 <= tjb /\ 0 <= tjc).
Proof.
  assert (forall a b c,
             triangle a b c = true
             <-> (a + b + c) mod 2 = 0
                 /\ a <= b + c /\ b <= a + c /\ c <= a + b) as Hspec.
  { intros a b c. rewrite triangle_spec, even_mod2. lia. }
  assert (forall x y : bool, (x = true <-> y = true) -> x = y) as Hbool.
  { intros [] [] [H1 H2]; try reflexivity.
    - symmetry. apply H1. reflexivity.
    - apply H2. reflexivity. }
  split; [|split; [|split]].
  - apply Hbool. rewrite !Hspec.
    replace (tjb + tja + tjc) with (tja + tjb + tjc) by ring. lia.
  - apply Hbool. rewrite !Hspec.
    replace (tja + tjc + tjb) with (tja + tjb + tjc) by ring. lia.
  - apply Hspec.
  - rewrite Hspec. lia.
Qed.

(** X8. [wigner_3j] returns exactly 0 when a projection exceeds its angular
    momentum ([|tm| > tj] for one of the three columns): the first guard
    does not test this, the range of the summation index is then empty
    and the second guard returns.  For every table and arithmetic. *)
Theorem wigner_3j_projection_rule (F : Type) (LD : LongDouble F)
  (sqrt_fact : Z -> F) (tja tjb tjc tma tmb tmc : Z)
  (Hproj : tja < Z.abs tma \/ tjb < Z.abs tmb \/ tjc < Z.abs tmc) :
  wigner_3j sqrt_fact tja tjb tjc tma tmb tmc = ld_of_int 0.
Proof.
  unfold wigner_3j. rewrite !land_1_odd, !negb_involutive.
  destruct (Z.eqb_spec (tma + tmb + tmc) 0) as [E|E]; [|reflexivity].
  destruct (triangle tja tjb tjc) eqn:Ht; [|reflexivity].
  destruct (Z.odd (tja + tma)) eqn:Oa; [reflexivity|].
  destruct (Z.odd (tjb + tmb)) eqn:Ob; [reflexivity|].
  destruct (Z.odd (tjc + tmc)) eqn:Oc; [reflexivity|].
  cbn [negb orb].
  apply triangle_spec in Ht as (Hev & Hle & Hge).
  apply even_mod2 in Hev. apply odd_false_mod2 in Oa, Ob, Oc.
  rewrite !shiftr_div by lia. change (2 ^ 1) with 2.
  match goal with
  | |- (if ?c then _ else _) = _ => assert (c = true) as ->; [|reflexivity]
  end.
  apply Z.gtb_lt. zdm.
Qed.

Lemma wigner_3j_projection_rule_witness :
  wigner_3j small_sqrt_fact 2 2 2 4 (-2) (-2) = 0%float.
Proof.
  apply (wigner_3j_projection_rule float float_LongDouble small_sqrt_fact
           2 2 2 4 (-2) (-2)).
  left. cbn. lia.
Defined.

End CGMore.

(** ** SpinLabel: coupling, ranges, projections of block labels *)

Section LabelMore.
Import Label.
Local Open Scope Z_scope.

Ltac pow2 :=
  change (2 ^ 8) with 256 in *; change (2 ^ 16) with 65536 in *;
  change (2 ^ 24) with 16777216 in *; change (2 ^ 17) with 131072 in *;
  change (2 ^ 9) with 512 in *; change (2 ^ 7) with 128 in *.

Lemma unpack (q : Z) :
  q = pack (q / 16777216) ((q / 65536) mod 256) ((q / 256) mod 256) (q mod 256).
Proof. unfold pack. zdm. Qed.

Lemma pack_range (nb lb tb pb : Z) :
  0 <= nb < 256 -> 0 <= lb < 256 -> 0 <= tb < 256 -> 0 <= pb < 256 ->
  0 <= pack nb lb tb pb < 0x100000000.
Proof. unfold pack. lia. Qed.

Lemma pg_mod (q : SpinLabel) : pg q = q mod 256.
Proof. apply land_FF. Qed.

Lemma n_div (q : SpinLabel) :
  0 <= q < 0x100000000 -> n q = signed8 (q / 16777216).
Proof.
  intros Hq. unfold n, to_int32, u32, signed8. rewrite shiftr_div by lia.
  pow2. rewrite (Z.mod_small q) by lia.
  rewrite (Z.mod_small (q / 16777216)) by zdm.
  destruct (Z.ltb_spec q 2147483648), (Z.ltb_spec (q / 16777216) 128); zdm.
Qed.

Lemma fields_pack (nb lb tb pb : Z) :
  0 <= nb < 256 -> 0 <= lb < 256 -> 0 <= tb < 256 -> 0 <= pb < 256 ->
  n (pack nb lb tb pb) = signed8 nb
  /\ twos_low (pack nb lb tb pb) = lb
  /\ twos (pack nb lb tb pb) = tb
  /\ pg (pack nb lb tb pb) = pb.
Proof.
  intros Hn Hl Ht Hp.
  rewrite n_div by (apply pack_range; assumption).
  rewrite twos_low_div, twos_div, pg_mod. unfold pack.
  repeat split; [f_equal|..]; zdm.
Qed.

Lemma index_fields (q k : Z) :
  let d := u32 (q + k * 131072) in
  index q k
  = pack (d / 16777216) ((d / 65536) mod 256) ((d / 65536) mod 256) (d mod 256).
Proof.
  intros d. unfold index. rewrite shiftl_mul by lia. pow2. fold d.
  rewrite land_FFFF00FF, land_FF0000, shiftr_div by lia. pow2.
  replace ((d / 65536) mod 256 * 65536 / 256) with ((d / 65536) mod 256 * 256)
    by zdm.
  assert (0 <= d < 4294967296) by (subst d; unfold u32; zdm).
  rewrite (lor_mid _ _ _ 8 16); [|lia| |]; pow2; unfold pack; zdm.
Qed.

Lemma count_fields (q : Z) :
  count q = (q / 512 - q / 131072) mod 128 + 1.
Proof.
  unfold count, u32. rewrite !shiftr_div by lia.
  change 0x7F with (Z.ones 7). rewrite Z.land_ones by lia. pow2. zdm.
Qed.

Lemma abs_field_abs (d : Z) :
  -128 <= d <= 128 -> abs_field (u32 (d * 65536)) = Z.abs d * 65536.
Proof.
  intros Hd.
  assert (forallb (fun k => abs_field (u32 ((Z.of_nat k - 128) * 65536))
                            =? Z.abs (Z.of_nat k - 128) * 65536)
                  (seq 0 257) = true) as Hall by (vm_compute; reflexivity).
  rewrite forallb_forall in Hall.
  specialize (Hall (Z.to_nat (d + 128))).
  rewrite Z2Nat.id in Hall by lia.
  replace (d + 128 - 128) with d in Hall by lia.
  apply Z.eqb_eq, Hall, in_seq. lia.
Qed.

Lemma add_fields (a b : SpinLabel) :
  valid a -> valid b ->
  add a b
  = pack ((a / 16777216 + b / 16777216) mod 256)
         (Z.abs (twos a - twos b)) (twos a + twos b)
         (Z.lxor (pg a) (pg b)).
Proof.
  intros (Ha & La & Ta) (Hb & Lb & Tb).
  rewrite twos_low_div in La, Lb. rewrite !pg_mod.
  rewrite twos_div in La, Lb, Ta, Tb |- *. rewrite (twos_div b).
  unfold add.
  rewrite !land_FF00FF00, !land_FF, !land_FF00, !land_FF0000.
  rewrite !shiftl_mul by lia. pow2.
  assert (0 <= (a / 256) mod 256 /\ 0 <= (b / 256) mod 256) as [Ta0 Tb0] by zdm.
  set (ta := (a / 256) mod 256) in *. set (tb := (b / 256) mod 256) in *.
  rewrite La, Lb.
  replace (ta * 256 * 256 - tb * 65536) with ((ta - tb) * 65536) by ring.
  replace (tb * 256 * 256 - ta * 65536) with ((tb - ta) * 65536) by ring.
  rewrite !abs_field_abs by lia.
  replace (Z.abs (tb - ta)) with (Z.abs (ta - tb)) by lia.
  rewrite Z.min_id.
  pose proof (lxor_byte (a mod 256) (b mod 256)) as Hx.
  set (x := Z.lxor (a mod 256) (b mod 256)) in *.
  assert (0 <= x < 256) as Hx' by (apply Hx; zdm). clear Hx.
  set (s := u32 _).
  assert (s = ((a / 16777216 + b / 16777216) mod 256) * 16777216
              + (ta + tb) * 256) as ->.
  { subst s. unfold u32. subst ta tb. zdm. }
  set (nn := (a / 16777216 + b / 16777216) mod 256).
  assert (0 <= nn < 256) by (subst nn; zdm).
  replace (nn * 16777216 + (ta + tb) * 256)
    with ((nn * 65536 + (ta + tb)) * 2 ^ 8) by (pow2; ring).
  rewrite (lor_fields _ x 8) by (pow2; lia).
  replace ((nn * 65536 + (ta + tb)) * 2 ^ 8 + x)
    with (nn * 2 ^ 24 + ((ta + tb) * 256 + x)) by (pow2; ring).
  replace (Z.abs (ta - tb) * 65536) with (Z.abs (ta - tb) * 2 ^ 16)
    by (pow2; ring).
  rewrite (lor_mid _ _ _ 16 24); pow2; unfold pack; lia.
Qed.

Lemma odd_false_mod2' (x : Z) : Z.odd x = false <-> x mod 2 = 0.
Proof.
  rewrite Zmod_odd. destruct (Z.odd x); split; intros; try reflexivity; discriminate.
Qed.

Lemma valid_bytes (q : SpinLabel) :
  valid q ->
  0 <= q < 0x100000000
  /\ q = pack (q / 16777216) (twos q) (twos q) (pg q)
  /\ 0 <= q / 16777216 < 256 /\ 0 <= twos q < 128 /\ 0 <= pg q < 256.
Proof.
  intros (Hq & Hl & Ht). rewrite twos_low_div in Hl.
  rewrite twos_div in Hl, Ht |- *. rewrite pg_mod.
  split; [exact Hq|]. split; [|zdm].
  rewrite <- Hl at 1. apply unpack.
Qed.

Lemma unpack_fields (q : SpinLabel) :
  0 <= q < 0x100000000 ->
  q = pack (q / 16777216) (twos_low q) (twos q) (pg q)
  /\ 0 <= q / 16777216 < 256 /\ 0 <= twos_low q < 256
  /\ 0 <= twos q < 256 /\ 0 <= pg q < 256.
Proof.
  intros Hq. rewrite twos_low_div, twos_div, pg_mod.
  split; [apply unpack|zdm].
Qed.

Lemma signed8_add (x y : Z) :
  signed8 (signed8 x + signed8 y) = signed8 (x + y).
Proof.
  unfold signed8.
  destruct (Z.ltb_spec (x mod 256) 128), (Z.ltb_spec (y mod 256) 128);
    match goal with
    | |- context [(?u mod 256 <? 128)] =>
        replace (u mod 256) with ((x + y) mod 256) by zdm
    end; reflexivity.
Qed.

Lemma signed8_inj (x y : Z) :
  0 <= x < 256 -> 0 <= y < 256 -> signed8 x = signed8 y -> x = y.
Proof.
  unfold signed8. intros Hx Hy.
  rewrite !Z.mod_small by lia.
  destruct (Z.ltb_spec x 128), (Z.ltb_spec y 128); lia.
Qed.

Lemma signed8_mod (x : Z) : signed8 (x mod 256) = signed8 x.
Proof. unfold signed8. rewrite Z.mod_mod by lia. reflexivity. Qed.

Lemma add_comm (a b : SpinLabel) : add a b = add b a.
Proof.
  unfold add.
  rewrite (Z.add_comm (Z.land a 0xFF00FF00)), (Z.lxor_comm (Z.land a 0xFF)).
  rewrite (Z.min_comm (abs_field (u32 (Z.shiftl (Z.land a 0xFF00) 8
                                       - Z.land b 0xFF0000)))).
  reflexivity.
Qed.

Lemma add_valid_spec (a b : SpinLabel) (Ha : valid a) (Hb : valid b) :
  add a b = add b a
  /\ range_ok (add a b)
  /\ n (add a b) = signed8 (n a + n b)
  /\ twos_low (add a b) = Z.abs (twos a - twos b)
  /\ twos (add a b) = twos a + twos b
  /\ pg (add a b) = Z.lxor (pg a) (pg b)
  /\ count (add a b) = Z.min (twos a) (twos b) + 1.
Proof.
  split; [apply add_comm|].
  pose proof (valid_bytes a Ha) as (Ra & Ea & Na & Ta & Pa).
  pose proof (valid_bytes b Hb) as (Rb & Eb & Nb & Tb & Pb).
  pose proof (lxor_byte (pg a) (pg b) Pa Pb) as Hx.
  rewrite add_fields by assumption.
  set (nn := (a / 16777216 + b / 16777216) mod 256).
  assert (0 <= nn < 256) as Hnn by (subst nn; zdm).
  destruct (fields_pack nn (Z.abs (twos a - twos b)) (twos a + twos b)
              (Z.lxor (pg a) (pg b))) as (Fn & Fl & Ft & Fp); try lia.
  rewrite Fn, Fl, Ft, Fp.
  split.
  { unfold range_ok. rewrite Fl, Ft.
    split; [apply pack_range; lia|]. split; [lia|]. zdm. }
  split.
  { rewrite !n_div by assumption. rewrite signed8_add. subst nn.
    apply signed8_mod. }
  split; [reflexivity|]. split; [reflexivity|]. split; [reflexivity|].
  rewrite count_fields. unfold pack.
  set (x := Z.lxor (pg a) (pg b)) in *. zdm.
Qed.

(** X9. Coupling of two labels.  [operator+] is commutative on all words.
    For two labels of one state each, the sum is the range of labels
    whose particle number is the sum (as a signed byte), whose point
    group is the exclusive or, and whose spins run from [|sa - sb|] to
    [sa + sb]: it holds [min(sa, sb) + 1] labels. *)
Theorem add_couples_spins (a b : SpinLabel) (Ha : valid a) (Hb : valid b) :
  add a b = add b a
  /\ range_ok (add a b)
  /\ n (add a b) = signed8 (n a + n b)
  /\ twos_low (add a b) = Z.abs (twos a - twos b)
  /\ twos (add a b) = twos a + twos b
  /\ pg (add a b) = Z.lxor (pg a) (pg b)
  /\ count (add a b) = Z.min (twos a) (twos b) + 1.
Proof. exact (add_valid_spec a b Ha Hb). Qed.

Lemma valid_mk_1_3_0 : valid (mk 1 3 0).
Proof. unfold valid. cbv. repeat split; discriminate. Defined.

Lemma valid_mk_2_2_1 : valid (mk 2 2 1).
Proof. unfold valid. cbv. repeat split; discriminate. Defined.

Lemma add_couples_spins_witness :
  twos_low (add (mk 1 3 0) (mk 2 2 1)) = Z.abs (twos (mk 1 3 0) - twos (mk 2 2 1))
  /\ twos (add (mk 1 3 0) (mk 2 2 1)) = twos (mk 1 3 0) + twos (mk 2 2 1)
  /\ count (add (mk 1 3 0) (mk 2 2 1))
     = Z.min (twos (mk 1 3 0)) (twos (mk 2 2 1)) + 1.
Proof.
  pose proof (add_couples_spins (mk 1 3 0) (mk 2 2 1)
                valid_mk_1_3_0 valid_mk_2_2_1)
    as (_ & _ & _ & Hl & Ht & _ & Hc).
  split; [exact Hl|]. split; [exact Ht|exact Hc].
Defined.

Lemma count_range (q : SpinLabel) :
  range_ok q -> count q = (twos q - twos_low q) / 2 + 1.
Proof.
  intros (Hq & Hle & Hpar). rewrite count_fields.
  rewrite twos_div, twos_low_div in *. zdm.
Qed.

Lemma index_range (q : SpinLabel) (k : Z) :
  range_ok q -> 0 <= k < count q ->
  index q k = pack (q / 16777216) (twos_low q + 2 * k) (twos_low q + 2 * k)
                   (pg q)
  /\ twos_low q + 2 * k <= twos q.
Proof.
  intros Hr Hk. rewrite count_range in Hk by assumption.
  destruct Hr as (Hq & Hle & Hpar).
  rewrite index_fields. cbv zeta. unfold u32, pack.
  rewrite pg_mod. rewrite twos_div, twos_low_div in *.
  split; [|zdm].
  assert ((q + k * 131072) mod 4294967296 = q + k * 131072) as -> by zdm.
  zdm.
Qed.

Lemma members_range (q x : SpinLabel) :
  range_ok q ->
  In x (members q)
  <-> exists k, 0 <= k <= (twos q - twos_low q) / 2
                /\ x = pack (q / 16777216) (twos_low q + 2 * k)
                            (twos_low q + 2 * k) (pg q).
Proof.
  intros Hr. unfold members. rewrite in_map_iff. split.
  - intros (k & <- & Hk). apply in_seq in Hk. exists (Z.of_nat k).
    assert (0 <= Z.of_nat k < count q) as Hk'.
    { pose proof (count_pos q). lia. }
    split; [rewrite count_range in Hk' by assumption; lia|].
    apply index_range; assumption.
  - intros (k & Hk & ->). exists (Z.to_nat k).
    rewrite Z2Nat.id by lia.
    assert (0 <= k < count q) as Hk'
      by (rewrite count_range by assumption; lia).
    split; [apply index_range; assumption|].
    apply in_seq. lia.
Qed.

Lemma members_add_spec (a b x : SpinLabel)
  (Ha : valid a) (Hb : valid b) :
  In x (members (add a b))
  <-> 0 <= x < 0x100000000
      /\ twos_low x = twos x
      /\ n x = signed8 (n a + n b)
      /\ pg x = Z.lxor (pg a) (pg b)
      /\ CG.triangle (twos a) (twos b) (twos x) = true.
Proof.
  pose proof (add_valid_spec a b Ha Hb)
    as (_ & Hr & Hn & Hl & Ht & Hp & _).
  pose proof (valid_bytes a Ha) as (Ra & Ea & Na & Ta & Pa).
  pose proof (valid_bytes b Hb) as (Rb & Eb & Nb & Tb & Pb).
  pose proof (lxor_byte (pg a) (pg b) Pa Pb) as Hx.
  rewrite members_range by assumption. rewrite Hl, Ht, Hp.
  rewrite triangle_spec.
  assert (0 <= add a b / 16777216 < 256) as Hnn
    by (destruct Hr as (Hq & _); zdm).
  assert (signed8 (add a b / 16777216) = signed8 (n a + n b)) as Hn'.
  { rewrite <- Hn. symmetry. apply n_div. apply Hr. }
  set (p := Z.lxor (pg a) (pg b)) in *.
  set (nn := add a b / 16777216) in *.
  split.
  - intros (k & Hk & ->).
    destruct (fields_pack nn (Z.abs (twos a - twos b) + 2 * k)
                (Z.abs (twos a - twos b) + 2 * k) p)
      as (Fn & Fl & Ft & Fp); try zdm.
    rewrite Fn, Fl, Ft, Fp.
    split; [apply pack_range; zdm|]. split; [reflexivity|].
    split; [exact Hn'|]. split; [reflexivity|].
    split; [|zdm].
    rewrite <- Z.negb_odd, negb_true_iff. apply odd_false_mod2'. zdm.
  - intros (Hxr & Hxl & Hxn & Hxp & Hev & Hle & Hge).
    rewrite <- Z.negb_odd, negb_true_iff in Hev. apply odd_false_mod2' in Hev.
    exists ((twos x - Z.abs (twos a - twos b)) / 2).
    split; [zdm|].
    rewrite n_div in Hxn by assumption. rewrite <- Hn' in Hxn.
    apply signed8_inj in Hxn; [|zdm|assumption].
    destruct (unpack_fields x Hxr) as (Ex & _ & Hxl' & Hxt' & _).
    rewrite Ex at 1. rewrite Hxn, Hxl, Hxp. unfold pack. zdm.
Qed.

(** X10. The labels of the range [a + b] are exactly the labels of one state
    whose particle number and point group are those of the sum and
    whose spin satisfies the triangle rule with the spins of [a] and
    [b]: [members] enumerates the Clebsch-Gordan series that
    [CG::triangle] tests. *)
Theorem members_add_triangle (a b x : SpinLabel)
  (Ha : valid a) (Hb : valid b) :
  In x (members (add a b))
  <-> 0 <= x < 0x100000000
      /\ twos_low x = twos x
      /\ n x = signed8 (n a + n b)
      /\ pg x = Z.lxor (pg a) (pg b)
      /\ CG.triangle (twos a) (twos b) (twos x) = true.
Proof. exact (members_add_spec a b x Ha Hb). Qed.

Lemma members_add_triangle_witness :
  In (mk 3 3 1) (members (add (mk 1 3 0) (mk 2 2 1))).
Proof.
  apply (members_add_triangle (mk 1 3 0) (mk 2 2 1) (mk 3 3 1)
           valid_mk_1_3_0 valid_mk_2_2_1).
  vm_compute. repeat split; discriminate.
Defined.

Lemma land_FF0000FF (x : Z) :
  Z.land x 0xFF0000FF = ((x / 16777216) mod 256) * 16777216 + x mod 256.
Proof.
  change 0xFF0000FF with (Z.lor 0xFF000000 (Z.ones 8)).
  rewrite Z.land_lor_distr_r, land_FF000000, Z.land_ones by lia.
  apply (lor_fields _ _ 24); [lia|]. pow2. zdm.
Qed.

Lemma land_100 (x : Z) : Z.land x 0x100 = ((x / 256) mod 2) * 256.
Proof. apply (land_field x 8 1); lia. Qed.

Lemma xor_mask_zero (q x : Z) :
  0 <= q < 0x100000000 -> 0 <= x < 0x100000000 ->
  Z.land (Z.lxor q x) 0xFF0000FF = 0
  <-> q / 16777216 = x / 16777216 /\ q mod 256 = x mod 256.
Proof.
  intros Hq Hx.
  assert (Z.land (Z.lxor q x) 0xFF0000FF
          = Z.lxor (Z.land q 0xFF0000FF) (Z.land x 0xFF0000FF)) as ->
    by (apply Z.bits_inj'; intros k Hk;
        rewrite ?Z.land_spec, ?Z.lxor_spec, ?Z.land_spec;
        destruct (Z.testbit q k), (Z.testbit x k), (Z.testbit 0xFF0000FF k);
        reflexivity).
  rewrite Z.lxor_eq_0_iff, !land_FF0000FF. zdm.
Qed.

Lemma find_fields (q x : SpinLabel) :
  0 <= q < 0x100000000 -> 0 <= x < 0x100000000 ->
  find q x
  = if (q / 16777216 =? x / 16777216) && (pg q =? pg x)
       && ((twos x - twos q) mod 2 =? 0)
       && (twos_low q <=? twos x) && (twos x <=? twos q)
    then ((twos x - twos q) mod 256) / 2
    else -1.
Proof.
  intros Hq Hx. unfold find.
  pose proof (xor_mask_zero q x Hq Hx) as Hmask.
  rewrite !pg_mod.
  destruct (Z.eqb_spec (Z.land (Z.lxor q x) 0xFF0000FF) 0) as [E|E].
  - apply Hmask in E as [En Ep].
    rewrite En, Ep, !Z.eqb_refl. cbn [negb orb andb].
    rewrite land_100, land_FF00, shiftr_div by lia.
    assert ((u32 (x - q) / 256) mod 256 = (twos x - twos q) mod 256) as Hd.
    { unfold u32. rewrite !twos_div. zdm. }
    assert ((u32 (x - q) / 256) mod 2 = (twos x - twos q) mod 2) as Hp.
    { unfold u32. rewrite !twos_div. zdm. }
    rewrite Hd, Hp.
    rewrite Z.gtb_ltb.
    destruct (Z.eqb_spec ((twos x - twos q) mod 2 * 256) 0) as [E2|E2],
             (Z.eqb_spec ((twos x - twos q) mod 2) 0) as [E3|E3]; try lia;
      cbn [negb orb andb]; [|reflexivity].
    destruct (Z.ltb_spec (twos x) (twos_low q)),
             (Z.leb_spec (twos_low q) (twos x)); try lia;
      cbn [orb andb]; try reflexivity.
    destruct (Z.ltb_spec (twos q) (twos x)),
             (Z.leb_spec (twos x) (twos q)); try lia;
      cbn [orb andb]; try reflexivity.
    pow2. zdm.
  - cbn [negb orb].
    destruct (Z.eqb_spec (q / 16777216) (x / 16777216)) as [En|En];
      [|reflexivity].
    destruct (Z.eqb_spec (q mod 256) (x mod 256)) as [Ep|Ep]; [|reflexivity].
    exfalso. apply E, Hmask. split; assumption.
Qed.

Lemma find_iff (q x : SpinLabel) :
  0 <= q < 0x100000000 -> 0 <= x < 0x100000000 ->
  find q x <> -1
  <-> q / 16777216 = x / 16777216 /\ pg q = pg x
      /\ (twos x - twos q) mod 2 = 0
      /\ twos_low q <= twos x /\ twos x <= twos q.
Proof.
  intros Hq Hx. rewrite find_fields by assumption.
  destruct (Z.eqb_spec (q / 16777216) (x / 16777216));
    destruct (Z.eqb_spec (pg q) (pg x));
    destruct (Z.eqb_spec ((twos x - twos q) mod 2) 0);
    destruct (Z.leb_spec (twos_low q) (twos x));
    destruct (Z.leb_spec (twos x) (twos q));
    cbn [andb]; (split; [intros Hne|intros Hall]); try lia; try congruence.
  zdm.
Qed.

(** X11. [find] tests membership, it does not return the position: for a
    range [q] and a label [x] of one state, [find] is -1 exactly when
    [x] is not among [q[0], ..., q[count-1]]; on the member [q[i]] it
    returns [(i + 1 - count) mod 128], which is 0 for the last member
    and [128 - (count - 1 - i)] for the others. *)
Theorem find_tests_membership (q x : SpinLabel)
  (Hq : range_ok q) (Hx : 0 <= x < 0x100000000)
  (Hxs : twos_low x = twos x) :
  (find q x <> -1 <-> In x (members q))
  /\ (find q x = -1 \/ 0 <= find q x < 128)
  /\ (forall i, 0 <= i < count q ->
        find q (index q i) = (i + 1 - count q) mod 128).
Proof.
  pose proof Hq as (Hqr & Hle & Hpar).
  destruct (unpack_fields q Hqr) as (Eq & Nq & Lq & Tq & Pq).
  destruct (unpack_fields x Hx) as (Ex & Nx & Lx & Tx & Px).
  split; [|split].
  - rewrite find_iff, members_range by assumption. split.
    + intros (En & Ep & E2 & Hl & Hu).
      exists ((twos x - twos_low q) / 2). split; [zdm|].
      rewrite Ex at 1. rewrite En, Ep, Hxs. unfold pack. zdm.
    + intros (k & Hk & ->).
      destruct (fields_pack (q / 16777216) (twos_low q + 2 * k)
                  (twos_low q + 2 * k) (pg q)) as (_ & _ & Ft & Fp); try zdm.
      rewrite Ft, Fp. split; [unfold pack; zdm|]. split; [reflexivity|]. zdm.
  - rewrite find_fields by assumption.
    destruct (_ && _); [right; zdm|left; reflexivity].
  - intros i Hi.
    destruct (index_range q i Hq Hi) as [Ei Hti].
    rewrite count_range in * by assumption.
    assert (0 <= twos_low q + 2 * i < 256) as Hb by zdm.
    destruct (fields_pack (q / 16777216) (twos_low q + 2 * i)
                (twos_low q + 2 * i) (pg q)) as (_ & Fl & Ft & Fp); try lia.
    rewrite find_fields; [|assumption|rewrite Ei; apply pack_range; lia].
    rewrite Ei, Ft, Fp.
    assert (pack (q / 16777216) (twos_low q + 2 * i) (twos_low q + 2 * i)
                 (pg q) / 16777216 = q / 16777216) as ->
      by (unfold pack; zdm).
    rewrite !Z.eqb_refl. cbn [andb].
    destruct (Z.eqb_spec ((twos_low q + 2 * i - twos q) mod 2) 0); [|zdm].
    destruct (Z.leb_spec (twos_low q) (twos_low q + 2 * i)); [|lia].
    destruct (Z.leb_spec (twos_low q + 2 * i) (twos q)); [|lia].
    cbn [andb]. zdm.
Qed.

Lemma range_ok_sample : range_ok (add (mk 1 3 0) (mk 2 2 1)).
Proof. unfold range_ok. cbv. repeat split; discriminate. Defined.

Lemma find_tests_membership_witness :
  find (add (mk 1 3 0) (mk 2 2 1)) (mk 3 3 1) <> -1
  /\ find (add (mk 1 3 0) (mk 2 2 1)) (index (add (mk 1 3 0) (mk 2 2 1)) 0)
     = (0 + 1 - count (add (mk 1 3 0) (mk 2 2 1))) mod 128.
Proof.
  pose proof (find_tests_membership (add (mk 1 3 0) (mk 2 2 1)) (mk 3 3 1)
                range_ok_sample ltac:(vm_compute; split; [discriminate|reflexivity])
                eq_refl) as (Hm & _ & Hv).
  split.
  - apply Hm. vm_compute. tauto.
  - apply Hv. vm_compute. split; [discriminate|reflexivity].
Defined.

Lemma get_ket_fields (q : SpinLabel) :
  0 <= q < 0x100000000 ->
  get_ket q = pack (q / 16777216) (twos q) (twos q) (pg q).
Proof.
  intros Hq. unfold get_ket.
  rewrite land_FF00FFFF, land_FF00, shiftl_mul, twos_div, pg_mod by lia. pow2.
  replace ((q / 256) mod 256 * 256 * 256) with ((q / 256) mod 256 * 2 ^ 16)
    by (pow2; ring).
  replace ((q / 16777216) mod 256 * 16777216 + q mod 65536)
    with ((q / 16777216) * 2 ^ 24 + q mod 65536) by (pow2; zdm).
  assert (Z.lor (q / 16777216 * 2 ^ 24 + q mod 65536)
                ((q / 256) mod 256 * 2 ^ 16)
          = q / 16777216 * 2 ^ 24 + (q / 256) mod 256 * 2 ^ 16 + q mod 65536)
    as ->.
  { apply (lor_mid _ _ _ 16 24); pow2; zdm. }
  unfold pack. pow2. zdm.
Qed.

Lemma get_bra_fields (q dq : SpinLabel) :
  0 <= q < 0x100000000 -> 0 <= dq < 0x100000000 ->
  get_bra q dq
  = pack ((q / 16777216 + dq / 16777216) mod 256) (twos_low q) (twos_low q)
         (Z.lxor (pg q) (pg dq)).
Proof.
  intros Hq Hdq. unfold get_bra.
  rewrite !land_FF000000, !land_FF0000, !land_FF, shiftr_div by lia.
  rewrite twos_low_div, !pg_mod. pow2.
  pose proof (lxor_byte (q mod 256) (dq mod 256)) as Hx.
  set (x := Z.lxor (q mod 256) (dq mod 256)) in *.
  assert (0 <= x < 256) as Hx' by (apply Hx; zdm). clear Hx.
  set (l := (q / 65536) mod 256).
  assert (0 <= l < 256) as Hl by (subst l; zdm).
  replace (l * 65536 / 256) with (l * 256) by zdm.
  set (nn := (q / 16777216 + dq / 16777216) mod 256).
  assert (0 <= nn < 256) as Hnn by (subst nn; zdm).
  assert (u32 ((q / 16777216) mod 256 * 16777216
               + (dq / 16777216) mod 256 * 16777216) = nn * 16777216) as ->
    by (subst nn; unfold u32; zdm).
  replace (nn * 16777216) with ((nn * 256) * 2 ^ 16) by (pow2; ring).
  rewrite (lor_fields _ (l * 256) 16) by (pow2; lia).
  replace (nn * 256 * 2 ^ 16 + l * 256) with (nn * 2 ^ 24 + l * 256)
    by (pow2; ring).
  replace (l * 65536) with (l * 2 ^ 16) by (pow2; ring).
  rewrite (lor_mid _ _ _ 16 24) by (pow2; lia).
  replace (nn * 2 ^ 24 + l * 2 ^ 16 + l * 256)
    with ((nn * 65536 + l * 256 + l) * 2 ^ 8) by (pow2; ring).
  rewrite (lor_fields _ x 8) by (pow2; lia).
  unfold pack. pow2. lia.
Qed.

Lemma set_twos_low_pack (q t : Z) :
  0 <= q < 0x100000000 ->
  set_twos_low q t = pack (q / 16777216) (t mod 256) (twos q) (pg q).
Proof.
  intros Hq. rewrite set_twos_low_fields, twos_div, pg_mod. unfold pack. zdm.
Qed.

Lemma pack_inj (n1 l1 t1 p1 n2 l2 t2 p2 : Z) :
  0 <= l1 < 256 -> 0 <= t1 < 256 -> 0 <= p1 < 256 ->
  0 <= l2 < 256 -> 0 <= t2 < 256 -> 0 <= p2 < 256 ->
  pack n1 l1 t1 p1 = pack n2 l2 t2 p2 ->
  n1 = n2 /\ l1 = l2 /\ t1 = t2 /\ p1 = p2.
Proof. unfold pack. lia. Qed.

Lemma triangle_swap (a b c : Z) : CG.triangle a b c = CG.triangle b a c.
Proof.
  unfold CG.triangle. rewrite (Z.add_comm a b).
  replace (Z.abs (b - a)) with (Z.abs (a - b)) by lia. reflexivity.
Qed.

Lemma combine_spec (dq bra ket : SpinLabel)
  (Hdq : valid dq) (Hbra : valid bra) (Hket : valid ket) :
  (combine dq bra ket <> invalid <-> In bra (members (add dq ket)))
  /\ (combine dq bra ket <> invalid ->
        get_bra (combine dq bra ket) dq = bra
        /\ get_ket (combine dq bra ket) = ket
        /\ twos_low (combine dq bra ket) = twos bra
        /\ twos (combine dq bra ket) = twos ket)
  /\ (forall l, 0 <= l < 0x100000000 ->
        CG.triangle (twos l) (twos dq) (twos_low l) = true ->
        combine dq (get_bra l dq) (get_ket l) = l).
Proof.
  pose proof (valid_bytes dq Hdq) as (Rd & Ed & Nd & Td & Pd).
  pose proof (valid_bytes bra Hbra) as (Rb & Eb & Nb & Tb & Pb).
  pose proof (valid_bytes ket Hket) as (Rk & Ek & Nk & Tk & Pk).
  pose proof (lxor_byte (pg ket) (pg dq) Pk Pd) as Hx.
  assert (combine dq bra ket
          = if negb (eqb (pack ((ket / 16777216 + dq / 16777216) mod 256)
                            (twos bra) (twos bra) (Z.lxor (pg ket) (pg dq)))
                         bra)
               || negb (CG.triangle (twos ket) (twos dq) (twos bra))
            then invalid
            else pack (ket / 16777216) (twos bra) (twos ket) (pg ket)) as Ec.
  { unfold combine. rewrite set_twos_low_pack by assumption.
    rewrite (Z.mod_small (twos bra)) by lia.
    destruct (fields_pack (ket / 16777216) (twos bra) (twos ket) (pg ket))
      as (_ & Fl & Ft & Fp); try lia.
    rewrite get_bra_fields by (try apply pack_range; lia).
    rewrite Fl, Ft, Fp.
    replace (pack (ket / 16777216) (twos bra) (twos ket) (pg ket) / 16777216)
      with (ket / 16777216) by (unfold pack; zdm).
    reflexivity. }
  assert (pack (ket / 16777216) (twos bra) (twos ket) (pg ket) <> invalid)
    as Hninv.
  { unfold invalid, pack. lia. }
  assert (combine dq bra ket <> invalid
          <-> bra / 16777216 = (ket / 16777216 + dq / 16777216) mod 256
              /\ pg bra = Z.lxor (pg ket) (pg dq)
              /\ CG.triangle (twos ket) (twos dq) (twos bra) = true) as Hiff.
  { rewrite Ec. unfold eqb.
    destruct (Z.eqb_spec (pack ((ket / 16777216 + dq / 16777216) mod 256)
                            (twos bra) (twos bra) (Z.lxor (pg ket) (pg dq)))
                         bra) as [E|E]; cbn [negb orb].
    - destruct (CG.triangle (twos ket) (twos dq) (twos bra)); cbn [negb].
      + split; [intros _|intros _; exact Hninv].
        pose proof (eq_trans E Eb) as E'. apply pack_inj in E'; lia.
      + split; [congruence|]. intros (_ & _ & Hf). discriminate.
    - split; [congruence|]. intros (En & Ep & _). exfalso. apply E.
      etransitivity; [|symmetry; exact Eb]. rewrite En, Ep. reflexivity. }
  split; [|split].
  - rewrite Hiff, members_add_spec by assumption.
    rewrite (triangle_swap (twos dq)), (Z.lxor_comm (pg dq)).
    rewrite !n_div by assumption. rewrite signed8_add.
    destruct Hbra as (_ & Hl & _).
    split.
    + intros (En & Ep & Ht). split; [assumption|]. split; [assumption|].
      split; [|split; assumption].
      rewrite En, signed8_mod. f_equal. ring.
    + intros (_ & _ & Hn & Hp & Ht). split; [|split; assumption].
      rewrite <- (signed8_mod (dq / 16777216 + ket / 16777216)) in Hn.
      apply signed8_inj in Hn; [|lia|zdm]. rewrite Hn. f_equal. ring.
  - intros Hne. pose proof Hne as Hne'. apply Hiff in Hne' as (En & Ep & Ht).
    rewrite Ec in *.
    destruct (negb _ || negb _); [contradiction|].
    destruct (fields_pack (ket / 16777216) (twos bra) (twos ket) (pg ket))
      as (_ & Fl & Ft & Fp); try lia.
    rewrite get_bra_fields, get_ket_fields by (try apply pack_range; lia).
    rewrite Fl, Ft, Fp.
    replace (pack (ket / 16777216) (twos bra) (twos ket) (pg ket) / 16777216)
      with (ket / 16777216) by (unfold pack; zdm).
    rewrite <- En, <- Ep. repeat split; symmetry; assumption.
  - intros l Hl Ht.
    destruct (unpack_fields l Hl) as (El & Nl & Ll & Tl & Pl).
    pose proof (lxor_byte (pg l) (pg dq) Pl Pd) as Hxl.
    unfold combine.
    rewrite get_ket_fields, (get_bra_fields l dq) by assumption.
    destruct (fields_pack ((l / 16777216 + dq / 16777216) mod 256)
                (twos_low l) (twos_low l) (Z.lxor (pg l) (pg dq)))
      as (_ & _ & Ft1 & _); try lia; [zdm|].
    rewrite Ft1, set_twos_low_pack by (apply pack_range; lia).
    destruct (fields_pack (l / 16777216) (twos l) (twos l) (pg l))
      as (_ & _ & Ft2 & Fp2); try lia.
    rewrite Ft2, Fp2, (Z.mod_small (twos_low l)) by lia.
    replace (pack (l / 16777216) (twos l) (twos l) (pg l) / 16777216)
      with (l / 16777216) by (unfold pack; zdm).
    destruct (fields_pack (l / 16777216) (twos_low l) (twos l) (pg l))
      as (_ & Fl3 & Ft3 & Fp3); try lia.
    rewrite get_bra_fields by (try apply pack_range; lia).
    rewrite Fl3, Ft3, Fp3.
    replace (pack (l / 16777216) (twos_low l) (twos l) (pg l) / 16777216)
      with (l / 16777216) by (unfold pack; zdm).
    unfold eqb. rewrite Z.eqb_refl, Ht. cbn [negb orb]. symmetry. exact El.
Qed.

(** X12. [combine] and the two projections of a block label.  For labels of
    one state each, [dq.combine(bra, ket)] is a block label (not the
    sentinel) exactly when [bra] is one of the labels of [dq + ket]; the
    block label then gives back [bra] through [get_bra(dq)] and [ket]
    through [get_ket()], its spin bytes being those of [bra] and [ket].
    Conversely every word whose spins satisfy the triangle rule with
    [dq] is rebuilt by [combine] from its two projections. *)
Theorem combine_couples (dq bra ket : SpinLabel)
  (Hdq : valid dq) (Hbra : valid bra) (Hket : valid ket) :
  (combine dq bra ket <> invalid <-> In bra (members (add dq ket)))
  /\ (combine dq bra ket <> invalid ->
        get_bra (combine dq bra ket) dq = bra
        /\ get_ket (combine dq bra ket) = ket
        /\ twos_low (combine dq bra ket) = twos bra
        /\ twos (combine dq bra ket) = twos ket)
  /\ (forall l, 0 <= l < 0x100000000 ->
        CG.triangle (twos l) (twos dq) (twos_low l) = true ->
        combine dq (get_bra l dq) (get_ket l) = l).
Proof. exact (combine_spec dq bra ket Hdq Hbra Hket). Qed.

Lemma valid_mk_3_3_1 : valid (mk 3 3 1).
Proof. unfold valid. cbv. repeat split; discriminate. Defined.

Lemma combine_couples_witness :
  get_bra (combine (mk 2 2 1) (mk 3 3 1) (mk 1 3 0)) (mk 2 2 1) = mk 3 3 1
  /\ get_ket (combine (mk 2 2 1) (mk 3 3 1) (mk 1 3 0)) = mk 1 3 0.
Proof.
  pose proof (combine_couples (mk 2 2 1) (mk 3 3 1) (mk 1 3 0)
                valid_mk_2_2_1 valid_mk_3_3_1 valid_mk_1_3_0)
    as (_ & Hrt & _).
  destruct Hrt as (Hb & Hk & _); [vm_compute; discriminate|].
  split; [exact Hb|exact Hk].
Defined.

Lemma mk_range_pack (nn tl t p : Z) :
  0 <= tl < 256 -> 0 <= t < 256 -> 0 <= p < 256 ->
  mk_range nn tl t p = pack (nn mod 256) tl t p.
Proof.
  intros Hl Ht Hp. unfold mk_range. rewrite !shiftl_mul by lia.
  rewrite (lor_fields nn (tl * 2 ^ 16) 24) by (pow2; lia).
  replace (nn * 2 ^ 24 + tl * 2 ^ 16) with ((nn * 256 + tl) * 2 ^ 16)
    by (pow2; ring).
  rewrite (lor_fields _ (t * 2 ^ 8) 16) by (pow2; lia).
  replace ((nn * 256 + tl) * 2 ^ 16 + t * 2 ^ 8)
    with ((nn * 65536 + tl * 256 + t) * 2 ^ 8) by (pow2; ring).
  rewrite (lor_fields _ p 8) by (pow2; lia).
  unfold u32, pack. pow2. zdm.
Qed.

Lemma land_FFFFFF00 (x : Z) :
  Z.land x 0xFFFFFF00 = ((x / 256) mod 16777216) * 256.
Proof. apply (land_field x 8 24); lia. Qed.

Lemma set_n_pack (q v : Z) :
  0 <= q < 0x100000000 ->
  set_n q v = pack (v mod 256) (twos_low q) (twos q) (pg q).
Proof.
  intros Hq. unfold set_n, u32.
  rewrite land_FFFFFF, shiftl_mul, twos_low_div, twos_div, pg_mod by lia.
  pow2. rewrite Z.lor_comm.
  replace ((v * 16777216) mod 4294967296) with ((v mod 256) * 2 ^ 24)
    by (pow2; zdm).
  rewrite (lor_fields _ _ 24) by (pow2; zdm).
  unfold pack. pow2. zdm.
Qed.

Lemma set_twos_pack (q t : Z) :
  0 <= q < 0x100000000 ->
  set_twos q t = pack (q / 16777216) (t mod 256) (t mod 256) (pg q).
Proof.
  intros Hq. unfold set_twos, u32.
  rewrite land_FF0000FF, land_FF, !shiftl_mul, pg_mod by lia. pow2.
  rewrite !(Z.mod_small (t mod 256 * _)) by zdm.
  replace ((q / 16777216) mod 256 * 16777216 + q mod 256)
    with ((q / 16777216) * 2 ^ 24 + q mod 256) by (pow2; zdm).
  replace (t mod 256 * 65536) with (t mod 256 * 2 ^ 16) by (pow2; ring).
  rewrite (lor_mid _ _ _ 16 24) by (pow2; zdm).
  replace (q / 16777216 * 2 ^ 24 + t mod 256 * 2 ^ 16 + q mod 256)
    with ((q / 16777216 * 256 + t mod 256) * 2 ^ 16 + q mod 256)
    by (pow2; ring).
  replace (t mod 256 * 256) with (t mod 256 * 2 ^ 8) by (pow2; ring).
  rewrite (lor_mid _ _ _ 8 16) by (pow2; zdm).
  unfold pack. pow2. lia.
Qed.

Lemma set_pg_pack (q p : Z) :
  0 <= q < 0x100000000 -> 0 <= p < 256 ->
  set_pg q p = pack (q / 16777216) (twos_low q) (twos q) p.
Proof.
  intros Hq Hp. unfold set_pg, u32.
  rewrite land_FFFFFF00, twos_low_div, twos_div, (Z.mod_small p) by lia.
  replace ((q / 256) mod 16777216 * 256) with ((q / 256) * 2 ^ 8)
    by (pow2; zdm).
  rewrite (lor_fields _ p 8) by (pow2; lia).
  unfold pack. pow2. zdm.
Qed.

(** X13. Constructors, getters and setters of [SpinLabel] agree on the four
    bytes of the word.  For a particle number in [-128, 127] and spins
    and a point group in [0, 255], the getters return what the
    constructor was given; on a 32-bit word each setter changes its own
    field and leaves the others as they were ([set_twos] writes both
    spin bytes, [set_n] and [set_twos] keep the low 8 bits of their
    argument). *)
Theorem fields_round_trip (q : SpinLabel) (nn tl t p : Z)
  (Hq : 0 <= q < 0x100000000)
  (Hn : -128 <= nn < 128) (Hl : 0 <= tl < 256) (Ht : 0 <= t < 256)
  (Hp : 0 <= p < 256) :
  (n (mk_range nn tl t p) = nn /\ twos_low (mk_range nn tl t p) = tl
   /\ twos (mk_range nn tl t p) = t /\ pg (mk_range nn tl t p) = p)
  /\ mk nn t p = mk_range nn t t p
  /\ (n (set_n q nn) = nn /\ twos_low (set_n q nn) = twos_low q
      /\ twos (set_n q nn) = twos q /\ pg (set_n q nn) = pg q)
  /\ (n (set_twos q t) = n q /\ twos_low (set_twos q t) = t
      /\ twos (set_twos q t) = t /\ pg (set_twos q t) = pg q)
  /\ (n (set_twos_low q tl) = n q /\ twos_low (set_twos_low q tl) = tl
      /\ twos (set_twos_low q tl) = twos q /\ pg (set_twos_low q tl) = pg q)
  /\ (n (set_pg q p) = n q /\ twos_low (set_pg q p) = twos_low q
      /\ twos (set_pg q p) = twos q /\ pg (set_pg q p) = p).
Proof.
  destruct (unpack_fields q Hq) as (Eq & Nq & Lq & Tq & Pq).
  assert (signed8 nn = nn) as Hs.
  { unfold signed8. destruct (Z.ltb_spec (nn mod 256) 128); zdm. }
  assert (0 <= nn mod 256 < 256) as Hnb by zdm.
  rewrite mk_range_pack, set_n_pack, set_twos_pack, set_twos_low_pack,
    set_pg_pack by assumption.
  rewrite !(Z.mod_small t), !(Z.mod_small tl) by lia.
  rewrite (n_div q) by assumption.
  split; [|split; [reflexivity|]].
  { destruct (fields_pack (nn mod 256) tl t p) as (Fn & Fl & Ft & Fp);
      try assumption.
    rewrite Fn, signed8_mod, Hs. auto. }
  split.
  { destruct (fields_pack (nn mod 256) (twos_low q) (twos q) (pg q))
      as (Fn & Fl & Ft & Fp); try assumption.
    rewrite Fn, signed8_mod, Hs. auto. }
  split.
  { destruct (fields_pack (q / 16777216) t t (pg q))
      as (Fn & Fl & Ft & Fp); try assumption. auto. }
  split.
  { destruct (fields_pack (q / 16777216) tl (twos q) (pg q))
      as (Fn & Fl & Ft & Fp); try assumption. auto. }
  destruct (fields_pack (q / 16777216) (twos_low q) (twos q) p)
    as (Fn & Fl & Ft & Fp); try assumption. auto.
Qed.

Lemma fields_round_trip_witness :
  n (mk_range (-2) 0 2 5) = -2 /\ twos_low (mk_range (-2) 0 2 5) = 0
  /\ twos (mk_range (-2) 0 2 5) = 2 /\ pg (mk_range (-2) 0 2 5) = 5.
Proof.
  apply (proj1 (fields_round_trip 0 (-2) 0 2 5 ltac:(lia) ltac:(lia)
                  ltac:(lia) ltac:(lia) ltac:(lia))).
Defined.

(** X14. The constructor does not mask its arguments.  With a negative spin
    (the source builds [SpinLabel(1, -1, i)] for the basis without spin
    adaptation) the sign bits of [twos << 16] and [twos << 8] cover the
    two bytes above: whatever [n] was passed, [n()] reads -1,
    [twos_low()] reads 255 and [twos()] reads [twos + 256]. *)
Theorem mk_negative_twos (nn t p : Z)
  (Hn : -128 <= nn < 128) (Ht : -128 <= t < 0) (Hp : 0 <= p < 256) :
  n (mk nn t p) = -1
  /\ twos_low (mk nn t p) = 255
  /\ twos (mk nn t p) = t + 256
  /\ pg (mk nn t p) = p.
Proof.
  assert (mk nn t p = pack 255 255 (t + 256) p) as ->.
  { unfold mk. rewrite !shiftl_mul by lia.
    assert (Z.lor (Z.lor (nn * 2 ^ 24) (t * 2 ^ 16)) (t * 2 ^ 8)
            = -65536 + (t + 256) * 256) as ->.
    { assert (t * 2 ^ 16 = Z.lor (-16777216) ((t + 256) * 65536)) as ->.
      { replace (-16777216) with ((-1) * 2 ^ 24) by reflexivity.
        rewrite lor_fields by (pow2; lia). pow2. lia. }
      assert (t * 2 ^ 8 = Z.lor (-65536) ((t + 256) * 256)) as ->.
      { replace (-65536) with ((-1) * 2 ^ 16) by reflexivity.
        rewrite lor_fields by (pow2; lia). pow2. lia. }
      assert (Z.lor (nn * 2 ^ 24) (-16777216) = -16777216) as Habs.
      { apply Z.bits_inj'. intros k Hk. rewrite Z.lor_spec.
        change (-16777216) with (Z.shiftl (-1) 24).
        rewrite <- Z.shiftl_mul_pow2 by lia.
        rewrite !Z.shiftl_spec by lia.
        destruct (Z.ltb_spec k 24).
        - rewrite !Z.testbit_neg_r by lia. reflexivity.
        - rewrite Z.bits_m1 by lia. apply orb_true_r. }
      rewrite (Z.lor_assoc (nn * 2 ^ 24)), Habs.
      assert (Z.lor (-16777216) ((t + 256) * 65536) = -16777216 + (t + 256) * 65536)
        as ->.
      { replace (-16777216) with ((-1) * 2 ^ 24) by reflexivity.
        rewrite lor_fields by (pow2; lia). reflexivity. }
      assert (Z.lor (-16777216 + (t + 256) * 65536) (-65536) = -65536) as Habs2.
      { apply Z.bits_inj'. intros k Hk. rewrite Z.lor_spec.
        replace (-16777216 + (t + 256) * 65536)
          with (Z.shiftl (-256 + (t + 256)) 16)
          by (rewrite Z.shiftl_mul_pow2 by lia; pow2; lia).
        change (-65536) with (Z.shiftl (-1) 16).
        rewrite !Z.shiftl_spec by lia.
        destruct (Z.ltb_spec k 16).
        - rewrite !Z.testbit_neg_r by lia. reflexivity.
        - rewrite Z.bits_m1 by lia. apply orb_true_r. }
      rewrite Z.lor_assoc, Habs2.
      replace (-65536) with ((-1) * 2 ^ 16) by reflexivity.
      rewrite lor_fields by (pow2; lia). reflexivity. }
    replace (-65536 + (t + 256) * 256) with ((-256 + (t + 256)) * 2 ^ 8)
      by (pow2; lia).
    rewrite lor_fields by (pow2; lia).
    unfold u32, pack. pow2. zdm. }
  destruct (fields_pack 255 255 (t + 256) p) as (Fn & Fl & Ft & Fp); try lia.
  rewrite Fn, Fl, Ft, Fp. repeat split; reflexivity.
Qed.

Lemma mk_negative_twos_witness :
  n (mk 1 (-1) 0) = -1 /\ twos_low (mk 1 (-1) 0) = 255
  /\ twos (mk 1 (-1) 0) = -1 + 256 /\ pg (mk 1 (-1) 0) = 0.
Proof.
  apply (mk_negative_twos 1 (-1) 0); lia.
Defined.

End LabelMore.

(** ** Inverse labels *)

Section LabelInverse.
Import Label.
Local Open Scope Z_scope.

(** [q + (-q)] for a label within the invariant ([twos_low <= twos])
    whose spin does not overflow its byte when doubled. *)
Lemma add_neg_range (q : SpinLabel) :
  0 <= q < 0x100000000 -> twos_low q <= twos q -> twos q < 128 ->
  add q (neg q) = pack 0 (twos q - twos_low q) (2 * twos q) 0.
Proof.
  intros Hq Hle Ht.
  rewrite twos_low_div in Hle. rewrite twos_div in Hle, Ht.
  rewrite twos_low_div, twos_div.
  pose proof (neg_fields q Hq) as Hn.
  assert (neg q mod 256 = q mod 256) as H1 by (rewrite Hn; zdm).
  assert ((neg q / 256) mod 256 = (q / 256) mod 256) as H2 by (rewrite Hn; zdm).
  assert ((neg q / 65536) mod 256 = (q / 65536) mod 256) as H3
    by (rewrite Hn; zdm).
  assert ((neg q / 16777216) mod 256 = (256 - q / 16777216) mod 256) as H4
    by (rewrite Hn; zdm).
  unfold add.
  rewrite !land_FF00FF00, !land_FF, !land_FF00, !land_FF0000.
  rewrite !shiftl_mul by lia. change (2 ^ 8) with 256.
  rewrite H1, H2, H3, H4, Z.lxor_nilpotent, Z.lor_0_r.
  assert (0 <= (q / 65536) mod 256) as Hl0 by zdm.
  set (t := (q / 256) mod 256) in *. set (l := (q / 65536) mod 256) in *.
  replace (t * 256 * 256 - l * 65536) with ((t - l) * 65536) by ring.
  rewrite abs_field_abs by lia. rewrite Z.min_id, Z.abs_eq by lia.
  set (s := u32 _).
  assert (s = (2 * t) * 256) as ->.
  { subst s. unfold u32. zdm. }
  rewrite Z.lor_comm.
  replace ((t - l) * 65536) with ((t - l) * 2 ^ 16) by (change (2 ^ 16) with 65536; ring).
  rewrite lor_fields by (change (2 ^ 16) with 65536; lia).
  unfold pack. change (2 ^ 16) with 65536. lia.
Qed.

(** C9, as the code has it.  For every 32-bit word [q]: [-(-q) = q] and
    the range [q + (-q)] has [count() >= 1].  For a label within the
    invariant ([twos_low <= twos], same parity) with [twos <= 127], the
    range [q + (-q)] holds the vacuum label (the word 0, whose [n],
    [twos] and [pg] are all 0) exactly when [q] is a label of one state
    ([twos_low = twos]); the vacuum is then its first entry. *)
Theorem neg_involutive_add_neg_vacuum (q : SpinLabel)
  (Hq : 0 <= q < 0x100000000) :
  neg (neg q) = q
  /\ eqb (neg (neg q)) q = true
  /\ 1 <= count (add q (neg q))
  /\ (valid q ->
      In vacuum (members (add q (neg q)))
      /\ index (add q (neg q)) 0 = vacuum)
  /\ (twos_low q <= twos q -> (twos q - twos_low q) mod 2 = 0 ->
      twos q < 128 ->
      (In vacuum (members (add q (neg q))) <-> twos_low q = twos q))
  /\ (n vacuum = 0 /\ twos vacuum = 0 /\ twos_low vacuum = 0 /\ pg vacuum = 0).
Proof.
  assert (neg (neg q) = q) as Hnn by (apply neg_neg; assumption).
  assert (forall (Hv : valid q),
             In vacuum (members (add q (neg q)))
             /\ index (add q (neg q)) 0 = vacuum) as Hvalid.
  { intros Hv. pose proof Hv as (_ & Hlow & Hs).
    assert (0 <= twos q) as Hs0 by (rewrite twos_div; zdm).
    assert (index (add q (neg q)) 0 = vacuum) as Hix.
    { rewrite add_neg_self by assumption. apply index_spin_range_0. lia. }
    split; [|exact Hix]. rewrite <- Hix. apply members_head.
    apply count_pos. }
  split; [exact Hnn|]. split; [unfold eqb; rewrite Hnn; apply Z.eqb_refl|].
  split; [apply count_pos|]. split; [exact Hvalid|].
  split; [|repeat split; reflexivity].
  intros Hle Hpar Ht. split.
  - intros Hin.
    assert (0 <= twos_low q) as Hl0 by (rewrite twos_low_div; zdm).
    rewrite add_neg_range in Hin by assumption.
    assert (twos_low q <= twos q < 128) as Hb by lia.
    clear Hq Hnn Hvalid Hle Ht.
    remember (twos q) as t eqn:Et. remember (twos_low q) as l eqn:El.
    clear Et El q.
    assert (range_ok (pack 0 (t - l) (2 * t) 0)) as Hr.
    { destruct (fields_pack 0 (t - l) (2 * t) 0) as (_ & E1 & E2 & _);
        try lia.
      split; [apply pack_range; lia|]. rewrite E1, E2. split; [lia|].
      zdm. }
    apply (members_range _ _ Hr) in Hin as (k & Hk & E).
    destruct (fields_pack 0 (t - l) (2 * t) 0) as (_ & E1 & E2 & E3); try lia.
    rewrite E1, E3 in E. rewrite E1, E2 in Hk.
    change vacuum with (pack 0 0 0 0) in E.
    assert (0 <= 2 * t - (t - l)) by lia.
    apply pack_inj in E; [lia|lia|lia|lia|zdm|zdm|lia].
  - intros E. apply Hvalid. split; [exact Hq|]. split; [exact E|exact Ht].
Qed.

Lemma neg_involutive_add_neg_vacuum_witness :
  neg (neg (mk 1 1 0)) = mk 1 1 0
  /\ 1 <= count (add (mk 1 1 0) (neg (mk 1 1 0)))
  /\ In vacuum (members (add (mk 1 1 0) (neg (mk 1 1 0)))).
Proof.
  pose proof (neg_involutive_add_neg_vacuum (mk 1 1 0)
                ltac:(cbv; split; [discriminate|reflexivity]))
    as (H1 & _ & H3 & H4 & _).
  split; [exact H1|]. split; [exact H3|].
  exact (proj1 (H4 valid_doublet)).
Defined.

(** The claim as stated fails for labels that the invariant
    ([twos_low <= twos], same parity as [n]) allows: for the range label
    [(N=0, S=0~1)] the entries of [q + (-q)] are the spins 1 and 2, and
    for the spin [twos = 128] the doubled spin overflows its byte, as it
    does for [SpinLabel(1, -1, 0)], whose spin byte reads 255; in all
    three the vacuum is not among the entries. *)
Lemma add_neg_without_vacuum :
  (twos_low (mk_range 0 0 2 0) <= twos (mk_range 0 0 2 0)
   /\ (twos (mk_range 0 0 2 0) - twos_low (mk_range 0 0 2 0)) mod 2 = 0
   /\ members (add (mk_range 0 0 2 0) (neg (mk_range 0 0 2 0)))
      = [mk 0 2 0; mk 0 4 0]
   /\ ~ In vacuum (members (add (mk_range 0 0 2 0) (neg (mk_range 0 0 2 0)))))
  /\ (twos_low (mk 0 128 0) = twos (mk 0 128 0)
      /\ members (add (mk 0 128 0) (neg (mk 0 128 0))) = [mk 0 1 0]
      /\ ~ In vacuum (members (add (mk 0 128 0) (neg (mk 0 128 0)))))
  /\ (twos_low (mk 1 (-1) 0) = twos (mk 1 (-1) 0)
      /\ twos (mk 1 (-1) 0) = 255
      /\ ~ In vacuum (members (add (mk 1 (-1) 0) (neg (mk 1 (-1) 0))))).
Proof.
  split; [|split].
  - split; [cbv; discriminate|]. split; [reflexivity|].
    split; [reflexivity|].
    change (members (add (mk_range 0 0 2 0) (neg (mk_range 0 0 2 0))))
      with [131584; 263168].
    change vacuum with 0. intros [H|[H|[]]]; discriminate H.
  - split; [reflexivity|]. split; [reflexivity|].
    change (members (add (mk 0 128 0) (neg (mk 0 128 0)))) with [65792].
    change vacuum with 0. intros [H|[]]; discriminate H.
  - split; [reflexivity|]. split; [reflexivity|].
    assert (forallb (fun x => negb (x =? vacuum))
              (members (add (mk 1 (-1) 0) (neg (mk 1 (-1) 0)))) = true)
      as Hall by (vm_compute; reflexivity).
    rewrite forallb_forall in Hall. intros Hin.
    specialize (Hall vacuum Hin). rewrite Z.eqb_refl in Hall.
    discriminate Hall.
Qed.

End LabelInverse.

(** ** SZLabel *)

Section SZFacts.
Import SZ.
Local Open Scope Z_scope.

Ltac pow2 :=
  change (2 ^ 8) with 256 in *; change (2 ^ 16) with 65536 in *;
  change (2 ^ 24) with 16777216 in *.

Lemma sz_add_fields (a b : SZLabel) :
  0 <= a < 0x100000000 -> 0 <= b < 0x100000000 ->
  add a b
  = ((a / 16777216 + b / 16777216) mod 256) * 16777216
    + (((a / 256) mod 256 + (b / 256) mod 256) mod 256) * 256
    + Z.lxor (a mod 256) (b mod 256).
Proof.
  intros Ha Hb. unfold add.
  rewrite !land_FF00FF00, !land_FF.
  pose proof (lxor_byte (a mod 256) (b mod 256)) as Hx.
  set (x := Z.lxor (a mod 256) (b mod 256)) in *.
  assert (0 <= x < 256) as Hx' by (apply Hx; zdm). clear Hx.
  set (s := Label.u32 _).
  assert ((s / 16777216) mod 256 = (a / 16777216 + b / 16777216) mod 256) as ->
    by (subst s; unfold Label.u32; zdm).
  assert ((s / 256) mod 256 = ((a / 256) mod 256 + (b / 256) mod 256) mod 256)
    as -> by (subst s; unfold Label.u32; zdm).
  set (nn := (a / 16777216 + b / 16777216) mod 256).
  set (tt := ((a / 256) mod 256 + (b / 256) mod 256) mod 256).
  assert (0 <= nn < 256) by (subst nn; zdm).
  assert (0 <= tt < 256) by (subst tt; zdm).
  replace (nn * 16777216 + tt * 256) with ((nn * 65536 + tt) * 2 ^ 8)
    by (pow2; lia).
  rewrite (lor_fields _ x 8) by (pow2; lia). pow2. lia.
Qed.

Lemma sz_neg_fields (q : SZLabel) :
  0 <= q < 0x100000000 ->
  neg q = ((- (q / 16777216)) mod 256) * 16777216
          + ((- (q / 256)) mod 256) * 256 + q mod 256.
Proof.
  intros Hq. unfold neg. rewrite !not32_eq by assumption.
  rewrite land_FF, land_FF00, land_FF000000. unfold Label.u32.
  change (Z.shiftl 1 8) with 256. change (Z.shiftl 1 24) with 16777216.
  assert ((((4294967295 - q + 256) mod 4294967296) / 256) mod 256
          = (- (q / 256)) mod 256) as -> by zdm.
  assert ((((4294967295 - q + 16777216) mod 4294967296) / 16777216) mod 256
          = (- (q / 16777216)) mod 256) as -> by zdm.
  set (nn := (- (q / 16777216)) mod 256).
  set (tt := (- (q / 256)) mod 256).
  assert (0 <= nn < 256) by (subst nn; zdm).
  assert (0 <= tt < 256) by (subst tt; zdm).
  rewrite (Z.lor_comm (q mod 256)).
  replace (tt * 256) with (tt * 2 ^ 8) by (pow2; lia).
  rewrite (lor_fields _ _ 8) by (pow2; zdm).
  rewrite Z.lor_comm.
  replace (nn * 16777216) with (nn * 2 ^ 24) by (pow2; lia).
  rewrite (lor_fields _ _ 24) by (pow2; zdm). pow2. lia.
Qed.

Lemma sz_word_fields (nn tt x : Z) :
  0 <= nn < 256 -> 0 <= tt < 256 -> 0 <= x < 256 ->
  let w := nn * 16777216 + tt * 256 + x in
  0 <= w < 0x100000000 /\ w / 16777216 = nn /\ (w / 256) mod 256 = tt
  /\ w mod 256 = x /\ (w / 65536) mod 256 = 0.
Proof. intros Hn Ht Hx w. subst w. zdm. Qed.

Lemma sz_canonical_word (q : SZLabel) :
  canonical q
  <-> 0 <= q < 0x100000000
      /\ q = (q / 16777216) * 16777216 + ((q / 256) mod 256) * 256 + q mod 256.
Proof.
  unfold canonical. rewrite land_FF0000. split; intros [Hq H]; (split; [exact Hq|]); zdm.
Qed.

(** X15. [SZLabel] under [operator+] and unary [operator-] is an abelian
    group on the words whose unused byte is zero: the sum is commutative
    and associative, [q + (-q)] is the zero label for every 32-bit [q],
    sums and negations have a zero unused byte, and on such words
    adding the zero label and negating twice change nothing. *)
Theorem SZLabel_group (a b c : SZLabel)
  (Ha : 0 <= a < 0x100000000) (Hb : 0 <= b < 0x100000000)
  (Hc : 0 <= c < 0x100000000) :
  add a b = add b a
  /\ add (add a b) c = add a (add b c)
  /\ add a (neg a) = 0
  /\ canonical (add a b) /\ canonical (neg a)
  /\ (canonical a -> add a 0 = a /\ neg (neg a) = a).
Proof.
  pose proof (lxor_byte (a mod 256) (b mod 256)) as Hxab.
  pose proof (lxor_byte (b mod 256) (c mod 256)) as Hxbc.
  assert (0 <= a mod 256 < 256 /\ 0 <= b mod 256 < 256 /\ 0 <= c mod 256 < 256)
    as (Pa & Pb & Pc) by zdm.
  specialize (Hxab Pa Pb). specialize (Hxbc Pb Pc).
  assert (forall u v, 0 <= u < 0x100000000 -> 0 <= v < 0x100000000 ->
            0 <= add u v < 0x100000000
            /\ add u v / 16777216 = (u / 16777216 + v / 16777216) mod 256
            /\ (add u v / 256) mod 256
               = ((u / 256) mod 256 + (v / 256) mod 256) mod 256
            /\ add u v mod 256 = Z.lxor (u mod 256) (v mod 256)
            /\ (add u v / 65536) mod 256 = 0) as Hadd.
  { intros u v Hu Hv. rewrite sz_add_fields by assumption.
    apply sz_word_fields; try zdm. apply lxor_byte; zdm. }
  assert (forall u, 0 <= u < 0x100000000 ->
            0 <= neg u < 0x100000000
            /\ neg u / 16777216 = (- (u / 16777216)) mod 256
            /\ (neg u / 256) mod 256 = (- (u / 256)) mod 256
            /\ neg u mod 256 = u mod 256
            /\ (neg u / 65536) mod 256 = 0) as Hneg.
  { intros u Hu. rewrite sz_neg_fields by assumption.
    apply sz_word_fields; zdm. }
  destruct (Hadd a b Ha Hb) as (Rab & Nab & Tab & Pab & Uab).
  destruct (Hadd b c Hb Hc) as (Rbc & Nbc & Tbc & Pbc & Ubc).
  destruct (Hneg a Ha) as (Rna & Nna & Tna & Pna & Una).
  split; [|split; [|split; [|split; [|split]]]].
  - rewrite !sz_add_fields by assumption.
    rewrite (Z.lxor_comm (b mod 256)), (Z.add_comm (b / 16777216)),
      (Z.add_comm ((b / 256) mod 256)). reflexivity.
  - rewrite (sz_add_fields (add a b) c), (sz_add_fields a (add b c))
      by assumption.
    rewrite Nab, Tab, Pab, Nbc, Tbc, Pbc, Z.lxor_assoc.
    set (x := Z.lxor _ _). zdm.
  - rewrite sz_add_fields by assumption.
    rewrite Nna, Tna, Pna, Z.lxor_nilpotent. zdm.
  - unfold canonical. rewrite land_FF0000, Uab. split; [exact Rab|reflexivity].
  - unfold canonical. rewrite land_FF0000, Una. split; [exact Rna|reflexivity].
  - intros Hca. apply sz_canonical_word in Hca as (_ & Ea). split.
    + rewrite sz_add_fields by lia.
      change (0 / 16777216) with 0. change ((0 / 256) mod 256) with 0.
      change (0 mod 256) with 0. rewrite Z.lxor_0_r. zdm.
    + rewrite (sz_neg_fields (neg a)) by assumption.
      rewrite Nna, Pna.
      assert (neg a / 256 = (neg a / 16777216) * 65536 + (neg a / 256) mod 256)
        as -> by zdm.
      rewrite Nna, Tna. zdm.
Qed.

Lemma SZLabel_group_witness :
  add (mk 1 1 2) (mk 1 255 3) = add (mk 1 255 3) (mk 1 1 2)
  /\ add (mk 1 1 2) (neg (mk 1 1 2)) = 0.
Proof.
  pose proof (SZLabel_group (mk 1 1 2) (mk 1 255 3) 0
                ltac:(vm_compute; split; [discriminate|reflexivity])
                ltac:(vm_compute; split; [discriminate|reflexivity])
                ltac:(lia)) as (Hc & _ & Hi & _).
  split; [exact Hc|exact Hi].
Defined.

Lemma sz_mk_word (nn t p : Z) :
  0 <= t < 256 -> 0 <= p < 256 ->
  mk nn t p = (nn mod 256) * 16777216 + t * 256 + p.
Proof.
  intros Ht Hp. unfold mk. rewrite !shiftl_mul by lia.
  rewrite (lor_fields nn (t * 2 ^ 8) 24) by (pow2; lia).
  replace (nn * 2 ^ 24 + t * 2 ^ 8) with ((nn * 65536 + t) * 2 ^ 8)
    by (pow2; lia).
  rewrite (lor_fields _ p 8) by (pow2; lia).
  unfold Label.u32. pow2. zdm.
Qed.

Lemma signed8_cong (x y : Z) :
  x mod 256 = y mod 256 -> Label.signed8 x = Label.signed8 y.
Proof. unfold Label.signed8. intros ->. reflexivity. Qed.

Lemma signed8_mod256 (x : Z) : Label.signed8 x mod 256 = x mod 256.
Proof.
  unfold Label.signed8. destruct (Z.ltb_spec (x mod 256) 128); zdm.
Qed.

Lemma sz_n_div (q : SZLabel) :
  0 <= q < 0x100000000 -> n q = Label.signed8 (q / 16777216).
Proof. apply n_div. Qed.

(** X16. The fields of an [SZLabel].  The getters return what the
    constructor was given for a particle number in [-128, 127] and a
    projection and point group in [0, 255]; [twos()] is never negative:
    it reads a byte, and the negation of a label with projection [t]
    reads [(-t) mod 256], while [n()] of the negation is the negated
    signed byte and [pg()] is unchanged. *)
Theorem SZLabel_fields (q : SZLabel) (nn t p : Z)
  (Hq : 0 <= q < 0x100000000)
  (Hn : -128 <= nn < 128) (Ht : 0 <= t < 256) (Hp : 0 <= p < 256) :
  (n (mk nn t p) = nn /\ twos (mk nn t p) = t /\ pg (mk nn t p) = p)
  /\ 0 <= twos q <= 255
  /\ twos (neg q) = (- twos q) mod 256
  /\ n (neg q) = Label.signed8 (- n q)
  /\ pg (neg q) = pg q.
Proof.
  assert (forall w, twos w = (w / 256) mod 256) as Htw
    by (intros w; apply twos_div).
  assert (forall w, pg w = w mod 256) as Hpg by (intros w; apply land_FF).
  split; [|split; [|split; [|split]]].
  - rewrite sz_mk_word by assumption.
    assert (0 <= nn mod 256 < 256) as Hnb by zdm.
    destruct (sz_word_fields (nn mod 256) t p Hnb Ht Hp) as (R & N & T & P & _).
    rewrite sz_n_div, Htw, Hpg, N, T, P by exact R.
    split; [|split; reflexivity].
    unfold Label.signed8. rewrite Z.mod_mod by lia.
    destruct (Z.ltb_spec (nn mod 256) 128); zdm.
  - rewrite Htw. zdm.
  - rewrite !Htw, sz_neg_fields by assumption. zdm.
  - rewrite (sz_n_div q) by assumption.
    rewrite sz_n_div by (rewrite sz_neg_fields by assumption; zdm).
    rewrite sz_neg_fields by assumption.
    assert (0 <= q / 16777216 < 256) as Hb by zdm.
    set (qn := q / 16777216) in *.
    assert ((((- qn) mod 256) * 16777216 + ((- (q / 256)) mod 256) * 256
             + q mod 256) / 16777216 = (- qn) mod 256) as -> by zdm.
    apply signed8_cong. pose proof (signed8_mod256 qn). zdm.
  - rewrite !Hpg, sz_neg_fields by assumption. zdm.
Qed.

Lemma SZLabel_fields_witness :
  twos (neg (mk 1 1 0)) = (- twos (mk 1 1 0)) mod 256.
Proof.
  apply (proj1 (proj2 (proj2 (SZLabel_fields (mk 1 1 0) 0 0 0
           ltac:(vm_compute; split; [discriminate|reflexivity])
           ltac:(lia) ltac:(lia) ltac:(lia))))).
Defined.

End SZFacts.

(** ** The order of binary64 *)

Section FloatOrder.
Import Binary64.
Local Open Scope Z_scope.

Lemma SFcompare_key (x y : spec_float) :
  x <> S754_nan -> y <> S754_nan ->
  (SFcompare x y = Some Lt <-> key_lt (sf_key x) (sf_key y))
  /\ (SFcompare x y = Some Eq <-> sf_key x = sf_key y)
  /\ (SFcompare x y = Some Gt <-> key_lt (sf_key y) (sf_key x)).
Proof.
  intros Hx Hy.
  destruct x as [sx|sx| |sx mx ex], y as [sy|sy| |sy my ey];
    try contradiction; cbn [SFcompare sf_key];
    try (destruct sx); try (destruct sy); cbn [key_lt];
    try (repeat split; intros; try discriminate; try reflexivity;
         try lia; fail).
  - rewrite Pos.compare_cont_spec by reflexivity. cbn [Pos.switch_Eq].
    destruct (Z.compare_spec ex ey), (Pos.compare_spec mx my);
      cbn [CompOpp]; repeat split; intros H';
      first [discriminate | reflexivity | lia | subst; reflexivity
            | inversion H'; lia].
  - rewrite Pos.compare_cont_spec by reflexivity. cbn [Pos.switch_Eq].
    destruct (Z.compare_spec ex ey), (Pos.compare_spec mx my);
      repeat split; intros H';
      first [discriminate | reflexivity | lia | subst; reflexivity
            | inversion H'; lia].
Qed.

Lemma key_lt_irrefl (a : Z * Z * Z) : ~ key_lt a a.
Proof. destruct a as [[a1 a2] a3]. cbn. lia. Qed.

Lemma key_lt_trans (a b c : Z * Z * Z) :
  key_lt a b -> key_lt b c -> key_lt a c.
Proof.
  destruct a as [[a1 a2] a3], b as [[b1 b2] b3], c as [[c1 c2] c3]. cbn. lia.
Qed.

Lemma key_trichotomy (a b : Z * Z * Z) :
  key_lt a b \/ a = b \/ key_lt b a.
Proof.
  destruct a as [[a1 a2] a3], b as [[b1 b2] b3]. cbn.
  destruct (Z.lt_total a1 b1) as [?|[->|?]]; [lia| |lia].
  destruct (Z.lt_total a2 b2) as [?|[->|?]]; [lia| |lia].
  destruct (Z.lt_total a3 b3) as [?|[->|?]]; [lia| |lia].
  right; left; reflexivity.
Qed.

Lemma SFltb_nan (x y : spec_float) :
  SFltb x y = true -> x <> S754_nan /\ y <> S754_nan.
Proof.
  unfold SFltb. destruct x, y; cbn; try discriminate;
    intros _; split; discriminate.
Qed.

Lemma SFltb_key (x y : spec_float) :
  SFltb x y = true <-> x <> S754_nan /\ y <> S754_nan
                       /\ key_lt (sf_key x) (sf_key y).
Proof.
  split.
  - intros Hlt. destruct (SFltb_nan x y Hlt) as [Hx Hy].
    split; [exact Hx|]. split; [exact Hy|].
    apply (SFcompare_key x y Hx Hy). unfold SFltb in Hlt.
    destruct (SFcompare x y) as [[]|]; try discriminate. reflexivity.
  - intros (Hx & Hy & Hk). apply (SFcompare_key x y Hx Hy) in Hk.
    unfold SFltb. rewrite Hk. reflexivity.
Qed.

Lemma SFeqb_key (x y : spec_float) :
  SFeqb x y = true <-> x <> S754_nan /\ y <> S754_nan /\ sf_key x = sf_key y.
Proof.
  split.
  - intros Heq.
    assert (x <> S754_nan /\ y <> S754_nan) as [Hx Hy].
    { unfold SFeqb in Heq. destruct x, y; cbn in Heq; try discriminate;
        split; discriminate. }
    split; [exact Hx|]. split; [exact Hy|].
    apply (SFcompare_key x y Hx Hy). unfold SFeqb in Heq.
    destruct (SFcompare x y) as [[]|]; try discriminate. reflexivity.
  - intros (Hx & Hy & Hk). apply (SFcompare_key x y Hx Hy) in Hk.
    unfold SFeqb. rewrite Hk. reflexivity.
Qed.

Local Open Scope float_scope.

Lemma float_ltb_irrefl (f : float) : (f <? f) = false.
Proof.
  rewrite ltb_spec. apply not_true_is_false. intros Hlt.
  apply SFltb_key in Hlt as (_ & _ & Hk). exact (key_lt_irrefl _ Hk).
Qed.

Lemma float_ltb_asym (f g : float) : (f <? g) = true -> (g <? f) = false.
Proof.
  rewrite !ltb_spec. intros Hlt. apply not_true_is_false. intros Hgt.
  apply SFltb_key in Hlt as (_ & _ & H1). apply SFltb_key in Hgt as (_ & _ & H2).
  exact (key_lt_irrefl _ (key_lt_trans _ _ _ H1 H2)).
Qed.

Lemma float_ltb_trans (f g h : float) :
  (f <? g) = true -> (g <? h) = true -> (f <? h) = true.
Proof.
  rewrite !ltb_spec. intros H1 H2.
  apply SFltb_key in H1 as (Hf & _ & H1). apply SFltb_key in H2 as (_ & Hh & H2).
  apply SFltb_key. split; [exact Hf|]. split; [exact Hh|].
  exact (key_lt_trans _ _ _ H1 H2).
Qed.

Lemma float_ltb_neq (f g : float) : (f <? g) = true -> (f =? g) = false.
Proof.
  rewrite ltb_spec, FloatAxioms.eqb_spec. intros Hlt.
  apply not_true_is_false. intros Heq.
  apply SFltb_key in Hlt as (_ & _ & H1). apply SFeqb_key in Heq as (_ & _ & H2).
  rewrite H2 in H1. exact (key_lt_irrefl _ H1).
Qed.

Lemma float_eqb_sym (f g : float) : (f =? g) = (g =? f).
Proof.
  rewrite !FloatAxioms.eqb_spec.
  destruct (SFeqb (Prim2SF f) (Prim2SF g)) eqn:E1,
           (SFeqb (Prim2SF g) (Prim2SF f)) eqn:E2; try reflexivity.
  - apply SFeqb_key in E1 as (H1 & H2 & H3).
    assert (SFeqb (Prim2SF g) (Prim2SF f) = true) as E
      by (apply SFeqb_key; auto).
    congruence.
  - apply SFeqb_key in E2 as (H1 & H2 & H3).
    assert (SFeqb (Prim2SF f) (Prim2SF g) = true) as E
      by (apply SFeqb_key; auto).
    congruence.
Qed.

Lemma float_not_nan (f : float) :
  (f =? f) = true <-> Prim2SF f <> S754_nan.
Proof.
  rewrite FloatAxioms.eqb_spec, SFeqb_key. tauto.
Qed.

(** Of two values that are not NaN, one is below the other or they
    compare equal. *)
Lemma float_total (f g : float) :
  (f =? f) = true -> (g =? g) = true ->
  (f <? g) = true \/ (f =? g) = true \/ (g <? f) = true.
Proof.
  rewrite !float_not_nan. intros Hf Hg.
  rewrite !ltb_spec, FloatAxioms.eqb_spec, !SFltb_key, SFeqb_key.
  destruct (key_trichotomy (sf_key (Prim2SF f)) (sf_key (Prim2SF g)))
    as [H|[H|H]]; auto 10.
Qed.

Lemma SFmul_comm (x y : spec_float) :
  SFmul prec emax x y = SFmul prec emax y x.
Proof.
  destruct x as [sx|sx| |sx mx ex], y as [sy|sy| |sy my ey]; cbn;
    rewrite ?(xorb_comm sx sy); try reflexivity.
  rewrite (Pos.mul_comm mx my), (Z.add_comm ex ey). reflexivity.
Qed.

Lemma float_mul_comm (f g : float) : f * g = g * f.
Proof. apply Prim2SF_inj. rewrite !mul_spec. apply SFmul_comm. Qed.

Lemma float_mul_1_l (f : float) : 1 * f = f.
Proof. rewrite float_mul_comm. apply float_mul_1_r. Qed.

End FloatOrder.

(** ** OpElement order, abs_value, products and sums *)

Section ExprOrder.
Import Expr.
Local Open Scope float_scope.

Lemma OpNames_eqb_eq (a b : OpNames) : OpNames_eqb a b = true <-> a = b.
Proof. destruct a, b; cbn; split; intros; try discriminate; reflexivity. Qed.

Lemma OpNames_code_inj (a b : OpNames) :
  OpNames_code a = OpNames_code b -> a = b.
Proof. destruct a, b; cbn; intros; try discriminate; reflexivity. Qed.

Lemma site_index_eqb_eq (a b : list Z) : site_index_eqb a b = true <-> a = b.
Proof.
  revert b. induction a as [|x a IH]; intros [|y b]; cbn;
    try (split; intros; try discriminate; reflexivity).
  rewrite andb_true_iff, Z.eqb_eq, IH. split.
  - intros [-> ->]. reflexivity.
  - intros E. injection E as -> ->. split; reflexivity.
Qed.

Lemma site_index_ltb_irrefl (a : list Z) : site_index_ltb a a = false.
Proof. induction a as [|x a IH]; cbn; [reflexivity|]. rewrite Z.ltb_irrefl. exact IH. Qed.

Lemma site_index_ltb_trans (a b c : list Z) :
  site_index_ltb a b = true -> site_index_ltb b c = true ->
  site_index_ltb a c = true.
Proof.
  revert b c. induction a as [|x a IH]; intros [|y b] [|z c]; cbn;
    try discriminate; try reflexivity.
  destruct (Z.ltb_spec x y), (Z.ltb_spec y x), (Z.ltb_spec y z),
    (Z.ltb_spec z y), (Z.ltb_spec x z), (Z.ltb_spec z x);
    try lia; try discriminate; try reflexivity.
  apply IH.
Qed.

Lemma site_index_ltb_asym (a b : list Z) :
  site_index_ltb a b = true -> site_index_ltb b a = false.
Proof.
  intros H1. apply not_true_is_false. intros H2.
  pose proof (site_index_ltb_trans _ _ _ H1 H2) as H3.
  rewrite site_index_ltb_irrefl in H3. discriminate.
Qed.

Lemma site_index_ltb_total (a b : list Z) :
  site_index_ltb a b = false -> site_index_ltb b a = false -> a = b.
Proof.
  revert b. induction a as [|x a IH]; intros [|y b]; cbn;
    try discriminate; try reflexivity.
  destruct (Z.ltb_spec x y), (Z.ltb_spec y x); try discriminate; try lia.
  intros Hab Hba. assert (x = y) as -> by lia. f_equal. apply IH; assumption.
Qed.

Lemma OpElement_ltb_iff (a b : OpElement) :
  OpElement_ltb a b = true
  <-> (OpNames_code (name a) < OpNames_code (name b))%Z
      \/ (name a = name b
          /\ (site_index_ltb (site_index a) (site_index b) = true
              \/ (site_index a = site_index b
                  /\ (factor a <? factor b) = true))).
Proof.
  unfold OpElement_ltb.
  destruct (OpNames_eqb (name a) (name b)) eqn:En; cbn [negb].
  - apply OpNames_eqb_eq in En. rewrite En.
    destruct (site_index_eqb (site_index a) (site_index b)) eqn:Es; cbn [negb].
    + apply site_index_eqb_eq in Es. rewrite Es, site_index_ltb_irrefl.
      destruct (factor a =? factor b) eqn:Ef; cbn [negb].
      * split; [discriminate|]. intros [Hc|(_ & [Hs|(_ & Hf)])];
          [lia|discriminate|].
        apply float_ltb_neq in Hf. congruence.
      * split; [intros Hf; right; auto|].
        intros [Hc|(_ & [Hs|(_ & Hf)])]; [lia|discriminate|exact Hf].
    + split; [intros Hs; right; auto|].
      intros [Hc|(_ & [Hs|(Hs & _)])]; [lia|exact Hs|].
      apply site_index_eqb_eq in Hs. congruence.
  - rewrite Z.ltb_lt. split; [auto|].
    intros [Hc|(Hn & _)]; [exact Hc|].
    apply OpNames_eqb_eq in Hn. congruence.
Qed.

Lemma OpElement_eqb_iff (a b : OpElement) :
  OpElement_eqb a b = true
  <-> name a = name b /\ site_index a = site_index b
      /\ (factor a =? factor b) = true.
Proof.
  unfold OpElement_eqb.
  rewrite !andb_true_iff, OpNames_eqb_eq, site_index_eqb_eq. tauto.
Qed.

(** X17. [OpElement::operator<], the order of the keys of the operator maps
    ([op_expr_less]).  It is irreflexive, asymmetric and transitive for
    all elements; it compares name, site indices and factor and never
    the quantum label; and when no factor is NaN, two elements are
    unordered exactly when [operator==] holds between them. *)
Theorem OpElement_less_strict_order (a b c : OpElement) :
  OpElement_ltb a a = false
  /\ (OpElement_ltb a b = true -> OpElement_ltb b a = false)
  /\ (OpElement_ltb a b = true -> OpElement_ltb b c = true ->
      OpElement_ltb a c = true)
  /\ (forall q,
        OpElement_ltb a (mkOpElement (name b) (site_index b) (factor b) q)
        = OpElement_ltb a b)
  /\ (OpElement_eqb a b = true ->
      OpElement_ltb a b = false /\ OpElement_ltb b a = false)
  /\ ((factor a =? factor a) = true -> (factor b =? factor b) = true ->
      OpElement_ltb a b = false -> OpElement_ltb b a = false ->
      OpElement_eqb a b = true).
Proof.
  split; [|split; [|split; [|split; [|split]]]].
  - apply not_true_is_false. rewrite OpElement_ltb_iff.
    rewrite site_index_ltb_irrefl, float_ltb_irrefl.
    intros [?|(_ & [?|(_ & ?)])]; [lia|discriminate|discriminate].
  - intros H1. apply not_true_is_false. intros H2.
    apply OpElement_ltb_iff in H1, H2.
    destruct H1 as [H1|(N1 & [S1|(S1 & F1)])],
             H2 as [H2|(N2 & [S2|(S2 & F2)])];
      try (rewrite ?N1, ?N2 in *; lia).
    + apply site_index_ltb_asym in S1. congruence.
    + rewrite S2, site_index_ltb_irrefl in S1. discriminate.
    + rewrite S1, site_index_ltb_irrefl in S2. discriminate.
    + apply float_ltb_asym in F1. congruence.
  - intros H1 H2. apply OpElement_ltb_iff in H1, H2. apply OpElement_ltb_iff.
    destruct H1 as [H1|(N1 & [S1|(S1 & F1)])],
             H2 as [H2|(N2 & [S2|(S2 & F2)])];
      try (left; rewrite ?N1, <- ?N2 in *; lia).
    + right. split; [congruence|]. left.
      exact (site_index_ltb_trans _ _ _ S1 S2).
    + right. split; [congruence|]. left. rewrite <- S2. exact S1.
    + right. split; [congruence|]. left. rewrite S1. exact S2.
    + right. split; [congruence|]. right. split; [congruence|].
      exact (float_ltb_trans _ _ _ F1 F2).
  - intros q. unfold OpElement_ltb. reflexivity.
  - intros He. apply OpElement_eqb_iff in He as (Hn & Hs & Hf).
    split; apply not_true_is_false; rewrite OpElement_ltb_iff;
      rewrite Hn, Hs, site_index_ltb_irrefl;
      intros [?|(_ & [?|(_ & Hlt)])]; try lia; try discriminate.
    + apply float_ltb_neq in Hlt. congruence.
    + apply float_ltb_neq in Hlt. rewrite float_eqb_sym in Hlt. congruence.
  - intros Fa Fb H1 H2. apply OpElement_eqb_iff.
    assert (~ OpElement_ltb a b = true) as N1 by congruence.
    assert (~ OpElement_ltb b a = true) as N2 by congruence.
    rewrite OpElement_ltb_iff in N1, N2.
    assert (name a = name b) as Hn.
    { apply OpNames_code_inj.
      destruct (Z.lt_total (OpNames_code (name a)) (OpNames_code (name b)))
        as [?|[?|?]]; [tauto|assumption|tauto]. }
    assert (site_index a = site_index b) as Hs.
    { apply site_index_ltb_total; apply not_true_is_false; intros Hlt;
        [apply N1|apply N2]; right; auto. }
    split; [exact Hn|]. split; [exact Hs|].
    destruct (float_total (factor a) (factor b) Fa Fb) as [Hlt|[He|Hgt]].
    + exfalso. apply N1. right. auto.
    + exact He.
    + exfalso. apply N2. right. auto.
Qed.

Lemma OpElement_less_strict_order_witness :
  OpElement_ltb (OpElement_new C [0%Z] (Label.mk 1 1 0))
                (OpElement_new C [1%Z] (Label.mk 1 1 0)) = true
  /\ OpElement_ltb (OpElement_new C [1%Z] (Label.mk 1 1 0))
                   (OpElement_new C [0%Z] (Label.mk 1 1 0)) = false.
Proof.
  split; [reflexivity|].
  apply (proj1 (proj2 (OpElement_less_strict_order
                         (OpElement_new C [0%Z] (Label.mk 1 1 0))
                         (OpElement_new C [1%Z] (Label.mk 1 1 0))
                         (OpElement_new C [1%Z] (Label.mk 1 1 0))))).
  reflexivity.
Defined.

(** With a NaN factor the elements that [operator<] leaves unordered
    are no equivalence class: 1.0 and 2.0 are both unordered with NaN,
    yet ordered with each other. *)
Example OpElement_less_nan :
  let e f := mkOpElement C [0%Z] f (Label.mk 1 1 0) in
  OpElement_ltb (e 1) (e nan) = false /\ OpElement_ltb (e nan) (e 1) = false
  /\ OpElement_ltb (e nan) (e 2) = false /\ OpElement_ltb (e 2) (e nan) = false
  /\ OpElement_ltb (e 1) (e 2) = true.
Proof. repeat split; reflexivity. Qed.

End ExprOrder.

Section ExprAlgebra.
Import Expr.
Local Open Scope float_scope.

Lemma OpElement_abs_idem (e : OpElement) :
  OpElement_abs (OpElement_abs e) = OpElement_abs e.
Proof. reflexivity. Qed.

Lemma OpElement_abs_mul (e : OpElement) (d : float) :
  OpElement_abs (OpElement_mul e d) = OpElement_abs e.
Proof. reflexivity. Qed.

Lemma OpString_abs_wf (s : OpString) :
  string_wf s -> OpString_abs s = mkOpString 1 (ops s).
Proof.
  intros Hs. unfold OpString_abs, OpString_new.
  rewrite fold_unit_factors, map_abs_unit by exact Hs. reflexivity.
Qed.

Lemma OpString_abs_mul (s : OpString) (d : float) :
  string_wf s -> OpString_abs (OpString_mul s d) = OpString_abs s.
Proof.
  intros Hs. rewrite OpString_mul_wf by exact Hs.
  rewrite !OpString_abs_wf; [reflexivity|exact Hs|exact Hs].
Qed.

(** X18. [abs_value] strips the scalar factor.  On an expression whose
    products are as the [OpString] constructor leaves them, it is
    idempotent, every factor of its result is 1.0, and a non-zero
    scalar multiple has the same [abs_value] as the expression (the
    key under which [filter_site_ops] looks an operator up). *)
Theorem abs_value_strips_factor (x : OpExpr) (d : float)
  (Hx : expr_wf x) :
  abs_value (abs_value x) = abs_value x
  /\ Forall (fun f => f = 1) (factors (abs_value x))
  /\ expr_wf (abs_value x)
  /\ ((d =? 0) = false -> abs_value (mul x d) = abs_value x).
Proof.
  destruct x as [|e|s|ss]; cbn [abs_value expr_wf factors] in *.
  - repeat split; first [constructor | intros Hd; reflexivity].
  - repeat split;
      first [repeat constructor; fail
            | intros Hd; rewrite mul_nonzero by exact Hd; reflexivity].
  - rewrite (OpString_abs_wf s Hx).
    split; [rewrite OpString_abs_wf by exact Hx; reflexivity|].
    split; [repeat constructor|]. split; [exact Hx|].
    intros Hd. rewrite mul_nonzero by exact Hd. cbn [abs_value].
    rewrite OpString_abs_mul, OpString_abs_wf by exact Hx. reflexivity.
  - unfold OpSum_abs. split; [|split; [|split]].
    + f_equal. rewrite map_map. apply map_ext_in. intros s Hs.
      rewrite List.Forall_forall in Hx. specialize (Hx s Hs).
      rewrite (OpString_abs_wf s Hx). rewrite OpString_abs_wf by exact Hx.
      reflexivity.
    + rewrite map_map. apply List.Forall_forall. intros f Hf.
      apply in_map_iff in Hf as (s & <- & Hs).
      rewrite List.Forall_forall in Hx. rewrite OpString_abs_wf by auto.
      reflexivity.
    + apply List.Forall_forall. intros t Ht.
      apply in_map_iff in Ht as (s & <- & Hs). apply OpString_new_wf.
    + intros Hd. rewrite mul_nonzero by exact Hd. cbn [abs_value].
      unfold OpSum_abs, OpSum_mul. f_equal. rewrite map_map.
      apply map_ext_in. intros s Hs.
      rewrite List.Forall_forall in Hx. apply OpString_abs_mul. auto.
Qed.

Lemma abs_value_strips_factor_witness :
  abs_value (mul sample_product 3) = abs_value sample_product.
Proof.
  apply (proj2 (proj2 (proj2 (abs_value_strips_factor sample_product 3
                                sample_product_wf)))).
  reflexivity.
Defined.

Lemma OpString_new_single_mul (x : OpElement) (d : float) :
  OpString_mul (OpString_new [x] 1) d = OpString_new [OpElement_mul x d] 1.
Proof.
  unfold OpString_mul, OpString_new, OpElement_mul, OpElement_abs.
  cbn [fold_left map ops sfactor factor name site_index q_label].
  rewrite float_mul_1_r, !float_mul_1_l. reflexivity.
Qed.

(** X19. Scaling distributes over [operator+]: whenever [a + b] is defined,
    [(a + b) * d] and [a * d + b * d] are the same expression, for every
    [double d] (zero, infinite and NaN included). *)
Theorem mul_distributes_over_add (a b r : OpExpr) (d : float)
  (Hadd : add a b = Some r) :
  add (mul a d) (mul b d) = Some (mul r d).
Proof.
  destruct (d =? 0) eqn:Hd.
  - assert (forall x, mul x d = Zero) as Hz.
    { intros x. destruct x; cbn [mul]; rewrite ?Hd; reflexivity. }
    rewrite !Hz. reflexivity.
  - rewrite !mul_nonzero by exact Hd.
    destruct a as [|x|x|xs], b as [|y|y|ys]; cbn [add] in Hadd;
      try discriminate; injection Hadd as <-; cbn [add OpSum_mul map];
      rewrite ?OpString_new_single_mul; try reflexivity.
    + unfold OpSum_mul. rewrite map_app. cbn [map].
      rewrite OpString_new_single_mul. reflexivity.
    + unfold OpSum_mul. rewrite map_app. reflexivity.
    + unfold OpSum_mul. rewrite map_app. reflexivity.
Qed.

Lemma mul_distributes_over_add_witness :
  add (mul sample_product 3) (mul sample_product 3)
  = Some (mul (Sum [OpString_new [OpElement_new C [0%Z] (Label.mk 1 1 0);
                                   OpElement_new D [1%Z] (Label.mk (-1) 1 0)] 0.5;
                    OpString_new [OpElement_new C [0%Z] (Label.mk 1 1 0);
                                   OpElement_new D [1%Z] (Label.mk (-1) 1 0)] 0.5])
               3).
Proof.
  apply (mul_distributes_over_add sample_product sample_product _ 3).
  reflexivity.
Defined.

Lemma OpString_new_ops_wf (es : list OpElement) (f : float) :
  Forall (fun e => factor e = 1) es -> OpString_new es f = mkOpString f es.
Proof.
  intros Hes. unfold OpString_new.
  rewrite fold_unit_factors, map_abs_unit by exact Hes. reflexivity.
Qed.

Lemma OpString_new_cons (x : OpElement) (es : list OpElement) (f : float) :
  Forall (fun e => factor e = 1) es ->
  OpString_new (x :: es) f = mkOpString (f * factor x) (OpElement_abs x :: es).
Proof.
  intros Hes. unfold OpString_new. cbn [fold_left map].
  rewrite fold_unit_factors, map_abs_unit by exact Hes. reflexivity.
Qed.

Lemma OpString_new_snoc (es : list OpElement) (y : OpElement) (f : float) :
  Forall (fun e => factor e = 1) es ->
  OpString_new (es ++ [y]) f
  = mkOpString (f * factor y) (es ++ [OpElement_abs y]).
Proof.
  intros Hes. unfold OpString_new.
  rewrite fold_left_app, map_app. cbn [fold_left map].
  rewrite fold_unit_factors, map_abs_unit by exact Hes. reflexivity.
Qed.

Lemma single_string (x : OpElement) :
  OpString_new [x] 1 = mkOpString (factor x) [OpElement_abs x].
Proof.
  unfold OpString_new. cbn [fold_left map]. rewrite float_mul_1_l.
  reflexivity.
Qed.

Lemma fold_sum_step (xs : list OpExpr) (acc : list OpString) :
  fold_left sum_step xs acc = acc ++ concat (map strings_of xs).
Proof.
  revert acc. induction xs as [|x xs IH]; intros acc; cbn [fold_left map concat].
  - rewrite app_nil_r. reflexivity.
  - rewrite IH. destruct x; cbn [sum_step strings_of];
      rewrite <- ?app_assoc; try reflexivity.
Qed.

Lemma flat_map_nil_r {A B : Type} (l : list A) :
  flat_map (fun _ : A => @nil B) l = [].
Proof. induction l; cbn; auto. Qed.

(** X20. The operators implement a sum of products.  Reading an expression
    as its list of terms ([strings_of]): [a + b] has the terms of [a]
    followed by those of [b]; [sum(xs)] has the terms of all [xs] in
    order (zero expressions contribute none, and the result is an
    [OpSum] even when there is no term); [a * b], where it is defined,
    has one term for every pair of a term of [a] and a term of [b], its
    elements concatenated and its factor the product of the two
    factors; and the results keep every element factor at 1.0. *)
Theorem operators_sum_of_products (a b r : OpExpr)
  (Ha : expr_wf a) (Hb : expr_wf b) :
  (add a b = Some r ->
   strings_of r = strings_of a ++ strings_of b /\ expr_wf r)
  /\ (expr_mul a b = Some r ->
      strings_of r
      = flat_map (fun s => map (string_times s) (strings_of b)) (strings_of a)
      /\ expr_wf r)
  /\ (forall xs, strings_of (expr_sum xs) = concat (map strings_of xs)
                 /\ get_type (expr_sum xs) = TSum).
Proof.
  split; [|split].
  - intros Hadd.
    destruct a as [|x|x|xs], b as [|y|y|ys]; cbn [add] in Hadd;
      try discriminate; injection Hadd as <-;
      cbn [strings_of app expr_wf] in *; rewrite ?app_nil_r;
      (split; [reflexivity|]); try exact Logic.I; try assumption.
    all: repeat first [assumption | apply OpString_new_wf
                      | apply Forall_app; split | constructor].
  - intros Hmul.
    destruct a as [|x|x|xs], b as [|y|y|ys]; cbn [expr_mul] in Hmul;
      try discriminate; injection Hmul as <-;
      cbn [strings_of flat_map map app expr_wf] in *.
    + split; [reflexivity|exact Logic.I].
    + split; [reflexivity|exact Logic.I].
    + split; [reflexivity|exact Logic.I].
    + split; [reflexivity|exact Logic.I].
    + split; [reflexivity|exact Logic.I].
    + split; [|apply OpString_new_wf].
      rewrite !single_string. unfold string_times. cbn [sfactor ops app].
      unfold OpString_new. cbn [fold_left map]. rewrite float_mul_1_l.
      reflexivity.
    + split; [|apply OpString_new_wf].
      rewrite single_string, OpString_new_cons by exact Hb.
      unfold string_times. cbn [sfactor ops app].
      rewrite float_mul_comm. reflexivity.
    + split.
      * rewrite app_nil_r, single_string. apply map_ext_in. intros s Hs.
        rewrite List.Forall_forall in Hb.
        rewrite OpString_new_cons by (apply Hb, Hs).
        unfold string_times. cbn [sfactor ops app].
        rewrite float_mul_comm. reflexivity.
      * apply List.Forall_forall. intros t Ht.
        apply in_map_iff in Ht as (s & <- & Hs). apply OpString_new_wf.
    + split; [reflexivity|exact Logic.I].
    + split; [|apply OpString_new_wf].
      rewrite single_string, OpString_new_snoc by exact Ha. reflexivity.
    + split; [|apply OpString_new_wf].
      rewrite OpString_new_ops_wf; [reflexivity|].
      apply Forall_app. split; assumption.
    + split; [rewrite flat_map_nil_r; reflexivity|exact Logic.I].
    + split.
      * rewrite single_string.
        induction Ha as [|s xs Hs _ IH]; cbn [map flat_map app];
          [reflexivity|].
        rewrite OpString_new_snoc by exact Hs. rewrite IH. reflexivity.
      * apply List.Forall_forall. intros t Ht.
        apply in_map_iff in Ht as (s & <- & Hs). apply OpString_new_wf.
  - intros xs. unfold expr_sum. cbn [strings_of get_type].
    rewrite fold_sum_step. split; reflexivity.
Qed.

Lemma operators_sum_of_products_witness :
  strings_of (Sum [OpString_new [OpElement_new C [0%Z] (Label.mk 1 1 0);
                                  OpElement_new D [1%Z] (Label.mk (-1) 1 0)] 0.5;
                   OpString_new [OpElement_new C [0%Z] (Label.mk 1 1 0);
                                  OpElement_new D [1%Z] (Label.mk (-1) 1 0)] 0.5])
  = strings_of sample_product ++ strings_of sample_product.
Proof.
  apply (proj1 (operators_sum_of_products sample_product sample_product _
                  sample_product_wf sample_product_wf)).
  reflexivity.
Defined.

End ExprAlgebra.

(** ** StateInfo: collect, tensor_product, find_state *)

Section CollectFacts.
Import Label State.
Local Open Scope Z_scope.

Lemma weight_app (l1 l2 : list (SpinLabel * Z)) (q : SpinLabel) :
  weight (l1 ++ l2) q = weight l1 q + weight l2 q.
Proof. unfold weight. rewrite map_app, zsum_app. reflexivity. Qed.

Lemma weight_nil (q : SpinLabel) : weight [] q = 0.
Proof. reflexivity. Qed.

Lemma weight_rev (l : list (SpinLabel * Z)) (q : SpinLabel) :
  weight (rev l) q = weight l q.
Proof. unfold weight. rewrite map_rev, zsum_rev. reflexivity. Qed.

Lemma weight_absent (l : list (SpinLabel * Z)) (q : SpinLabel) :
  ~ In q (map fst l) -> weight l q = 0.
Proof.
  induction l as [|[q' v] l IH]; intros Hn; [reflexivity|].
  rewrite weight_cons. cbn [fst snd map] in *. unfold eqb.
  destruct (Z.eqb_spec q' q) as [->|_]; [exfalso; apply Hn; left; reflexivity|].
  rewrite IH; [lia|]. intros Hin. apply Hn. right. exact Hin.
Qed.

(** Strictly decreasing lists of labels, as [collect] builds its output
    (last written entry first). *)
Lemma Sorted_gt_head (q : Z) (l : list Z) :
  Sorted Z.gt (q :: l) -> Forall (fun x => x < q) l.
Proof.
  intros Hs. apply Sorted_StronglySorted in Hs; [|intros x y z; lia].
  apply StronglySorted_inv in Hs as [_ Hall].
  eapply Forall_impl; [exact Hall|]. cbn. intros; lia.
Qed.

Lemma Sorted_lt_head (q : Z) (l : list Z) :
  Sorted Z.lt (q :: l) -> Forall (fun x => q < x) l.
Proof.
  intros Hs. apply Sorted_StronglySorted in Hs; [|intros x y z; lia].
  apply StronglySorted_inv in Hs as [_ Hall]. exact Hall.
Qed.

Lemma Sorted_le_head (q : Z) (l : list Z) :
  Sorted Z.le (q :: l) -> Forall (fun x => q <= x) l.
Proof.
  intros Hs. apply Sorted_StronglySorted in Hs; [|intros x y z; lia].
  apply StronglySorted_inv in Hs as [_ Hall]. exact Hall.
Qed.

Lemma Sorted_gt_rev (l : list Z) : Sorted Z.gt l -> Sorted Z.lt (rev l).
Proof.
  intros Hs. apply Sorted_StronglySorted in Hs; [|intros x y z; lia].
  apply StronglySorted_Sorted.
  induction Hs as [|x l Hs IH Hall]; [constructor|].
  cbn [rev].
  assert (forall l1, StronglySorted Z.lt l1 -> Forall (fun y => y < x) l1 ->
                     StronglySorted Z.lt (l1 ++ [x])) as Hsnoc.
  { intros l1 H1. induction H1 as [|y l1 H1 IH1 Hy]; intros Hlt; cbn.
    - repeat constructor.
    - apply Forall_cons in Hlt as [Hyx Hlt]. constructor; [apply IH1, Hlt|].
      apply Forall_app. split; [exact Hy|]. repeat constructor. exact Hyx. }
  apply Hsnoc; [exact IH|].
  apply Forall_rev. eapply Forall_impl; [exact Hall|]. cbn. intros; lia.
Qed.

Lemma weight_decreasing_le (acc : list (SpinLabel * Z)) (q : SpinLabel) :
  Sorted Z.gt (map fst acc) ->
  Forall (fun v => 1 <= v <= 65535) (map snd acc) ->
  0 <= weight acc q <= 65535.
Proof.
  induction acc as [|[q' v'] acc IH]; intros Hacc Hva.
  - rewrite weight_nil. lia.
  - cbn [map fst snd] in *. apply Forall_cons in Hva as [Hv' Hva].
    pose proof (Sorted_gt_head _ _ Hacc) as Hlt.
    apply Sorted_inv in Hacc as [Hacc _].
    rewrite weight_cons. cbn [fst snd]. unfold eqb.
    destruct (Z.eqb_spec q' q) as [->|Hne].
    + rewrite weight_absent; [lia|]. intros Hq.
      rewrite List.Forall_forall in Hlt. specialize (Hlt q Hq). lia.
    + specialize (IH Hacc Hva). lia.
Qed.

(** The loop of [collect] on a sorted array.  [acc] is the output written
    so far, last entry first. *)
Lemma collect_fold_spec (es acc : list (SpinLabel * Z)) :
  Sorted Z.le (map fst es) ->
  Forall (fun v => 0 <= v <= 65535) (map snd es) ->
  Sorted Z.gt (map fst acc) ->
  Forall (fun v => 1 <= v <= 65535) (map snd acc) ->
  (forall qk vk rest, acc = (qk, vk) :: rest ->
                      Forall (fun q => qk <= q) (map fst es)) ->
  let r := fold_left collect_step es acc in
  Sorted Z.gt (map fst r)
  /\ Forall (fun v => 1 <= v <= 65535) (map snd r)
  /\ (forall q, weight r q = Z.min (weight acc q + weight es q) 65535).
Proof.
  revert acc. induction es as [|[q v] es IH]; intros acc Hes Hv Hacc Hva Hhd.
  - cbn [fold_left]. split; [exact Hacc|]. split; [exact Hva|].
    intros q. rewrite weight_nil, Z.add_0_r.
    pose proof (weight_decreasing_le acc q Hacc Hva). lia.
  - cbn [map fst snd] in Hes, Hv. apply Forall_cons in Hv as [Hv0 Hv].
    pose proof (Sorted_le_head _ _ Hes) as Hqle.
    apply Sorted_inv in Hes as [Hes _].
    cbn [fold_left]. cbv zeta in IH |- *.
    unfold collect_step at 2 4 6.
    destruct (Z.eqb_spec v 0) as [->|Hv1].
    { destruct (IH acc Hes Hv Hacc Hva) as (H1 & H2 & H3).
      - intros qk vk rest E. specialize (Hhd qk vk rest E).
        cbn [map fst] in Hhd. apply Forall_cons in Hhd as [_ Hhd]. exact Hhd.
      - split; [exact H1|]. split; [exact H2|]. intros q'. rewrite H3.
        rewrite (weight_cons (q, 0)). cbn [fst snd].
        destruct (eqb q q'); reflexivity. }
    destruct acc as [|[qk vk] rest].
    { destruct (IH [(q, v)] Hes Hv) as (H1 & H2 & H3).
      - repeat constructor.
      - cbn [map snd]. constructor; [lia|constructor].
      - intros qk vk rest E. injection E as <- <- <-. exact Hqle.
      - split; [exact H1|]. split; [exact H2|]. intros q'. rewrite H3.
        rewrite !weight_cons, !weight_nil. cbn [fst snd]. f_equal. lia. }
    cbn [map fst snd] in Hacc, Hva. apply Forall_cons in Hva as [Hvk Hva].
    pose proof (Hhd qk vk rest eq_refl) as Hk. cbn [map fst] in Hk.
    apply Forall_cons in Hk as [Hkq Hk].
    unfold eqb. destruct (Z.eqb_spec q qk) as [->|Hne].
    + destruct (IH ((qk, Z.min (vk + v) 65535) :: rest) Hes Hv)
        as (H1 & H2 & H3).
      * exact Hacc.
      * cbn [map snd]. constructor; [lia|exact Hva].
      * intros qk' vk' rest' E. injection E as <- _ _. exact Hk.
      * split; [exact H1|]. split; [exact H2|]. intros q'. rewrite H3.
        rewrite !weight_cons. cbn [fst snd].
        assert (0 <= weight es q') as Hw0.
        { apply weight_nonneg. eapply Forall_impl; [exact Hv|]. cbn; lia. }
        assert (0 <= weight rest q') as Hw1.
        { apply weight_nonneg. eapply Forall_impl; [exact Hva|]. cbn; lia. }
        destruct (eqb qk q'); lia.
    + destruct (IH ((q, v) :: (qk, vk) :: rest) Hes Hv) as (H1 & H2 & H3).
      * cbn [map fst]. constructor; [exact Hacc|]. constructor. lia.
      * cbn [map snd]. constructor; [lia|]. constructor; [lia|exact Hva].
      * intros qk' vk' rest' E. injection E as <- _ _. exact Hqle.
      * split; [exact H1|]. split; [exact H2|]. intros q'. rewrite H3.
        rewrite !weight_cons. cbn [fst snd]. f_equal. lia.
Qed.

Lemma upper_bound_sorted (es : list (SpinLabel * Z)) (target : SpinLabel) :
  Sorted Z.le (map fst es) ->
  let nn := upper_bound (map fst es) target in
  Forall (fun q => q <= target) (map fst (take nn es))
  /\ (forall q, weight (take nn es) q
                = if q <=? target then weight es q else 0).
Proof.
  induction es as [|[q v] es IH]; intros Hs; cbv zeta.
  - cbn. split; [constructor|]. intros q. destruct (q <=? target); reflexivity.
  - cbn [map fst] in Hs. pose proof (Sorted_le_head _ _ Hs) as Hle.
    apply Sorted_inv in Hs as [Hs _]. specialize (IH Hs). cbv zeta in IH.
    cbn [map fst upper_bound]. unfold ltb.
    destruct (Z.ltb_spec target q) as [Hlt|Hge].
    + cbn [take map]. split; [constructor|]. intros q'.
      rewrite weight_nil.
      destruct (Z.leb_spec q' target); [|reflexivity].
      symmetry. apply weight_absent. cbn [map fst]. intros [E|Hin]; [lia|].
      rewrite List.Forall_forall in Hle. specialize (Hle q' Hin). lia.
    + destruct IH as [IH1 IH2]. cbn [take map fst]. split.
      * constructor; assumption.
      * intros q'. rewrite !weight_cons, IH2. cbn [fst snd]. unfold eqb.
        destruct (Z.eqb_spec q q') as [->|_], (Z.leb_spec q' target);
          try reflexivity; lia.
Qed.

Lemma collected_weight (s : StateInfo) (q v : Z) :
  collected s -> (In (q, v) (entries s) <-> weight (entries s) q = v /\ 1 <= v).
Proof.
  intros (Hs & Hv & _). unfold quanta, n_states in *.
  induction (entries s) as [|[q' v'] es IH]; cbn [map fst snd] in *.
  - rewrite weight_nil. split; [intros []|lia].
  - apply Forall_cons in Hv as [Hv' Hv].
    pose proof (Sorted_lt_head _ _ Hs) as Hlt.
    apply Sorted_inv in Hs as [Hs _]. specialize (IH Hs Hv).
    rewrite weight_cons. cbn [fst snd]. unfold eqb.
    destruct (Z.eqb_spec q' q) as [->|Hne].
    + assert (weight es q = 0) as Hz.
      { apply weight_absent. intros Hq.
        rewrite List.Forall_forall in Hlt. specialize (Hlt q Hq). lia. }
      rewrite Hz. split.
      * intros [E|Hin]; [injection E as <-; lia|].
        apply IH in Hin. lia.
      * intros [<- _]. left. f_equal. lia.
    + rewrite Z.add_0_l, <- IH. split; [intros [E|Hin]|intros Hin].
      * congruence.
      * exact Hin.
      * right. exact Hin.
Qed.

Lemma weight_below_head (q v : Z) (l : list (SpinLabel * Z)) (q' : Z) :
  Sorted Z.lt (q :: map fst l) -> q' <= q -> weight l q' = 0.
Proof.
  intros Hs Hle. apply weight_absent. intros Hin.
  pose proof (Sorted_lt_head _ _ Hs) as Hlt.
  rewrite List.Forall_forall in Hlt. specialize (Hlt q' Hin). lia.
Qed.

Lemma sorted_entries_ext (l1 l2 : list (SpinLabel * Z)) :
  Sorted Z.lt (map fst l1) -> Forall (fun v => 1 <= v <= 65535) (map snd l1) ->
  Sorted Z.lt (map fst l2) -> Forall (fun v => 1 <= v <= 65535) (map snd l2) ->
  (forall q, weight l1 q = weight l2 q) -> l1 = l2.
Proof.
  revert l2. induction l1 as [|[q1 v1] l1 IH];
    intros [|[q2 v2] l2] Hs1 Hv1 Hs2 Hv2 Hw; cbn [map fst snd] in *.
  - reflexivity.
  - exfalso. apply Forall_cons in Hv2 as [Hv2 _].
    specialize (Hw q2). rewrite weight_nil, weight_cons in Hw.
    cbn [fst snd] in Hw. unfold eqb in Hw. rewrite Z.eqb_refl in Hw.
    rewrite (weight_below_head q2 v2 l2 q2 Hs2) in Hw by lia. lia.
  - exfalso. apply Forall_cons in Hv1 as [Hv1 _].
    specialize (Hw q1). rewrite weight_nil, weight_cons in Hw.
    cbn [fst snd] in Hw. unfold eqb in Hw. rewrite Z.eqb_refl in Hw.
    rewrite (weight_below_head q1 v1 l1 q1 Hs1) in Hw by lia. lia.
  - apply Forall_cons in Hv1 as [Hv1 Hv1'].
    apply Forall_cons in Hv2 as [Hv2 Hv2'].
    assert (q1 = q2) as ->.
    { pose proof (Hw q1) as W1. pose proof (Hw q2) as W2.
      rewrite !weight_cons in W1, W2. cbn [fst snd] in W1, W2.
      unfold eqb in W1, W2. rewrite Z.eqb_refl in W1, W2.
      rewrite (weight_below_head q1 v1 l1 q1 Hs1) in W1 by lia.
      rewrite (weight_below_head q2 v2 l2 q2 Hs2) in W2 by lia.
      destruct (Z.lt_total q1 q2) as [Hlt|[E|Hgt]]; [|exact E|].
      - rewrite (weight_below_head q2 v2 l2 q1 Hs2) in W1 by lia.
        destruct (Z.eqb_spec q2 q1); lia.
      - rewrite (weight_below_head q1 v1 l1 q2 Hs1) in W2 by lia.
        destruct (Z.eqb_spec q1 q2); lia. }
    assert (v1 = v2) as ->.
    { specialize (Hw q2). rewrite !weight_cons in Hw. cbn [fst snd] in Hw.
      unfold eqb in Hw. rewrite Z.eqb_refl in Hw.
      rewrite (weight_below_head q2 v2 l1 q2 Hs1) in Hw by lia.
      rewrite (weight_below_head q2 v2 l2 q2 Hs2) in Hw by lia. lia. }
    f_equal. apply IH.
    + apply Sorted_inv in Hs1 as [Hs1 _]. exact Hs1.
    + exact Hv1'.
    + apply Sorted_inv in Hs2 as [Hs2 _]. exact Hs2.
    + exact Hv2'.
    + intros q. specialize (Hw q). rewrite !weight_cons in Hw. lia.
Qed.

(** Two collected tables with the same count for every label are the
    same table. *)
Lemma collected_ext (s1 s2 : StateInfo) :
  collected s1 -> collected s2 ->
  (forall q, weight (entries s1) q = weight (entries s2) q) -> s1 = s2.
Proof.
  intros (Hs1 & Hv1 & Ht1) (Hs2 & Hv2 & Ht2) Hw.
  assert (entries s1 = entries s2) as He
    by (apply sorted_entries_ext; assumption).
  destruct s1 as [e1 t1], s2 as [e2 t2]. cbn in *. subst e2.
  f_equal. unfold n_states in *. cbn in *. lia.
Qed.

Lemma collect_collected (s : StateInfo) (target : SpinLabel) :
  Sorted Z.le (quanta s) -> counts_ok s ->
  collected (collect s target)
  /\ Forall (fun q => q <= target) (quanta (collect s target))
  /\ (forall q, weight (entries (collect s target)) q
                = if q <=? target then Z.min (weight (entries s) q) 65535
                  else 0).
Proof.
  intros Hs Hc. unfold collect, quanta in *.
  destruct (upper_bound_sorted (entries s) target Hs) as [Hle Hw].
  cbv zeta in Hle, Hw.
  set (nn := upper_bound (map fst (entries s)) target) in *.
  destruct (collect_fold_spec (take nn (entries s)) []) as (H1 & H2 & H3).
  - rewrite <- (take_drop nn (entries s)), map_app in Hs.
    apply Sorted_StronglySorted in Hs; [|intros x y z; lia].
    apply StronglySorted_app_1_l in Hs. apply StronglySorted_Sorted, Hs.
  - unfold counts_ok in Hc. rewrite <- firstn_map. apply Forall_take.
    apply Forall_map. exact Hc.
  - constructor.
  - constructor.
  - intros qk vk rest E. discriminate.
  - cbv zeta in H1, H2, H3.
    set (r := fold_left collect_step (take nn (entries s)) []) in *.
    assert (forall q, weight (rev r) q
                      = if q <=? target then Z.min (weight (entries s) q) 65535
                        else 0) as Hwr.
    { intros q. rewrite weight_rev, H3, weight_nil, Hw, Z.add_0_l.
      destruct (q <=? target); [reflexivity|]. reflexivity. }
    split; [|split].
    + unfold collected, quanta, n_states. cbn [entries n_states_total].
      split; [|split].
      * rewrite map_rev. apply Sorted_gt_rev, H1.
      * rewrite map_rev. apply Forall_rev, H2.
      * reflexivity.
    + cbn [entries]. apply List.Forall_forall. intros q Hq.
      destruct (Z.leb_spec q target) as [Hl|Hg]; [exact Hl|exfalso].
      assert (weight (rev r) q = 0) as Hz.
      { rewrite Hwr. destruct (Z.leb_spec q target); [lia|reflexivity]. }
      apply in_map_iff in Hq as ([q' v] & E & Hin). cbn in E. subst q'.
      assert (1 <= v) as Hv.
      { rewrite List.Forall_forall in H2. apply (H2 v).
        apply in_map_iff. exists (q, v). split; [reflexivity|].
        apply in_rev. exact Hin. }
      pose proof (weight_ge_entry (rev r) q v) as Hge.
      rewrite Hz in Hge. 
      assert (v <= 0); [|lia]. apply Hge; [|exact Hin].
      rewrite map_rev. apply Forall_rev.
      eapply Forall_impl; [exact H2|]. cbn; lia.
    + cbn [entries]. exact Hwr.
Qed.

Lemma collect_fold_id (es acc : list (SpinLabel * Z)) :
  Sorted Z.lt (map fst es) -> Forall (fun v => 1 <= v <= 65535) (map snd es) ->
  (forall qk vk rest, acc = (qk, vk) :: rest ->
                      Forall (fun q => qk < q) (map fst es)) ->
  fold_left collect_step es acc = rev es ++ acc.
Proof.
  revert acc. induction es as [|[q v] es IH]; intros acc Hs Hv Hhd;
    [reflexivity|].
  cbn [map fst snd] in Hs, Hv. apply Forall_cons in Hv as [Hv0 Hv].
  pose proof (Sorted_lt_head _ _ Hs) as Hlt.
  apply Sorted_inv in Hs as [Hs _].
  cbn [fold_left rev]. rewrite <- app_assoc. cbn [app].
  assert (collect_step acc (q, v) = (q, v) :: acc) as ->.
  { unfold collect_step. destruct (Z.eqb_spec v 0) as [->|_]; [lia|].
    destruct acc as [|[qk vk] rest]; [reflexivity|].
    specialize (Hhd qk vk rest eq_refl). cbn [map fst] in Hhd.
    apply Forall_cons in Hhd as [Hk _]. unfold eqb.
    destruct (Z.eqb_spec q qk); [lia|reflexivity]. }
  apply IH; [exact Hs|exact Hv|].
  intros qk vk rest E. injection E as <- _ _. exact Hlt.
Qed.

Lemma collect_id (c : StateInfo) (target : SpinLabel) :
  collected c -> Forall (fun q => q <= target) (quanta c) ->
  collect c target = c.
Proof.
  intros (Hs & Hv & Ht) Hle. destruct c as [es t].
  unfold collect, quanta, n_states in *. cbn [entries n_states_total] in *.
  rewrite (upper_bound_all _ _ Hle), length_map, firstn_all.
  rewrite collect_fold_id; [|exact Hs|exact Hv|discriminate].
  rewrite app_nil_r, rev_involutive, <- Ht. reflexivity.
Qed.

(** X21. [collect] normalises a sorted table.  The labels above [target] and
    the entries with count 0 are dropped, entries with the same label
    are merged into one whose count is the sum, saturated at 65535; the
    result has strictly increasing labels, counts between 1 and 65535
    and a total that is their sum; and collecting it again with the
    same target changes nothing. *)
Theorem collect_normalises (s : StateInfo) (target : SpinLabel)
  (Hsorted : Sorted Z.le (quanta s)) (Hcounts : counts_ok s) :
  collected (collect s target)
  /\ Forall (fun q => q <= target) (quanta (collect s target))
  /\ (forall q v, In (q, v) (entries (collect s target))
                  <-> q <= target
                      /\ v = Z.min (weight (entries s) q) 65535 /\ 1 <= v)
  /\ collect (collect s target) target = collect s target.
Proof.
  destruct (collect_collected s target Hsorted Hcounts) as (Hc & Hle & Hw).
  split; [exact Hc|]. split; [exact Hle|]. split.
  - intros q v. rewrite (collected_weight _ q v Hc), Hw.
    destruct (Z.leb_spec q target); lia.
  - apply collect_id; assumption.
Qed.

Lemma site_basis_sorted : Sorted Z.le (quanta site_basis).
Proof.
  change (quanta site_basis) with [0; 16843008; 33554432].
  repeat constructor; lia.
Defined.

Lemma collect_normalises_witness :
  collect (collect site_basis 16843008) 16843008 = collect site_basis 16843008.
Proof.
  apply (proj2 (proj2 (proj2 (collect_normalises site_basis 16843008
                                site_basis_sorted site_basis_counts_ok)))).
Defined.

Lemma coupled_entries_counts (a b : StateInfo) :
  counts_ok a -> counts_ok b ->
  Forall (fun e => 0 <= snd e <= 65535) (coupled_entries a b).
Proof.
  unfold counts_ok. rewrite !List.Forall_forall. intros Ha Hb [q v] Hin.
  unfold coupled_entries in Hin.
  apply in_flat_map in Hin as (ea & Hea & Hin).
  apply in_flat_map in Hin as (eb & Heb & Hin).
  unfold couple in Hin. apply in_map_iff in Hin as (k & Hk & _).
  injection Hk as _ <-. cbn [snd].
  specialize (Ha ea Hea). specialize (Hb eb Heb). cbn in Ha, Hb. nia.
Qed.

Lemma collect_sorted_perm (es : list (SpinLabel * Z)) (t1 : Z)
  (target : SpinLabel) (l : list (SpinLabel * Z)) :
  es ≡ₚ l -> Sorted Z.le (map fst es) ->
  Forall (fun e => 0 <= snd e <= 65535) l ->
  let c := collect (mkStateInfo es t1) target in
  collected c
  /\ Forall (fun q => q <= target) (quanta c)
  /\ (forall q, weight (entries c) q
                = if q <=? target then Z.min (weight l q) 65535 else 0).
Proof.
  intros Hp Hs Hl c.
  destruct (collect_collected (mkStateInfo es t1) target) as (Hc & Hle & Hw).
  - exact Hs.
  - unfold counts_ok. cbn [entries]. rewrite Hp. exact Hl.
  - split; [exact Hc|]. split; [exact Hle|]. intros q. subst c.
    rewrite Hw. cbn [entries]. rewrite (weight_perm _ _ q Hp). reflexivity.
Qed.

Lemma sort_states_sorted (s : StateInfo) :
  Sorted Z.le (quanta (sort_states s)).
Proof.
  unfold sort_states, quanta. cbn [entries].
  apply (Sorted_fmap fst label_le Z.le); [intros x y H; exact H|].
  apply Sorted_merge_sort.
  intros x y. unfold label_le. lia.
Qed.

Lemma zsum_swap {A B : Type} (f : A -> B -> Z) (l1 : list A) (l2 : list B) :
  zsum (map (fun x => zsum (map (f x) l2)) l1)
  = zsum (map (fun y => zsum (map (fun x => f x y) l1)) l2).
Proof.
  induction l1 as [|x l1 IH]; cbn [map].
  - change (zsum []) with 0. induction l2 as [|y l2 IH2]; [reflexivity|].
    cbn [map]. rewrite zsum_cons, <- IH2. reflexivity.
  - rewrite zsum_cons, IH. clear IH.
    induction l2 as [|y l2 IH2]; [reflexivity|].
    cbn [map]. rewrite !zsum_cons, <- IH2. lia.
Qed.

Lemma weight_flat_map {A : Type} (f : A -> list (SpinLabel * Z)) (l : list A)
  (q : SpinLabel) :
  weight (flat_map f l) q = zsum (map (fun x => weight (f x) q) l).
Proof.
  induction l as [|x l IH]; [reflexivity|].
  cbn [flat_map map]. rewrite weight_app, zsum_cons, IH. reflexivity.
Qed.

Lemma couple_comm (ea eb : SpinLabel * Z) : couple ea eb = couple eb ea.
Proof.
  unfold couple. rewrite (add_comm (fst ea)), (Z.mul_comm (snd ea)).
  reflexivity.
Qed.

Lemma coupled_entries_weight_comm (a b : StateInfo) (q : SpinLabel) :
  weight (coupled_entries a b) q = weight (coupled_entries b a) q.
Proof.
  unfold coupled_entries. rewrite !weight_flat_map.
  erewrite (map_ext (fun x => weight (flat_map _ (entries b)) q));
    [|intros ea; apply weight_flat_map].
  erewrite (map_ext (fun x => weight (flat_map _ (entries a)) q));
    [|intros eb; apply weight_flat_map].
  rewrite (zsum_swap (fun ea eb => weight (couple ea eb) q)).
  apply zsum_map_eq. intros eb _. apply zsum_map_eq. intros ea _.
  rewrite couple_comm. reflexivity.
Qed.

Lemma tensor_product_weight (a b : StateInfo) (target : SpinLabel) :
  counts_ok a -> counts_ok b ->
  collected (tensor_product a b target)
  /\ Forall (fun q => q <= target) (quanta (tensor_product a b target))
  /\ (forall q, weight (entries (tensor_product a b target)) q
                = if q <=? target
                  then Z.min (weight (coupled_entries a b) q) 65535
                  else 0).
Proof.
  intros Ha Hb. unfold tensor_product.
  pose proof (sort_states_sorted (mkStateInfo (coupled_entries a b) 0))
    as Hs.
  destruct (sort_states (mkStateInfo (coupled_entries a b) 0))
    as [es t1] eqn:E.
  apply (collect_sorted_perm es t1 target (coupled_entries a b)).
  - change es with (entries (mkStateInfo es t1)). rewrite <- E.
    apply sort_states_entries.
  - exact Hs.
  - apply coupled_entries_counts; assumption.
Qed.

(** X22. [tensor_product] as a table.  For inputs with [uint16_t] counts the
    result has strictly increasing labels, none above [target], counts
    between 1 and 65535 and a total that is their sum; it holds the
    label [q] exactly when [q <= target] and the products [na * nb]
    (each capped at 65535) of the pairs that couple to [q] do not all
    vanish, with their sum, capped at 65535, as its count.  The table
    does not depend on the order in which [std::sort] leaves entries
    with equal labels, and [tensor_product(a, b)] and
    [tensor_product(b, a)] are the same table. *)
Theorem tensor_product_table (a b : StateInfo) (target : SpinLabel)
  (Ha : counts_ok a) (Hb : counts_ok b) :
  collected (tensor_product a b target)
  /\ Forall (fun q => q <= target) (quanta (tensor_product a b target))
  /\ (forall q v, In (q, v) (entries (tensor_product a b target))
                  <-> q <= target
                      /\ v = Z.min (weight (coupled_entries a b) q) 65535
                      /\ 1 <= v)
  /\ (forall es t1, es ≡ₚ coupled_entries a b -> Sorted Z.le (map fst es) ->
        collect (mkStateInfo es t1) target = tensor_product a b target)
  /\ tensor_product a b target = tensor_product b a target.
Proof.
  pose proof (fun a b => tensor_product_weight a b target) as Htp.
  destruct (Htp a b Ha Hb) as (Hc & Hle & Hw).
  split; [exact Hc|]. split; [exact Hle|]. split; [|split].
  - intros q v. rewrite (collected_weight _ q v Hc), Hw.
    destruct (Z.leb_spec q target); lia.
  - intros es t1 Hp Hs.
    destruct (collect_sorted_perm es t1 target (coupled_entries a b) Hp Hs)
      as (Hc' & _ & Hw'); [apply coupled_entries_counts; assumption|].
    apply collected_ext; [exact Hc'|exact Hc|].
    intros q. rewrite Hw', Hw. reflexivity.
  - destruct (Htp b a Hb Ha) as (Hc' & _ & Hw').
    apply collected_ext; [exact Hc|exact Hc'|].
    intros q. rewrite Hw, Hw', coupled_entries_weight_comm. reflexivity.
Qed.

Lemma tensor_product_table_witness :
  collected (tensor_product site_basis site_basis collect_all)
  /\ In (mk 2 2 0, 1) (entries (tensor_product site_basis site_basis collect_all)).
Proof.
  pose proof (tensor_product_table site_basis site_basis collect_all
                site_basis_counts_ok site_basis_counts_ok)
    as (Hc & _ & Hin & _).
  split; [exact Hc|]. apply Hin. vm_compute.
  split; [discriminate|]. split; [reflexivity|discriminate].
Defined.

Lemma find_in_cons_lt (x q : Z) (l : list Z) :
  x < q ->
  find_in (x :: l) q = if find_in l q =? -1 then -1 else find_in l q + 1.
Proof.
  intros Hlt. unfold find_in. cbv zeta. cbn [lower_bound]. unfold ltb.
  destruct (Z.ltb_spec x q); [|lia].
  change ((x :: l) !! Datatypes.S (lower_bound l q)) with (l !! lower_bound l q).
  unfold SpinLabel.
  destruct (l !! lower_bound l q) as [y|] eqn:E; [|reflexivity].
  destruct (negb (eqb y q)); [reflexivity|].
  destruct (Z.eqb_spec (Z.of_nat (lower_bound l q)) (-1)); lia.
Qed.

Lemma find_in_sorted (qs : list Z) (q : Z) :
  Sorted Z.lt qs ->
  (find_in qs q = -1 /\ ~ In q qs)
  \/ (exists i, find_in qs q = Z.of_nat i /\ qs !! i = Some q).
Proof.
  induction qs as [|x l IH]; intros Hs.
  - left. split; [reflexivity|intros []].
  - pose proof (Sorted_lt_head _ _ Hs) as Hlt.
    apply Sorted_inv in Hs as [Hs _]. specialize (IH Hs).
    destruct (Z.lt_total x q) as [Hxq|[->|Hqx]].
    + rewrite find_in_cons_lt by exact Hxq.
      destruct IH as [[E Hn]|(i & E & Hi)].
      * left. rewrite E. split; [reflexivity|].
        intros [E'|Hin]; [lia|contradiction].
      * right. exists (Datatypes.S i). rewrite E.
        destruct (Z.eqb_spec (Z.of_nat i) (-1)); [lia|].
        split; [lia|exact Hi].
    + right. exists O. unfold find_in. cbn [lower_bound]. unfold ltb, eqb.
      rewrite Z.ltb_irrefl. cbn. rewrite Z.eqb_refl. split; reflexivity.
    + left. unfold find_in. cbn [lower_bound]. unfold ltb, eqb.
      destruct (Z.ltb_spec x q); [lia|]. cbn.
      destruct (Z.eqb_spec x q); [lia|]. split; [reflexivity|].
      intros [E|Hin]; [lia|].
      rewrite List.Forall_forall in Hlt. specialize (Hlt q Hin). lia.
Qed.

Lemma sorted_lookup_inj (qs : list Z) (i j : nat) (q : Z) :
  Sorted Z.lt qs -> qs !! i = Some q -> qs !! j = Some q -> i = j.
Proof.
  intros Hs. revert i j. induction qs as [|x l IH]; intros i j Hi Hj.
  - discriminate.
  - pose proof (Sorted_lt_head _ _ Hs) as Hlt.
    apply Sorted_inv in Hs as [Hs _]. rewrite List.Forall_forall in Hlt.
    destruct i as [|i], j as [|j]; cbn in Hi, Hj.
    + reflexivity.
    + injection Hi as ->. apply list_elem_of_lookup_2, list_elem_of_In in Hj.
      specialize (Hlt q Hj). lia.
    + injection Hj as ->. apply list_elem_of_lookup_2, list_elem_of_In in Hi.
      specialize (Hlt q Hi). lia.
    + f_equal. apply IH; assumption.
Qed.

Lemma find_state_sorted (s : StateInfo) (q : SpinLabel)
  (Hsorted : Sorted Z.lt (quanta s)) :
  (find_state s q = -1 <-> ~ In q (quanta s))
  /\ (forall i : nat, find_state s q = Z.of_nat i <-> quanta s !! i = Some q)
  /\ (forall v, In (q, v) (entries s) ->
        find_state s q <> -1 /\ n_states_at s (find_state s q) = v).
Proof.
  unfold find_state.
  destruct (find_in_sorted (quanta s) q Hsorted) as [[E Hn]|(i & E & Hi)].
  - split; [|split].
    + rewrite E. tauto.
    + intros i. rewrite E. split; [lia|]. intros Hi. exfalso. apply Hn.
      apply list_elem_of_In. eapply list_elem_of_lookup_2. exact Hi.
    + intros v Hin. exfalso. apply Hn. unfold quanta.
      apply in_map_iff. exists (q, v). split; [reflexivity|exact Hin].
  - split; [|split].
    + rewrite E. split; [lia|]. intros Hn. exfalso. apply Hn.
      apply list_elem_of_In. eapply list_elem_of_lookup_2. exact Hi.
    + intros j. rewrite E. split.
      * intros Ej. assert (i = j) as -> by lia. exact Hi.
      * intros Hj. f_equal. exact (sorted_lookup_inj _ _ _ _ Hsorted Hi Hj).
    + intros v Hin. rewrite E. split; [lia|].
      unfold n_states_at. destruct (Z.ltb_spec (Z.of_nat i) 0); [lia|].
      rewrite Nat2Z.id.
      apply list_elem_of_In, list_elem_of_lookup_1 in Hin as (j & Hj).
      assert (quanta s !! j = Some q) as Hqj.
      { unfold quanta. rewrite list_lookup_fmap, Hj. reflexivity. }
      assert (i = j) as -> by exact (sorted_lookup_inj _ _ _ _ Hsorted Hi Hqj).
      unfold n_states. apply nth_lookup_Some. 
      rewrite list_lookup_fmap, Hj. reflexivity.
Qed.

(** X23. [find_state] on a table with strictly increasing labels (as
    [collect] leaves it): it returns -1 exactly for the labels that are
    not in the table, it returns [i] exactly when [quanta[i]] is the
    label, and [n_states] read at the index it returns is the count
    stored with the label. *)
Theorem find_state_lookup (s : StateInfo) (q : SpinLabel)
  (Hsorted : Sorted Z.lt (quanta s)) :
  (find_state s q = -1 <-> ~ In q (quanta s))
  /\ (forall i : nat, find_state s q = Z.of_nat i <-> quanta s !! i = Some q)
  /\ (forall v, In (q, v) (entries s) ->
        find_state s q <> -1 /\ n_states_at s (find_state s q) = v).
Proof. exact (find_state_sorted s q Hsorted). Qed.

Lemma site_basis_strict : Sorted Z.lt (quanta site_basis).
Proof.
  change (quanta site_basis) with [0; 16843008; 33554432].
  repeat constructor; lia.
Defined.

Lemma find_state_lookup_witness :
  find_state site_basis (mk 1 1 0) = Z.of_nat 1
  /\ find_state site_basis (mk 1 3 0) = -1.
Proof.
  pose proof (find_state_lookup site_basis (mk 1 1 0) site_basis_strict)
    as (_ & Hi & _).
  split; [apply Hi; reflexivity|reflexivity].
Defined.

End CollectFacts.

(** ** SparseMatrixInfo::initialize *)

Section InitializeBlocks.
Import Label State Sparse.
Local Open Scope Z_scope.

Lemma valid_neg (q : SpinLabel) : valid q -> valid (neg q).
Proof.
  intros (Hq & Hl & Ht). split; [apply neg_range, Hq|].
  split; [apply neg_keeps_spin; assumption|].
  rewrite twos_div, neg_fields by assumption. rewrite twos_div in Ht. zdm.
Qed.

Lemma get_ket_set_twos_low (q t : Z) :
  valid q -> get_ket (set_twos_low q t) = q.
Proof.
  intros Hv. pose proof (valid_bytes q Hv) as (Hq & Eq & Nq & Tq & Pq).
  rewrite set_twos_low_pack by assumption.
  assert (0 <= t mod 256 < 256) as Ht by zdm.
  destruct (fields_pack (q / 16777216) (t mod 256) (twos q) (pg q))
    as (_ & _ & Ft & Fp); try lia.
  rewrite get_ket_fields by (apply pack_range; lia).
  rewrite Ft, Fp.
  replace (pack (q / 16777216) (t mod 256) (twos q) (pg q) / 16777216)
    with (q / 16777216) by (unfold pack; zdm).
  symmetry. exact Eq.
Qed.

(** The labels gathered for one ket label are the block labels of the
    bra labels it couples to. *)
Lemma bras_of_combine (bra : State.StateInfo) (dq q l : SpinLabel) :
  table_ok bra -> valid dq -> valid q ->
  In l (bras_of bra (add dq q) q)
  <-> exists qb, In qb (State.quanta bra) /\ l = combine dq qb q
                 /\ l <> invalid.
Proof.
  intros (Hsb & Hvb) Hdq Hq.
  pose proof (add_valid_spec dq q Hdq Hq) as (_ & Hr & _).
  unfold bras_of. rewrite in_map_iff. split.
  - intros (k & <- & Hk). apply filter_In in Hk as [Hk Hf].
    apply in_seq in Hk. apply negb_true_iff, Z.eqb_neq in Hf.
    set (qb := index (add dq q) (Z.of_nat k)) in *.
    assert (In qb (members (add dq q))) as Hm.
    { unfold members. apply in_map_iff. exists k. split; [reflexivity|].
      apply in_seq. lia. }
    assert (In qb (State.quanta bra)) as Hb.
    { destruct (in_dec Z.eq_dec qb (State.quanta bra)) as [Hin|Hnin];
        [exact Hin|].
      exfalso. apply Hf. apply (find_state_sorted bra qb Hsb). exact Hnin. }
    assert (valid qb) as Hvqb.
    { rewrite List.Forall_forall in Hvb. apply Hvb, Hb. }
    destruct (combine_spec dq qb q Hdq Hvqb Hq) as (Hiff & Hrt & _).
    assert (combine dq qb q <> invalid) as Hne by (apply Hiff, Hm).
    exists qb. split; [exact Hb|].
    assert (combine dq qb q = set_twos_low q (twos qb)) as Ec.
    { unfold combine in *.
      destruct (negb _ || negb _); [contradiction|reflexivity]. }
    rewrite Ec in *. split; [reflexivity|exact Hne].
  - intros (qb & Hb & -> & Hne).
    assert (valid qb) as Hvqb.
    { rewrite List.Forall_forall in Hvb. apply Hvb, Hb. }
    destruct (combine_spec dq qb q Hdq Hvqb Hq) as (Hiff & Hrt & _).
    apply Hiff in Hne as Hm. unfold members in Hm.
    apply in_map_iff in Hm as (k & Ek & Hk).
    exists k. split.
    + rewrite Ek. unfold combine in *.
      destruct (negb _ || negb _); [contradiction|reflexivity].
    + apply filter_In. split; [exact Hk|].
      apply negb_true_iff, Z.eqb_neq. rewrite Ek. intros Hf.
      apply (find_state_sorted bra qb Hsb) in Hf. contradiction.
Qed.

Lemma initialize_quanta (bra ket : State.StateInfo) (dq : SpinLabel)
  (fermion wfn : bool) (l : SpinLabel) :
  In l (quanta (initialize bra ket dq fermion wfn))
  <-> In l (gather bra ket dq wfn).
Proof.
  unfold initialize.
  destruct (Z.eqb_spec (Z.of_nat (length (gather bra ket dq wfn))) 0) as [E|E];
    cbn [quanta].
  - destruct (gather bra ket dq wfn); [reflexivity|cbn in E; lia].
  - unfold sort_labels. split; intros Hin.
    + eapply Permutation_in; [apply (merge_sort_Permutation Z.le)|exact Hin].
    + eapply Permutation_in;
        [symmetry; apply (merge_sort_Permutation Z.le)|exact Hin].
Qed.

Lemma initialize_dims (bra ket : State.StateInfo) (dq : SpinLabel)
  (fermion wfn : bool) (i : nat) (l : SpinLabel) :
  quanta (initialize bra ket dq fermion wfn) !! i = Some l ->
  n_states_ket (initialize bra ket dq fermion wfn) !! i
  = Some (State.n_states_at ket
            (State.find_state ket
               (if wfn then neg (get_ket l) else get_ket l)))
  /\ n_states_bra (initialize bra ket dq fermion wfn) !! i
     = Some (State.n_states_at bra (State.find_state bra (get_bra l dq))).
Proof.
  unfold initialize.
  destruct (Z.eqb_spec (Z.of_nat (length (gather bra ket dq wfn))) 0) as [E|E];
    cbn [quanta n_states_ket n_states_bra]; intros Hl.
  - discriminate.
  - rewrite !list_lookup_fmap, Hl. split; reflexivity.
Qed.

(** X24. The blocks of [initialize] are the couplings the symmetry allows.
    For bra and ket tables with strictly increasing labels of one state
    each and such a [dq]: a label is in [quanta] exactly when it is
    [dq.combine(qb, q)] for a bra label [qb] and a ket label ([q] is the
    ket label, negated for a wavefunction) and is not the sentinel.
    Every block label gives back a label of [ket] and a label of [bra]
    through [get_ket()] and [get_bra(dq)], so neither [find_state] of
    the fill loop returns -1, and the block dimensions are the counts
    the two tables hold for these labels. *)
Theorem initialize_blocks (bra ket : State.StateInfo) (dq : SpinLabel)
  (fermion wfn : bool)
  (Hbra : table_ok bra) (Hket : table_ok ket) (Hdq : valid dq) :
  let inf := initialize bra ket dq fermion wfn in
  let ket_of l := if wfn then neg (get_ket l) else get_ket l in
  (forall l, In l (quanta inf)
             <-> exists qk qb,
                   In qk (State.quanta ket) /\ In qb (State.quanta bra)
                   /\ l = combine dq qb (if wfn then neg qk else qk)
                   /\ l <> invalid)
  /\ (forall (i : nat) l, quanta inf !! i = Some l ->
        In (ket_of l) (State.quanta ket)
        /\ In (get_bra l dq) (State.quanta bra)
        /\ State.find_state ket (ket_of l) <> -1
        /\ State.find_state bra (get_bra l dq) <> -1
        /\ n_states_ket inf !! i
           = Some (State.n_states_at ket (State.find_state ket (ket_of l)))
        /\ n_states_bra inf !! i
           = Some (State.n_states_at bra
                     (State.find_state bra (get_bra l dq)))).
Proof.
  intros inf ket_of.
  assert (forall l, In l (quanta inf)
             <-> exists qk qb,
                   In qk (State.quanta ket) /\ In qb (State.quanta bra)
                   /\ l = combine dq qb (if wfn then neg qk else qk)
                   /\ l <> invalid) as Hchar.
  { intros l. subst inf. rewrite initialize_quanta, gather_flat_map.
    rewrite in_flat_map. destruct Hket as (Hsk & Hvk).
    rewrite List.Forall_forall in Hvk. split.
    - intros (qk & Hk & Hin). cbv zeta in Hin.
      apply bras_of_combine in Hin as (qb & Hb & E & Hne);
        [|exact Hbra|exact Hdq
         |destruct wfn; [apply valid_neg|]; apply Hvk, Hk].
      exists qk, qb. auto.
    - intros (qk & qb & Hk & Hb & E & Hne). exists qk.
      split; [exact Hk|]. cbv zeta.
      apply bras_of_combine;
        [exact Hbra|exact Hdq
        |destruct wfn; [apply valid_neg|]; apply Hvk, Hk|].
      exists qb. auto. }
  split; [exact Hchar|].
  intros i l Hl.
  assert (In l (quanta inf)) as Hin.
  { apply list_elem_of_In. eapply list_elem_of_lookup_2. exact Hl. }
  apply Hchar in Hin as (qk & qb & Hk & Hb & E & Hne).
  destruct Hket as (Hsk & Hvk), Hbra as (Hsb & Hvb).
  rewrite List.Forall_forall in Hvk, Hvb.
  pose proof (Hvk qk Hk) as Hvqk. pose proof (Hvb qb Hb) as Hvqb.
  set (q := if wfn then neg qk else qk) in *.
  assert (valid q) as Hvq by (subst q; destruct wfn; [apply valid_neg|]; exact Hvqk).
  destruct (combine_spec dq qb q Hdq Hvqb Hvq) as (_ & Hrt & _).
  rewrite <- E in Hrt. destruct (Hrt Hne) as (Hgb & Hgk & _).
  assert (ket_of l = qk) as Ek.
  { subst ket_of q. cbv beta. rewrite Hgk. destruct wfn; [|reflexivity].
    apply neg_neg. apply Hvqk. }
  rewrite Ek, Hgb.
  split; [exact Hk|]. split; [exact Hb|].
  split.
  { intros Hf. apply (find_state_sorted ket qk Hsk) in Hf. contradiction. }
  split.
  { intros Hf. apply (find_state_sorted bra qb Hsb) in Hf. contradiction. }
  destruct (initialize_dims bra ket dq fermion wfn i l Hl) as [Hdk Hdb].
  fold inf in Hdk, Hdb. fold (ket_of l) in Hdk. rewrite Ek in Hdk.
  rewrite Hgb in Hdb. split; assumption.
Qed.

Lemma site_basis_table_ok : table_ok State.site_basis.
Proof.
  unfold table_ok.
  change (State.quanta State.site_basis) with [0; 16843008; 33554432].
  split; [repeat constructor; lia|].
  repeat (apply List.Forall_cons;
          [unfold valid; cbv; repeat split; first [discriminate | reflexivity]|]).
  apply List.Forall_nil.
Defined.

Lemma initialize_blocks_witness :
  In (mk_range 0 1 0 0)
     (quanta (initialize State.site_basis State.site_basis (mk 1 1 0)
                true false)).
Proof.
  apply (proj1 (initialize_blocks State.site_basis State.site_basis (mk 1 1 0)
                  true false site_basis_table_ok site_basis_table_ok
                  valid_doublet) (mk_range 0 1 0 0)).
  exists vacuum, (mk 1 1 0).
  split; [left; reflexivity|]. split; [right; left; reflexivity|].
  split; [reflexivity|]. vm_compute. discriminate.
Defined.

End InitializeBlocks.

(** ** StateInfo::filter: partners *)

Section FilterFacts.
Import Label State.
Local Open Scope Z_scope.

Lemma neg_parts (q : SpinLabel) :
  0 <= q < 0x100000000 ->
  neg q / 16777216 = (256 - q / 16777216) mod 256
  /\ twos (neg q) = twos q /\ pg (neg q) = pg q.
Proof.
  intros Hq. rewrite !twos_div, !pg_mod, neg_fields by assumption.
  repeat split; zdm.
Qed.

Lemma lxor_cancel (t q : Z) : Z.lxor t (Z.lxor t q) = q.
Proof. rewrite <- Z.lxor_assoc, Z.lxor_nilpotent, Z.lxor_0_l. reflexivity. Qed.

Lemma triangle_rotate (a b c : Z) :
  CG.triangle a b c = true -> CG.triangle a c b = true.
Proof.
  rewrite !triangle_spec, !even_mod2.
  replace (a + c + b) with (a + b + c) by ring. lia.
Qed.

(** Coupling to [target] is symmetric on labels of one state. *)
Lemma partner_sym (target q x : SpinLabel) :
  valid target -> valid q -> valid x ->
  In x (members (sub target q)) -> In q (members (sub target x)).
Proof.
  intros Ht Hq Hx. unfold sub.
  rewrite !members_add_spec by (try apply valid_neg; assumption).
  destruct Hq as (Rq & Lq & Tq). destruct Hx as (Rx & Lx & Tx).
  pose proof Ht as (Rt & Lt & Tt).
  destruct (neg_parts q Rq) as (Nq & Sq & Pq).
  destruct (neg_parts x Rx) as (Nx & Sx & Px).
  pose proof (neg_range q Rq) as Rnq. pose proof (neg_range x Rx) as Rnx.
  rewrite Sq, Pq, Sx, Px.
  rewrite !(n_div q), !(n_div x), !(n_div target), !(n_div (neg q)),
    !(n_div (neg x)), Nq, Nx by assumption.
  rewrite !signed8_add.
  intros (_ & _ & Hn & Hp & Htri).
  split; [exact Rq|]. split; [exact Lq|]. split; [|split].
  - apply signed8_cong. apply (f_equal (fun z => z mod 256)) in Hn.
    rewrite !signed8_mod256 in Hn. zdm.
  - rewrite Hp. symmetry. apply lxor_cancel.
  - apply triangle_rotate. exact Htri.
Qed.

Lemma zsum_pos_exists (l : list Z) :
  Forall (fun v => 0 <= v) l -> 0 < zsum l -> exists v, In v l /\ 0 < v.
Proof.
  induction 1 as [|x l Hx _ IH]; rewrite ?zsum_cons; [cbn; lia|].
  intros Hpos. destruct (Z.lt_ge_cases 0 x) as [Hp|Hz].
  - exists x. split; [left; reflexivity|exact Hp].
  - destruct IH as (v & Hv & Hvp); [lia|].
    exists v. split; [right; exact Hv|exact Hvp].
Qed.

Lemma zsum_ge_member (l : list Z) (v : Z) :
  Forall (fun v => 0 <= v) l -> In v l -> v <= zsum l.
Proof.
  induction 1 as [|x l Hx Hl IH]; [intros []|]. rewrite zsum_cons.
  pose proof (zsum_nonneg l Hl). intros [-> | Hin]; [lia|].
  specialize (IH Hin). lia.
Qed.

Lemma n_states_at_nonneg (s : StateInfo) (idx : Z) :
  counts_ok s -> 0 <= n_states_at s idx.
Proof.
  intros Hc. unfold n_states_at. destruct (idx <? 0); [lia|].
  unfold n_states.
  destruct (nth_in_or_default (Z.to_nat idx) (map snd (entries s)) 0)
    as [Hin | ->]; [|lia].
  apply in_map_iff in Hin as (e & <- & He).
  unfold counts_ok in Hc. rewrite List.Forall_forall in Hc.
  apply Hc in He. lia.
Qed.

Lemma states_at_nonneg (s : StateInfo) (x : SpinLabel) :
  counts_ok s -> 0 <= states_at s x.
Proof.
  intros Hc. unfold states_at. destruct (find_state s x =? -1); [lia|].
  apply n_states_at_nonneg. exact Hc.
Qed.

(** On a table with strictly increasing labels [states_at] reads the
    count stored with the label. *)
Lemma states_at_sorted (s : StateInfo) (x : SpinLabel) :
  Sorted Z.lt (quanta s) ->
  (forall v, In (x, v) (entries s) -> states_at s x = v)
  /\ (states_at s x <> 0 -> exists v, In (x, v) (entries s)).
Proof.
  intros Hs. destruct (find_state_sorted s x Hs) as (Hm & Hi & Hv).
  unfold states_at. split.
  - intros v Hin. destruct (Hv v Hin) as [Hne ->].
    destruct (Z.eqb_spec (find_state s x) (-1)); [contradiction|reflexivity].
  - destruct (Z.eqb_spec (find_state s x) (-1)) as [E|Hne]; [congruence|].
    intros _. assert (In x (quanta s)) as Hin.
    { destruct (In_dec Z.eq_dec x (quanta s)) as [Hin|Hn]; [exact Hin|].
      apply Hm in Hn. contradiction. }
    unfold quanta in Hin. apply in_map_iff in Hin as ([x' v] & Ex & Hin).
    cbn in Ex. subst x'. exists v. exact Hin.
Qed.

Lemma coupled_sum_nonneg (s : StateInfo) (qr : SpinLabel) :
  counts_ok s -> 0 <= coupled_sum s qr.
Proof.
  intros Hc. unfold coupled_sum. apply zsum_nonneg.
  apply List.Forall_forall. intros v Hv.
  apply in_map_iff in Hv as (x & <- & _). apply states_at_nonneg. exact Hc.
Qed.

Lemma coupled_sum_pos (s : StateInfo) (qr : SpinLabel) :
  Sorted Z.lt (quanta s) -> counts_ok s ->
  0 < coupled_sum s qr ->
  exists x v, In x (members qr) /\ In (x, v) (entries s) /\ 0 < v.
Proof.
  intros Hs Hc Hpos. unfold coupled_sum in Hpos.
  apply zsum_pos_exists in Hpos as (v & Hv & Hvp).
  - apply in_map_iff in Hv as (x & Ex & Hx).
    destruct (states_at_sorted s x Hs) as [Hval Hex].
    destruct Hex as [v' Hin]; [lia|].
    exists x, v'. rewrite (Hval v' Hin) in Ex. subst v'.
    repeat split; assumption.
  - apply List.Forall_forall. intros w Hw.
    apply in_map_iff in Hw as (x & <- & _). apply states_at_nonneg. exact Hc.
Qed.

Lemma coupled_sum_ge (s : StateInfo) (qr x : SpinLabel) (v : Z) :
  Sorted Z.lt (quanta s) -> counts_ok s ->
  In x (members qr) -> In (x, v) (entries s) -> v <= coupled_sum s qr.
Proof.
  intros Hs Hc Hx Hin. unfold coupled_sum.
  destruct (states_at_sorted s x Hs) as [Hval _].
  rewrite <- (Hval v Hin). apply zsum_ge_member.
  - apply List.Forall_forall. intros w Hw.
    apply in_map_iff in Hw as (y & <- & _). apply states_at_nonneg. exact Hc.
  - apply in_map. exact Hx.
Qed.

Lemma capped_quanta (s other : StateInfo) (target : SpinLabel) :
  quanta (capped s other target) = quanta s.
Proof.
  unfold capped, quanta. cbn [entries]. rewrite map_map. reflexivity.
Qed.

Lemma capped_entry (s other : StateInfo) (target q v' : Z) :
  In (q, v') (entries (capped s other target))
  <-> exists v, In (q, v) (entries s)
                /\ v' = Z.min v (coupled_sum other (sub target q)).
Proof.
  unfold capped. cbn [entries]. rewrite in_map_iff. split.
  - intros ([q0 v] & E & Hin). unfold cap_entry in E. cbn in E.
    injection E as <- <-. exists v. split; [exact Hin|reflexivity].
  - intros (v & Hin & ->). exists (q, v). split; [reflexivity|exact Hin].
Qed.

Lemma capped_counts (s other : StateInfo) (target : SpinLabel) :
  counts_ok s -> counts_ok other ->
  counts_ok (capped s other target)
  /\ Forall2 Z.le (n_states (capped s other target)) (n_states s)
  /\ n_states_total (capped s other target)
     = zsum (n_states (capped s other target)).
Proof.
  intros Hs Ho. split; [|split; [|reflexivity]].
  - unfold counts_ok, capped in *. cbn [entries].
    rewrite List.Forall_forall in Hs |- *. intros e He.
    apply in_map_iff in He as (e0 & <- & He0). apply Hs in He0.
    unfold cap_entry. cbn [fst snd].
    pose proof (coupled_sum_nonneg other (sub target (fst e0)) Ho). lia.
  - unfold n_states, capped. cbn [entries]. clear Hs.
    induction (entries s) as [|e es IH]; cbn; constructor; [lia|exact IH].
Qed.

Lemma filter_capped (a b : StateInfo) (target : SpinLabel) :
  filter a b target
  = (capped a b target, capped b (capped a b target) target).
Proof. unfold filter. rewrite !filter_loop_capped. reflexivity. Qed.

Lemma filter_partners (a b : StateInfo) (target : SpinLabel)
  (Hsa : Sorted Z.lt (quanta a)) (Hva : Forall valid (quanta a))
  (Hca : counts_ok a)
  (Hsb : Sorted Z.lt (quanta b)) (Hvb : Forall valid (quanta b))
  (Hcb : counts_ok b) (Ht : valid target) :
  let a' := fst (filter a b target) in
  let b' := snd (filter a b target) in
  (quanta a' = quanta a /\ quanta b' = quanta b)
  /\ (Forall2 Z.le (n_states a') (n_states a)
      /\ Forall2 Z.le (n_states b') (n_states b))
  /\ (counts_ok a' /\ counts_ok b'
      /\ n_states_total a' = zsum (n_states a')
      /\ n_states_total b' = zsum (n_states b'))
  /\ (forall q v, In (q, v) (entries a') -> 0 < v ->
        exists q' v', In (q', v') (entries b') /\ 0 < v'
                      /\ In q' (members (sub target q))
                      /\ In q (members (sub target q')))
  /\ (forall q' v', In (q', v') (entries b') -> 0 < v' ->
        exists q v, In (q, v) (entries a') /\ 0 < v
                    /\ In q (members (sub target q'))
                    /\ In q' (members (sub target q))).
Proof.
  cbv zeta. rewrite filter_capped. cbn [fst snd].
  set (a' := capped a b target).
  destruct (capped_counts a b target Hca Hcb) as (Hca' & Hlea & Hta).
  fold a' in Hca', Hlea, Hta.
  destruct (capped_counts b a' target Hcb Hca') as (Hcb' & Hleb & Htb).
  assert (quanta a' = quanta a) as Hqa by apply capped_quanta.
  assert (Sorted Z.lt (quanta a')) as Hsa' by (rewrite Hqa; exact Hsa).
  assert (forall q v, In (q, v) (entries a) -> valid q) as Hvalid_a.
  { intros q v Hin. rewrite List.Forall_forall in Hva. apply Hva.
    unfold quanta. apply in_map_iff. exists (q, v). split; [reflexivity|exact Hin]. }
  assert (forall q v, In (q, v) (entries b) -> valid q) as Hvalid_b.
  { intros q v Hin. rewrite List.Forall_forall in Hvb. apply Hvb.
    unfold quanta. apply in_map_iff. exists (q, v). split; [reflexivity|exact Hin]. }
  split; [split; [exact Hqa|apply capped_quanta]|].
  split; [split; assumption|].
  split; [repeat split; assumption|].
  split.
  - intros q v' Hin Hpos.
    pose proof Hin as Hin0.
    apply capped_entry in Hin as (v & Hina & Ev).
    destruct (coupled_sum_pos b (sub target q) Hsb Hcb) as (x & vb & Hx & Hinb & Hvb');
      [lia|].
    assert (In q (members (sub target x))) as Hsym.
    { apply partner_sym; try assumption; [eapply Hvalid_a|eapply Hvalid_b];
        eassumption. }
    pose proof (coupled_sum_ge a' (sub target x) q v' Hsa' Hca' Hsym Hin0) as Hge.
    exists x, (Z.min vb (coupled_sum a' (sub target x))).
    split; [apply capped_entry; exists vb; split; [exact Hinb|reflexivity]|].
    split; [lia|]. split; assumption.
  - intros x w' Hin Hpos.
    apply capped_entry in Hin as (w & Hinb & Ew).
    destruct (coupled_sum_pos a' (sub target x) Hsa' Hca') as (q & v' & Hq & Hina' & Hv');
      [lia|].
    exists q, v'. split; [exact Hina'|]. split; [exact Hv'|].
    split; [exact Hq|].
    apply capped_entry in Hina' as (v & Hina & _).
    apply partner_sym; try assumption; [eapply Hvalid_b|eapply Hvalid_a];
      eassumption.
Qed.

(** X25. After [filter] every label that keeps states has a partner that
    keeps states.  For two tables with strictly increasing labels of one
    state each, [uint16_t] counts and such a [target]: [filter] leaves
    the labels as they are and only lowers counts, the totals are the
    sums of the counts, and every label of [a] left with a non-zero
    count couples to [target] with a label of [b] left with a non-zero
    count, and the other way round. *)
Theorem filter_keeps_partners (a b : StateInfo) (target : SpinLabel)
  (Hsa : Sorted Z.lt (quanta a)) (Hva : Forall valid (quanta a))
  (Hca : counts_ok a)
  (Hsb : Sorted Z.lt (quanta b)) (Hvb : Forall valid (quanta b))
  (Hcb : counts_ok b) (Ht : valid target) :
  let a' := fst (filter a b target) in
  let b' := snd (filter a b target) in
  (quanta a' = quanta a /\ quanta b' = quanta b)
  /\ (Forall2 Z.le (n_states a') (n_states a)
      /\ Forall2 Z.le (n_states b') (n_states b))
  /\ (counts_ok a' /\ counts_ok b'
      /\ n_states_total a' = zsum (n_states a')
      /\ n_states_total b' = zsum (n_states b'))
  /\ (forall q v, In (q, v) (entries a') -> 0 < v ->
        exists q' v', In (q', v') (entries b') /\ 0 < v'
                      /\ In q' (members (sub target q))
                      /\ In q (members (sub target q')))
  /\ (forall q' v', In (q', v') (entries b') -> 0 < v' ->
        exists q v, In (q, v) (entries a') /\ 0 < v
                    /\ In q (members (sub target q'))
                    /\ In q' (members (sub target q))).
Proof.
  exact (filter_partners a b target Hsa Hva Hca Hsb Hvb Hcb Ht).
Qed.

Lemma valid_mk_2_0_0 : valid (mk 2 0 0).
Proof. unfold valid. cbv. repeat split; first [discriminate | reflexivity]. Defined.

Lemma site_basis_valid : Forall valid (quanta site_basis).
Proof.
  change (quanta site_basis) with [0; 16843008; 33554432].
  repeat (apply List.Forall_cons;
          [unfold valid; cbv; repeat split; first [discriminate | reflexivity]|]).
  apply List.Forall_nil.
Defined.

Lemma filter_keeps_partners_witness :
  quanta (fst (filter site_basis site_basis (mk 2 0 0))) = quanta site_basis
  /\ quanta (snd (filter site_basis site_basis (mk 2 0 0))) = quanta site_basis.
Proof.
  apply (proj1 (filter_keeps_partners site_basis site_basis (mk 2 0 0)
                  site_basis_strict site_basis_valid site_basis_counts_ok
                  site_basis_strict site_basis_valid site_basis_counts_ok
                  valid_mk_2_0_0)).
Defined.

End FilterFacts.

(** ** MPSInfo: the tables of the constructor *)

Section MPSFacts.
Import Label State MPS.
Local Open Scope Z_scope.

Lemma weight_present (l : list (SpinLabel * Z)) (q : SpinLabel) :
  weight l q <> 0 -> exists v, In (q, v) l.
Proof.
  induction l as [|[q' v] l IH]; [rewrite weight_nil; lia|].
  rewrite weight_cons. cbn [fst snd]. unfold eqb.
  destruct (Z.eqb_spec q' q) as [->|Hne].
  - intros _. exists v. left. reflexivity.
  - intros H. destruct IH as [v' Hv']; [lia|]. exists v'. right. exact Hv'.
Qed.

Lemma sorted_weight (s : StateInfo) (q v : Z) :
  Sorted Z.lt (quanta s) -> In (q, v) (entries s) -> weight (entries s) q = v.
Proof.
  unfold quanta. induction (entries s) as [|[q' v'] es IH];
    cbn [map fst]; intros Hs Hin; [destruct Hin|].
  pose proof (Sorted_lt_head _ _ Hs) as Hlt.
  apply Sorted_inv in Hs as [Hs _].
  rewrite weight_cons. cbn [fst snd]. unfold eqb.
  rewrite List.Forall_forall in Hlt.
  destruct Hin as [E|Hin].
  - injection E as -> ->. rewrite Z.eqb_refl.
    rewrite weight_absent; [lia|]. intros Hq. specialize (Hlt q Hq). lia.
  - destruct (Z.eqb_spec q' q) as [->|Hne].
    + exfalso. assert (In q (map fst es)) as Hq.
      { apply in_map_iff. exists (q, v). split; [reflexivity|exact Hin]. }
      specialize (Hlt q Hq). lia.
    + rewrite (IH Hs Hin). lia.
Qed.

Lemma coupled_entries_members (a b : StateInfo) (q v : Z) :
  In (q, v) (coupled_entries a b) ->
  exists qa qb, In qa (quanta a) /\ In qb (quanta b)
                /\ In q (members (add qa qb)).
Proof.
  unfold coupled_entries. intros Hin.
  apply in_flat_map in Hin as (ea & Hea & Hin).
  apply in_flat_map in Hin as (eb & Heb & Hin).
  unfold couple in Hin. apply in_map_iff in Hin as (k & Hk & Hkin).
  injection Hk as <- _.
  exists (fst ea), (fst eb). unfold quanta.
  split; [apply in_map; exact Hea|]. split; [apply in_map; exact Heb|].
  unfold members. apply in_map_iff. exists k. split; [reflexivity|exact Hkin].
Qed.

Lemma tensor_product_spins (a b : StateInfo) (target : SpinLabel) (Ta Tb : Z) :
  spins_ok Ta a -> spins_ok Tb b -> Ta + Tb <= 127 -> target <= collect_all ->
  spins_ok (Ta + Tb) (tensor_product a b target)
  /\ Sorted Z.lt (quanta (tensor_product a b target)).
Proof.
  intros [Hca Hva] [Hcb Hvb] HT Ht.
  destruct (tensor_product_weight a b target Hca Hcb) as (Hc & Hle & Hw).
  pose proof Hc as (Hs & Hv & _).
  split; [|exact Hs]. split.
  - unfold counts_ok, n_states in *. rewrite List.Forall_forall in Hv |- *.
    intros e He. specialize (Hv (snd e) (in_map snd _ _ He)). lia.
  - rewrite List.Forall_forall in Hle, Hva, Hvb |- *. intros q Hq.
    specialize (Hle q Hq).
    unfold quanta in Hq. apply in_map_iff in Hq as ([q0 v] & E & Hin).
    cbn in E. subst q0.
    apply (collected_weight _ q v Hc) in Hin as [Hwq Hv1].
    rewrite Hw in Hwq. destruct (Z.leb_spec q target); [|lia].
    destruct (weight_present (coupled_entries a b) q) as [v' Hin']; [lia|].
    apply coupled_entries_members in Hin' as (qa & qb & Hqa & Hqb & Hm).
    destruct (Hva qa Hqa) as (Vqa & Tqa & _).
    destruct (Hvb qb Hqb) as (Vqb & Tqb & _).
    apply (members_add_spec qa qb q Vqa Vqb) in Hm as (Rq & Lq & _ & _ & Htri).
    apply triangle_spec in Htri as (_ & Hsum & _).
    split; [|split; [lia|lia]].
    split; [exact Rq|]. split; [exact Lq|lia].
Qed.

Lemma single_spins (q : SpinLabel) :
  valid q -> q <= collect_all ->
  spins_ok (twos q) (single q) /\ Sorted Z.lt (quanta (single q)).
Proof.
  intros Hq Hle. split; [split|].
  - unfold counts_ok, single. cbn. constructor; [cbn; lia|constructor].
  - unfold quanta, single. cbn. constructor; [|constructor].
    split; [exact Hq|]. split; [lia|exact Hle].
  - unfold quanta, single. cbn. repeat constructor.
Qed.

Lemma spins_ok_le (T T' : Z) (s : StateInfo) :
  T <= T' -> spins_ok T s -> spins_ok T' s.
Proof.
  intros HT [Hc Hv]. split; [exact Hc|].
  eapply List.Forall_impl; [|exact Hv]. cbn. intros q (H1 & H2 & H3).
  split; [exact H1|]. split; [lia|exact H3].
Qed.

Lemma lefts_length (target : SpinLabel) (sites : list StateInfo)
  (cur : StateInfo) :
  length (lefts target cur sites) = S (length sites).
Proof.
  revert cur. induction sites as [|s rest IH]; intros cur; [reflexivity|].
  cbn [lefts length]. rewrite IH. reflexivity.
Qed.

Lemma rights_length (target : SpinLabel) (sites : list StateInfo)
  (last : StateInfo) :
  length (rights target last sites) = S (length sites).
Proof.
  induction sites as [|s rest IH]; [reflexivity|].
  cbn [rights length]. rewrite IH. reflexivity.
Qed.

Lemma lefts_spins (target : SpinLabel) (sites : list StateInfo) :
  target <= collect_all -> Forall (spins_ok 1) sites ->
  forall (cur : StateInfo) (T : Z),
    spins_ok T cur -> Sorted Z.lt (quanta cur) ->
    T + Z.of_nat (length sites) <= 127 ->
    Forall (fun s => spins_ok 127 s /\ Sorted Z.lt (quanta s))
           (lefts target cur sites).
Proof.
  intros Ht. induction 1 as [|s rest Hs _ IH]; intros cur T Hcur Hsort HT.
  - cbn. constructor; [|constructor].
    split; [apply (spins_ok_le T); [cbn in HT; lia|exact Hcur]|exact Hsort].
  - cbn [lefts]. cbn [length] in HT. constructor.
    + split; [apply (spins_ok_le T); [lia|exact Hcur]|exact Hsort].
    + destruct (tensor_product_spins cur s target T 1 Hcur Hs) as [H1 H2];
        [lia|exact Ht|].
      apply (IH _ (T + 1)); [exact H1|exact H2|lia].
Qed.

Lemma rights_spins (target : SpinLabel) (last : StateInfo) (T : Z)
  (sites : list StateInfo) :
  target <= collect_all -> Forall (spins_ok 1) sites ->
  spins_ok T last -> Sorted Z.lt (quanta last) ->
  T + Z.of_nat (length sites) <= 127 ->
  Forall (fun s => spins_ok (T + Z.of_nat (length sites)) s
                   /\ Sorted Z.lt (quanta s))
         (rights target last sites).
Proof.
  intros Ht Hsites Hlast Hsort. induction Hsites as [|s rest Hs _ IH]; intros HT.
  - cbn. constructor; [|constructor]. rewrite Z.add_0_r. split; assumption.
  - cbn [rights length] in *.
    assert (T + Z.of_nat (length rest) <= 127) as HT' by lia.
    specialize (IH HT').
    destruct (rights target last rest) as [|r0 rs] eqn:E.
    { apply (f_equal length) in E. rewrite rights_length in E. discriminate. }
    cbn [hd]. pose proof IH as IH0.
    apply Forall_cons in IH0 as [[Hr0 Hr0s] _].
    destruct (tensor_product_spins s r0 target 1 (T + Z.of_nat (length rest))
                Hs Hr0) as [H1 H2]; [lia|exact Ht|].
    constructor.
    + split; [|exact H2]. eapply spins_ok_le; [|exact H1]. lia.
    + eapply List.Forall_impl; [|exact IH]. cbn. intros x [Hx1 Hx2].
      split; [|exact Hx2]. eapply spins_ok_le; [|exact Hx1]. lia.
Qed.

Lemma Sorted_lt_le (l : list Z) : Sorted Z.lt l -> Sorted Z.le l.
Proof.
  induction 1 as [|x l Hs IH Hhd]; constructor; [exact IH|].
  destruct Hhd; constructor. lia.
Qed.

(** [collect()] with its default target, on a table whose labels are
    strictly increasing and below [0x7FFFFFFF], keeps exactly the labels
    with a non-zero count. *)
Lemma collect_positive (s : StateInfo) :
  Sorted Z.lt (quanta s) -> counts_ok s ->
  Forall (fun q => q <= collect_all) (quanta s) ->
  collected (collect s collect_all)
  /\ (forall q, In q (quanta (collect s collect_all))
                <-> exists v, In (q, v) (entries s) /\ 0 < v).
Proof.
  intros Hs Hc Hle.
  destruct (collect_collected s collect_all (Sorted_lt_le _ Hs) Hc)
    as (Hcol & _ & Hw).
  split; [exact Hcol|]. intros q. split.
  - intros Hq. unfold quanta in Hq.
    apply in_map_iff in Hq as ([q0 v'] & E & Hin). cbn in E. subst q0.
    apply (collected_weight _ q v' Hcol) in Hin as [Hv' Hpos].
    rewrite Hw in Hv'.
    destruct (Z.leb_spec q collect_all); [|lia].
    destruct (weight_present (entries s) q) as [v Hin]; [lia|].
    exists v. split; [exact Hin|].
    rewrite (sorted_weight s q v Hs Hin) in Hv'. lia.
  - intros (v & Hin & Hpos).
    assert (q <= collect_all) as Hq.
    { rewrite List.Forall_forall in Hle. apply Hle. unfold quanta.
      apply in_map_iff. exists (q, v). split; [reflexivity|exact Hin]. }
    assert (In (q, Z.min v 65535) (entries (collect s collect_all))) as Hin'.
    { apply (collected_weight _ q _ Hcol). rewrite Hw.
      rewrite (sorted_weight s q v Hs Hin).
      destruct (Z.leb_spec q collect_all); lia. }
    unfold quanta. apply in_map_iff. exists (q, Z.min v 65535).
    split; [reflexivity|exact Hin'].
Qed.

Lemma spins_ok_table (T : Z) (s : StateInfo) :
  spins_ok T s ->
  counts_ok s /\ Forall valid (quanta s)
  /\ Forall (fun q => q <= collect_all) (quanta s).
Proof.
  intros [Hc Hv]. split; [exact Hc|].
  split; (eapply List.Forall_impl; [|exact Hv]); cbn; tauto.
Qed.

Lemma site_spins (basis : list StateInfo) (orbsym : list Z) (i : nat) :
  Forall (spins_ok 1) basis -> spins_ok 1 (site basis orbsym i).
Proof.
  intros Hb. assert (spins_ok 1 (mkStateInfo [] 0)) as He.
  { split; [constructor|constructor]. }
  unfold site. destruct (orbsym !! i) as [o|]; [|exact He].
  destruct (o <? 0); [exact He|].
  destruct (basis !! Z.to_nat o) as [s|] eqn:E; [|exact He].
  rewrite List.Forall_forall in Hb. apply Hb.
  apply list_elem_of_In. eapply list_elem_of_lookup_2. exact E.
Qed.

(** X26. The tables of the [MPSInfo] constructor.  When
    [twos(vaccum) + n_sites <= 127]; every label of every site basis is
    a label of one state ([twos_low = twos]) with spin 0 or 1/2 that is
    not above [0x7FFFFFFF], the default target of [collect] (a
    non-negative particle number), with [uint16_t] counts; [orbsym] is
    within the bounds of [basis]; and [vaccum] and [target] are labels
    of one state with [twos <= 127], not above [0x7FFFFFFF]: both arrays
    have [n_sites + 1]
    tables; every table has strictly increasing labels, counts between
    1 and 65535 and a total that is their sum; and at every bond each
    label of the left table couples to [target] with a label of the
    right table at the same bond, and each label of the right table
    with one of the left table. *)
Theorem MPSInfo_fci_partners (n_sites : Z) (vaccum target : SpinLabel)
  (basis : list StateInfo) (orbsym : list Z)
  (Hn : 0 <= n_sites) (Hspin : twos vaccum + n_sites <= 127)
  (Hvac : valid vaccum) (Hvac31 : vaccum <= collect_all)
  (Ht : valid target) (Ht31 : target <= collect_all)
  (Horb : forall i : nat, (i < Z.to_nat n_sites)%nat ->
            exists o, orbsym !! i = Some o
                      /\ 0 <= o < Z.of_nat (length basis))
  (Hbasis : Forall (spins_ok 1) basis) :
  let info := MPSInfo_new n_sites vaccum target basis orbsym in
  length (left_dims_fci info) = S (Z.to_nat n_sites)
  /\ length (right_dims_fci info) = S (Z.to_nat n_sites)
  /\ (forall (i : nat) l r,
        left_dims_fci info !! i = Some l ->
        right_dims_fci info !! i = Some r ->
        collected l /\ collected r
        /\ (forall q, In q (quanta l) ->
              exists q', In q' (quanta r) /\ In q' (members (sub target q)))
        /\ (forall q', In q' (quanta r) ->
              exists q, In q (quanta l) /\ In q (members (sub target q')))).
Proof.
  cbv zeta.
  unfold MPSInfo_new. cbn [left_dims_fci right_dims_fci].
  set (sites := map (site basis orbsym) (seq 0 (Z.to_nat n_sites))).
  assert (length sites = Z.to_nat n_sites) as Hlen.
  { subst sites. rewrite length_map, length_seq. reflexivity. }
  assert (Forall (spins_ok 1) sites) as Hsites.
  { subst sites. apply List.Forall_forall. intros s Hs.
    apply in_map_iff in Hs as (i & <- & _). apply site_spins. exact Hbasis. }
  destruct (single_spins vaccum Hvac Hvac31) as [Hsv Hss].
  pose proof (lefts_spins target sites Ht31 Hsites (single vaccum)
                (twos vaccum) Hsv Hss ltac:(lia)) as Hl.
  pose proof (rights_spins target (single vaccum) (twos vaccum) sites
                Ht31 Hsites Hsv Hss ltac:(lia)) as Hr.
  set (ls := lefts target (single vaccum) sites) in *.
  set (rs := rights target (single vaccum) sites) in *.
  assert (length ls = S (Z.to_nat n_sites)) as Hll
    by (subst ls; rewrite lefts_length; lia).
  assert (length rs = S (Z.to_nat n_sites)) as Hlr
    by (subst rs; rewrite rights_length; lia).
  split; [rewrite !length_map, length_combine; lia|].
  split; [rewrite !length_map, length_combine; lia|].
  intros i l r Hli Hri.
  rewrite !list_lookup_fmap in Hli, Hri.
  destruct (List.combine ls rs !! i) as [[l0 r0]|] eqn:Ei; [|discriminate].
  cbn in Hli, Hri. injection Hli as <-. injection Hri as <-.
  assert (In (l0, r0) (List.combine ls rs)) as Hin.
  { apply list_elem_of_In. eapply list_elem_of_lookup_2. exact Ei. }
  pose proof (in_combine_l _ _ _ _ Hin) as Hl0.
  pose proof (in_combine_r _ _ _ _ Hin) as Hr0.
  rewrite List.Forall_forall in Hl, Hr.
  destruct (Hl l0 Hl0) as [Hsl Hsortl]. destruct (Hr r0 Hr0) as [Hsr Hsortr].
  destruct (spins_ok_table _ _ Hsl) as (Hcl & Hvl & Hlel).
  destruct (spins_ok_table _ _ Hsr) as (Hcr & Hvr & Hler).
  pose proof (filter_partners l0 r0 target Hsortl Hvl Hcl Hsortr Hvr Hcr Ht)
    as Hf.
  cbv zeta in Hf.
  set (a' := fst (filter l0 r0 target)) in *.
  set (b' := snd (filter l0 r0 target)) in *.
  destruct Hf as ((Hqa & Hqb) & _ & (Hca' & Hcb' & _ & _) & Hab & Hba).
  destruct (collect_positive a') as [Hcola Hina];
    [rewrite Hqa; exact Hsortl|exact Hca'|rewrite Hqa; exact Hlel|].
  destruct (collect_positive b') as [Hcolb Hinb];
    [rewrite Hqb; exact Hsortr|exact Hcb'|rewrite Hqb; exact Hler|].
  split; [exact Hcola|]. split; [exact Hcolb|]. split.
  - intros q Hq. apply Hina in Hq as (v & Hv & Hpos).
    destruct (Hab q v Hv Hpos) as (q' & v' & Hv' & Hpos' & Hm & _).
    exists q'. split; [|exact Hm]. apply Hinb. exists v'. split; assumption.
  - intros q' Hq'. apply Hinb in Hq' as (v' & Hv' & Hpos').
    destruct (Hba q' v' Hv' Hpos') as (q & v & Hv & Hpos & Hm & _).
    exists q. split; [|exact Hm]. apply Hina. exists v. split; assumption.
Qed.

Lemma site_basis_spins : spins_ok 1 site_basis.
Proof.
  split; [exact site_basis_counts_ok|].
  change (quanta site_basis) with [0; 16843008; 33554432].
  repeat (apply List.Forall_cons;
          [unfold valid, collect_all; cbv;
           repeat split; first [discriminate | reflexivity]|]).
  apply List.Forall_nil.
Defined.

Lemma MPSInfo_fci_partners_witness :
  length (left_dims_fci
            (MPSInfo_new 2 vacuum (mk 2 0 0) [site_basis] [0; 0])) = 3%nat
  /\ length (right_dims_fci
               (MPSInfo_new 2 vacuum (mk 2 0 0) [site_basis] [0; 0])) = 3%nat.
Proof.
  pose proof (MPSInfo_fci_partners 2 vacuum (mk 2 0 0) [site_basis] [0; 0])
    as H.
  destruct H as (H1 & H2 & _).
  - lia.
  - change (twos vacuum) with 0. lia.
  - unfold valid. cbv. repeat split; first [discriminate | reflexivity].
  - unfold collect_all. cbv. discriminate.
  - unfold valid. cbv. repeat split; first [discriminate | reflexivity].
  - unfold collect_all. cbv. discriminate.
  - intros [|[|i]] Hi; [exists 0; split; [reflexivity|cbn; lia]..|].
    change (Z.to_nat 2) with 2%nat in Hi. lia.
  - constructor; [exact site_basis_spins|constructor].
  - split; [exact H1|exact H2].
Defined.

End MPSFacts.
